(** * Media Relay Core of the food-delivery robot voice client

    A shallow embedding of the audio relay (RobotAudioBridge.tsx), of the
    transcript relay (RobotTTSBridge in App.tsx) and of the conversation
    record (TranscriptionTile in App.tsx), with the properties of the
    written specification stated and settled against it, and further
    properties that the code itself shows.

    JavaScript numbers are IEEE-754 binary64 values.  They are modelled by the
    Standard Library's executable specification of binary floating point
    ([SpecFloat], precision 53, maximal exponent 1024, round to nearest even),
    so every arithmetic step of the source rounds here exactly as it does in
    a JavaScript engine.  The elements of a [Float32Array] are modelled by
    their 32 stored bits.  Whether the engine can create a typed array of a
    given length is a parameter of the resampler. *)

From stdpp Require Import base gmap sets list strings.
From Stdlib Require Import ZArith QArith Qpower Qabs Lia Lqa SpecFloat.
From Stdlib Require Import DecimalString DecimalZ Sorted.

Open Scope Z_scope.

(* ===================================================================== *)
(** * Part I: the embedding *)
(* ===================================================================== *)

(** ** JavaScript numbers *)

Module Num.

Definition prec : Z := 53.
Definition emax : Z := 1024.

Definition number := spec_float.

(** An integer literal or an integer-valued intermediate (array length,
    loop counter) as a number. *)
Definition of_int (z : Z) : number := binary_normalize prec emax z 0 false.

Definition add : number -> number -> number := SFadd prec emax.
Definition sub : number -> number -> number := SFsub prec emax.
Definition mul : number -> number -> number := SFmul prec emax.
Definition div : number -> number -> number := SFdiv prec emax.

(** [a < b], [a > b] and [a === b] on numbers. *)
Definition lt (a b : number) : bool := SFltb a b.
Definition gt (a b : number) : bool := SFltb b a.
Definition strict_eq (a b : number) : bool := SFeqb a b.

Definition is_nan (x : number) : bool :=
  match x with S754_nan => true | _ => false end.

Definition is_neg_zero (x : number) : bool :=
  match x with S754_zero true => true | _ => false end.

(** [Math.abs] *)
Definition abs (x : number) : number := SFabs x.

(** [Math.min] and [Math.max] of two arguments: NaN if either is NaN, and
    -0 is smaller than +0. *)
Definition min (a b : number) : number :=
  if is_nan a || is_nan b then S754_nan
  else if lt a b then a
  else if lt b a then b
  else if is_neg_zero a then a else b.

Definition max (a b : number) : number :=
  if is_nan a || is_nan b then S754_nan
  else if lt b a then a
  else if lt a b then b
  else if is_neg_zero a then b else a.

(** The signed integer [(-1)^s * m]. *)
Definition signed (s : bool) (m : positive) : Z := cond_Zopp s (Zpos m).

(** [Math.floor]: the arithmetic right shift of the signed mantissa is the
    floor of the value; NaN, the infinities and the zeros are returned
    unchanged. *)
Definition floor (x : number) : number :=
  match x with
  | S754_finite s m e =>
      if 0 <=? e then x else of_int (Z.shiftr (signed s m) (- e))
  | _ => x
  end.

(** The integer part of a finite number (truncation toward zero), as in
    ToIntegerOrInfinity. *)
Definition truncate (s : bool) (m : positive) (e : Z) : Z :=
  if 0 <=? e then signed s m * 2 ^ e
  else cond_Zopp s (Z.shiftr (Zpos m) (- e)).

(** Outcome of an operation that may throw a RangeError. *)
Inductive completion (A : Type) : Type :=
| Normal (a : A)
| RangeError.
Arguments Normal {A} a.
Arguments RangeError {A}.

(** ToIndex, applied to the length argument of a typed-array constructor. *)
Definition ToIndex (x : number) : completion Z :=
  match x with
  | S754_nan | S754_zero _ => Normal 0
  | S754_infinity _ => RangeError
  | S754_finite s m e =>
      let z := truncate s m e in
      if (z <? 0) || (2 ^ 53 - 1 <? z) then RangeError else Normal z
  end.

(** ToInt16, applied by [DataView.prototype.setInt16] to its value. *)
Definition ToInt16 (x : number) : Z :=
  match x with
  | S754_finite s m e =>
      let int16bit := truncate s m e mod 2 ^ 16 in
      if 2 ^ 15 <=? int16bit then int16bit - 2 ^ 16 else int16bit
  | _ => 0
  end.

(** A number used as a property key of a typed array: an integer-valued
    number denotes an element index, anything else reads [undefined]. *)
Definition integer_index (k : number) : option Z :=
  match k with
  | S754_zero _ => Some 0
  | S754_finite s m e =>
      if 0 <=? e then Some (signed s m * 2 ^ e)
      else if Zpos m mod 2 ^ (- e) =? 0 then Some (cond_Zopp s (Zpos m / 2 ^ (- e)))
      else None
  | _ => None
  end.

(** The exact rational value of a finite number. *)
Definition to_Q (x : number) : Q :=
  match x with
  | S754_finite s m e => inject_Z (signed s m) * Qpower 2 e
  | _ => 0
  end.

Definition is_finite (x : number) : bool :=
  match x with S754_finite _ _ _ | S754_zero _ => true | _ => false end.

End Num.

(** ** Exact values and rounding *)

Module Exact.
Import Num.

(** The unit roundoff of binary64. *)
Definition eps : Q := 1 # 9007199254740992.

(** The canonical binary64 form of the integer [(-1)^s * z], [0 < z < 2^53]. *)
Definition canon (s : bool) (z : Z) : number :=
  S754_finite s (Z.to_pos (z * 2 ^ (53 - Zdigits2 z))) (Zdigits2 z - 53).

(** A positive number of the normal range, with its 53-bit mantissa and its
    exponent. *)
Definition normal (x : number) (m : positive) (e : Z) : Prop :=
  x = S754_finite false m e /\ 2 ^ 52 <= Zpos m < 2 ^ 53.

Definition one : number := S754_finite false 4503599627370496 (-52).
Definition neg_one : number := S754_finite true 4503599627370496 (-52).

(** What the record of a right shift stands for: the fraction [a / b] lies
    in [[m, m + 1)], and the round and sticky bits tell where. *)
Definition fr_rep (mrs : shr_record) (a b : Z) : Prop :=
  let m := shr_m mrs in
  match shr_r mrs, shr_s mrs with
  | false, false => a = m * b
  | false, true => 2 * (m * b) < 2 * a < 2 * (m * b) + b
  | true, false => 2 * a = 2 * (m * b) + b
  | true, true => 2 * (m * b) + b < 2 * a < 2 * (m * b) + 2 * b
  end.

(** [v] is [q] truncated toward zero. *)
Definition is_trunc (q : Q) (v : Z) : Prop :=
  ((0 <= q)%Q -> (inject_Z v <= q /\ q < inject_Z v + 1)%Q)
  /\ ((q <= 0)%Q -> (inject_Z v - 1 < q /\ q <= inject_Z v)%Q).

End Exact.

(** ** Float32Array elements *)

Module F32.
Import Num.

(** A stored element is its 32 bits: sign (bit 31), biased exponent
    (bits 30..23) and fraction (bits 22..0). *)
Definition sign_bit (b : Z) : bool := Z.testbit b 31.
Definition biased_exp (b : Z) : Z := Z.land (Z.shiftr b 23) 255.
Definition fraction (b : Z) : Z := Z.land b (2 ^ 23 - 1).

Definition pack (s : bool) (E F : Z) : Z :=
  Z.lor (Z.shiftl (Z.b2z s) 31) (Z.lor (Z.shiftl E 23) F).

(** Reading an element widens it to a number; every binary32 value is a
    binary64 value, so the read is exact.  The result is in canonical
    binary64 form (53-bit mantissa). *)
Definition to_number (b : Z) : number :=
  let s := sign_bit b in
  let E := biased_exp b in
  let F := fraction b in
  if E =? 255 then (if F =? 0 then S754_infinity s else S754_nan)
  else if E =? 0 then
    (if F =? 0 then S754_zero s
     else let k := 52 - Z.log2 F in
          S754_finite s (Z.to_pos (F * 2 ^ k)) (- 149 - k))
  else S754_finite s (Z.to_pos ((2 ^ 23 + F) * 2 ^ 29)) (E - 179).

(** Storing a number rounds it to binary32 (round to nearest even). *)
Definition of_number (x : number) : Z :=
  match x with
  | S754_nan => pack false 255 (2 ^ 22)
  | S754_zero s => pack s 0 0
  | S754_infinity s => pack s 255 0
  | S754_finite s m e =>
      match binary_round 24 128 s m e with
      | S754_finite s' m' e' =>
          if Zpos m' <? 2 ^ 23 then pack s' 0 (Zpos m')
          else pack s' (e' + 150) (Zpos m' - 2 ^ 23)
      | S754_infinity s' => pack s' 255 0
      | S754_zero s' => pack s' 0 0
      | S754_nan => pack false 255 (2 ^ 22)
      end
  end.

Abbreviation Float32Array := (list Z) (only parsing).

(** [a[k]] for a numeric key [k]; an absent element is [undefined], which
    the arithmetic of the callers turns into NaN. *)
Definition get (a : Float32Array) (k : number) : number :=
  match integer_index k with
  | Some i =>
      if i <? 0 then S754_nan
      else match a !! Z.to_nat i with
           | Some b => to_number b
           | None => S754_nan
           end
  | None => S754_nan
  end.

(** Whether the numeric key [k] denotes an element of [a]. *)
Definition in_bounds (a : Float32Array) (k : number) : bool :=
  match integer_index k with
  | Some j => (0 <=? j) && (j <? Z.of_nat (length a))
  | None => false
  end.

End F32.

(** ** The resampler and the PCM encoder (RobotAudioBridge.tsx) *)

Module Bridge.
Import Num F32.

Definition TARGET_SAMPLE_RATE : number := of_int 16000.

(** Typed arrays live in a store and are passed by reference. *)
Abbreviation ref := nat (only parsing).
Abbreviation heap := (list (list Z)) (only parsing).

Definition deref (h : heap) (r : ref) : Float32Array := default [] (h !! r).
Definition alloc (h : heap) (a : Float32Array) : ref * heap :=
  (length h, h ++ [a]).

Definition length_of (a : Float32Array) : number := of_int (Z.of_nat (length a)).

(** The two indices read for output index [i], and the interpolation
    weight. *)
Definition srcIndex (ratio : number) (i : Z) : number := mul (of_int i) ratio.
Definition srcIndexFloor (ratio : number) (i : Z) : number :=
  floor (srcIndex ratio i).
Definition srcIndexCeil (input : Float32Array) (ratio : number) (i : Z) : number :=
  min (add (srcIndexFloor ratio i) (of_int 1)) (sub (length_of input) (of_int 1)).

Definition interpolate (input : Float32Array) (ratio : number) (i : Z) : number :=
  let t := sub (srcIndex ratio i) (srcIndexFloor ratio i) in
  add (mul (get input (srcIndexFloor ratio i)) (sub (of_int 1) t))
      (mul (get input (srcIndexCeil input ratio i)) t).

Definition ratio_of (inputSampleRate outputSampleRate : number) : number :=
  div inputSampleRate outputSampleRate.

Definition outputLength (input : Float32Array) (ratio : number) : number :=
  floor (div (length_of input) ratio).

(** [new Float32Array(length)]: [ToIndex] on the length, then a data block
    of four bytes for each element.  A block of more than 2^53 - 1 bytes is
    refused, and the engine throws a RangeError when it cannot create the
    block: [canCreate n] tells whether the engine at hand can create the
    block of an array of [n] elements.  The result is the number of
    elements of the new array. *)
Definition new_Float32Array (canCreate : Z -> bool) (length : number)
    : completion Z :=
  match ToIndex length with
  | RangeError => RangeError
  | Normal n =>
      if (4 * n <=? 2 ^ 53 - 1) && canCreate n then Normal n else RangeError
  end.

(** The branch of [resampleAudio] that builds a new array, on an engine
    that creates the arrays [canCreate] allows. *)
Definition resample_on (canCreate : Z -> bool) (input : Float32Array)
    (inputSampleRate outputSampleRate : number) : completion Float32Array :=
  let ratio := ratio_of inputSampleRate outputSampleRate in
  match new_Float32Array canCreate (outputLength input ratio) with
  | RangeError => RangeError
  | Normal n =>
      Normal ((fun i => of_number (interpolate input ratio i)) <$> seqZ 0 n)
  end.

Definition resampleAudio_on (canCreate : Z -> bool) (h : heap) (inputBuffer : ref)
    (inputSampleRate outputSampleRate : number) : completion (ref * heap) :=
  if strict_eq inputSampleRate outputSampleRate then Normal (inputBuffer, h)
  else
    match resample_on canCreate (deref h inputBuffer)
            inputSampleRate outputSampleRate with
    | RangeError => RangeError
    | Normal output => Normal (alloc h output)
    end.

(** The engine that creates every block the language allows.  The frames
    of the hook have 4096 samples and are brought to a third of their rate:
    an engine that created the frame creates the result, so the hook is
    modelled on this engine. *)
Definition resample_fresh (input : Float32Array)
    (inputSampleRate outputSampleRate : number) : completion Float32Array :=
  resample_on (fun _ => true) input inputSampleRate outputSampleRate.

Definition resampleAudio (h : heap) (inputBuffer : ref)
    (inputSampleRate outputSampleRate : number) : completion (ref * heap) :=
  resampleAudio_on (fun _ => true) h inputBuffer inputSampleRate outputSampleRate.

(** *** PCM encoder *)

(** An [ArrayBuffer] is its bytes, each in [0, 255]. *)
Abbreviation ArrayBuffer := (list Z) (only parsing).

(** [Math.max(-1, Math.min(1, x))] *)
Definition clamp (x : number) : number := max (of_int (-1)) (min (of_int 1) x).

(** [s < 0 ? s * 0x8000 : s * 0x7FFF] *)
Definition scale (s : number) : number :=
  if lt s (of_int 0) then mul s (of_int 32768) else mul s (of_int 32767).

(** [view.setInt16(byteOffset, value, true)]: the two's-complement bytes of
    ToInt16(value), low byte first; a RangeError outside the buffer. *)
Definition setInt16_le (buf : ArrayBuffer) (byteOffset : nat) (value : number)
    : completion ArrayBuffer :=
  if (byteOffset + 2 <=? length buf)%nat then
    let v := ToInt16 value mod 2 ^ 16 in
    Normal (<[S byteOffset := Z.shiftr v 8]> (<[byteOffset := Z.land v 255]> buf))
  else RangeError.

(** [view.getInt16(byteOffset, true)], the reader matching [setInt16_le]. *)
Definition getInt16_le (buf : ArrayBuffer) (byteOffset : nat) : option Z :=
  match buf !! byteOffset, buf !! S byteOffset with
  | Some lo, Some hi =>
      let u := lo + 256 * hi in
      Some (if 2 ^ 15 <=? u then u - 2 ^ 16 else u)
  | _, _ => None
  end.

(** The loop of [float32ToPCM16], from index [i] on. *)
Fixpoint encode_from (rest : Float32Array) (i : nat) (buf : ArrayBuffer)
    : completion ArrayBuffer :=
  match rest with
  | [] => Normal buf
  | x :: rest' =>
      let s := clamp (to_number x) in
      let val := scale s in
      match setInt16_le buf (i * 2) val with
      | Normal buf' => encode_from rest' (S i) buf'
      | RangeError => RangeError
      end
  end.

Definition float32ToPCM16 (float32Array : Float32Array) : completion ArrayBuffer :=
  encode_from float32Array 0 (replicate (length float32Array * 2) 0).

(** *** Relay connection *)

Inductive readyState := CONNECTING | OPEN | CLOSING | CLOSED.

Definition readyState_eqb (a b : readyState) : bool :=
  match a, b with
  | CONNECTING, CONNECTING | OPEN, OPEN | CLOSING, CLOSING | CLOSED, CLOSED => true
  | _, _ => false
  end.

Inductive control := new_stream | finish.

(** What the hook does to the outside world. *)
Inductive effect :=
| NewWebSocket (ws : nat)
| SendControl (ws : nat) (msg : control)
| SendBinary (ws : nat) (pcmData : ArrayBuffer)
| CloseSocket (ws : nat)
| Checkpoint (bytes : Z)
| FrameLog (frame : Z)
| CallResample
| CallEncode
| CallSend.

(** The refs and the React state of one [useRobotAudioBridge] instance.
    [sockets] lists the [readyState] of every WebSocket object created so
    far; a socket is identified by its position. *)
Record hook := {
  sockets : list readyState;
  wsRef : option nat;
  isConnectingRef : bool;
  hasProcessorRef : bool;
  bytesSentRef : Z;
  connected : bool;
  error : option string;
  bytesSent : Z
}.

Definition initial : hook :=
  {| sockets := []; wsRef := None; isConnectingRef := false;
     hasProcessorRef := false; bytesSentRef := 0;
     connected := false; error := None; bytesSent := 0 |}.

(** [wsRef.current?.readyState] *)
Definition current_readyState (st : hook) : option readyState :=
  match wsRef st with
  | Some ws => sockets st !! ws
  | None => None
  end.

Definition is_state (o : option readyState) (r : readyState) : bool :=
  match o with Some r' => readyState_eqb r' r | None => false end.

Definition connectToRobot (st : hook) : hook * list effect :=
  if is_state (current_readyState st) OPEN
     || is_state (current_readyState st) CONNECTING
     || isConnectingRef st
  then (st, [])
  else
    let ws := length (sockets st) in
    ({| sockets := sockets st ++ [CONNECTING];
        wsRef := Some ws;
        isConnectingRef := true;
        hasProcessorRef := hasProcessorRef st;
        bytesSentRef := bytesSentRef st;
        connected := connected st;
        error := error st;
        bytesSent := bytesSent st |},
     [NewWebSocket ws]).

(** The handlers installed on socket [ws]. *)
Definition onopen (ws : nat) (st : hook) : hook * list effect :=
  ({| sockets := sockets st; wsRef := wsRef st;
      isConnectingRef := false;
      hasProcessorRef := hasProcessorRef st;
      bytesSentRef := bytesSentRef st;
      connected := true; error := None;
      bytesSent := bytesSent st |},
   [SendControl ws new_stream]).

Definition onclose (st : hook) : hook :=
  {| sockets := sockets st; wsRef := None;
     isConnectingRef := false;
     hasProcessorRef := hasProcessorRef st;
     bytesSentRef := bytesSentRef st;
     connected := false; error := error st;
     bytesSent := bytesSent st |}.

Definition onerror (st : hook) : hook :=
  {| sockets := sockets st; wsRef := wsRef st;
     isConnectingRef := false;
     hasProcessorRef := hasProcessorRef st;
     bytesSentRef := bytesSentRef st;
     connected := connected st; error := Some "Connection failed"%string;
     bytesSent := bytesSent st |}.

Definition set_socket (ws : nat) (r : readyState) (st : hook) : hook :=
  {| sockets := <[ws := r]> (sockets st); wsRef := wsRef st;
     isConnectingRef := isConnectingRef st;
     hasProcessorRef := hasProcessorRef st;
     bytesSentRef := bytesSentRef st;
     connected := connected st; error := error st;
     bytesSent := bytesSent st |}.

(** The cleanup of the connection effect: [finish] on an open socket,
    [close()], and the handle is dropped. *)
Definition teardown (st : hook) : hook * list effect :=
  match wsRef st with
  | None => (st, [])
  | Some ws =>
      let fin := if is_state (sockets st !! ws) OPEN then [SendControl ws finish] else [] in
      let closing :=
        if is_state (sockets st !! ws) OPEN || is_state (sockets st !! ws) CONNECTING
        then <[ws := CLOSING]> (sockets st) else sockets st in
      ({| sockets := closing; wsRef := None;
          isConnectingRef := isConnectingRef st;
          hasProcessorRef := hasProcessorRef st;
          bytesSentRef := bytesSentRef st;
          connected := connected st; error := error st;
          bytesSent := bytesSent st |},
       fin ++ [CloseSocket ws])
  end.

(** The part of [handleTrackSubscribed] that concerns the connection, for
    an audio track. *)
Definition ensure_connected (st : hook) : hook * list effect :=
  if negb (is_state (current_readyState st) OPEN) then connectToRobot st
  else (st, []).

(** What can happen to the hook: its own entry points, and the events the
    browser delivers for a socket.  Following the WebSocket standard, a
    socket opens only from CONNECTING, the start of the closing handshake
    turns an open socket to CLOSING, and a socket that is not yet CLOSED
    can be closed, cleanly ([SocketClosed]) or after a failure
    ([SocketFailed]: the error event and the close event are delivered
    back to back). *)
Inductive event :=
| Connect
| TrackSubscribed
| Teardown
| SocketOpened (ws : nat)
| ClosingHandshake (ws : nat)
| SocketClosed (ws : nat)
| SocketFailed (ws : nat).

Definition step (st : hook) (ev : event) : option (hook * list effect) :=
  match ev with
  | Connect => Some (connectToRobot st)
  | TrackSubscribed => Some (ensure_connected st)
  | Teardown => Some (teardown st)
  | SocketOpened ws =>
      if is_state (sockets st !! ws) CONNECTING
      then Some (onopen ws (set_socket ws OPEN st)) else None
  | ClosingHandshake ws =>
      if is_state (sockets st !! ws) OPEN
      then Some (set_socket ws CLOSING st, []) else None
  | SocketClosed ws =>
      match sockets st !! ws with
      | Some CLOSED | None => None
      | Some _ => Some (onclose (set_socket ws CLOSED st), [])
      end
  | SocketFailed ws =>
      match sockets st !! ws with
      | Some CLOSED | None => None
      | Some _ => Some (onclose (onerror (set_socket ws CLOSED st)), [])
      end
  end.

Fixpoint run (st : hook) (evs : list event) : option (hook * list effect) :=
  match evs with
  | [] => Some (st, [])
  | ev :: evs' =>
      match step st ev with
      | None => None
      | Some (st', out) =>
          match run st' evs' with
          | None => None
          | Some (st'', out') => Some (st'', out ++ out')
          end
      end
  end.

(** The number of sockets that are open, and the number of sockets a
    trace of effects created. *)
Definition open_sockets (st : hook) : nat :=
  length (List.filter (fun r => readyState_eqb r OPEN) (sockets st)).

Definition is_NewWebSocket (e : effect) : bool :=
  match e with NewWebSocket _ => true | _ => false end.

Definition opened (out : list effect) : nat :=
  length (List.filter is_NewWebSocket out).

(** *** Audio frame pipeline *)

(** The literal [0.0001]: the binary64 number nearest to 1/10000. *)
Definition SILENCE_THRESHOLD : number :=
  Eval vm_compute in div (of_int 1) (of_int 10000).

Definition sendAudioToRobot (st : hook) (pcmData : ArrayBuffer) : hook * list effect :=
  match wsRef st with
  | Some ws =>
      if is_state (sockets st !! ws) OPEN then
        let byteLength := Z.of_nat (length pcmData) in
        let total := bytesSentRef st + byteLength in
        let checkpoint := Z.rem total 51200 <? byteLength in
        ({| sockets := sockets st; wsRef := wsRef st;
            isConnectingRef := isConnectingRef st;
            hasProcessorRef := hasProcessorRef st;
            bytesSentRef := total;
            connected := connected st; error := error st;
            bytesSent := if checkpoint then total else bytesSent st |},
         SendBinary ws pcmData :: (if checkpoint then [Checkpoint total] else []))
      else (st, [])
  | None => (st, [])
  end.

(** The closure variables of one [onaudioprocess] handler. *)
Record processor := { chunkCount : Z; totalFrames : Z }.

(** The peak loop: [maxSample] after scanning the frame. *)
Definition peak_step (maxSample : number) (b : Z) : number :=
  let abs := Num.abs (to_number b) in
  if gt abs maxSample then abs else maxSample.

Definition maxSample_of (inputData : Float32Array) : number :=
  fold_left peak_step inputData (of_int 0).

Definition onaudioprocess (sampleRate : number) (h : heap) (st : hook)
    (p : processor) (inputData : ref)
    : completion (heap * hook * processor * list effect) :=
  let totalFrames' := totalFrames p + 1 in
  let maxSample := maxSample_of (deref h inputData) in
  let log := if Z.rem totalFrames' 50 =? 1 then [FrameLog totalFrames'] else [] in
  if lt maxSample SILENCE_THRESHOLD then
    Normal (h, st, {| chunkCount := chunkCount p; totalFrames := totalFrames' |}, log)
  else
    let p' := {| chunkCount := chunkCount p + 1; totalFrames := totalFrames' |} in
    match resampleAudio h inputData sampleRate TARGET_SAMPLE_RATE with
    | RangeError => RangeError
    | Normal (resampledData, h') =>
        match float32ToPCM16 (deref h' resampledData) with
        | RangeError => RangeError
        | Normal pcmData =>
            let '(st', out) := sendAudioToRobot st pcmData in
            Normal (h', st', p', log ++ [CallResample; CallEncode; CallSend] ++ out)
        end
    end.

End Bridge.

(** ** What the encoder is specified to write *)

Module PCMSpec.
Import Num.

(** The clamp to [-1, 1] of a rational. *)
Definition clampQ (q : Q) : Q :=
  if Qle_bool q (- 1) then - 1 else if Qle_bool 1 q then 1 else q.

(** The sample clamped to [-1, 1], as an exact rational; NaN has none. *)
Definition clamped_value (x : number) : option Q :=
  match x with
  | S754_nan => None
  | S754_infinity s => Some (if s then - 1 else 1)%Q
  | _ => Some (clampQ (to_Q x))
  end.

(** Asymmetric scaling: by 32767 from zero up, by 32768 below zero. *)
Definition scaleQ (c : Q) : Q :=
  if Qle_bool 0 c then c * 32767 else c * 32768.

(** Modelled from the spec: the decoder of the round-trip property, which is
    not part of this repository (the robot side plays the stream).  It is
    taken to undo the asymmetric scaling of the encoder: a negative value is
    divided by 32768, any other by 32767. *)
Definition decodePCM16 (v : Z) : Q :=
  if v <? 0 then inject_Z v / 32768 else inject_Z v / 32767.

End PCMSpec.

(** ** The transcript relay (RobotTTSBridge in App.tsx) *)

Module TTS.

(** A JavaScript string is its sequence of UTF-16 code units. *)
Abbreviation jsstring := (list N) (only parsing).

(** WhiteSpace and LineTerminator code points, which [trim] strips. *)
Definition is_space (c : N) : bool :=
  ((9 <=? c) && (c <=? 13) || (c =? 32) || (c =? 160) || (c =? 5760)
   || (8192 <=? c) && (c <=? 8202) || (c =? 8232) || (c =? 8233)
   || (c =? 8239) || (c =? 8287) || (c =? 12288) || (c =? 65279))%N.

Fixpoint trim_start (s : jsstring) : jsstring :=
  match s with
  | c :: s' => if is_space c then trim_start s' else s
  | [] => []
  end.

Definition trim (s : jsstring) : jsstring :=
  reverse (trim_start (reverse (trim_start s))).

Record TranscriptEvent := {
  identity : jsstring;
  text : option jsstring
}.

(** The refs of one [RobotTTSBridge] instance, the timers of the page that
    are still pending ([armed]), the next timer id, and whether the last
    run of the effect returned its cleanup function. *)
Record relay := {
  sentTextsRef : gset jsstring;
  pendingTextRef : jsstring;
  debounceTimerRef : option nat;
  armed : gset nat;
  nextTimer : nat;
  hasCleanup : bool
}.

Definition initial : relay :=
  {| sentTextsRef := ∅; pendingTextRef := []; debounceTimerRef := None;
     armed := ∅; nextTimer := 0; hasCleanup := false |}.

(** [if (debounceTimerRef.current) clearTimeout(debounceTimerRef.current)];
    timer ids are positive in a browser, so a set ref is truthy. *)
Definition clear_debounce (r : relay) : relay :=
  match debounceTimerRef r with
  | Some t =>
      {| sentTextsRef := sentTextsRef r; pendingTextRef := pendingTextRef r;
         debounceTimerRef := debounceTimerRef r;
         armed := armed r ∖ {[ t ]};
         nextTimer := nextTimer r; hasCleanup := hasCleanup r |}
  | None => r
  end.

Definition set_cleanup (b : bool) (r : relay) : relay :=
  {| sentTextsRef := sentTextsRef r; pendingTextRef := pendingTextRef r;
     debounceTimerRef := debounceTimerRef r; armed := armed r;
     nextTimer := nextTimer r; hasCleanup := b |}.

(** [latest.text?.trim()] of the last transcription that is not the local
    participant's. *)
Definition latest_agent (localIdentity : jsstring)
    (transcriptions : list TranscriptEvent) : option TranscriptEvent :=
  last (filter (fun t => identity t ≠ localIdentity) transcriptions).

Definition latest_agent_text (localIdentity : jsstring)
    (transcriptions : list TranscriptEvent) : option (option jsstring) :=
  match latest_agent localIdentity transcriptions with
  | Some latest => Some (trim <$> text latest)
  | None => None
  end.

(** The body of the effect. *)
Definition effect_body (localIdentity : jsstring)
    (transcriptions : list TranscriptEvent) (r : relay) : relay :=
  match latest_agent_text localIdentity transcriptions with
  | None => set_cleanup false r
  | Some None => set_cleanup false r
  | Some (Some text) =>
      if (length text <? 2)%nat then set_cleanup false r
      else if decide (text ∈ sentTextsRef r) then set_cleanup false r
      else
        let r1 := clear_debounce r in
        let t := nextTimer r1 in
        {| sentTextsRef := sentTextsRef r1;
           pendingTextRef := text;
           debounceTimerRef := Some t;
           armed := armed r1 ∪ {[ t ]};
           nextTimer := S t;
           hasCleanup := true |}
  end.

(** React runs the cleanup of the previous run, if it returned one, and
    then the effect again. *)
Definition run_cleanup (r : relay) : relay :=
  if hasCleanup r then clear_debounce r else r.

Definition onTranscriptUpdate (localIdentity : jsstring)
    (transcriptions : list TranscriptEvent) (r : relay) : relay :=
  effect_body localIdentity transcriptions (run_cleanup r).

(** The timer callback; the result lists the texts posted to [/speak]. *)
Definition onDebounce (r : relay) : relay * list jsstring :=
  let currentText := pendingTextRef r in
  if negb (bool_decide (currentText = [])) && negb (bool_decide (currentText ∈ sentTextsRef r))
  then
    ({| sentTextsRef := sentTextsRef r ∪ {[ currentText ]};
        pendingTextRef := pendingTextRef r;
        debounceTimerRef := debounceTimerRef r;
        armed := armed r; nextTimer := nextTimer r;
        hasCleanup := hasCleanup r |},
     [currentText])
  else (r, []).

(** What can happen to the relay.  A timer fires only while it is pending;
    the outcome of a dispatch ([then] or [catch]) only logs. *)
Inductive event :=
| Update (localIdentity : jsstring) (transcriptions : list TranscriptEvent)
| TimerFires (t : nat)
| DispatchSettled (ok : bool)
| Unmount.

Definition step (r : relay) (ev : event) : option (relay * list jsstring) :=
  match ev with
  | Update localIdentity transcriptions =>
      Some (onTranscriptUpdate localIdentity transcriptions r, [])
  | TimerFires t =>
      if decide (t ∈ armed r) then
        Some (onDebounce
                {| sentTextsRef := sentTextsRef r; pendingTextRef := pendingTextRef r;
                   debounceTimerRef := debounceTimerRef r;
                   armed := armed r ∖ {[ t ]};
                   nextTimer := nextTimer r; hasCleanup := hasCleanup r |})
      else None
  | DispatchSettled _ => Some (r, [])
  | Unmount => Some (set_cleanup false (run_cleanup r), [])
  end.

Fixpoint run (r : relay) (evs : list event) : option (relay * list jsstring) :=
  match evs with
  | [] => Some (r, [])
  | ev :: evs' =>
      match step r ev with
      | None => None
      | Some (r', out) =>
          match run r' evs' with
          | None => None
          | Some (r'', out') => Some (r'', out ++ out')
          end
      end
  end.

End TTS.

(** ** The whole hook (useRobotAudioBridge in RobotAudioBridge.tsx) *)

Module Hook.
Import Num F32 Bridge.

(** [Track.Kind] *)
Inductive kind := Audio | Video.

(** [new AudioContext({ sampleRate: 48000 })] and
    [createScriptProcessor(4096, 1, 1)]. *)
Definition CONTEXT_SAMPLE_RATE : number := of_int 48000.
Definition BUFFER_SIZE : nat := 4096.

(** A ScriptProcessorNode made by [processRemoteAudioTrack]: the counters
    its handler closes over, and whether it is still connected. *)
Record node := { closure : processor; attached : bool }.

(** One instance of the hook: the connection state, the store of typed
    arrays, and the audio graph.  [contexts], [sources] and [nodes] list
    every AudioContext (true while not closed), every source node (true
    while connected) and every processor node created so far; the refs
    hold positions in these lists. *)
Record session := {
  bridge : hook;
  store : heap;
  audioContextRef : option nat;
  contexts : list bool;
  sourceNodeRef : option nat;
  sources : list bool;
  processorRef : option nat;
  nodes : list node
}.

Definition initial : session :=
  {| bridge := Bridge.initial; store := [];
     audioContextRef := None; contexts := [];
     sourceNodeRef := None; sources := [];
     processorRef := None; nodes := [] |}.

Definition set_hasProcessor (b : bool) (st : hook) : hook :=
  {| sockets := sockets st; wsRef := wsRef st;
     isConnectingRef := isConnectingRef st;
     hasProcessorRef := b;
     bytesSentRef := bytesSentRef st;
     connected := connected st; error := error st;
     bytesSent := bytesSent st |}.

Definition with_bridge (b : hook) (s : session) : session :=
  {| bridge := b; store := store s;
     audioContextRef := audioContextRef s; contexts := contexts s;
     sourceNodeRef := sourceNodeRef s; sources := sources s;
     processorRef := processorRef s; nodes := nodes s |}.

(** [processRemoteAudioTrack]: nothing while a processor exists; otherwise
    the AudioContext is created unless the ref holds one, and a source and
    a processor are created, stored in the refs and connected. *)
Definition processRemoteAudioTrack (s : session) : session :=
  if hasProcessorRef (bridge s) then s
  else
    {| bridge := set_hasProcessor true (bridge s);
       store := store s;
       audioContextRef :=
         Some (match audioContextRef s with
               | Some c => c
               | None => length (contexts s)
               end);
       contexts :=
         match audioContextRef s with
         | Some _ => contexts s
         | None => contexts s ++ [true]
         end;
       sourceNodeRef := Some (length (sources s));
       sources := sources s ++ [true];
       processorRef := Some (length (nodes s));
       nodes := nodes s ++ [{| closure := {| chunkCount := 0; totalFrames := 0 |};
                               attached := true |}] |}.

Definition detach (nd : node) : node :=
  {| closure := closure nd; attached := false |}.

(** [cleanupAudioProcessor] *)
Definition cleanupAudioProcessor (s : session) : session :=
  {| bridge := set_hasProcessor false (bridge s);
     store := store s;
     audioContextRef := audioContextRef s; contexts := contexts s;
     sourceNodeRef := None;
     sources :=
       match sourceNodeRef s with
       | Some i => <[i := false]> (sources s)
       | None => sources s
       end;
     processorRef := None;
     nodes :=
       match processorRef s with
       | Some p => alter detach p (nodes s)
       | None => nodes s
       end |}.

(** The cleanup of the track effect: the processor is cleaned up and the
    AudioContext is closed and dropped. *)
Definition tracks_cleanup (s : session) : session :=
  let s1 := cleanupAudioProcessor s in
  {| bridge := bridge s1; store := store s1;
     audioContextRef := None;
     contexts :=
       match audioContextRef s1 with
       | Some c => <[c := false]> (contexts s1)
       | None => contexts s1
       end;
     sourceNodeRef := sourceNodeRef s1; sources := sources s1;
     processorRef := processorRef s1; nodes := nodes s1 |}.

(** [handleTrackUnsubscribed] *)
Definition handleTrackUnsubscribed (k : kind) (s : session) : session :=
  match k with
  | Audio => cleanupAudioProcessor s
  | Video => s
  end.

(** What can happen to the hook.  [Net] carries the events of the
    connection; there [TrackSubscribed] is [handleTrackSubscribed] for an
    audio track, which ends with [processRemoteAudioTrack].
    [TracksMount n] is the track effect finding [n] audio tracks already
    subscribed.  [AudioProcess p frame] is the audioprocess event of
    processor [p], delivered while the node is connected, with a frame of
    the buffer size. *)
Inductive event :=
| Net (ev : Bridge.event)
| OtherTrackSubscribed
| TrackUnsubscribed (k : kind)
| TracksMount (existing : nat)
| TracksCleanup
| AudioProcess (p : nat) (frame : Float32Array).

Definition is_TrackSubscribed (ev : Bridge.event) : bool :=
  match ev with TrackSubscribed => true | _ => false end.

Definition set_closure (p : nat) (c : processor) (l : list node) : list node :=
  alter (fun nd => {| closure := c; attached := attached nd |}) p l.

Definition step (s : session) (ev : event) : option (session * list effect) :=
  match ev with
  | Net ev' =>
      match Bridge.step (bridge s) ev' with
      | Some (b, out) =>
          let s' := with_bridge b s in
          Some (if is_TrackSubscribed ev' then processRemoteAudioTrack s' else s', out)
      | None => None
      end
  | OtherTrackSubscribed => Some (s, [])
  | TrackUnsubscribed k => Some (handleTrackUnsubscribed k s, [])
  | TracksMount existing => Some (Nat.iter existing processRemoteAudioTrack s, [])
  | TracksCleanup => Some (tracks_cleanup s, [])
  | AudioProcess p frame =>
      match nodes s !! p with
      | Some nd =>
          if attached nd && (length frame =? BUFFER_SIZE)%nat then
            let '(inputData, h) := alloc (store s) frame in
            match onaudioprocess CONTEXT_SAMPLE_RATE h (bridge s) (closure nd) inputData with
            | Normal (h', st', c', out) =>
                Some ({| bridge := st'; store := h';
                         audioContextRef := audioContextRef s; contexts := contexts s;
                         sourceNodeRef := sourceNodeRef s; sources := sources s;
                         processorRef := processorRef s;
                         nodes := set_closure p c' (nodes s) |}, out)
            | RangeError => None
            end
          else None
      | None => None
      end
  end.

Fixpoint run (s : session) (evs : list event) : option (session * list effect) :=
  match evs with
  | [] => Some (s, [])
  | ev :: evs' =>
      match step s ev with
      | None => None
      | Some (s', out) =>
          match run s' evs' with
          | None => None
          | Some (s'', out') => Some (s'', out ++ out')
          end
      end
  end.

(** *** What a socket is sent *)

Inductive message := Control (c : control) | Binary (pcmData : ArrayBuffer).

Definition message_on (ws : nat) (e : effect) : option message :=
  match e with
  | SendControl w c => if (w =? ws)%nat then Some (Control c) else None
  | SendBinary w d => if (w =? ws)%nat then Some (Binary d) else None
  | _ => None
  end.

(** The messages sent on socket [ws], in order. *)
Definition messages_on (ws : nat) (out : list effect) : list message :=
  omap (message_on ws) out.

Definition is_binary (m : message) : bool :=
  match m with Binary _ => true | Control _ => false end.

(** [new_stream], then audio only. *)
Definition streaming (l : list message) : bool :=
  match l with
  | Control new_stream :: a => forallb is_binary a
  | _ => false
  end.

Fixpoint audio_then_finish (l : list message) : bool :=
  match l with
  | [] => true
  | [Control finish] => true
  | Binary _ :: l' => audio_then_finish l'
  | _ => false
  end.

(** Nothing at all, or [new_stream], then audio, then at most one [finish]
    at the very end. *)
Definition well_formed (l : list message) : bool :=
  match l with
  | [] => true
  | Control new_stream :: a => audio_then_finish a
  | _ => false
  end.

(** The bytes of all the audio buffers sent. *)
Definition binary_bytes (out : list effect) : Z :=
  foldr (fun e acc => match e with
                      | SendBinary _ d => Z.of_nat (length d) + acc
                      | _ => acc
                      end) 0 out.

Definition binary_sends (out : list effect) : list ArrayBuffer :=
  omap (fun e => match e with SendBinary _ d => Some d | _ => None end) out.

End Hook.

(** ** The conversation record (TranscriptionTile in App.tsx) *)

Module Tile.

(** A transcription as the effect reads it: the participant's identity,
    the timestamp of the stream and the text.  Timestamps are whole numbers
    of milliseconds, as [Date.now()] gives them, which a number holds
    exactly; 0 stands for every falsy value.  Strings are sequences of
    UTF-16 code units. *)
Record Transcription := {
  participantIdentity : list N;
  streamTimestamp : Z;
  transcriptionText : list N
}.

Record ChatMessage := {
  name : list N;
  message : list N;
  isSelf : bool;
  timestamp : Z
}.

Definition code_units (s : string) : list N :=
  map Ascii.N_of_ascii (String.list_ascii_of_string s).

(** An integer in a template literal: its decimal digits, after a minus
    sign if it is negative (magnitudes below 10^21). *)
Definition number_to_string (n : Z) : list N :=
  code_units (NilEmpty.string_of_int (Z.to_int n)).

(** [`${participantIdentity}_${timestamp}`] *)
Definition stream_id (identity : list N) (ts : Z) : list N :=
  identity ++ 95%N :: number_to_string ts.

(** A [Map] with string keys, in insertion order: [set] on a key that is
    present replaces the value in place, on a new key it appends. *)
Abbreviation MessageMap := (list (list N * ChatMessage)) (only parsing).

Fixpoint map_get (k : list N) (m : MessageMap) : option ChatMessage :=
  match m with
  | [] => None
  | (k', v) :: m' => if decide (k' = k) then Some v else map_get k m'
  end.

Fixpoint map_set (k : list N) (v : ChatMessage) (m : MessageMap) : MessageMap :=
  match m with
  | [] => [(k, v)]
  | (k', v') :: m' =>
      if decide (k' = k) then (k', v) :: m' else (k', v') :: map_set k v m'
  end.

(** [Array.from(map.values())] *)
Definition map_values (m : MessageMap) : list ChatMessage := map snd m.

(** [timestamp || Date.now()]: the clock is read only when the timestamp
    is falsy.  [now i] is the value of the [i]-th reading of the clock. *)
Definition or_now (now : nat -> Z) (ts : Z) (reads : nat) : Z * nat :=
  if ts =? 0 then (now reads, S reads) else (ts, reads).

(** The names shown: U+4F60 for the local participant, and Agent. *)
Definition NAME_SELF : list N := [20320%N].
Definition NAME_AGENT : list N := [65; 103; 101; 110; 116]%N.

(** The body of [transcriptions.forEach]: the copy of the map, the flag
    [hasChanges] and the number of clock readings so far. *)
Definition visit (localIdentity : list N) (now : nat -> Z)
    (acc : MessageMap * bool * nat) (transcription : Transcription)
    : MessageMap * bool * nat :=
  let '(newMessageMap, hasChanges, reads) := acc in
  let participantIdentity := participantIdentity transcription in
  let isLocal := bool_decide (participantIdentity = localIdentity) in
  let '(k, reads1) := or_now now (streamTimestamp transcription) reads in
  let streamId := stream_id participantIdentity k in
  let stale :=
    match map_get streamId newMessageMap with
    | None => true
    | Some old => negb (bool_decide (message old = transcriptionText transcription))
    end in
  if stale then
    let '(ts, reads2) := or_now now (streamTimestamp transcription) reads1 in
    (map_set streamId
       {| name := if isLocal then NAME_SELF else NAME_AGENT;
          message := transcriptionText transcription;
          isSelf := isLocal;
          timestamp := ts |} newMessageMap,
     true, reads2)
  else (newMessageMap, hasChanges, reads1).

(** [sort((a, b) => a.timestamp - b.timestamp)]: the sort is stable, so
    messages of equal timestamp keep their order. *)
Fixpoint insert_by_timestamp (x : ChatMessage) (l : list ChatMessage)
    : list ChatMessage :=
  match l with
  | [] => [x]
  | y :: l' =>
      if timestamp x - timestamp y >? 0 then y :: insert_by_timestamp x l'
      else x :: l
  end.

Definition sort_by_timestamp (l : list ChatMessage) : list ChatMessage :=
  foldr insert_by_timestamp [] l.

(** The component: the map in the ref and the [messages] state. *)
Record tile := {
  messageMapRef : MessageMap;
  messages : list ChatMessage
}.

Definition initial : tile := {| messageMapRef := []; messages := [] |}.

(** One run of the effect. *)
Definition onTranscriptions (localIdentity : list N) (now : nat -> Z)
    (transcriptions : list Transcription) (s : tile) (reads : nat) : tile * nat :=
  let '(newMessageMap, hasChanges, reads') :=
    fold_left (visit localIdentity now) transcriptions (messageMapRef s, false, reads) in
  if hasChanges then
    ({| messageMapRef := newMessageMap;
        messages := sort_by_timestamp (map_values newMessageMap) |}, reads')
  else (s, reads').

(** The effect runs again whenever the transcriptions or the local
    identity change. *)
Fixpoint run (now : nat -> Z) (s : tile) (reads : nat)
    (updates : list (list N * list Transcription)) : tile * nat :=
  match updates with
  | [] => (s, reads)
  | (localIdentity, transcriptions) :: updates' =>
      let '(s', reads') := onTranscriptions localIdentity now transcriptions s reads in
      run now s' reads' updates'
  end.

End Tile.

(* ===================================================================== *)
(** * Part II: properties *)
(* ===================================================================== *)

(** ** Rounding to nearest even *)

Module Rounding.
Import Num Exact.

Lemma digits2_pos_bounds (p : positive) :
  2 ^ (Zpos (digits2_pos p) - 1) <= Zpos p < 2 ^ Zpos (digits2_pos p).
Proof.
  induction p as [p IH|p IH|]; cbn [digits2_pos].
  - rewrite Pos2Z.inj_succ, (Pos2Z.inj_xI p).
    set (d := Zpos (digits2_pos p)) in *.
    assert (E1 : 2 ^ (Z.succ d - 1) = 2 * 2 ^ (d - 1)).
    { replace (Z.succ d - 1) with (Z.succ (d - 1)) by lia. apply Z.pow_succ_r. lia. }
    assert (E2 : 2 ^ Z.succ d = 2 * 2 ^ d) by (apply Z.pow_succ_r; lia).
    clearbody d. lia.
  - rewrite Pos2Z.inj_succ, (Pos2Z.inj_xO p).
    set (d := Zpos (digits2_pos p)) in *.
    assert (E1 : 2 ^ (Z.succ d - 1) = 2 * 2 ^ (d - 1)).
    { replace (Z.succ d - 1) with (Z.succ (d - 1)) by lia. apply Z.pow_succ_r. lia. }
    assert (E2 : 2 ^ Z.succ d = 2 * 2 ^ d) by (apply Z.pow_succ_r; lia).
    clearbody d. lia.
  - simpl. lia.
Qed.

Lemma Zdigits2_bounds (m : Z) :
  0 < m -> 2 ^ (Zdigits2 m - 1) <= m < 2 ^ Zdigits2 m.
Proof. destruct m as [|p|p]; try lia. intros _. apply digits2_pos_bounds. Qed.

Lemma Zdigits2_unique (m d : Z) :
  2 ^ (d - 1) <= m < 2 ^ d -> 0 < d -> Zdigits2 m = d.
Proof.
  intros Hm Hd.
  assert (Hpos : 0 < m).
  { pose proof (Z.pow_pos_nonneg 2 (d - 1) ltac:(lia) ltac:(lia)). lia. }
  pose proof (Zdigits2_bounds m Hpos) as Hb.
  assert (Hd' : 0 < Zdigits2 m) by (destruct m; simpl; lia).
  destruct (Z_lt_dec (Zdigits2 m) d) as [Hlt|Hge].
  - pose proof (Z.pow_le_mono_r 2 (Zdigits2 m) (d - 1) ltac:(lia) ltac:(lia)). lia.
  - destruct (Z_lt_dec d (Zdigits2 m)) as [Hlt|Hge']; [|lia].
    pose proof (Z.pow_le_mono_r 2 d (Zdigits2 m - 1) ltac:(lia) ltac:(lia)). lia.
Qed.

Lemma iter_pos_nat {A} (f : A -> A) (p : positive) (x : A) :
  iter_pos f p x = Nat.iter (Pos.to_nat p) f x.
Proof.
  revert x. induction p as [p IH|p IH|]; intros x; cbn [iter_pos].
  - rewrite !IH, Pos2Nat.inj_xI.
    replace (S (2 * Pos.to_nat p))%nat with (Pos.to_nat p + S (Pos.to_nat p))%nat by lia.
    rewrite Nat.iter_add. f_equal. simpl. apply Nat.iter_swap.
  - rewrite !IH, Pos2Nat.inj_xO.
    replace (2 * Pos.to_nat p)%nat with (Pos.to_nat p + Pos.to_nat p)%nat by lia.
    rewrite Nat.iter_add. reflexivity.
  - reflexivity.
Qed.

Lemma shr_nat (mrs : shr_record) (e n : Z) :
  0 <= n -> shr mrs e n = (Nat.iter (Z.to_nat n) shr_1 mrs, e + n).
Proof.
  intros Hn. unfold shr. destruct n as [|p|p]; try lia.
  - simpl. f_equal. lia.
  - rewrite iter_pos_nat. reflexivity.
Qed.

Lemma shr_1_rep (mrs : shr_record) (a b : Z) :
  0 <= shr_m mrs -> 0 < b -> fr_rep mrs a b ->
  fr_rep (shr_1 mrs) a (2 * b) /\ shr_m (shr_1 mrs) = shr_m mrs / 2.
Proof.
  destruct mrs as [m r s]. unfold fr_rep. cbn [shr_m shr_r shr_s].
  intros Hm Hb H.
  destruct m as [|p|p]; [| |lia].
  - cbn [shr_1 shr_m shr_r shr_s]. split; [|reflexivity].
    destruct r, s; cbn [orb]; lia.
  - destruct p as [p|p|]; cbn [shr_1 shr_m shr_r shr_s].
    + rewrite (Pos2Z.inj_xI p) in *. split.
      * destruct r, s; cbn [orb]; lia.
      * apply (Z.div_unique _ _ _ 1); lia.
    + rewrite (Pos2Z.inj_xO p) in *. split.
      * destruct r, s; cbn [orb]; lia.
      * apply (Z.div_unique _ _ _ 0); lia.
    + split; [destruct r, s; cbn [orb]; lia|reflexivity].
Qed.

Lemma shr_iter_rep (k : nat) (mrs : shr_record) (a b : Z) :
  0 <= shr_m mrs -> 0 < b -> fr_rep mrs a b ->
  fr_rep (Nat.iter k shr_1 mrs) a (2 ^ Z.of_nat k * b)
  /\ shr_m (Nat.iter k shr_1 mrs) = shr_m mrs / 2 ^ Z.of_nat k.
Proof.
  intros Hm Hb H. induction k as [|k [IH1 IH2]].
  - change (Nat.iter 0 shr_1 mrs) with mrs. change (Z.of_nat 0) with 0.
    rewrite Z.pow_0_r, Z.mul_1_l, Z.div_1_r. split; [exact H|reflexivity].
  - change (Nat.iter (S k) shr_1 mrs) with (shr_1 (Nat.iter k shr_1 mrs)).
    assert (Hpow : 0 < 2 ^ Z.of_nat k) by (apply Z.pow_pos_nonneg; lia).
    assert (Hm' : 0 <= shr_m (Nat.iter k shr_1 mrs)).
    { rewrite IH2. apply Z.div_pos; lia. }
    destruct (shr_1_rep _ a (2 ^ Z.of_nat k * b) Hm' ltac:(lia) IH1) as [H1 H2].
    rewrite Nat2Z.inj_succ, Z.pow_succ_r by lia. split.
    + replace (2 * 2 ^ Z.of_nat k * b) with (2 * (2 ^ Z.of_nat k * b)) by lia. exact H1.
    + rewrite H2, IH2. rewrite Z.div_div by lia. f_equal. lia.
Qed.

Lemma rne_spec (mrs : shr_record) (a b : Z) :
  0 < b -> fr_rep mrs a b ->
  let m1 := round_nearest_even (shr_m mrs) (loc_of_shr_record mrs) in
  shr_m mrs <= m1 <= shr_m mrs + 1
  /\ 2 * Z.abs (m1 * b - a) <= b
  /\ (forall K, a = K * b -> m1 = K).
Proof.
  destruct mrs as [m r s]. unfold fr_rep. cbn [shr_m shr_r shr_s].
  intros Hb H. destruct r, s; cbn [loc_of_shr_record round_nearest_even].
  - split; [lia|]. split; [lia|]. intros K ->. nia.
  - destruct (Z.even m); (split; [lia|]); (split; [lia|]); intros K ->; nia.
  - split; [lia|]. split; [lia|]. intros K ->. nia.
  - split; [lia|]. split; [lia|]. intros K ->. nia.
Qed.

Lemma fexp_normal (e : Z) : -1021 <= e -> fexp 53 1024 e = e - 53.
Proof. intros He. unfold fexp, emin. lia. Qed.

(** The normal case of the rounding step: the mantissa [mx] has at least 53
    digits, the value in units of [2^ex] is the fraction [a/b], and the
    result stays within the normal range. *)
Lemma binary_round_aux_normal (s : bool) (mx ex : Z) (lx : location) (a b : Z) :
  0 < mx -> 0 < b ->
  fr_rep (shr_record_of_loc mx lx) a b ->
  let n := Zdigits2 mx - 53 in
  0 <= n -> -1074 <= ex + n -> ex + n + 1 <= 971 ->
  exists (m'' : positive) (e'' M1 : Z),
    binary_round_aux 53 1024 s mx ex lx = S754_finite s m'' e''
    /\ 2 ^ 52 <= Zpos m'' < 2 ^ 53
    /\ ((e'' = ex + n /\ Zpos m'' = M1)
        \/ (e'' = ex + n + 1 /\ M1 = 2 ^ 53 /\ Zpos m'' = 2 ^ 52))
    /\ 2 * Z.abs (M1 * (2 ^ n * b) - a) <= 2 ^ n * b
    /\ (forall K, a = K * (2 ^ n * b) -> M1 = K).
Proof.
  intros Hmx Hb Hrep n Hn Hlo Hhi.
  pose proof (Zdigits2_bounds mx Hmx) as Hd.
  unfold binary_round_aux, shr_fexp.
  rewrite fexp_normal by (subst n; lia).
  replace (Zdigits2 mx + ex - 53 - ex) with n by (subst n; lia).
  rewrite shr_nat by exact Hn.
  assert (Hm0 : shr_m (shr_record_of_loc mx lx) = mx).
  { destruct lx as [|[]]; reflexivity. }
  destruct (shr_iter_rep (Z.to_nat n) (shr_record_of_loc mx lx) a b
              ltac:(rewrite Hm0; lia) Hb Hrep) as [Hrep1 Hm1].
  rewrite Z2Nat.id in Hrep1, Hm1 by exact Hn. rewrite Hm0 in Hm1.
  set (rec1 := Nat.iter (Z.to_nat n) shr_1 (shr_record_of_loc mx lx)) in *.
  assert (Hpow : 0 < 2 ^ n) by (apply Z.pow_pos_nonneg; lia).
  assert (Hrange : 2 ^ 52 <= shr_m rec1 < 2 ^ 53).
  { rewrite Hm1.
    assert (E1 : 2 ^ (Zdigits2 mx - 1) = 2 ^ 52 * 2 ^ n).
    { rewrite <- Z.pow_add_r by lia. f_equal. subst n. lia. }
    assert (E2 : 2 ^ Zdigits2 mx = 2 ^ 53 * 2 ^ n).
    { rewrite <- Z.pow_add_r by lia. f_equal. subst n. lia. }
    split.
    - apply Z.div_le_lower_bound; lia.
    - apply Z.div_lt_upper_bound; lia. }
  destruct (rne_spec rec1 a (2 ^ n * b) ltac:(lia) Hrep1) as (Hr1 & Hr2 & Hr3).
  set (M1 := round_nearest_even (shr_m rec1) (loc_of_shr_record rec1)) in *.
  cbv zeta.
  destruct (Z_lt_dec M1 (2 ^ 53)) as [Hlt|Hge].
  - assert (HdM : Zdigits2 M1 = 53) by (apply Zdigits2_unique; lia).
    rewrite HdM. rewrite fexp_normal by lia.
    replace (53 + (ex + n) - 53 - (ex + n)) with 0 by lia.
    cbn [shr shr_record_of_loc shr_m].
    destruct M1 as [|p|p] eqn:HM1; try lia.
    exists p, (ex + n), (Zpos p).
    assert (Hle : (ex + n <=? 1024 - 53) = true) by (apply Z.leb_le; lia).
    rewrite Hle.
    split; [reflexivity|]. split; [lia|]. split; [left; split; reflexivity|].
    split; [exact Hr2|exact Hr3].
  - assert (HM1 : M1 = 2 ^ 53) by lia.
    rewrite HM1.
    change (Zdigits2 (2 ^ 53)) with 54. rewrite fexp_normal by lia.
    replace (54 + (ex + n) - 53 - (ex + n)) with 1 by lia.
    cbn [shr shr_record_of_loc iter_pos].
    change (shr_1 {| shr_m := 2 ^ 53; shr_r := false; shr_s := false |})
      with {| shr_m := 2 ^ 52; shr_r := false; shr_s := false |}.
    cbn [shr_m].
    exists (Z.to_pos (2 ^ 52)), (ex + n + 1), M1.
    assert (Hle : (ex + n + 1 <=? 1024 - 53) = true) by (apply Z.leb_le; lia).
    change (2 ^ 52) with (Zpos (Z.to_pos (2 ^ 52))) at 1.
    cbv iota beta. rewrite Hle.
    split; [reflexivity|]. split; [rewrite Z2Pos.id by lia; lia|].
    split; [right; split; [reflexivity|split; [exact HM1|rewrite Z2Pos.id by lia; reflexivity]]|].
    split; [exact Hr2|exact Hr3].
Qed.

Lemma iter_xO (m p : positive) : Zpos (Pos.iter xO m p) = Zpos m * 2 ^ Zpos p.
Proof.
  induction p as [|p IH] using Pos.peano_ind.
  - simpl. rewrite (Pos2Z.inj_xO m). lia.
  - rewrite Pos.iter_succ, (Pos2Z.inj_xO (Pos.iter xO m p)), IH, Pos2Z.inj_succ.
    rewrite Z.pow_succ_r by lia. lia.
Qed.

Lemma fr_rep_exact (m : Z) : fr_rep (shr_record_of_loc m loc_Exact) m 1.
Proof. unfold fr_rep. simpl. lia. Qed.

(** A value that is representable with a 53-bit mantissa [K] at an exponent
    [E] of the normal range is rounded to itself. *)
Lemma binary_round_exact (s : bool) (mx : positive) (ex K E : Z) :
  2 ^ 52 <= K < 2 ^ 53 -> -1074 <= E <= 970 ->
  (ex <= E /\ Zpos mx = K * 2 ^ (E - ex)) \/ (E < ex /\ Zpos mx * 2 ^ (ex - E) = K) ->
  binary_round 53 1024 s mx ex = S754_finite s (Z.to_pos K) E.
Proof.
  intros HK HE Hval. unfold binary_round.
  change (Zpos (digits2_pos mx)) with (Zdigits2 (Zpos mx)).
  destruct Hval as [[Hle Hmx]|[Hlt Hmx]].
  - assert (Hpow : 0 < 2 ^ (E - ex)) by (apply Z.pow_pos_nonneg; lia).
    assert (Hd : Zdigits2 (Zpos mx) = 53 + (E - ex)).
    { apply Zdigits2_unique; [|lia].
      replace (53 + (E - ex) - 1) with (52 + (E - ex)) by lia.
      rewrite !Z.pow_add_r by lia. nia. }
    rewrite Hd, fexp_normal by lia.
    replace (53 + (E - ex) + ex - 53) with E by lia.
    unfold shl_align.
    destruct (E - ex) as [|k|k] eqn:Hk; try lia.
    + destruct (binary_round_aux_normal s (Zpos mx) ex loc_Exact (Zpos mx) 1
                  ltac:(lia) ltac:(lia) (fr_rep_exact _))
        as (m'' & e'' & M1 & Heq & Hm'' & Hcase & _ & Hex);
        try (rewrite Hd; lia).
      rewrite Hd in *. replace (53 + 0 - 53) with 0 in * by lia.
      assert (HM1 : M1 = K) by (apply Hex; lia).
      rewrite Heq. destruct Hcase as [[-> Hm]|[_ [H53 _]]]; [|lia].
      f_equal; [|lia]. rewrite <- HM1, <- Hm. symmetry. apply Pos2Z.id.
    + destruct (binary_round_aux_normal s (Zpos mx) ex loc_Exact (Zpos mx) 1
                  ltac:(lia) ltac:(lia) (fr_rep_exact _))
        as (m'' & e'' & M1 & Heq & Hm'' & Hcase & _ & Hex);
        try (rewrite Hd; lia).
      rewrite Hd in *. replace (53 + Z.pos k - 53) with (Z.pos k) in * by lia.
      assert (HM1 : M1 = K) by (apply Hex; lia).
      rewrite Heq. destruct Hcase as [[-> Hm]|[_ [H53 _]]]; [|lia].
      f_equal; [|lia]. rewrite <- HM1, <- Hm. symmetry. apply Pos2Z.id.
  - assert (Hpow : 0 < 2 ^ (ex - E)) by (apply Z.pow_pos_nonneg; lia).
    assert (Hd : Zdigits2 (Zpos mx) = 53 - (ex - E)).
    { assert (Hj : ex - E <= 52).
      { destruct (Z_le_dec (ex - E) 52) as [|Hbig]; [assumption|].
        pose proof (Z.pow_le_mono_r 2 53 (ex - E) ltac:(lia) ltac:(lia)). nia. }
      apply Zdigits2_unique; [|lia].
      assert (E1 : 2 ^ 52 = 2 ^ (53 - (ex - E) - 1) * 2 ^ (ex - E)).
      { rewrite <- Z.pow_add_r by lia. f_equal. lia. }
      assert (E2 : 2 ^ 53 = 2 ^ (53 - (ex - E)) * 2 ^ (ex - E)).
      { rewrite <- Z.pow_add_r by lia. f_equal. lia. }
      nia. }
    rewrite Hd, fexp_normal by lia.
    replace (53 - (ex - E) + ex - 53) with E by lia.
    unfold shl_align.
    destruct (E - ex) as [|k|k] eqn:Hk; try lia.
    assert (Hmz : Zpos (Pos.iter xO mx k) = K).
    { rewrite iter_xO. replace (Zpos k) with (ex - E) by lia. exact Hmx. }
    destruct (binary_round_aux_normal s (Zpos (Pos.iter xO mx k)) E loc_Exact
                (Zpos (Pos.iter xO mx k)) 1 ltac:(lia) ltac:(lia) (fr_rep_exact _))
      as (m'' & e'' & M1 & Heq & Hm'' & Hcase & _ & Hex).
    + rewrite Hmz. rewrite (Zdigits2_unique K 53) by lia. lia.
    + rewrite Hmz. rewrite (Zdigits2_unique K 53) by lia. lia.
    + rewrite Hmz. rewrite (Zdigits2_unique K 53) by lia. lia.
    + rewrite Hmz in *. rewrite (Zdigits2_unique K 53) in * by lia.
      replace (53 - 53) with 0 in * by lia.
      assert (HM1 : M1 = K) by (apply Hex; lia).
      rewrite Heq. destruct Hcase as [[-> Hm]|[_ [H53 _]]]; [|lia].
      f_equal; [|lia]. rewrite <- HM1, <- Hm. symmetry. apply Pos2Z.id.
Qed.

End Rounding.


(** ** Integers as numbers *)

Module IntegerNumbers.
Import Num Exact Rounding.

Lemma Zdigits2_le53 (z : Z) : 0 < z < 2 ^ 53 -> 1 <= Zdigits2 z <= 53.
Proof.
  intros Hz. pose proof (Zdigits2_bounds z ltac:(lia)) as Hb.
  split; [destruct z; simpl; lia|].
  destruct (Z_le_dec (Zdigits2 z) 53) as [|Hbig]; [assumption|].
  pose proof (Z.pow_le_mono_r 2 53 (Zdigits2 z - 1) ltac:(lia) ltac:(lia)). lia.
Qed.

Lemma canon_mantissa (z : Z) :
  0 < z < 2 ^ 53 ->
  2 ^ 52 <= z * 2 ^ (53 - Zdigits2 z) < 2 ^ 53.
Proof.
  intros Hz. pose proof (Zdigits2_le53 z Hz) as Hd.
  pose proof (Zdigits2_bounds z ltac:(lia)) as Hb.
  assert (Hpow : 0 < 2 ^ (53 - Zdigits2 z)) by (apply Z.pow_pos_nonneg; lia).
  assert (E1 : 2 ^ 52 = 2 ^ (Zdigits2 z - 1) * 2 ^ (53 - Zdigits2 z)).
  { rewrite <- Z.pow_add_r by lia. f_equal. lia. }
  assert (E2 : 2 ^ 53 = 2 ^ Zdigits2 z * 2 ^ (53 - Zdigits2 z)).
  { rewrite <- Z.pow_add_r by lia. f_equal. lia. }
  nia.
Qed.

Lemma round_int (s : bool) (z k : Z) :
  0 < z < 2 ^ 53 -> 0 <= k ->
  binary_round 53 1024 s (Z.to_pos (z * 2 ^ k)) (- k) = canon s z.
Proof.
  intros Hz Hk. pose proof (Zdigits2_le53 z Hz) as Hd.
  pose proof (canon_mantissa z Hz) as HK.
  assert (Hpk : 0 < 2 ^ k) by (apply Z.pow_pos_nonneg; lia).
  unfold canon. apply binary_round_exact; [exact HK|lia|].
  rewrite Z2Pos.id by lia.
  destruct (Z_le_dec (- k) (Zdigits2 z - 53)) as [Hle|Hgt].
  - left. split; [exact Hle|].
    rewrite <- Z.mul_assoc, <- Z.pow_add_r by lia. do 2 f_equal. lia.
  - right. split; [lia|].
    rewrite <- Z.mul_assoc, <- Z.pow_add_r by lia. do 2 f_equal. lia.
Qed.

Lemma of_int_canon (z : Z) : 0 < z < 2 ^ 53 -> of_int z = canon false z.
Proof.
  intros Hz. unfold of_int, binary_normalize.
  destruct z as [|p|p]; try lia.
  rewrite <- (round_int false (Zpos p) 0 Hz ltac:(lia)).
  rewrite Z.pow_0_r, Z.mul_1_r. reflexivity.
Qed.

Lemma of_int_neg_canon (z : Z) : 0 < z < 2 ^ 53 -> of_int (- z) = canon true z.
Proof.
  intros Hz. unfold of_int, binary_normalize.
  destruct z as [|p|p]; try lia. cbn [Z.opp].
  rewrite <- (round_int true (Zpos p) 0 Hz ltac:(lia)).
  rewrite Z.pow_0_r, Z.mul_1_r. reflexivity.
Qed.

(** The mantissa of a canonical integer aligned to a smaller exponent. *)
Lemma canon_align (s : bool) (z ez : Z) :
  0 < z < 2 ^ 53 -> ez <= Zdigits2 z - 53 ->
  Zpos (fst (shl_align (Z.to_pos (z * 2 ^ (53 - Zdigits2 z))) (Zdigits2 z - 53) ez))
  = z * 2 ^ (- ez).
Proof.
  intros Hz Hez. pose proof (Zdigits2_le53 z Hz) as Hd.
  pose proof (canon_mantissa z Hz) as HK.
  unfold shl_align.
  destruct (ez - (Zdigits2 z - 53)) as [|k|k] eqn:Hk; try lia; cbn [fst].
  - rewrite Z2Pos.id by lia. do 2 f_equal. lia.
  - rewrite iter_xO, Z2Pos.id by lia.
    rewrite <- Z.mul_assoc, <- Z.pow_add_r by lia. do 2 f_equal. lia.
Qed.

Lemma of_int_0 : of_int 0 = S754_zero false.
Proof. reflexivity. Qed.

Lemma add_int (a b : Z) :
  0 <= a -> 0 <= b -> a + b < 2 ^ 53 ->
  add (of_int a) (of_int b) = of_int (a + b).
Proof.
  intros Ha Hb Hab.
  destruct (Z.eq_dec a 0) as [->|Ha0].
  { rewrite of_int_0. simpl. destruct (Z.eq_dec b 0) as [->|Hb0]; [reflexivity|].
    rewrite !of_int_canon by lia. reflexivity. }
  destruct (Z.eq_dec b 0) as [->|Hb0].
  { rewrite of_int_0, Z.add_0_r. rewrite !of_int_canon by lia. reflexivity. }
  rewrite (of_int_canon a), (of_int_canon b), (of_int_canon (a + b)) by lia.
  set (ez := Z.min (Zdigits2 a - 53) (Zdigits2 b - 53)).
  pose proof (Zdigits2_le53 a ltac:(lia)) as Hda.
  pose proof (Zdigits2_le53 b ltac:(lia)) as Hdb.
  pose proof (canon_align false a ez ltac:(lia) ltac:(lia)) as Hma.
  pose proof (canon_align false b ez ltac:(lia) ltac:(lia)) as Hmb.
  assert (Hpow : 0 < 2 ^ (- ez)) by (apply Z.pow_pos_nonneg; lia).
  rewrite <- (round_int false (a + b) (- ez)) by lia.
  unfold canon, add, SFadd. fold ez.
  cbn [cond_Zopp]. rewrite Hma, Hmb.
  change (IntDef.Z.add ?x ?y) with (x + y).
  replace (a * 2 ^ (- ez) + b * 2 ^ (- ez)) with ((a + b) * 2 ^ (- ez)) by lia.
  unfold binary_normalize.
  destruct ((a + b) * 2 ^ (- ez)) as [|p|p] eqn:Hp; try nia.
  replace (- - ez) with ez by lia. reflexivity.
Qed.

Lemma sub_int (a b : Z) :
  0 < b <= a -> a < 2 ^ 53 ->
  sub (of_int a) (of_int b) = of_int (a - b).
Proof.
  intros Hb Ha.
  rewrite (of_int_canon a), (of_int_canon b) by lia. unfold canon, sub, SFsub.
  set (ez := Z.min (Zdigits2 a - 53) (Zdigits2 b - 53)).
  pose proof (Zdigits2_le53 a ltac:(lia)) as Hda.
  pose proof (Zdigits2_le53 b ltac:(lia)) as Hdb.
  pose proof (canon_align false a ez ltac:(lia) ltac:(lia)) as Hma.
  pose proof (canon_align false b ez ltac:(lia) ltac:(lia)) as Hmb.
  cbn [cond_Zopp].
  assert (Hpow : 0 < 2 ^ (- ez)) by (apply Z.pow_pos_nonneg; lia).
  rewrite Hma, Hmb.
  replace (a * 2 ^ (- ez) - b * 2 ^ (- ez)) with ((a - b) * 2 ^ (- ez)) by lia.
  destruct (Z.eq_dec a b) as [->|Hne].
  - rewrite Z.sub_diag. reflexivity.
  - rewrite of_int_canon by lia.
    rewrite <- (round_int false (a - b) (- ez)) by lia.
    unfold binary_normalize.
    destruct ((a - b) * 2 ^ (- ez)) as [|p|p] eqn:Hp; try nia.
    replace (- - ez) with ez by lia. reflexivity.
Qed.

Lemma compare_canon (a b : Z) :
  0 < a < 2 ^ 53 -> 0 < b < 2 ^ 53 ->
  SFcompare (canon false a) (canon false b) = Some (a ?= b).
Proof.
  intros Ha Hb. unfold canon. cbn [SFcompare]. f_equal.
  pose proof (Zdigits2_le53 a Ha) as Hda. pose proof (Zdigits2_le53 b Hb) as Hdb.
  pose proof (Zdigits2_bounds a ltac:(lia)) as Hba.
  pose proof (Zdigits2_bounds b ltac:(lia)) as Hbb.
  destruct (Z.compare_spec (Zdigits2 a - 53) (Zdigits2 b - 53)) as [Heq|Hlt|Hgt].
  - assert (Hd : Zdigits2 a = Zdigits2 b) by lia. rewrite Hd.
    assert (Hpow : 0 < 2 ^ (53 - Zdigits2 b)) by (apply Z.pow_pos_nonneg; lia).
    change (Pos.compare_cont Eq ?x ?y) with (Pos.compare x y).
    rewrite Pos2Z.inj_compare, !Z2Pos.id by nia.
    destruct (Z.compare_spec a b) as [->|H|H];
      [apply Z.compare_refl|apply Z.compare_lt_iff; nia|apply Z.compare_gt_iff; nia].
  - symmetry. apply Z.compare_lt_iff.
    pose proof (Z.pow_le_mono_r 2 (Zdigits2 a) (Zdigits2 b - 1) ltac:(lia) ltac:(lia)). lia.
  - symmetry. apply Z.compare_gt_iff.
    pose proof (Z.pow_le_mono_r 2 (Zdigits2 b) (Zdigits2 a - 1) ltac:(lia) ltac:(lia)). lia.
Qed.

Lemma compare_int (a b : Z) :
  0 <= a < 2 ^ 53 -> 0 <= b < 2 ^ 53 ->
  SFcompare (of_int a) (of_int b) = Some (a ?= b).
Proof.
  intros Ha Hb.
  destruct (Z.eq_dec a 0) as [->|Ha0]; destruct (Z.eq_dec b 0) as [->|Hb0].
  - reflexivity.
  - rewrite of_int_0, (of_int_canon b) by lia. unfold canon. cbn [SFcompare].
    f_equal. symmetry. apply Z.compare_lt_iff. lia.
  - rewrite of_int_0, (of_int_canon a) by lia. unfold canon. cbn [SFcompare].
    f_equal. symmetry. apply Z.compare_gt_iff. lia.
  - rewrite !of_int_canon by lia. apply compare_canon; lia.
Qed.

Lemma lt_int (a b : Z) :
  0 <= a < 2 ^ 53 -> 0 <= b < 2 ^ 53 -> lt (of_int a) (of_int b) = (a <? b).
Proof.
  intros Ha Hb. unfold lt, SFltb. rewrite compare_int by assumption.
  unfold Z.ltb. destruct (a ?= b); reflexivity.
Qed.

Lemma of_int_not_special (a : Z) :
  0 <= a < 2 ^ 53 -> is_nan (of_int a) = false /\ is_neg_zero (of_int a) = false.
Proof.
  intros Ha. destruct (Z.eq_dec a 0) as [->|Ha0]; [split; reflexivity|].
  rewrite of_int_canon by lia. split; reflexivity.
Qed.

Lemma min_int (a b : Z) :
  0 <= a < 2 ^ 53 -> 0 <= b < 2 ^ 53 ->
  min (of_int a) (of_int b) = of_int (Z.min a b).
Proof.
  intros Ha Hb. unfold min.
  destruct (of_int_not_special a Ha) as [-> ->].
  destruct (of_int_not_special b Hb) as [-> _]. cbn [orb].
  rewrite !lt_int by assumption.
  destruct (a <? b) eqn:H1; [apply Z.ltb_lt in H1; f_equal; lia|].
  apply Z.ltb_ge in H1.
  destruct (b <? a) eqn:H2; [apply Z.ltb_lt in H2|apply Z.ltb_ge in H2]; f_equal; lia.
Qed.

Lemma floor_finite (m : positive) (e : Z) :
  e < 0 -> floor (S754_finite false m e) = of_int (Zpos m / 2 ^ (- e)).
Proof.
  intros He. unfold floor.
  destruct (0 <=? e) eqn:H0; [apply Z.leb_le in H0; lia|].
  unfold signed. cbn [cond_Zopp]. rewrite Z.shiftr_div_pow2 by lia. reflexivity.
Qed.

Lemma ToIndex_int (k : Z) : 0 <= k <= 2 ^ 53 - 1 -> ToIndex (of_int k) = Normal k.
Proof.
  intros Hk. destruct (Z.eq_dec k 0) as [->|Hk0]; [reflexivity|].
  rewrite of_int_canon by lia. unfold canon, ToIndex, truncate, signed.
  pose proof (Zdigits2_le53 k ltac:(lia)) as Hd.
  pose proof (canon_mantissa k ltac:(lia)) as HK.
  assert (Hpow : 0 < 2 ^ (53 - Zdigits2 k)) by (apply Z.pow_pos_nonneg; lia).
  cbn [cond_Zopp]. rewrite Z2Pos.id by lia.
  assert (Hv : (if 0 <=? Zdigits2 k - 53
                then k * 2 ^ (53 - Zdigits2 k) * 2 ^ (Zdigits2 k - 53)
                else Z.shiftr (k * 2 ^ (53 - Zdigits2 k)) (- (Zdigits2 k - 53))) = k).
  { destruct (0 <=? Zdigits2 k - 53) eqn:H0.
    - apply Z.leb_le in H0. replace (Zdigits2 k) with 53 by lia. simpl. lia.
    - rewrite Z.shiftr_div_pow2 by lia.
      replace (- (Zdigits2 k - 53)) with (53 - Zdigits2 k) by lia.
      apply Z.div_mul. lia. }
  rewrite Hv.
  destruct (k <? 0) eqn:H1; [apply Z.ltb_lt in H1; lia|].
  destruct (2 ^ 53 - 1 <? k) eqn:H2; [apply Z.ltb_lt in H2; lia|]. reflexivity.
Qed.

Lemma integer_index_int (k : Z) : 0 <= k < 2 ^ 53 -> integer_index (of_int k) = Some k.
Proof.
  intros Hk. destruct (Z.eq_dec k 0) as [->|Hk0]; [reflexivity|].
  rewrite of_int_canon by lia. unfold canon, integer_index, signed.
  pose proof (Zdigits2_le53 k ltac:(lia)) as Hd.
  pose proof (canon_mantissa k ltac:(lia)) as HK.
  assert (Hpow : 0 < 2 ^ (53 - Zdigits2 k)) by (apply Z.pow_pos_nonneg; lia).
  cbn [cond_Zopp]. rewrite Z2Pos.id by lia.
  destruct (0 <=? Zdigits2 k - 53) eqn:H0.
  - apply Z.leb_le in H0. replace (Zdigits2 k) with 53 by lia. simpl. f_equal. lia.
  - replace (- (Zdigits2 k - 53)) with (53 - Zdigits2 k) by lia.
    rewrite Z.mod_mul by lia. rewrite Z.eqb_refl, Z.div_mul by lia. reflexivity.
Qed.

End IntegerNumbers.


(** ** Multiplication and division: error bounds and exact cases *)

Module ErrorBounds.
Import Num F32 Bridge Exact Rounding IntegerNumbers.

Lemma new_location_rep (q r nb : Z) :
  0 < nb -> 0 <= r < nb ->
  fr_rep (shr_record_of_loc q (new_location nb r)) (q * nb + r) nb.
Proof.
  intros Hnb Hr. unfold new_location, new_location_even, new_location_odd.
  destruct (Z.even nb) eqn:Hev.
  - destruct (r =? 0) eqn:Hr0.
    + apply Z.eqb_eq in Hr0. unfold fr_rep; simpl. lia.
    + apply Z.eqb_neq in Hr0.
      destruct (Z.compare_spec (2 * r) nb); unfold fr_rep; simpl; lia.
  - assert (Hodd : Z.odd nb = true) by (rewrite <- Z.negb_even, Hev; reflexivity).
    apply Z.odd_spec in Hodd. destruct Hodd as [j Hj].
    destruct (r =? 0) eqn:Hr0.
    + apply Z.eqb_eq in Hr0. unfold fr_rep; simpl. lia.
    + apply Z.eqb_neq in Hr0.
      destruct (Z.compare_spec (2 * r + 1) nb); unfold fr_rep; simpl; lia.
Qed.

Lemma mul_normal (mx my : positive) (ex ey : Z) :
  2 ^ 52 <= Zpos mx < 2 ^ 53 -> 2 ^ 52 <= Zpos my < 2 ^ 53 ->
  -1074 <= ex + ey + 52 -> ex + ey + 54 <= 971 ->
  exists (m : positive) (e W : Z),
    mul (S754_finite false mx ex) (S754_finite false my ey) = S754_finite false m e
    /\ 2 ^ 52 <= Zpos m < 2 ^ 53
    /\ ex + ey + 52 <= e <= ex + ey + 54
    /\ Zpos m * 2 ^ (e - (ex + ey)) = W
    /\ 2 ^ 53 * Z.abs (W - Zpos mx * Zpos my) <= Zpos mx * Zpos my.
Proof.
  intros Hx Hy Hlo Hhi. unfold mul, SFmul. cbn [xorb].
  rewrite Pos2Z.inj_mul.
  set (A := Zpos mx * Zpos my).
  assert (HA : 2 ^ 104 <= A < 2 ^ 106).
  { change (2 ^ 104) with (2 ^ 52 * 2 ^ 52). change (2 ^ 106) with (2 ^ 53 * 2 ^ 53).
    subst A. nia. }
  pose proof (Zdigits2_bounds A ltac:(lia)) as Hd.
  assert (Hdr : 105 <= Zdigits2 A <= 106).
  { split.
    - destruct (Z_le_dec 105 (Zdigits2 A)) as [|Hs]; [assumption|].
      pose proof (Z.pow_le_mono_r 2 (Zdigits2 A) 104 ltac:(lia) ltac:(lia)). lia.
    - destruct (Z_le_dec (Zdigits2 A) 106) as [|Hs]; [assumption|].
      pose proof (Z.pow_le_mono_r 2 106 (Zdigits2 A - 1) ltac:(lia) ltac:(lia)). lia. }
  destruct (binary_round_aux_normal false A (ex + ey) loc_Exact A 1
              ltac:(lia) ltac:(lia) (fr_rep_exact A) ltac:(lia) ltac:(lia) ltac:(lia))
    as (m & e & M1 & Heq & Hm & Hcase & Hbound & _).
  set (n := Zdigits2 A - 53) in *.
  assert (Hpn : 0 < 2 ^ n) by (apply Z.pow_pos_nonneg; lia).
  assert (HAn : 2 ^ 52 * 2 ^ n <= A).
  { rewrite <- Z.pow_add_r by lia. replace (52 + n) with (Zdigits2 A - 1) by lia. lia. }
  exists m, e, (M1 * 2 ^ n). split; [exact Heq|]. split; [exact Hm|].
  split; [destruct Hcase as [[-> _]|[-> _]]; lia|].
  split.
  - destruct Hcase as [[-> ->]|[-> [-> ->]]].
    + do 2 f_equal. lia.
    + replace (ex + ey + n + 1 - (ex + ey)) with (1 + n) by lia.
      rewrite Z.pow_add_r by lia. lia.
  - rewrite Z.mul_1_r in Hbound. lia.
Qed.

Lemma div_normal (mx my : positive) (ex ey : Z) :
  2 ^ 52 <= Zpos mx < 2 ^ 53 -> 2 ^ 52 <= Zpos my < 2 ^ 53 ->
  -1021 <= ex - ey -> ex - ey - 51 <= 971 ->
  exists (m : positive) (e W : Z),
    div (S754_finite false mx ex) (S754_finite false my ey) = S754_finite false m e
    /\ 2 ^ 52 <= Zpos m < 2 ^ 53
    /\ ex - ey - 53 <= e <= ex - ey - 51
    /\ Zpos m * 2 ^ (e - (ex - ey - 53)) = W
    /\ 2 ^ 53 * Z.abs (W * Zpos my - Zpos mx * 2 ^ 53) <= Zpos mx * 2 ^ 53.
Proof.
  intros Hx Hy Hlo Hhi. unfold div, SFdiv, SFdiv_core_binary. cbn [xorb].
  rewrite (Zdigits2_unique (Zpos mx) 53), (Zdigits2_unique (Zpos my) 53) by lia.
  rewrite fexp_normal by lia.
  replace (Z.min (53 + ex - (53 + ey) - 53) (ex - ey)) with (ex - ey - 53) by lia.
  replace (ex - ey - (ex - ey - 53)) with 53 by lia.
  cbv iota. rewrite Z.shiftl_mul_pow2 by lia.
  set (A := Zpos mx * 2 ^ 53).
  pose proof (Z_div_mod A (Zpos my) ltac:(lia)) as Hdm.
  destruct (Z.div_eucl A (Zpos my)) as [q r]. destruct Hdm as [HA Hr].
  assert (HAr : 2 ^ 105 <= A < 2 ^ 106).
  { subst A. change (2 ^ 105) with (2 ^ 52 * 2 ^ 53).
    change (2 ^ 106) with (2 ^ 53 * 2 ^ 53). lia. }
  assert (Hq : 2 ^ 52 <= q < 2 ^ 54).
  { change (2 ^ 105) with (2 ^ 52 * 2 ^ 53) in HAr.
    change (2 ^ 106) with (2 ^ 54 * 2 ^ 52) in HAr. nia. }
  pose proof (Zdigits2_bounds q ltac:(lia)) as Hd.
  assert (Hdr : 53 <= Zdigits2 q <= 54).
  { split.
    - destruct (Z_le_dec 53 (Zdigits2 q)) as [|Hs]; [assumption|].
      pose proof (Z.pow_le_mono_r 2 (Zdigits2 q) 52 ltac:(lia) ltac:(lia)). lia.
    - destruct (Z_le_dec (Zdigits2 q) 54) as [|Hs]; [assumption|].
      pose proof (Z.pow_le_mono_r 2 54 (Zdigits2 q - 1) ltac:(lia) ltac:(lia)). lia. }
  pose proof (new_location_rep q r (Zpos my) ltac:(lia) Hr) as Hrep.
  replace (q * Zpos my + r) with A in Hrep by lia.
  destruct (binary_round_aux_normal false q (ex - ey - 53)
              (new_location (Zpos my) r) A (Zpos my)
              ltac:(lia) ltac:(lia) Hrep ltac:(lia) ltac:(lia) ltac:(lia))
    as (m & e & M1 & Heq & Hm & Hcase & Hbound & _).
  set (n := Zdigits2 q - 53) in *.
  assert (Hpn : 0 < 2 ^ n) by (apply Z.pow_pos_nonneg; lia).
  assert (Hqn : 2 ^ 52 * 2 ^ n <= q).
  { rewrite <- Z.pow_add_r by lia. replace (52 + n) with (Zdigits2 q - 1) by lia. lia. }
  exists m, e, (M1 * 2 ^ n). split; [exact Heq|]. split; [exact Hm|].
  split; [destruct Hcase as [[-> _]|[-> _]]; lia|].
  split.
  - destruct Hcase as [[-> ->]|[-> [-> ->]]].
    + do 2 f_equal. lia.
    + replace (ex - ey - 53 + n + 1 - (ex - ey - 53)) with (1 + n) by lia.
      rewrite Z.pow_add_r by lia. lia.
  - assert (HqA : q * Zpos my <= A) by lia.
    replace (M1 * 2 ^ n * Zpos my) with (M1 * (2 ^ n * Zpos my)) by lia.
    nia.
Qed.

Lemma Qpow2_pos (e : Z) : (0 < 2 ^ e)%Q.
Proof. apply Qpower_0_lt. reflexivity. Qed.

Lemma Qpow2_add (a b : Z) : (2 ^ (a + b) == 2 ^ a * 2 ^ b)%Q.
Proof. apply Qpower_plus. discriminate. Qed.

Lemma Qpow2_inject (k : Z) : 0 <= k -> (inject_Z (2 ^ k) == 2 ^ k)%Q.
Proof. intros Hk. apply (Zpower_Qpower 2 k Hk). Qed.

Lemma to_Q_scaled (m : positive) (e e0 : Z) :
  e0 <= e ->
  (to_Q (S754_finite false m e) == inject_Z (Zpos m * 2 ^ (e - e0)) * 2 ^ e0)%Q.
Proof.
  intros He. unfold to_Q, signed. cbn [cond_Zopp].
  rewrite inject_Z_mult, Qpow2_inject by lia.
  replace e with ((e - e0) + e0) at 1 by lia. rewrite Qpow2_add. ring.
Qed.

Lemma rel_error_Q (w a : Z) (T : Q) :
  (0 < T)%Q -> 2 ^ 53 * Z.abs (w - a) <= a ->
  ((1 - eps) * (inject_Z a * T) <= inject_Z w * T
   /\ inject_Z w * T <= (1 + eps) * (inject_Z a * T))%Q.
Proof.
  intros HT H.
  assert (H1 : (inject_Z (2 ^ 53 * (w - a)) <= inject_Z a)%Q) by (rewrite <- Zle_Qle; lia).
  assert (H2 : (inject_Z (2 ^ 53 * (a - w)) <= inject_Z a)%Q) by (rewrite <- Zle_Qle; lia).
  rewrite inject_Z_mult in H1, H2.
  unfold Zminus in H1, H2. rewrite inject_Z_plus, inject_Z_opp in H1, H2.
  change (inject_Z (2 ^ 53)) with (9007199254740992 # 1)%Q in H1, H2.
  set (qa := inject_Z a) in *. set (qw := inject_Z w) in *.
  assert (L : ((1 - eps) * qa <= qw)%Q) by (unfold eps; lra).
  assert (U : (qw <= (1 + eps) * qa)%Q) by (unfold eps; lra).
  split.
  - rewrite Qmult_assoc. apply Qmult_le_compat_r; [exact L|lra].
  - rewrite Qmult_assoc. apply Qmult_le_compat_r; [exact U|lra].
Qed.

Lemma to_Q_canon (z : Z) : 0 < z < 2 ^ 53 -> (to_Q (canon false z) == inject_Z z)%Q.
Proof.
  intros Hz. pose proof (Zdigits2_le53 z Hz) as Hd.
  pose proof (canon_mantissa z Hz) as HK.
  unfold canon, to_Q, signed. cbn [cond_Zopp].
  rewrite Z2Pos.id by lia.
  rewrite inject_Z_mult, Qpow2_inject by lia.
  rewrite <- Qmult_assoc, <- Qpow2_add.
  replace (53 - Zdigits2 z + (Zdigits2 z - 53)) with 0 by lia.
  change (2 ^ 0)%Q with 1%Q. ring.
Qed.

Lemma to_Q_of_int (z : Z) : 0 <= z < 2 ^ 53 -> (to_Q (of_int z) == inject_Z z)%Q.
Proof.
  intros Hz. destruct (Z.eq_dec z 0) as [->|Hz0]; [reflexivity|].
  rewrite of_int_canon by lia. apply to_Q_canon. lia.
Qed.


Lemma mul_bounds (x y : number) (mx my : positive) (ex ey : Z) :
  normal x mx ex -> normal y my ey ->
  -1074 <= ex + ey + 52 -> ex + ey + 54 <= 971 ->
  exists (m : positive) (e : Z),
    normal (mul x y) m e
    /\ ex + ey + 52 <= e <= ex + ey + 54
    /\ ((1 - eps) * (to_Q x * to_Q y) <= to_Q (mul x y)
        /\ to_Q (mul x y) <= (1 + eps) * (to_Q x * to_Q y))%Q.
Proof.
  intros [-> Hx] [-> Hy] Hlo Hhi.
  destruct (mul_normal mx my ex ey Hx Hy Hlo Hhi) as (m & e & W & Heq & Hm & He & HW & Hb).
  exists m, e. split; [split; assumption|]. split; [exact He|].
  rewrite Heq. rewrite (to_Q_scaled m e (ex + ey)) by lia. rewrite HW.
  assert (HXY : (to_Q (S754_finite false mx ex) * to_Q (S754_finite false my ey)
                 == inject_Z (Zpos mx * Zpos my) * 2 ^ (ex + ey))%Q).
  { unfold to_Q, signed. cbn [cond_Zopp]. rewrite inject_Z_mult, Qpow2_add. ring. }
  rewrite HXY. apply rel_error_Q; [apply Qpow2_pos|exact Hb].
Qed.

Lemma div_bounds (x y : number) (mx my : positive) (ex ey : Z) :
  normal x mx ex -> normal y my ey ->
  -1021 <= ex - ey -> ex - ey - 51 <= 971 ->
  exists (m : positive) (e : Z),
    normal (div x y) m e
    /\ ex - ey - 53 <= e <= ex - ey - 51
    /\ ((1 - eps) * to_Q x <= to_Q (div x y) * to_Q y
        /\ to_Q (div x y) * to_Q y <= (1 + eps) * to_Q x)%Q.
Proof.
  intros [-> Hx] [-> Hy] Hlo Hhi.
  destruct (div_normal mx my ex ey Hx Hy Hlo Hhi) as (m & e & W & Heq & Hm & He & HW & Hb).
  exists m, e. split; [split; assumption|]. split; [exact He|].
  rewrite Heq. rewrite (to_Q_scaled m e (ex - ey - 53)) by lia. rewrite HW.
  assert (HX : (to_Q (S754_finite false mx ex)
                == inject_Z (Zpos mx * 2 ^ 53) * 2 ^ (ex - 53))%Q).
  { unfold to_Q, signed. cbn [cond_Zopp]. rewrite inject_Z_mult, Qpow2_inject by lia.
    replace ex with (53 + (ex - 53)) at 1 by lia. rewrite Qpow2_add. ring. }
  assert (HVY : (inject_Z W * 2 ^ (ex - ey - 53) * to_Q (S754_finite false my ey)
                 == inject_Z (W * Zpos my) * 2 ^ (ex - 53))%Q).
  { unfold to_Q, signed. cbn [cond_Zopp]. rewrite inject_Z_mult.
    replace (ex - 53) with ((ex - ey - 53) + ey) by lia. rewrite Qpow2_add. ring. }
  rewrite HX, HVY. apply rel_error_Q; [apply Qpow2_pos|exact Hb].
Qed.

Lemma canon_normal (z : Z) :
  0 < z < 2 ^ 53 ->
  normal (canon false z) (Z.to_pos (z * 2 ^ (53 - Zdigits2 z))) (Zdigits2 z - 53).
Proof.
  intros Hz. split; [reflexivity|].
  pose proof (canon_mantissa z Hz). rewrite Z2Pos.id by lia. assumption.
Qed.

Lemma normal_pos (x : number) (m : positive) (e : Z) :
  normal x m e -> (0 < to_Q x)%Q.
Proof.
  intros [-> Hm]. unfold to_Q, signed. cbn [cond_Zopp].
  apply Qmult_lt_0_compat; [|apply Qpow2_pos].
  change 0%Q with (inject_Z 0). rewrite <- Zlt_Qlt. lia.
Qed.

(** The ratio of two integer rates. *)
Lemma ratio_bounds (hin hout : Z) :
  0 < hin < 2 ^ 53 -> 0 < hout < 2 ^ 53 ->
  exists (mr : positive) (er : Z),
    normal (ratio_of (of_int hin) (of_int hout)) mr er
    /\ -105 <= er <= 1
    /\ ((1 - eps) * inject_Z hin <= to_Q (ratio_of (of_int hin) (of_int hout)) * inject_Z hout
        /\ to_Q (ratio_of (of_int hin) (of_int hout)) * inject_Z hout
           <= (1 + eps) * inject_Z hin)%Q.
Proof.
  intros Hin Hout. unfold ratio_of.
  rewrite (of_int_canon hin), (of_int_canon hout) by assumption.
  pose proof (Zdigits2_le53 hin Hin) as Hd1. pose proof (Zdigits2_le53 hout Hout) as Hd2.
  destruct (div_bounds _ _ _ _ _ _ (canon_normal hin Hin) (canon_normal hout Hout)
              ltac:(lia) ltac:(lia)) as (mr & er & Hn & He & Hb).
  exists mr, er. split; [exact Hn|]. split; [lia|].
  rewrite (to_Q_canon hin Hin), (to_Q_canon hout Hout) in Hb. exact Hb.
Qed.

(** The length of the frame divided by the ratio. *)
Lemma quotient_bounds (n : Z) (r : number) (mr : positive) (er : Z) :
  0 < n < 2 ^ 53 -> normal r mr er -> -105 <= er <= 1 ->
  exists (mq : positive) (eq : Z),
    normal (div (of_int n) r) mq eq
    /\ ((1 - eps) * inject_Z n <= to_Q (div (of_int n) r) * to_Q r
        /\ to_Q (div (of_int n) r) * to_Q r <= (1 + eps) * inject_Z n)%Q.
Proof.
  intros Hn Hr Her. rewrite (of_int_canon n) by assumption.
  pose proof (Zdigits2_le53 n Hn) as Hd.
  destruct (div_bounds _ _ _ _ _ _ (canon_normal n Hn) Hr ltac:(lia) ltac:(lia))
    as (mq & eq & Hnq & _ & Hb).
  exists mq, eq. split; [exact Hnq|].
  rewrite (to_Q_canon n Hn) in Hb. exact Hb.
Qed.

(** The floor of a positive number below 2^52. *)
Lemma floor_normal (x : number) (m : positive) (e : Z) :
  normal x m e -> (to_Q x < inject_Z (2 ^ 52))%Q ->
  exists j : Z,
    floor x = of_int j /\ 0 <= j < 2 ^ 52
    /\ (inject_Z j <= to_Q x /\ to_Q x < inject_Z j + 1)%Q.
Proof.
  intros [-> Hm] Hlt.
  assert (He : e < 0).
  { destruct (Z_lt_dec e 0) as [|Hge]; [assumption|]. exfalso.
    rewrite (to_Q_scaled m e 0) in Hlt by lia.
    change (2 ^ 0)%Q with 1%Q in Hlt. rewrite Qmult_1_r in Hlt.
    rewrite <- Zlt_Qlt in Hlt.
    assert (0 < 2 ^ (e - 0)) by (apply Z.pow_pos_nonneg; lia). nia. }
  rewrite floor_finite by exact He.
  set (k := - e). assert (Hk : 0 < k) by (subst k; lia).
  assert (Hpk : 0 < 2 ^ k) by (apply Z.pow_pos_nonneg; lia).
  pose proof (Z.div_mod (Zpos m) (2 ^ k) ltac:(lia)) as Hdm.
  pose proof (Z.mod_pos_bound (Zpos m) (2 ^ k) ltac:(lia)) as Hmod.
  set (j := Zpos m / 2 ^ k) in *.
  assert (Hscale : (to_Q (S754_finite false m e) * inject_Z (2 ^ k) == inject_Z (Zpos m))%Q).
  { unfold to_Q, signed. cbn [cond_Zopp]. rewrite Qpow2_inject by lia.
    rewrite <- Qmult_assoc, <- Qpow2_add. replace (e + k) with 0 by (subst k; lia).
    change (2 ^ 0)%Q with 1%Q. ring. }
  assert (Hpq : (0 < inject_Z (2 ^ k))%Q).
  { change 0%Q with (inject_Z 0). rewrite <- Zlt_Qlt. exact Hpk. }
  assert (Hj0 : 0 <= j) by (apply Z.div_pos; lia).
  exists j. split; [reflexivity|]. split.
  - split; [exact Hj0|].
    destruct (Z_lt_dec j (2 ^ 52)) as [|Hge]; [assumption|]. exfalso.
    assert (Hc : (inject_Z (2 ^ 52) * inject_Z (2 ^ k) <= inject_Z (Zpos m))%Q).
    { rewrite <- inject_Z_mult, <- Zle_Qle. nia. }
    rewrite <- Hscale in Hc. apply Qmult_le_r in Hc; [|exact Hpq]. lra.
  - split.
    + apply (Qmult_le_r _ _ (inject_Z (2 ^ k)) Hpq). rewrite Hscale.
      rewrite <- inject_Z_mult, <- Zle_Qle. lia.
    + apply (Qmult_lt_r _ _ (inject_Z (2 ^ k)) Hpq). rewrite Hscale.
      change 1%Q with (inject_Z 1). rewrite <- inject_Z_plus, <- inject_Z_mult, <- Zlt_Qlt.
      nia.
Qed.

Lemma floor_normal_frac (m : positive) (e : Z) :
  e < 0 ->
  (inject_Z (Zpos m / 2 ^ (- e)) <= to_Q (S754_finite false m e)
   /\ to_Q (S754_finite false m e) < inject_Z (Zpos m / 2 ^ (- e)) + 1)%Q.
Proof.
  intros He.
  set (k := - e). assert (Hk : 0 < k) by (subst k; lia).
  assert (Hpk : 0 < 2 ^ k) by (apply Z.pow_pos_nonneg; lia).
  pose proof (Z.div_mod (Zpos m) (2 ^ k) ltac:(lia)) as Hdm.
  pose proof (Z.mod_pos_bound (Zpos m) (2 ^ k) ltac:(lia)) as Hmod.
  set (j := Zpos m / 2 ^ k) in *.
  assert (Hscale : (to_Q (S754_finite false m e) * inject_Z (2 ^ k) == inject_Z (Zpos m))%Q).
  { unfold to_Q, signed. cbn [cond_Zopp]. rewrite Qpow2_inject by lia.
    rewrite <- Qmult_assoc, <- Qpow2_add. replace (e + k) with 0 by (subst k; lia).
    change (2 ^ 0)%Q with 1%Q. ring. }
  assert (Hpq : (0 < inject_Z (2 ^ k))%Q).
  { change 0%Q with (inject_Z 0). rewrite <- Zlt_Qlt. exact Hpk. }
  split.
  - apply (Qmult_le_r _ _ (inject_Z (2 ^ k)) Hpq). rewrite Hscale.
    rewrite <- inject_Z_mult, <- Zle_Qle. lia.
  - apply (Qmult_lt_r _ _ (inject_Z (2 ^ k)) Hpq). rewrite Hscale.
    change 1%Q with (inject_Z 1). rewrite <- inject_Z_plus, <- inject_Z_mult, <- Zlt_Qlt.
    nia.
Qed.

Lemma to_Q_signed (s : bool) (m : positive) (e : Z) :
  (to_Q (S754_finite s m e) == (if s then - 1 else 1) * to_Q (S754_finite false m e))%Q.
Proof.
  unfold to_Q, signed. destruct s; cbn [cond_Zopp].
  - change (Z.opp (Zpos m)) with (- Zpos m). rewrite inject_Z_opp. ring.
  - ring.
Qed.

Lemma mul_exact (sx : bool) (mx my : positive) (ex ey : Z) :
  2 ^ 52 <= Zpos mx < 2 ^ 53 -> 2 ^ 52 <= Zpos my < 2 ^ 53 ->
  -1074 <= ex + ey + 52 -> ex + ey + 54 <= 971 ->
  (Zpos mx * Zpos my) mod 2 ^ 53 = 0 ->
  exists (m : positive) (e : Z),
    mul (S754_finite sx mx ex) (S754_finite false my ey) = S754_finite sx m e
    /\ ex + ey <= e
    /\ Zpos m * 2 ^ (e - (ex + ey)) = Zpos mx * Zpos my.
Proof.
  intros Hx Hy Hlo Hhi Hdiv. unfold mul, SFmul. rewrite xorb_false_r.
  rewrite Pos2Z.inj_mul.
  set (A := Zpos mx * Zpos my) in *.
  assert (HA : 2 ^ 104 <= A < 2 ^ 106).
  { change (2 ^ 104) with (2 ^ 52 * 2 ^ 52). change (2 ^ 106) with (2 ^ 53 * 2 ^ 53).
    subst A. nia. }
  pose proof (Zdigits2_bounds A ltac:(lia)) as Hd.
  assert (Hdr : 105 <= Zdigits2 A <= 106).
  { split.
    - destruct (Z_le_dec 105 (Zdigits2 A)) as [|Hs]; [assumption|].
      pose proof (Z.pow_le_mono_r 2 (Zdigits2 A) 104 ltac:(lia) ltac:(lia)). lia.
    - destruct (Z_le_dec (Zdigits2 A) 106) as [|Hs]; [assumption|].
      pose proof (Z.pow_le_mono_r 2 106 (Zdigits2 A - 1) ltac:(lia) ltac:(lia)). lia. }
  destruct (binary_round_aux_normal sx A (ex + ey) loc_Exact A 1
              ltac:(lia) ltac:(lia) (fr_rep_exact A) ltac:(lia) ltac:(lia) ltac:(lia))
    as (m & e & M1 & Heq & Hm & Hcase & _ & Hex).
  set (n := Zdigits2 A - 53) in *.
  assert (Hpn : 0 < 2 ^ n) by (apply Z.pow_pos_nonneg; lia).
  apply Z.mod_divide in Hdiv; [|lia]. destruct Hdiv as [c Hc].
  assert (HM1 : M1 = c * 2 ^ (53 - n)).
  { apply Hex. rewrite Z.mul_1_r, <- Z.mul_assoc, <- Z.pow_add_r by lia.
    replace (53 - n + n) with 53 by lia. exact Hc. }
  assert (HA2 : A = M1 * 2 ^ n).
  { rewrite HM1, <- Z.mul_assoc, <- Z.pow_add_r by lia.
    replace (53 - n + n) with 53 by lia. exact Hc. }
  exists m, e. split; [exact Heq|].
  destruct Hcase as [[-> ->]|[-> [HM ->]]].
  - split; [lia|]. rewrite HA2. do 2 f_equal. lia.
  - split; [lia|]. rewrite HA2, HM.
    replace (ex + ey + n + 1 - (ex + ey)) with (1 + n) by lia.
    rewrite Z.pow_add_r by lia. lia.
Qed.

Lemma mul_exact_Q (sx : bool) (mx my : positive) (ex ey : Z) :
  2 ^ 52 <= Zpos mx < 2 ^ 53 -> 2 ^ 52 <= Zpos my < 2 ^ 53 ->
  -1074 <= ex + ey + 52 -> ex + ey + 54 <= 971 ->
  (Zpos mx * Zpos my) mod 2 ^ 53 = 0 ->
  exists (m : positive) (e : Z),
    mul (S754_finite sx mx ex) (S754_finite false my ey) = S754_finite sx m e
    /\ (to_Q (S754_finite sx m e)
        == to_Q (S754_finite sx mx ex) * to_Q (S754_finite false my ey))%Q.
Proof.
  intros Hx Hy Hlo Hhi Hdiv.
  destruct (mul_exact sx mx my ex ey Hx Hy Hlo Hhi Hdiv) as (m & e & Heq & He & HW).
  exists m, e. split; [exact Heq|].
  rewrite (to_Q_signed sx m e), (to_Q_signed sx mx ex).
  rewrite (to_Q_scaled m e (ex + ey)) by lia. rewrite HW.
  unfold to_Q, signed. cbn [cond_Zopp]. rewrite inject_Z_mult, Qpow2_add. ring.
Qed.

(** The integer part of a finite number, as a rational statement. *)
Lemma truncate_is_trunc (s : bool) (m : positive) (e : Z) :
  is_trunc (to_Q (S754_finite s m e)) (truncate s m e).
Proof.
  assert (Hpos : (0 < to_Q (S754_finite false m e))%Q).
  { unfold to_Q, signed. cbn [cond_Zopp]. apply Qmult_lt_0_compat; [|apply Qpow2_pos].
    change 0%Q with (inject_Z 0). rewrite <- Zlt_Qlt. lia. }
  assert (Hj : exists j : Z,
             truncate s m e = cond_Zopp s j
             /\ (inject_Z j <= to_Q (S754_finite false m e)
                 /\ to_Q (S754_finite false m e) < inject_Z j + 1)%Q).
  { unfold truncate, signed. destruct (0 <=? e) eqn:He.
    - apply Z.leb_le in He. exists (Zpos m * 2 ^ e). split.
      + destruct s; cbn [cond_Zopp]; lia.
      + rewrite (to_Q_scaled m e 0) by lia. rewrite Z.sub_0_r.
        change (2 ^ 0)%Q with 1%Q. split; lra.
    - apply Z.leb_gt in He. exists (Zpos m / 2 ^ (- e)). split.
      + rewrite Z.shiftr_div_pow2 by lia. reflexivity.
      + destruct (floor_normal_frac m e He) as [H1 H2]. split; assumption. }
  destruct Hj as (j & -> & Hj1 & Hj2).
  pose proof (to_Q_signed s m e) as Hs. unfold is_trunc.
  destruct s; cbn [cond_Zopp]; [rewrite inject_Z_opp|]; split; intros H; lra.
Qed.

End ErrorBounds.


(** ** Exact products and quotients, and rounding to nearest *)

Module ExactArithmetic.
Import Num F32 Bridge Exact Rounding IntegerNumbers ErrorBounds.

(** A product of two 53-bit mantissas is rounded as it stands. *)
Lemma mul_round (sx sy : bool) (mx my : positive) (ex ey : Z) :
  53 <= Zdigits2 (Zpos (mx * my)) ->
  mul (S754_finite sx mx ex) (S754_finite sy my ey)
  = binary_round 53 1024 (xorb sx sy) (mx * my) (ex + ey).
Proof.
  intros Hd. unfold mul, SFmul, binary_round, shl_align.
  change (Zpos (digits2_pos (mx * my))) with (Zdigits2 (Zpos (mx * my))).
  assert (H : 0 <= fexp 53 1024 (Zdigits2 (Zpos (mx * my)) + (ex + ey)) - (ex + ey)).
  { unfold fexp, emin. lia. }
  destruct (fexp 53 1024 (Zdigits2 (Zpos (mx * my)) + (ex + ey)) - (ex + ey));
    [reflexivity|reflexivity|lia].
Qed.

Lemma Zdigits2_shift (z k : Z) :
  0 < z -> 0 <= k -> Zdigits2 (z * 2 ^ k) = Zdigits2 z + k.
Proof.
  intros Hz Hk. pose proof (Zdigits2_bounds z Hz) as Hb.
  assert (Hd : 1 <= Zdigits2 z) by (destruct z; simpl; lia).
  assert (Hp : 0 < 2 ^ k) by (apply Z.pow_pos_nonneg; lia).
  apply Zdigits2_unique; [|nia].
  replace (Zdigits2 z + k - 1) with ((Zdigits2 z - 1) + k) by lia.
  rewrite !Z.pow_add_r by lia. nia.
Qed.

Lemma Zdigits2_mul_ge (a b : Z) :
  0 < a -> 0 < b -> Zdigits2 a + Zdigits2 b - 1 <= Zdigits2 (a * b).
Proof.
  intros Ha Hb.
  pose proof (Zdigits2_bounds a Ha) as Ba. pose proof (Zdigits2_bounds b Hb) as Bb.
  pose proof (Zdigits2_bounds (a * b) ltac:(nia)) as Bab.
  assert (Hda : 1 <= Zdigits2 a) by (destruct a; simpl; lia).
  assert (Hdb : 1 <= Zdigits2 b) by (destruct b; simpl; lia).
  destruct (Z_le_dec (Zdigits2 a + Zdigits2 b - 1) (Zdigits2 (a * b))) as [|Hsmall];
    [assumption|exfalso].
  assert (Hdab : 1 <= Zdigits2 (a * b)) by (destruct (a * b) eqn:E; simpl; nia).
  pose proof (Z.pow_le_mono_r 2 (Zdigits2 (a * b)) (Zdigits2 a - 1 + (Zdigits2 b - 1))
                ltac:(lia) ltac:(lia)) as Hp.
  rewrite Z.pow_add_r in Hp by lia. nia.
Qed.

(** Multiplying by 1 changes nothing. *)
Lemma mul_one (s : bool) (m : positive) (e : Z) :
  2 ^ 52 <= Zpos m < 2 ^ 53 -> -1074 <= e <= 970 ->
  mul (S754_finite s m e) one = S754_finite s m e.
Proof.
  intros Hm He. unfold one.
  assert (Hprod : Zpos (m * 4503599627370496) = Zpos m * 2 ^ 52).
  { rewrite Pos2Z.inj_mul. reflexivity. }
  rewrite mul_round.
  2:{ rewrite Hprod, Zdigits2_shift by lia.
      rewrite (Zdigits2_unique (Zpos m) 53) by lia. lia. }
  rewrite xorb_false_r.
  rewrite (binary_round_exact s _ (e + -52) (Zpos m) e Hm He).
  - reflexivity.
  - left. split; [lia|]. rewrite Hprod. do 2 f_equal. lia.
Qed.

(** The product of two integers is exact while it stays below 2^53. *)
Lemma mul_int (a b : Z) :
  0 <= a < 2 ^ 53 -> 0 <= b < 2 ^ 53 -> a * b < 2 ^ 53 ->
  mul (of_int a) (of_int b) = of_int (a * b).
Proof.
  intros Ha Hb Hab.
  destruct (Z.eq_dec a 0) as [->|Ha0].
  { replace (0 * b) with 0 by lia. rewrite of_int_0.
    destruct (Z.eq_dec b 0) as [->|Hb0]; [reflexivity|].
    rewrite of_int_canon by lia. reflexivity. }
  destruct (Z.eq_dec b 0) as [->|Hb0].
  { rewrite Z.mul_0_r, of_int_0. rewrite of_int_canon by lia. reflexivity. }
  assert (Ha53 : 0 < a < 2 ^ 53) by lia. assert (Hb53 : 0 < b < 2 ^ 53) by lia.
  rewrite (of_int_canon a), (of_int_canon b), (of_int_canon (a * b)) by nia.
  pose proof (Zdigits2_le53 a Ha53) as Hda. pose proof (Zdigits2_le53 b Hb53) as Hdb.
  pose proof (canon_mantissa a Ha53) as Hma. pose proof (canon_mantissa b Hb53) as Hmb.
  unfold canon at 1 2.
  set (ka := 53 - Zdigits2 a) in *. set (kb := 53 - Zdigits2 b) in *.
  assert (Hpa : 0 < 2 ^ ka) by (apply Z.pow_pos_nonneg; lia).
  assert (Hpb : 0 < 2 ^ kb) by (apply Z.pow_pos_nonneg; lia).
  assert (Hprod : Zpos (Z.to_pos (a * 2 ^ ka) * Z.to_pos (b * 2 ^ kb))
                  = a * b * 2 ^ (ka + kb)).
  { rewrite Pos2Z.inj_mul, !Z2Pos.id by lia. rewrite Z.pow_add_r by lia. ring. }
  rewrite mul_round.
  2:{ rewrite Hprod, Zdigits2_shift by nia.
      pose proof (Zdigits2_mul_ge a b ltac:(lia) ltac:(lia)). lia. }
  cbn [xorb].
  rewrite <- (round_int false (a * b) (ka + kb)) by nia.
  f_equal.
  - apply Pos2Z.inj. rewrite Hprod, Z2Pos.id; [reflexivity|].
    assert (0 < 2 ^ (ka + kb)) by (apply Z.pow_pos_nonneg; lia). nia.
  - lia.
Qed.

(** A quotient that is a 53-bit mantissa at an exponent in range is
    computed exactly. *)
Lemma div_exact (mx my : positive) (ex ey K E : Z) :
  2 ^ 52 <= Zpos mx < 2 ^ 53 -> 2 ^ 52 <= Zpos my < 2 ^ 53 ->
  -1021 <= ex - ey -> ex - ey - 51 <= 971 ->
  2 ^ 52 <= K < 2 ^ 53 -> ex - ey - 53 <= E ->
  Zpos mx * 2 ^ 53 = K * 2 ^ (E - (ex - ey - 53)) * Zpos my ->
  div (S754_finite false mx ex) (S754_finite false my ey)
  = S754_finite false (Z.to_pos K) E.
Proof.
  intros Hx Hy Hlo Hhi HK HE Heq. unfold div, SFdiv, SFdiv_core_binary. cbn [xorb].
  rewrite (Zdigits2_unique (Zpos mx) 53), (Zdigits2_unique (Zpos my) 53) by lia.
  rewrite fexp_normal by lia.
  replace (Z.min (53 + ex - (53 + ey) - 53) (ex - ey)) with (ex - ey - 53) by lia.
  replace (ex - ey - (ex - ey - 53)) with 53 by lia.
  cbv iota. rewrite Z.shiftl_mul_pow2 by lia.
  set (A := Zpos mx * 2 ^ 53) in *.
  set (j := E - (ex - ey - 53)) in *.
  assert (Hpj : 0 < 2 ^ j) by (apply Z.pow_pos_nonneg; lia).
  pose proof (Z_div_mod A (Zpos my) ltac:(lia)) as Hdm.
  destruct (Z.div_eucl A (Zpos my)) as [q r]. destruct Hdm as [HA Hr].
  assert (Hq : q = K * 2 ^ j /\ r = 0).
  { assert (Hdiv : (K * 2 ^ j - q) * Zpos my = r) by lia.
    assert (Hz : K * 2 ^ j - q = 0) by nia. split; nia. }
  destruct Hq as [-> ->].
  assert (Hd : Zdigits2 (K * 2 ^ j) = 53 + j).
  { rewrite Zdigits2_shift by lia. rewrite (Zdigits2_unique K 53) by lia. reflexivity. }
  assert (HAr : 2 ^ 105 <= A < 2 ^ 106).
  { subst A. change (2 ^ 105) with (2 ^ 52 * 2 ^ 53).
    change (2 ^ 106) with (2 ^ 53 * 2 ^ 53). lia. }
  assert (Hj : j <= 1).
  { destruct (Z_le_dec j 1) as [|Hbig]; [assumption|]. exfalso.
    pose proof (Z.pow_le_mono_r 2 2 j ltac:(lia) ltac:(lia)) as Hp.
    change (2 ^ 2) with 4 in Hp.
    change (2 ^ 106) with (2 ^ 53 * 2 ^ 53) in HAr.
    assert (K * 2 ^ j * Zpos my >= 2 ^ 52 * 4 * 2 ^ 52) by nia.
    change (2 ^ 53) with (2 * 2 ^ 52) in HAr. nia. }
  pose proof (new_location_rep (K * 2 ^ j) 0 (Zpos my) ltac:(lia) ltac:(lia)) as Hrep.
  replace (K * 2 ^ j * Zpos my + 0) with A in Hrep by lia.
  destruct (binary_round_aux_normal false (K * 2 ^ j) (ex - ey - 53)
              (new_location (Zpos my) 0) A (Zpos my)
              ltac:(lia) ltac:(lia) Hrep ltac:(lia) ltac:(lia) ltac:(lia))
    as (m & e & M1 & Hres & Hm & Hcase & _ & Hex).
  rewrite Hd in Hcase, Hex. replace (53 + j - 53) with j in Hcase, Hex by lia.
  assert (HM1 : M1 = K) by (apply Hex; lia).
  transitivity (S754_finite false m e); [exact Hres|].
  destruct Hcase as [[-> Hmm]|[_ [H53 _]]]; [|lia].
  f_equal; [|subst j; lia]. apply Pos2Z.inj. rewrite Z2Pos.id by lia. congruence.
Qed.

Lemma Zdigits2_mul_le (q b : Z) :
  0 < q -> 0 < b -> Zdigits2 (q * b) <= Zdigits2 q + Zdigits2 b.
Proof.
  intros Hq Hb.
  pose proof (Zdigits2_bounds q Hq) as Bq. pose proof (Zdigits2_bounds b Hb) as Bb.
  pose proof (Zdigits2_bounds (q * b) ltac:(nia)) as Bqb.
  assert (Hdq : 1 <= Zdigits2 q) by (destruct q; simpl; lia).
  assert (Hdb : 1 <= Zdigits2 b) by (destruct b; simpl; lia).
  destruct (Z_le_dec (Zdigits2 (q * b)) (Zdigits2 q + Zdigits2 b)) as [|Hbig];
    [assumption|exfalso].
  pose proof (Z.pow_le_mono_r 2 (Zdigits2 q + Zdigits2 b) (Zdigits2 (q * b) - 1)
                ltac:(lia) ltac:(lia)) as Hp.
  rewrite Z.pow_add_r in Hp by lia. nia.
Qed.

(** An integer multiple divided by the integer gives the factor. *)
Lemma div_int_exact (q b : Z) :
  0 < q -> 0 < b -> q * b < 2 ^ 53 ->
  div (of_int (q * b)) (of_int b) = of_int q.
Proof.
  intros Hq Hb Hqb.
  assert (Hq53 : 0 < q < 2 ^ 53) by nia. assert (Hb53 : 0 < b < 2 ^ 53) by nia.
  assert (Ha53 : 0 < q * b < 2 ^ 53) by nia.
  rewrite (of_int_canon (q * b)), (of_int_canon b), (of_int_canon q) by assumption.
  pose proof (Zdigits2_le53 q Hq53) as Hdq. pose proof (Zdigits2_le53 b Hb53) as Hdb.
  pose proof (Zdigits2_le53 (q * b) Ha53) as Hda.
  pose proof (canon_mantissa q Hq53) as Hmq. pose proof (canon_mantissa b Hb53) as Hmb.
  pose proof (canon_mantissa (q * b) Ha53) as Hma.
  pose proof (Zdigits2_mul_le q b Hq Hb) as Hle.
  unfold canon.
  set (da := Zdigits2 (q * b)) in *. set (db := Zdigits2 b) in *.
  set (dq := Zdigits2 q) in *.
  apply div_exact; try (rewrite Z2Pos.id by lia); try lia.
  rewrite !Z2Pos.id by lia.
  replace (dq - 53 - (da - 53 - (db - 53) - 53)) with (dq + db - da) by lia.
  replace (q * b * 2 ^ (53 - da) * 2 ^ 53) with (q * b * 2 ^ ((53 - da) + 53)) by
    (rewrite Z.pow_add_r by lia; ring).
  replace (q * 2 ^ (53 - dq) * 2 ^ (dq + db - da) * (b * 2 ^ (53 - db)))
    with (q * b * 2 ^ ((53 - dq) + (dq + db - da) + (53 - db))) by
    (rewrite !Z.pow_add_r by lia; ring).
  do 2 f_equal. lia.
Qed.

(** The floor of an integer is the integer. *)
Lemma floor_int (z : Z) : 0 <= z < 2 ^ 53 -> floor (of_int z) = of_int z.
Proof.
  intros Hz. destruct (Z.eq_dec z 0) as [->|Hz0]; [reflexivity|].
  rewrite of_int_canon by lia. unfold canon, floor.
  pose proof (Zdigits2_le53 z ltac:(lia)) as Hd.
  pose proof (canon_mantissa z ltac:(lia)) as HK.
  destruct (0 <=? Zdigits2 z - 53) eqn:H0; [reflexivity|].
  apply Z.leb_gt in H0. unfold signed. cbn [cond_Zopp].
  rewrite Z2Pos.id by lia. rewrite Z.shiftr_div_pow2 by lia.
  replace (- (Zdigits2 z - 53)) with (53 - Zdigits2 z) by lia.
  rewrite Z.div_mul by (apply Z.pow_nonzero; lia).
  rewrite of_int_canon by lia. reflexivity.
Qed.


(** *** Storing and reading an element *)

(** A mantissa that ends in enough zero bits is rounded by dropping
    them. *)
Lemma binary_round_aux_exact (prec emax : Z) (s : bool) (M : positive) (ex n : Z) :
  0 <= n ->
  fexp prec emax (Zdigits2 (Zpos M * 2 ^ n) + ex) - ex = n ->
  fexp prec emax (Zdigits2 (Zpos M) + (ex + n)) - (ex + n) <= 0 ->
  ex + n <= emax - prec ->
  binary_round_aux prec emax s (Zpos M * 2 ^ n) ex loc_Exact = S754_finite s M (ex + n).
Proof.
  intros Hn H1 H2 H3. unfold binary_round_aux, shr_fexp.
  rewrite H1. rewrite shr_nat by exact Hn.
  assert (Hpow : 0 < 2 ^ n) by (apply Z.pow_pos_nonneg; lia).
  set (mrs := shr_record_of_loc (Zpos M * 2 ^ n) loc_Exact).
  assert (Hm0 : shr_m mrs = Zpos M * 2 ^ n) by reflexivity.
  destruct (shr_iter_rep (Z.to_nat n) mrs (Zpos M * 2 ^ n) 1
              ltac:(rewrite Hm0; lia) ltac:(lia) (fr_rep_exact _)) as [Hrep Hm].
  rewrite Z2Nat.id in Hrep, Hm by exact Hn. rewrite Hm0 in Hm.
  rewrite Z.div_mul in Hm by lia.
  set (rec1 := Nat.iter (Z.to_nat n) shr_1 mrs) in *.
  destruct (rne_spec rec1 (Zpos M * 2 ^ n) (2 ^ n * 1) ltac:(lia) Hrep) as (_ & _ & Hex).
  rewrite (Hex (Zpos M)) by lia.
  destruct (fexp prec emax (Zdigits2 (Zpos M) + (ex + n)) - (ex + n)) as [|p|p] eqn:E;
    [|lia|]; cbn [shr shr_record_of_loc shr_m];
    (destruct (ex + n <=? emax - prec) eqn:Hle; [reflexivity|apply Z.leb_gt in Hle; lia]).
Qed.

Lemma binary_round_exact32 (s : bool) (M : positive) (ex n : Z) :
  0 <= n ->
  fexp 24 128 (Zdigits2 (Zpos M * 2 ^ n) + ex) - ex = n ->
  fexp 24 128 (Zdigits2 (Zpos M) + (ex + n)) - (ex + n) <= 0 ->
  ex + n <= 104 ->
  binary_round 24 128 s (Z.to_pos (Zpos M * 2 ^ n)) ex = S754_finite s M (ex + n).
Proof.
  intros Hn H1 H2 H3. unfold binary_round, shl_align.
  assert (Hpow : 0 < 2 ^ n) by (apply Z.pow_pos_nonneg; lia).
  change (Zpos (digits2_pos ?p)) with (Zdigits2 (Zpos p)).
  rewrite Z2Pos.id by lia. rewrite H1.
  destruct n as [|p|p]; [| |lia];
    rewrite <- (binary_round_aux_exact 24 128 s M ex _ Hn H1 H2 ltac:(lia));
    rewrite Z2Pos.id by lia; reflexivity.
Qed.

(** The three fields make up the 32 bits. *)
Lemma pack_fields (b : Z) :
  0 <= b < 2 ^ 32 -> pack (sign_bit b) (biased_exp b) (fraction b) = b.
Proof.
  intros Hb. unfold pack, sign_bit, biased_exp, fraction.
  change (2 ^ 23 - 1) with (Z.ones 23). change 255 with (Z.ones 8).
  apply Z.bits_inj'. intros n Hn.
  rewrite !Z.lor_spec, !Z.shiftl_spec, !Z.land_spec, !Z.testbit_ones by lia.
  assert (E1 : (0 <=? n) = true) by (apply Z.leb_le; lia). rewrite E1.
  destruct (Z_lt_dec n 23) as [H23|H23].
  - rewrite (Z.testbit_neg_r _ (n - 31)), (Z.testbit_neg_r _ (n - 23)) by lia.
    assert (E2 : (n <? 23) = true) by (apply Z.ltb_lt; lia).
    rewrite E2. cbn [orb andb]. apply andb_true_r.
  - assert (E2 : (n <? 23) = false) by (apply Z.ltb_ge; lia).
    rewrite E2. cbn [andb]. rewrite !andb_false_r, orb_false_r.
    rewrite Z.shiftr_spec by lia.
    replace (n - 23 + 23) with n by lia.
    assert (E3 : (0 <=? n - 23) = true) by (apply Z.leb_le; lia). rewrite E3.
    destruct (Z_lt_dec n 31) as [H31|H31].
    + rewrite (Z.testbit_neg_r _ (n - 31)) by lia.
      assert (E4 : (n - 23 <? 8) = true) by (apply Z.ltb_lt; lia).
      rewrite E4. cbn [orb andb]. apply andb_true_r.
    + assert (E4 : (n - 23 <? 8) = false) by (apply Z.ltb_ge; lia).
      rewrite E4. cbn [andb]. rewrite !andb_false_r, orb_false_r.
      destruct (Z.eq_dec n 31) as [->|Hne].
      * change (31 - 31) with 0. apply Z.b2z_bit0.
      * assert (Hhigh : Z.testbit b n = false).
        { destruct (Z.eq_dec b 0) as [->|Hb0]; [apply Z.testbit_0_l|].
          apply Z.bits_above_log2; [lia|].
          assert (Z.log2 b < 32) by (apply Z.log2_lt_pow2; lia). lia. }
        rewrite Hhigh.
        destruct (Z.testbit b 31); cbn [Z.b2z].
        -- replace (n - 31) with (Z.succ (n - 32)) by lia.
           change 1 with (2 * 0 + Z.b2z true).
           rewrite Z.testbit_succ_r by lia. apply Z.testbit_0_l.
        -- apply Z.testbit_0_l.
Qed.

(** Division rounds to nearest: the result is a multiple [M1 * 2^n] of the
    spacing [2^n] of the results, in units of [2^(ex - ey - 53)], and lies
    within half that spacing of the exact quotient. *)
Lemma div_nearest (mx my : positive) (ex ey : Z) :
  2 ^ 52 <= Zpos mx < 2 ^ 53 -> 2 ^ 52 <= Zpos my < 2 ^ 53 ->
  -1021 <= ex - ey -> ex - ey - 51 <= 971 ->
  exists (m : positive) (e M1 n : Z),
    div (S754_finite false mx ex) (S754_finite false my ey) = S754_finite false m e
    /\ 2 ^ 52 <= Zpos m < 2 ^ 53
    /\ 0 <= n <= 1
    /\ ex - ey - 53 + n <= e
    /\ Zpos m * 2 ^ (e - (ex - ey - 53)) = M1 * 2 ^ n
    /\ 2 * Z.abs (M1 * (2 ^ n * Zpos my) - Zpos mx * 2 ^ 53) <= 2 ^ n * Zpos my.
Proof.
  intros Hx Hy Hlo Hhi. unfold div, SFdiv, SFdiv_core_binary. cbn [xorb].
  rewrite (Zdigits2_unique (Zpos mx) 53), (Zdigits2_unique (Zpos my) 53) by lia.
  rewrite fexp_normal by lia.
  replace (Z.min (53 + ex - (53 + ey) - 53) (ex - ey)) with (ex - ey - 53) by lia.
  replace (ex - ey - (ex - ey - 53)) with 53 by lia.
  cbv iota. rewrite Z.shiftl_mul_pow2 by lia.
  set (A := Zpos mx * 2 ^ 53).
  pose proof (Z_div_mod A (Zpos my) ltac:(lia)) as Hdm.
  destruct (Z.div_eucl A (Zpos my)) as [q r]. destruct Hdm as [HA Hr].
  assert (HAr : 2 ^ 105 <= A < 2 ^ 106).
  { subst A. change (2 ^ 105) with (2 ^ 52 * 2 ^ 53).
    change (2 ^ 106) with (2 ^ 53 * 2 ^ 53). lia. }
  assert (Hq : 2 ^ 52 <= q < 2 ^ 54).
  { change (2 ^ 105) with (2 ^ 52 * 2 ^ 53) in HAr.
    change (2 ^ 106) with (2 ^ 54 * 2 ^ 52) in HAr. nia. }
  pose proof (Zdigits2_bounds q ltac:(lia)) as Hd.
  assert (Hdr : 53 <= Zdigits2 q <= 54).
  { split.
    - destruct (Z_le_dec 53 (Zdigits2 q)) as [|Hs]; [assumption|].
      pose proof (Z.pow_le_mono_r 2 (Zdigits2 q) 52 ltac:(lia) ltac:(lia)). lia.
    - destruct (Z_le_dec (Zdigits2 q) 54) as [|Hs]; [assumption|].
      pose proof (Z.pow_le_mono_r 2 54 (Zdigits2 q - 1) ltac:(lia) ltac:(lia)). lia. }
  pose proof (new_location_rep q r (Zpos my) ltac:(lia) Hr) as Hrep.
  replace (q * Zpos my + r) with A in Hrep by lia.
  destruct (binary_round_aux_normal false q (ex - ey - 53)
              (new_location (Zpos my) r) A (Zpos my)
              ltac:(lia) ltac:(lia) Hrep ltac:(lia) ltac:(lia) ltac:(lia))
    as (m & e & M1 & Heq & Hm & Hcase & Hbound & _).
  set (n := Zdigits2 q - 53) in *.
  exists m, e, M1, n. split; [exact Heq|]. split; [exact Hm|].
  split; [lia|].
  split; [destruct Hcase as [[-> _]|[-> _]]; lia|].
  split; [|exact Hbound].
  destruct Hcase as [[-> ->]|[-> [-> ->]]].
  - do 2 f_equal. lia.
  - replace (ex - ey - 53 + n + 1 - (ex - ey - 53)) with (1 + n) by lia.
    rewrite Z.pow_add_r by lia. lia.
Qed.

(** Rounding does not take a quotient below an integer that it reaches:
    if [t * y <= x] for an integer [t] and the quotient is below 2^52, then
    [t <= x / y] as computed. *)
Lemma div_ge_integer (x y : number) (mx my : positive) (ex ey t : Z) :
  normal x mx ex -> normal y my ey ->
  -1021 <= ex - ey -> ex - ey - 51 <= 971 ->
  0 <= t ->
  (inject_Z t * to_Q y <= to_Q x)%Q ->
  (to_Q (div x y) < inject_Z (2 ^ 52))%Q ->
  (inject_Z t <= to_Q (div x y))%Q.
Proof.
  intros [-> Hx] [-> Hy] Hlo Hhi Ht Hle Hlt.
  destruct (div_nearest mx my ex ey Hx Hy Hlo Hhi)
    as (m & e & M1 & n & Heq & Hm & Hn & He & HW & Hb).
  rewrite Heq in *.
  assert (He0 : e < 0).
  { destruct (Z_lt_dec e 0) as [|Hge]; [assumption|]. exfalso.
    rewrite (to_Q_scaled m e 0) in Hlt by lia.
    change (2 ^ 0)%Q with 1%Q in Hlt. rewrite Qmult_1_r in Hlt.
    rewrite <- Zlt_Qlt in Hlt.
    assert (0 < 2 ^ (e - 0)) by (apply Z.pow_pos_nonneg; lia). nia. }
  set (E0 := ex - ey - 53) in *.
  set (g := - E0). assert (Hg : n + 1 <= g) by (subst g; lia).
  assert (Hpn : 0 < 2 ^ n) by (apply Z.pow_pos_nonneg; lia).
  assert (Hpg : 2 ^ g = 2 ^ (g - n) * 2 ^ n).
  { rewrite <- Z.pow_add_r by lia. f_equal. lia. }
  assert (HpP : 0 < 2 ^ (g - n)) by (apply Z.pow_pos_nonneg; lia).
  (* the hypothesis, in integers *)
  assert (HleZ : t * 2 ^ g * Zpos my <= Zpos mx * 2 ^ 53).
  { rewrite Zle_Qle. rewrite !inject_Z_mult. rewrite !Qpow2_inject by lia.
    unfold to_Q, signed in Hle. cbn [cond_Zopp] in Hle.
    assert (Hs : (0 < 2 ^ (g - ey))%Q) by apply Qpow2_pos.
    apply (Qmult_le_compat_r _ _ (2 ^ (g - ey))%Q) in Hle; [|lra].
    assert (E1 : (2 ^ ey * 2 ^ (g - ey) == 2 ^ g)%Q).
    { rewrite <- Qpow2_add. replace (ey + (g - ey)) with g by lia. reflexivity. }
    assert (E2 : (2 ^ ex * 2 ^ (g - ey) == 2 ^ 53)%Q).
    { rewrite <- Qpow2_add. replace (ex + (g - ey)) with 53 by (subst g E0; lia).
      reflexivity. }
    rewrite <- E1, <- E2.
    assert (X : (inject_Z t * (2 ^ ey * 2 ^ (g - ey)) * inject_Z (Zpos my)
                 == inject_Z t * (inject_Z (Zpos my) * 2 ^ ey) * 2 ^ (g - ey))%Q) by ring.
    assert (Y : (inject_Z (Zpos mx) * (2 ^ ex * 2 ^ (g - ey))
                 == inject_Z (Zpos mx) * 2 ^ ex * 2 ^ (g - ey))%Q) by ring.
    rewrite X, Y.
    exact Hle. }
  (* the result is a multiple of the spacing, half a spacing away at most *)
  assert (HtM : t * 2 ^ (g - n) <= M1).
  { set (u := 2 ^ n * Zpos my) in *. assert (Hu : 0 < u) by (subst u; nia).
    assert (H1 : 2 * (t * 2 ^ (g - n)) * u <= 2 * (Zpos mx * 2 ^ 53)).
    { subst u. rewrite Hpg in HleZ. nia. }
    assert (H2 : 2 * (Zpos mx * 2 ^ 53) <= (2 * M1 + 1) * u) by lia.
    assert (H3 : 2 * (t * 2 ^ (g - n)) * u <= (2 * M1 + 1) * u) by lia.
    apply Z.mul_le_mono_pos_r in H3; [lia|exact Hu]. }
  rewrite (to_Q_scaled m e E0) by lia. rewrite HW.
  assert (Hs : (0 < 2 ^ g)%Q) by apply Qpow2_pos.
  apply (Qmult_le_r _ _ (2 ^ g)%Q Hs).
  assert (E3 : (2 ^ E0 * 2 ^ g == 1)%Q).
  { rewrite <- Qpow2_add. replace (E0 + g) with 0 by (subst g; lia). reflexivity. }
  rewrite <- Qmult_assoc, E3, Qmult_1_r.
  rewrite <- Qpow2_inject by lia. rewrite <- inject_Z_mult, <- Zle_Qle.
  rewrite Hpg. nia.
Qed.

End ExactArithmetic.


(** ** Identity resampling *)

Module ResampleIdentity.
Import Num F32 Bridge.

Lemma strict_eq_refl (r : number) : is_nan r = false -> strict_eq r r = true.
Proof.
  unfold strict_eq, SFeqb.
  destruct r as [s | s | | s m e]; simpl; try discriminate; intros _.
  - reflexivity.
  - destruct s; reflexivity.
  - destruct s; rewrite Z.compare_refl, Pos.compare_cont_refl; reflexivity.
Qed.

(** C10.  Resampling a frame from a rate to the same rate returns the very
    reference it was given and allocates nothing: the result is the input
    buffer itself, whatever its contents.  A rate is a number, that is, not
    NaN. *)
Theorem resample_same_rate_is_input (h : heap) (x : ref) (r : number) :
  is_nan r = false ->
  resampleAudio h x r r = Normal (x, h).
Proof.
  intros Hr. unfold resampleAudio, resampleAudio_on.
  rewrite strict_eq_refl by exact Hr. reflexivity.
Qed.

Lemma resample_same_rate_is_input_witness :
  resampleAudio [[0; 1065353216]] 0%nat (of_int 48000) (of_int 48000)
  = Normal (0%nat, [[0; 1065353216]]).
Proof.
  apply (resample_same_rate_is_input [[0; 1065353216]] 0%nat (of_int 48000)).
  reflexivity.
Defined.

End ResampleIdentity.


(** ** The resampler: output length and indices read *)

Module ResampleFacts.
Import Num F32 Bridge Exact Rounding IntegerNumbers ErrorBounds ExactArithmetic.

Lemma inject_Z_le (a b : Z) : a <= b -> (inject_Z a <= inject_Z b)%Q.
Proof. intros H. rewrite <- Zle_Qle. exact H. Qed.

Lemma inject_Z_lt (a b : Z) : a < b -> (inject_Z a < inject_Z b)%Q.
Proof. intros H. rewrite <- Zlt_Qlt. exact H. Qed.

Section Resample.

Variables (input : list Z) (hin hout : Z).
Hypothesis Hin : 0 < hin < 2 ^ 53.
Hypothesis Hout : 0 < hout < 2 ^ 53.
Hypothesis Hsize : Z.of_nat (length input) * hout <= 2 ^ 50.

Let n := Z.of_nat (length input).
Let r := ratio_of (of_int hin) (of_int hout).

Lemma n_small : n <= 2 ^ 50.
Proof. unfold n in *. nia. Qed.

(** The quotient [length / ratio] and its floor, for a non-empty frame. *)
Lemma outputLength_floor :
  0 < n ->
  exists (mr : positive) (er : Z) (L : Z),
    normal r mr er /\ -105 <= er <= 1
    /\ ((1 - eps) * inject_Z hin <= to_Q r * inject_Z hout
        /\ to_Q r * inject_Z hout <= (1 + eps) * inject_Z hin)%Q
    /\ outputLength input r = of_int L
    /\ 0 <= L < 2 ^ 52
    /\ ((1 - eps) * inject_Z n < (inject_Z L + 1) * to_Q r
        /\ inject_Z L * to_Q r <= (1 + eps) * inject_Z n)%Q.
Proof.
  intros Hn. pose proof n_small as Hn50.
  destruct (ratio_bounds hin hout Hin Hout) as (mr & er & Hr & Her & HR1 & HR2).
  fold r in Hr, HR1, HR2.
  destruct (quotient_bounds n r mr er ltac:(lia) Hr Her) as (mq & eq & Hq & HQ1 & HQ2).
  pose proof (normal_pos _ _ _ Hr) as Hrpos.
  pose proof (normal_pos _ _ _ Hq) as Hqpos.
  set (R := to_Q r) in *. set (Q := to_Q (div (of_int n) r)) in *.
  pose proof (inject_Z_le _ _ Hsize) as HsizeQ. fold n in HsizeQ.
  rewrite inject_Z_mult in HsizeQ.
  change (inject_Z (2 ^ 50)) with (1125899906842624 # 1)%Q in HsizeQ.
  pose proof (inject_Z_le 1 hin ltac:(lia)) as Hhin1.
  pose proof (inject_Z_le 1 hout ltac:(lia)) as Hhout1.
  pose proof (inject_Z_le 1 n ltac:(lia)) as Hn1.
  change (inject_Z 1) with 1%Q in *.
  set (qn := inject_Z n) in *. set (qin := inject_Z hin) in *.
  set (qout := inject_Z hout) in *.
  assert (HQsmall : (Q < inject_Z (2 ^ 52))%Q).
  { change (inject_Z (2 ^ 52)) with (4503599627370496 # 1)%Q.
    assert (A1 : (Q * (R * qout) <= (1 + eps) * (qn * qout))%Q) by (unfold eps in *; nra).
    assert (A2 : (Q * (1 - eps) <= Q * (R * qout))%Q) by (unfold eps in *; nra).
    unfold eps in *. lra. }
  destruct (floor_normal _ _ _ Hq HQsmall) as (L & HL & HLr & HL1 & HL2).
  exists mr, er, L. split; [exact Hr|]. split; [exact Her|].
  split; [split; assumption|].
  split; [exact HL|]. split; [exact HLr|].
  fold Q in HL1, HL2. split.
  - unfold eps in *. nra.
  - unfold eps in *. nra.
Qed.

(** The first index read for output index [i]. *)
Lemma srcIndexFloor_int (mr : positive) (er L i : Z) :
  0 < n ->
  normal r mr er -> -105 <= er <= 1 ->
  ((1 - eps) * inject_Z hin <= to_Q r * inject_Z hout)%Q ->
  0 <= L < 2 ^ 52 ->
  (inject_Z L * to_Q r <= (1 + eps) * inject_Z n)%Q ->
  0 <= i < L ->
  exists j, srcIndexFloor r i = of_int j /\ 0 <= j <= n - 1.
Proof.
  intros Hn Hr Her HR1 HL HLR Hi. pose proof n_small as Hn50.
  unfold srcIndexFloor, srcIndex.
  destruct (Z.eq_dec i 0) as [->|Hi0].
  { exists 0. split; [|lia]. destruct Hr as [-> _]. reflexivity. }
  pose proof (Zdigits2_le53 i ltac:(lia)) as Hdi.
  rewrite (of_int_canon i) by lia.
  destruct (mul_bounds _ _ _ _ _ _ (canon_normal i ltac:(lia)) Hr ltac:(lia) ltac:(lia))
    as (mp & ep & Hp & _ & _ & HP2).
  rewrite (to_Q_canon i) in HP2 by lia.
  pose proof (normal_pos _ _ _ Hr) as Hrpos.
  set (R := to_Q r) in *. set (P := to_Q (mul (canon false i) r)) in *.
  pose proof (inject_Z_le _ _ Hsize) as HsizeQ. fold n in HsizeQ.
  rewrite inject_Z_mult in HsizeQ.
  change (inject_Z (2 ^ 50)) with (1125899906842624 # 1)%Q in HsizeQ.
  pose proof (inject_Z_le 1 hin ltac:(lia)) as Hhin1.
  pose proof (inject_Z_le 1 hout ltac:(lia)) as Hhout1.
  pose proof (inject_Z_le 1 n ltac:(lia)) as Hn1.
  pose proof (inject_Z_le n (2 ^ 50) Hn50) as Hn50Q.
  change (inject_Z (2 ^ 50)) with (1125899906842624 # 1)%Q in Hn50Q.
  pose proof (inject_Z_le (i + 1) L ltac:(lia)) as HiL.
  rewrite inject_Z_plus in HiL.
  pose proof (inject_Z_le 1 i ltac:(lia)) as Hi1.
  change (inject_Z 1) with 1%Q in *.
  set (qn := inject_Z n) in *. set (qin := inject_Z hin) in *.
  set (qout := inject_Z hout) in *. set (qi := inject_Z i) in *.
  set (qL := inject_Z L) in *.
  assert (B1 : (qi * R <= (1 + eps) * qn - R)%Q) by (unfold eps in *; nra).
  assert (B2 : ((1 - eps) <= R * qout)%Q) by (unfold eps in *; nra).
  assert (B3 : ((3 # 9007199254740992) * qn < R)%Q).
  { assert (B4 : ((3 # 9007199254740992) * (qn * qout) < R * qout)%Q)
      by (unfold eps in *; lra).
    nra. }
  assert (HPn : (P < qn)%Q) by (unfold eps in *; nra).
  assert (HPsmall : (P < inject_Z (2 ^ 52))%Q).
  { change (inject_Z (2 ^ 52)) with (4503599627370496 # 1)%Q. lra. }
  destruct (floor_normal _ _ _ Hp HPsmall) as (j & Hj & Hjr & Hj1 & _).
  exists j. split; [exact Hj|]. split; [lia|].
  fold P in Hj1. assert (Hjn : (inject_Z j < qn)%Q) by lra.
  unfold qn in Hjn. rewrite <- Zlt_Qlt in Hjn. lia.
Qed.

(** Both indices read for output index [i] are indices of the frame. *)
Lemma reads_in_bounds (mr : positive) (er L i : Z) :
  0 < n ->
  normal r mr er -> -105 <= er <= 1 ->
  ((1 - eps) * inject_Z hin <= to_Q r * inject_Z hout)%Q ->
  0 <= L < 2 ^ 52 ->
  (inject_Z L * to_Q r <= (1 + eps) * inject_Z n)%Q ->
  0 <= i < L ->
  in_bounds input (srcIndexFloor r i) = true
  /\ in_bounds input (srcIndexCeil input r i) = true.
Proof.
  intros Hn Hr Her HR1 HL HLR Hi. pose proof n_small as Hn50.
  destruct (srcIndexFloor_int mr er L i Hn Hr Her HR1 HL HLR Hi) as (j & Hj & Hjr).
  unfold srcIndexCeil, length_of. rewrite Hj. fold n.
  rewrite add_int, sub_int, min_int by lia.
  unfold in_bounds. rewrite !integer_index_int by lia. fold n.
  split; apply andb_true_iff; split; try (apply Z.leb_le; lia); apply Z.ltb_lt; lia.
Qed.

End Resample.

(** The constructor on an integer length that the language allows. *)
Lemma new_Float32Array_int (canCreate : Z -> bool) (L : Z) :
  0 <= L < 2 ^ 51 ->
  new_Float32Array canCreate (of_int L) = if canCreate L then Normal L else RangeError.
Proof.
  intros HL. unfold new_Float32Array. rewrite ToIndex_int by lia.
  assert (H4 : (4 * L <=? 2 ^ 53 - 1) = true) by (apply Z.leb_le; lia).
  rewrite H4. reflexivity.
Qed.

(** The branch that builds a new array, once the length it asks for is
    known: it throws exactly when the engine cannot create the array. *)
Lemma resample_on_outcome (canCreate : Z -> bool) (input : list Z) (r1 r2 : number)
    (L : Z) :
  0 <= L < 2 ^ 51 ->
  outputLength input (ratio_of r1 r2) = of_int L ->
  resample_on canCreate input r1 r2
  = if canCreate L
    then Normal ((fun i => of_number (interpolate input (ratio_of r1 r2) i)) <$> seqZ 0 L)
    else RangeError.
Proof.
  intros HL Hout. unfold resample_on. rewrite Hout, new_Float32Array_int by exact HL.
  destruct (canCreate L); reflexivity.
Qed.

Lemma resample_fresh_Normal (input : list Z) (r1 r2 : number) (L : Z) :
  0 <= L < 2 ^ 51 ->
  outputLength input (ratio_of r1 r2) = of_int L ->
  exists out, resample_fresh input r1 r2 = Normal out /\ Z.of_nat (length out) = L.
Proof.
  intros HL Hout. unfold resample_fresh.
  rewrite (resample_on_outcome _ input r1 r2 L HL Hout).
  eexists. split; [reflexivity|]. rewrite length_fmap, length_seqZ. lia.
Qed.

Lemma empty_outputLength (hin hout : Z) :
  0 < hin < 2 ^ 53 -> 0 < hout < 2 ^ 53 ->
  outputLength [] (ratio_of (of_int hin) (of_int hout)) = of_int 0.
Proof.
  intros Hin Hout.
  destruct (ratio_bounds hin hout Hin Hout) as (mr & er & [Hr _] & _).
  unfold outputLength. rewrite Hr. reflexivity.
Qed.

(** The length the resampler asks for, and the indices it reads.  For
    integer rates, the length of the frame times the output rate being at
    most 2^50: the length is [floor(len * outputRate / inputRate)] or one
    less, the former when [len * outputRate] is not a multiple of the input
    rate; and for every output index below it both indices read are
    indices of the frame. *)
Lemma output_length_law (input : list Z) (hin hout : Z) :
  0 < hin < 2 ^ 53 -> 0 < hout < 2 ^ 53 ->
  Z.of_nat (length input) * hout <= 2 ^ 50 ->
  let N := Z.of_nat (length input) * hout in
  let ratio := ratio_of (of_int hin) (of_int hout) in
  exists L,
    outputLength input ratio = of_int L
    /\ 0 <= L /\ N / hin - 1 <= L <= N / hin
    /\ (N mod hin <> 0 -> L = N / hin)
    /\ forall i, 0 <= i < L ->
         in_bounds input (srcIndexFloor ratio i) = true
         /\ in_bounds input (srcIndexCeil input ratio i) = true.
Proof.
  intros Hin Hout Hsize N ratio.
  assert (HNdef : N = Z.of_nat (length input) * hout) by reflexivity.
  clearbody N.
  destruct (Z.eq_dec (Z.of_nat (length input)) 0) as [Hn0|Hn0].
  - assert (input = []) as -> by (destruct input; [reflexivity|simpl in Hn0; lia]).
    exists 0. split; [apply (empty_outputLength hin hout Hin Hout)|].
    assert (N = 0) as -> by (rewrite HNdef; simpl; lia).
    rewrite Z.div_0_l, Z.mod_0_l by lia.
    split; [lia|]. split; [lia|]. split; [intros H; contradiction|]. intros i Hi. lia.
  - assert (Hn : 0 < Z.of_nat (length input)) by lia.
    destruct (outputLength_floor input hin hout Hin Hout Hsize Hn)
      as (mr & er & L & Hr & Her & [HR1 HR2] & HL & HLr & [HL1 HL2]).
    exists L. split; [exact HL|]. split; [lia|].
    assert (Hreads : forall i, 0 <= i < L ->
              in_bounds input (srcIndexFloor ratio i) = true
              /\ in_bounds input (srcIndexCeil input ratio i) = true).
    { intros i Hi.
      apply (reads_in_bounds input hin hout Hin Hout Hsize mr er L i Hn Hr Her HR1 HLr HL2).
      exact Hi. }
    pose proof (normal_pos _ _ _ Hr) as Hrpos.
    set (R := to_Q (ratio_of (of_int hin) (of_int hout))) in *.
    pose proof (Z.div_mod N hin ltac:(lia)) as Hdm.
    pose proof (Z.mod_pos_bound N hin ltac:(lia)) as Hmod.
    set (F := N / hin) in *. set (rho := N mod hin) in *.
    pose proof (inject_Z_le _ _ Hsize) as HsizeQ. rewrite <- HNdef in HsizeQ.
    change (inject_Z (2 ^ 50)) with (1125899906842624 # 1)%Q in HsizeQ.
    assert (HNQ : (inject_Z N == inject_Z (Z.of_nat (length input)) * inject_Z hout)%Q)
      by (rewrite HNdef, inject_Z_mult; reflexivity).
    pose proof (inject_Z_le 1 hin ltac:(lia)) as Hhin1.
    pose proof (inject_Z_le 1 hout ltac:(lia)) as Hhout1.
    pose proof (inject_Z_le 0 L ltac:(lia)) as HL0.
    change (inject_Z 1) with 1%Q in *. change (inject_Z 0) with 0%Q in *.
    set (qn := inject_Z (Z.of_nat (length input))) in *.
    set (qin := inject_Z hin) in *. set (qout := inject_Z hout) in *.
    set (qL := inject_Z L) in *. set (qN := inject_Z N) in *.
    (* the two estimates, with the ratio eliminated *)
    assert (U : ((1 - eps) * (qL * qin) <= (1 + eps) * qN)%Q).
    { assert (U1 : (qL * (R * qout) <= (1 + eps) * (qn * qout))%Q) by (unfold eps in *; nra).
      assert (U2 : (qL * ((1 - eps) * qin) <= qL * (R * qout))%Q) by (unfold eps in *; nra).
      rewrite HNQ. unfold eps in *. lra. }
    assert (Lo : ((1 - eps) * qN < (1 + eps) * ((qL + 1) * qin))%Q).
    { assert (L1 : ((1 - eps) * (qn * qout) < (qL + 1) * (R * qout))%Q)
        by (unfold eps in *; nra).
      assert (L2 : ((qL + 1) * (R * qout) <= (qL + 1) * ((1 + eps) * qin))%Q)
        by (unfold eps in *; nra).
      rewrite HNQ. unfold eps in *. lra. }
    assert (HLin : (inject_Z (L * hin) == qL * qin)%Q)
      by (rewrite inject_Z_mult; reflexivity).
    assert (HL1in : (inject_Z ((L + 1) * hin) == (qL + 1) * qin)%Q).
    { rewrite inject_Z_mult, inject_Z_plus. reflexivity. }
    rewrite <- HLin in U. rewrite <- HL1in in Lo.
    assert (Hupper : L <= F).
    { destruct (Z_le_dec L F) as [|Hgt]; [assumption|]. exfalso.
      assert (HT : N + 1 <= L * hin) by nia.
      apply inject_Z_le in HT. rewrite inject_Z_plus in HT. fold qN in HT.
      change (inject_Z 1) with 1%Q in HT. unfold eps in *. lra. }
    assert (Hlower : F - 1 <= L).
    { destruct (Z_le_dec (F - 1) L) as [|Hlt]; [assumption|]. exfalso.
      assert (HT : (L + 1) * hin <= N - 1) by nia.
      apply inject_Z_le in HT. unfold Zminus in HT. rewrite inject_Z_plus in HT.
      fold qN in HT. change (inject_Z (- (1))) with (- (1))%Q in HT.
      unfold eps in *. lra. }
    split; [lia|]. split; [|exact Hreads].
    intros Hrho.
    destruct (Z_le_dec F L) as [|Hlt]; [lia|]. exfalso.
    assert (HT : (L + 1) * hin <= N - 1) by nia.
    apply inject_Z_le in HT. unfold Zminus in HT. rewrite inject_Z_plus in HT.
    fold qN in HT. change (inject_Z (- (1))) with (- (1))%Q in HT.
    unfold eps in *. lra.
Qed.

Lemma output_length_small (input : list Z) (hin hout L : Z) :
  0 < hin -> Z.of_nat (length input) * hout <= 2 ^ 50 ->
  L <= Z.of_nat (length input) * hout / hin -> L < 2 ^ 51.
Proof.
  intros Hin Hsize HL.
  assert (H0 : 0 <= Z.of_nat (length input) * hout \/ Z.of_nat (length input) * hout < 0)
    by lia.
  assert (Hdiv : Z.of_nat (length input) * hout / hin <= 2 ^ 50).
  { apply Z.div_le_upper_bound; [lia|]. nia. }
  lia.
Qed.

(** On the branch that builds a new array: the length of the result. *)
Lemma resample_fresh_length (input : list Z) (hin hout : Z) :
  0 < hin < 2 ^ 53 -> 0 < hout < 2 ^ 53 ->
  Z.of_nat (length input) * hout <= 2 ^ 50 ->
  let N := Z.of_nat (length input) * hout in
  exists out,
    resample_fresh input (of_int hin) (of_int hout) = Normal out
    /\ N / hin - 1 <= Z.of_nat (length out) <= N / hin
    /\ (N mod hin <> 0 -> Z.of_nat (length out) = N / hin).
Proof.
  intros Hin Hout Hsize N.
  destruct (output_length_law input hin hout Hin Hout Hsize)
    as (L & HL & HL0 & HLb & HLe & _).
  pose proof (output_length_small input hin hout L ltac:(lia) Hsize ltac:(lia)) as Hs.
  destruct (resample_fresh_Normal input (of_int hin) (of_int hout) L ltac:(lia) HL)
    as (out & Hout' & Hlen).
  exists out. split; [exact Hout'|]. rewrite Hlen. split; [exact HLb|exact HLe].
Qed.

Lemma strict_eq_int (a b : Z) :
  0 <= a < 2 ^ 53 -> 0 <= b < 2 ^ 53 -> strict_eq (of_int a) (of_int b) = (a =? b).
Proof.
  intros Ha Hb. unfold strict_eq, SFeqb. rewrite compare_int by assumption.
  destruct (Z.compare_spec a b) as [->|H|H]; symmetry;
    [apply Z.eqb_refl|apply Z.eqb_neq; lia|apply Z.eqb_neq; lia].
Qed.

(** [resampleAudio] on the engine that creates every block. *)
Lemma resampleAudio_fresh (h : list (list Z)) (x : nat) (r1 r2 : number) :
  resampleAudio h x r1 r2
  = if strict_eq r1 r2 then Normal (x, h)
    else match resample_fresh (deref h x) r1 r2 with
         | RangeError => RangeError
         | Normal output => Normal (alloc h output)
         end.
Proof. reflexivity. Qed.

Lemma ToIndex_nonneg (x : number) (n : Z) : ToIndex x = Normal n -> 0 <= n.
Proof.
  destruct x as [sz| |  |s m e]; cbn [ToIndex]; try discriminate;
    try (intros H; injection H as <-; lia).
  destruct ((truncate s m e <? 0) || (2 ^ 53 - 1 <? truncate s m e)) eqn:E; [discriminate|].
  intros H. injection H as <-.
  apply orb_false_iff in E as [E _]. apply Z.ltb_ge in E. exact E.
Qed.

(** An engine that creates the array asked for gives what the engine that
    creates every block gives. *)
Lemma resample_on_fits (canCreate : Z -> bool) (input : list Z) (r1 r2 : number)
    (out : list Z) :
  resample_fresh input r1 r2 = Normal out ->
  canCreate (Z.of_nat (length out)) = true ->
  resample_on canCreate input r1 r2 = Normal out.
Proof.
  unfold resample_fresh, resample_on, new_Float32Array.
  destruct (ToIndex (outputLength input (ratio_of r1 r2))) as [n|] eqn:HT; [|discriminate].
  pose proof (ToIndex_nonneg _ _ HT) as Hn.
  destruct (4 * n <=? 2 ^ 53 - 1) eqn:H4; cbn [andb]; [|discriminate].
  intros Hres Hcan. injection Hres as <-.
  rewrite length_fmap, length_seqZ, Z2Nat.id in Hcan by exact Hn.
  rewrite Hcan. reflexivity.
Qed.

(** What the engine that creates every block refuses, every engine
    refuses. *)
Lemma resample_on_throws (canCreate : Z -> bool) (input : list Z) (r1 r2 : number) :
  resample_fresh input r1 r2 = RangeError ->
  resample_on canCreate input r1 r2 = RangeError.
Proof.
  unfold resample_fresh, resample_on, new_Float32Array.
  destruct (ToIndex (outputLength input (ratio_of r1 r2))) as [n|]; [|reflexivity].
  destruct (4 * n <=? 2 ^ 53 - 1); cbn [andb]; [discriminate|reflexivity].
Qed.

(** The same for [resampleAudio]: its result is the result on every engine
    that can create the new array, if one is built. *)
Lemma resampleAudio_on_fits (canCreate : Z -> bool) (h : list (list Z)) (x : nat)
    (r1 r2 : number) (res : nat * list (list Z)) :
  resampleAudio h x r1 r2 = Normal res ->
  (strict_eq r1 r2 = false ->
   canCreate (Z.of_nat (length (deref (snd res) (fst res)))) = true) ->
  resampleAudio_on canCreate h x r1 r2 = Normal res.
Proof.
  rewrite resampleAudio_fresh. unfold resampleAudio_on.
  destruct (strict_eq r1 r2); [intros H _; exact H|].
  destruct (resample_fresh (deref h x) r1 r2) as [out|] eqn:E; [|discriminate].
  intros H Hcan. injection H as <-. specialize (Hcan eq_refl).
  unfold alloc, deref in Hcan. cbn [fst snd] in Hcan.
  rewrite lookup_app_r, Nat.sub_diag in Hcan by reflexivity. cbn in Hcan.
  rewrite (resample_on_fits canCreate _ _ _ out E Hcan). reflexivity.
Qed.

(** C8, amended.  For every frame, the empty one included, and every pair
    of positive integer sample rates below 2^53 such that the length of the
    frame times the output rate is at most 2^50: with equal rates
    [resampleAudio] returns its input and reads nothing; otherwise it asks
    for a new array of [L] elements, where [L] is at most
    [floor(len * outputRate / inputRate)], so no longer than the frame when
    the output rate does not exceed the input rate.  It fails in one way
    only, with the RangeError of the constructor, and exactly when the
    engine cannot create an array of [L] elements.  When the engine can, it
    returns a new array of [L] elements and, for every output index [i],
    both indices it reads, [floor(srcIndex)] and
    [min(floor(srcIndex) + 1, inputLength - 1)] with [srcIndex = i * ratio],
    are indices of the input frame. *)
Theorem resample_reads_in_bounds (canCreate : Z -> bool) (h : list (list Z))
    (x : nat) (hin hout : Z) :
  0 < hin < 2 ^ 53 -> 0 < hout < 2 ^ 53 ->
  Z.of_nat (length (deref h x)) * hout <= 2 ^ 50 ->
  let input := deref h x in
  let ratio := ratio_of (of_int hin) (of_int hout) in
  let result := resampleAudio_on canCreate h x (of_int hin) (of_int hout) in
  (hin = hout -> result = Normal (x, h))
  /\ (hin <> hout ->
      exists L,
        outputLength input ratio = of_int L
        /\ 0 <= L <= Z.of_nat (length input) * hout / hin
        /\ (hout <= hin -> L <= Z.of_nat (length input))
        /\ (canCreate L = false -> result = RangeError)
        /\ (canCreate L = true ->
            exists out,
              result = Normal (alloc h out)
              /\ Z.of_nat (length out) = L
              /\ forall i, 0 <= i < L ->
                   in_bounds input (srcIndexFloor ratio i) = true
                   /\ in_bounds input (srcIndexCeil input ratio i) = true)).
Proof.
  intros Hin Hout Hsize. cbv zeta. unfold resampleAudio_on.
  rewrite strict_eq_int by lia.
  destruct (Z.eqb_spec hin hout) as [Heq|Hne].
  - split; [reflexivity|]. intros H. contradiction.
  - split; [intros H; contradiction|]. intros _.
    destruct (output_length_law (deref h x) hin hout Hin Hout Hsize)
      as (L & HL & HL0 & HLb & _ & Hreads).
    pose proof (output_length_small (deref h x) hin hout L ltac:(lia) Hsize ltac:(lia))
      as Hs.
    exists L. split; [exact HL|]. split; [lia|].
    rewrite (resample_on_outcome canCreate (deref h x) _ _ L ltac:(lia) HL).
    split.
    { intros Hle.
      assert (Z.of_nat (length (deref h x)) * hout / hin <= Z.of_nat (length (deref h x))).
      { apply Z.div_le_upper_bound; [lia|]. nia. }
      lia. }
    split.
    + intros ->. reflexivity.
    + intros ->. eexists. split; [reflexivity|].
      split; [rewrite length_fmap, length_seqZ; lia|exact Hreads].
Qed.

Lemma resample_reads_in_bounds_witness :
  let canCreate := fun n => n <=? 4294967295 in
  let h := [replicate 4096 0] in
  let input := deref h 0 in
  let ratio := ratio_of (of_int 48000) (of_int 16000) in
  let result := resampleAudio_on canCreate h 0 (of_int 48000) (of_int 16000) in
  (48000 = 16000 -> result = Normal (0%nat, h))
  /\ (48000 <> 16000 ->
      exists L,
        outputLength input ratio = of_int L
        /\ 0 <= L <= Z.of_nat (length input) * 16000 / 48000
        /\ (16000 <= 48000 -> L <= Z.of_nat (length input))
        /\ (canCreate L = false -> result = RangeError)
        /\ (canCreate L = true ->
            exists out,
              result = Normal (alloc h out)
              /\ Z.of_nat (length out) = L
              /\ forall i, 0 <= i < L ->
                   in_bounds input (srcIndexFloor ratio i) = true
                   /\ in_bounds input (srcIndexCeil input ratio i) = true)).
Proof.
  intros canCreate h.
  apply (resample_reads_in_bounds canCreate h 0%nat 48000 16000).
  - split; reflexivity.
  - split; reflexivity.
  - subst h. change (Z.of_nat (length (replicate 4096 0)) * 16000 <= 2 ^ 50).
    rewrite length_replicate. lia.
Defined.


(** With rates of 1 Hz and 2^52 Hz a frame of two samples asks for an array
    of 2^53 elements, which the constructor refuses on every engine.  With
    the rates 16000 Hz and 48000 Hz, on an engine whose arrays hold at most
    2^32 - 1 elements, a frame of that length asks for an array three times
    as long, which the engine cannot create. *)
Lemma resample_throws_on_huge_output :
  (forall canCreate,
     resampleAudio_on canCreate [[0; 0]] 0 (of_int 1) (of_int 4503599627370496)
     = RangeError)
  /\ resampleAudio_on (fun n => n <=? 4294967295)
       [replicate (Z.to_nat 4294967295) 0] 0 (of_int 16000) (of_int 48000)
     = RangeError.
Proof.
  split.
  - intros canCreate. vm_compute. reflexivity.
  - set (big := replicate (Z.to_nat 4294967295) 0).
    assert (Hlen : Z.of_nat (length big) = 4294967295).
    { subst big. rewrite length_replicate. apply Z2Nat.id. lia. }
    clearbody big.
    unfold resampleAudio_on. rewrite strict_eq_int by lia.
    change (16000 =? 48000) with false. cbv iota.
    change (deref [big] 0) with big.
    assert (Hsize : Z.of_nat (length big) * 48000 <= 2 ^ 50) by (rewrite Hlen; lia).
    destruct (output_length_law big 16000 48000 ltac:(lia) ltac:(lia) Hsize)
      as (L & HL & HL0 & HLb & _ & _).
    rewrite Hlen in HLb.
    change (4294967295 * 48000 / 16000) with 12884901885 in HLb.
    pose proof (output_length_small big 16000 48000 L ltac:(lia) Hsize
                  ltac:(rewrite Hlen; change (4294967295 * 48000 / 16000) with 12884901885; lia))
      as Hs.
    rewrite (resample_on_outcome _ big _ _ L ltac:(lia) HL).
    assert (Hno : (L <=? 4294967295) = false) by (apply Z.leb_gt; lia).
    rewrite Hno. reflexivity.
Qed.

Lemma of_int_inj (a b : Z) :
  0 <= a < 2 ^ 53 -> 0 <= b < 2 ^ 53 -> of_int a = of_int b -> a = b.
Proof.
  intros Ha Hb H.
  pose proof (ToIndex_int a ltac:(lia)) as H1. rewrite H, ToIndex_int in H1 by lia.
  injection H1 as H1. lia.
Qed.

(** The quotient [length / ratio] of a non-empty frame, and its floor. *)
Lemma outputLength_quotient (input : list Z) (hin hout : Z) :
  0 < hin < 2 ^ 53 -> 0 < hout < 2 ^ 53 ->
  Z.of_nat (length input) * hout <= 2 ^ 50 ->
  0 < Z.of_nat (length input) ->
  let r := ratio_of (of_int hin) (of_int hout) in
  let q := div (of_int (Z.of_nat (length input))) r in
  exists (mr mq : positive) (er eq L : Z),
    normal r mr er /\ -105 <= er <= 1
    /\ normal q mq eq
    /\ (to_Q q < inject_Z (2 ^ 52))%Q
    /\ outputLength input r = of_int L
    /\ 0 <= L < 2 ^ 52
    /\ (inject_Z L <= to_Q q /\ to_Q q < inject_Z L + 1)%Q.
Proof.
  intros Hin Hout Hsize Hn r q.
  set (n := Z.of_nat (length input)) in *.
  assert (Hn50 : n <= 2 ^ 50) by nia.
  destruct (ratio_bounds hin hout Hin Hout) as (mr & er & Hr & Her & HR1 & HR2).
  fold r in Hr, HR1, HR2.
  destruct (quotient_bounds n r mr er ltac:(lia) Hr Her) as (mq & eq & Hq & HQ1 & HQ2).
  fold q in Hq, HQ1, HQ2.
  pose proof (normal_pos _ _ _ Hr) as Hrpos.
  pose proof (normal_pos _ _ _ Hq) as Hqpos.
  assert (HQsmall : (to_Q q < inject_Z (2 ^ 52))%Q).
  { set (R := to_Q r) in *. set (Q := to_Q q) in *.
    pose proof (inject_Z_le _ _ Hsize) as HsizeQ. fold n in HsizeQ.
    rewrite inject_Z_mult in HsizeQ.
    change (inject_Z (2 ^ 50)) with (1125899906842624 # 1)%Q in HsizeQ.
    pose proof (inject_Z_le 1 hin ltac:(lia)) as Hhin1.
    pose proof (inject_Z_le 1 hout ltac:(lia)) as Hhout1.
    pose proof (inject_Z_le 1 n ltac:(lia)) as Hn1.
    change (inject_Z 1) with 1%Q in *.
    set (qn := inject_Z n) in *. set (qin := inject_Z hin) in *.
    set (qout := inject_Z hout) in *.
    change (inject_Z (2 ^ 52)) with (4503599627370496 # 1)%Q.
    assert (A1 : (Q * (R * qout) <= (1 + eps) * (qn * qout))%Q) by (unfold eps in *; nra).
    assert (A2 : (Q * (1 - eps) <= Q * (R * qout))%Q) by (unfold eps in *; nra).
    unfold eps in *. lra. }
  destruct (floor_normal _ _ _ Hq HQsmall) as (L & HL & HLr & HL1 & HL2).
  exists mr, mq, er, eq, L.
  split; [exact Hr|]. split; [exact Her|]. split; [exact Hq|]. split; [exact HQsmall|].
  split; [exact HL|]. split; [exact HLr|]. split; assumption.
Qed.

(** When [len * outputRate] is a multiple of the input rate and the ratio
    as computed is not above the exact ratio, the length is exact. *)
Lemma exact_length (input : list Z) (hin hout : Z) :
  0 < hin < 2 ^ 53 -> 0 < hout < 2 ^ 53 ->
  Z.of_nat (length input) * hout <= 2 ^ 50 ->
  let N := Z.of_nat (length input) * hout in
  let r := ratio_of (of_int hin) (of_int hout) in
  N mod hin = 0 ->
  (to_Q r * inject_Z hout <= inject_Z hin)%Q ->
  outputLength input r = of_int (N / hin).
Proof.
  intros Hin Hout Hsize N r Hmod Hr.
  destruct (output_length_law input hin hout Hin Hout Hsize)
    as (L0 & HL0 & HL00 & HLb & _ & _).
  fold N in HLb. fold r in HL0.
  destruct (Z.eq_dec (Z.of_nat (length input)) 0) as [Hn0|Hn0].
  { assert (HN : N = 0) by (subst N; lia). rewrite HN in *.
    rewrite Z.div_0_l in * by lia. assert (L0 = 0) as -> by lia. exact HL0. }
  assert (Hn : 0 < Z.of_nat (length input)) by lia.
  destruct (outputLength_quotient input hin hout Hin Hout Hsize Hn)
    as (mr & mq & er & eq & L & Hrn & Her & Hq & HQs & HL & HLr & HQ1 & HQ2).
  fold r in Hrn, Hq, HQs, HL, HQ1, HQ2.
  set (n := Z.of_nat (length input)) in *.
  assert (Hn50 : n <= 2 ^ 50) by nia.
  assert (HF : N / hin <= 2 ^ 50).
  { apply Z.div_le_upper_bound; [lia|]. subst N. nia. }
  assert (HL0L : L0 = L).
  { apply of_int_inj; [lia|lia|]. rewrite <- HL0. exact HL. }
  subst L0.
  pose proof (Z.div_mod N hin ltac:(lia)) as Hdm. rewrite Hmod, Z.add_0_r in Hdm.
  set (F := N / hin) in *.
  assert (HF0 : 0 <= F) by lia.
  (* the quotient reaches F *)
  assert (Hreach : (inject_Z F * to_Q r <= to_Q (of_int n))%Q).
  { rewrite (to_Q_of_int n) by lia.
    pose proof (normal_pos _ _ _ Hrn) as Hrpos.
    set (R := to_Q r) in *.
    assert (HNQ : (inject_Z n * inject_Z hout == inject_Z hin * inject_Z F)%Q).
    { rewrite <- !inject_Z_mult. apply inject_Z_injective. subst N. lia. }
    pose proof (inject_Z_le 1 hout ltac:(lia)) as Hhout1.
    pose proof (inject_Z_le 0 F HF0) as HF0Q.
    change (inject_Z 1) with 1%Q in *. change (inject_Z 0) with 0%Q in *.
    set (qn := inject_Z n) in *. set (qin := inject_Z hin) in *.
    set (qout := inject_Z hout) in *. set (qF := inject_Z F) in *.
    assert (H1 : (qF * (R * qout) <= qF * qin)%Q) by nra.
    assert (H2 : ((qF * R) * qout <= qn * qout)%Q) by lra.
    nra. }
  pose proof (Zdigits2_le53 n ltac:(lia)) as Hd.
  assert (Hge : (inject_Z F <= to_Q (div (of_int n) r))%Q).
  { rewrite (of_int_canon n) in * by lia.
    eapply (div_ge_integer _ _ _ _ _ _ F (canon_normal n ltac:(lia)) Hrn);
      [lia|lia|exact HF0|exact Hreach|exact HQs]. }
  assert (HFL : F <= L).
  { assert (HltQ : (inject_Z F < inject_Z L + 1)%Q) by lra.
    change 1%Q with (inject_Z 1) in HltQ. rewrite <- inject_Z_plus, <- Zlt_Qlt in HltQ.
    lia. }
  assert (L = F) as -> by lia. exact HL.
Qed.

(** The ratio of an integer multiple is exact. *)
Lemma integer_ratio_exact (hin hout : Z) :
  0 < hin < 2 ^ 53 -> 0 < hout -> hin mod hout = 0 ->
  (to_Q (ratio_of (of_int hin) (of_int hout)) * inject_Z hout == inject_Z hin)%Q.
Proof.
  intros Hin Hout Hmod.
  pose proof (Z.div_mod hin hout ltac:(lia)) as Hdm. rewrite Hmod, Z.add_0_r in Hdm.
  set (k := hin / hout) in *.
  assert (Hk : 0 < k) by nia.
  unfold ratio_of. rewrite Hdm. replace (hout * k) with (k * hout) by lia.
  rewrite div_int_exact by lia.
  rewrite to_Q_of_int by nia. rewrite <- inject_Z_mult. reflexivity.
Qed.

(** C3, amended.  For every frame and every pair of distinct positive
    integer sample rates below 2^53 such that the length of the frame times
    the output rate is at most 2^50, [resampleAudio] asks for a new array
    of [L] elements.  [L] is [floor(len * outputRate / inputRate)] when
    [len * outputRate] is not a multiple of the input rate, and also when
    the ratio [inputRate / outputRate] as computed in binary64 is not above
    the exact ratio, in particular when the input rate is a multiple of the
    output rate; in the remaining case, a multiple with the computed ratio
    rounded up, [L] is that value or one less.  The call returns a new
    array of [L] elements when the engine can create one and throws a
    RangeError when it cannot. *)
Theorem resample_length (canCreate : Z -> bool) (h : list (list Z)) (x : nat)
    (hin hout : Z) :
  0 < hin < 2 ^ 53 -> 0 < hout < 2 ^ 53 -> hin <> hout ->
  Z.of_nat (length (deref h x)) * hout <= 2 ^ 50 ->
  let N := Z.of_nat (length (deref h x)) * hout in
  let ratio := ratio_of (of_int hin) (of_int hout) in
  let result := resampleAudio_on canCreate h x (of_int hin) (of_int hout) in
  exists L,
    outputLength (deref h x) ratio = of_int L
    /\ 0 <= L /\ N / hin - 1 <= L <= N / hin
    /\ (N mod hin <> 0 -> L = N / hin)
    /\ ((to_Q ratio * inject_Z hout <= inject_Z hin)%Q -> L = N / hin)
    /\ (hin mod hout = 0 -> L = N / hin)
    /\ (canCreate L = true ->
        exists out, result = Normal (alloc h out) /\ Z.of_nat (length out) = L)
    /\ (canCreate L = false -> result = RangeError).
Proof.
  intros Hin Hout Hne Hsize N ratio result.
  destruct (output_length_law (deref h x) hin hout Hin Hout Hsize)
    as (L & HL & HL0 & HLb & HLe & _).
  pose proof (output_length_small (deref h x) hin hout L ltac:(lia) Hsize ltac:(lia)) as Hs.
  fold N in HLb, HLe. fold ratio in HL.
  assert (Hexact : (to_Q ratio * inject_Z hout <= inject_Z hin)%Q -> L = N / hin).
  { intros Hr. destruct (Z.eq_dec (N mod hin) 0) as [Hmod|Hmod]; [|exact (HLe Hmod)].
    pose proof (exact_length (deref h x) hin hout Hin Hout Hsize Hmod Hr) as HE.
    fold N ratio in HE. rewrite HL in HE.
    assert (HF : 0 <= N / hin) by lia.
    apply of_int_inj; [lia| |exact HE].
    assert (N / hin <= 2 ^ 50) by (apply Z.div_le_upper_bound; [lia|]; subst N; nia).
    lia. }
  exists L. split; [exact HL|].
  split; [exact HL0|]. split; [exact HLb|]. split; [exact HLe|].
  split; [exact Hexact|].
  split.
  { intros Hmod. apply Hexact. subst ratio.
    rewrite (integer_ratio_exact hin hout Hin ltac:(lia) Hmod). apply Qle_refl. }
  subst result. unfold resampleAudio_on. rewrite strict_eq_int by lia.
  assert (Hneb : (hin =? hout) = false) by (apply Z.eqb_neq; exact Hne).
  rewrite Hneb.
  rewrite (resample_on_outcome canCreate (deref h x) _ _ L ltac:(lia) HL).
  split.
  - intros ->. eexists. split; [reflexivity|]. rewrite length_fmap, length_seqZ. lia.
  - intros ->. reflexivity.
Qed.

Lemma resample_length_witness :
  let canCreate := fun n => n <=? 4294967295 in
  let h := [replicate 480 0] in
  let N := Z.of_nat (length (deref h 0)) * 44100 in
  let ratio := ratio_of (of_int 48000) (of_int 44100) in
  let result := resampleAudio_on canCreate h 0 (of_int 48000) (of_int 44100) in
  exists L,
    outputLength (deref h 0) ratio = of_int L
    /\ 0 <= L /\ N / 48000 - 1 <= L <= N / 48000
    /\ (N mod 48000 <> 0 -> L = N / 48000)
    /\ ((to_Q ratio * inject_Z 44100 <= inject_Z 48000)%Q -> L = N / 48000)
    /\ (48000 mod 44100 = 0 -> L = N / 48000)
    /\ (canCreate L = true ->
        exists out, result = Normal (alloc h out) /\ Z.of_nat (length out) = L)
    /\ (canCreate L = false -> result = RangeError).
Proof.
  intros canCreate h.
  apply (resample_length canCreate h 0%nat 48000 44100).
  - split; reflexivity.
  - split; reflexivity.
  - discriminate.
  - subst h. change (Z.of_nat (length (replicate 480 0)) * 44100 <= 2 ^ 50).
    rewrite length_replicate. lia.
Defined.

(** Resampling 480 samples from 48000 Hz to 44100 Hz: the ratio
    48000/44100 is rounded up, 480 divided by it falls just below 441, and
    the new array has 440 samples, not floor(480 * 44100 / 48000) = 441. *)
Lemma resample_length_law_fails :
  resampleAudio [replicate 480 0] 0 (of_int 48000) (of_int 44100)
  = Normal (1%nat, [replicate 480 0; replicate 440 0])
  /\ 480 * 44100 / 48000 = 441.
Proof. vm_compute. split; reflexivity. Qed.

(** Lengths that are exact: 4095 samples at 48000 Hz give 1365 at
    16000 Hz, the ratio 3 being exact, and 1024 samples at 16000 Hz give
    3072 at 48000 Hz, the ratio 1/3 being rounded down. *)
Example integer_rates_exact :
  resample_fresh (replicate 4095 0) (of_int 48000) (of_int 16000)
  = Normal (replicate 1365 0)
  /\ resample_fresh (replicate 1024 0) (of_int 16000) (of_int 48000)
     = Normal (replicate 3072 0).
Proof. vm_compute. split; reflexivity. Qed.

(** The clean-frame scenario: 4096 samples at 48000 Hz give 1365 samples. *)
Example clean_frame_length :
  resample_fresh (replicate 4096 0) (of_int 48000) (of_int 16000)
  = Normal (replicate 1365 0).
Proof. vm_compute. reflexivity. Qed.

End ResampleFacts.

(** ** Telemetry of the byte counter *)

Module ByteCounter.
Import Num F32 Bridge.

(** Sending the buffers of [bufs] one after the other: the state reached
    and everything that was done. *)
Definition send_all (st : hook) (bufs : list ArrayBuffer) : hook :=
  fold_left (fun st pcm => (sendAudioToRobot st pcm).1) bufs st.

Fixpoint send_all_effects (st : hook) (bufs : list ArrayBuffer) : list effect :=
  match bufs with
  | [] => []
  | pcm :: bufs' =>
      (sendAudioToRobot st pcm).2 ++ send_all_effects (sendAudioToRobot st pcm).1 bufs'
  end.

Definition total_bytes (bufs : list ArrayBuffer) : Z :=
  foldr (fun pcm acc => Z.of_nat (length pcm) + acc) 0 bufs.

Definition is_checkpoint (e : effect) : bool :=
  match e with Checkpoint _ => true | _ => false end.

(** The number of checkpoints among the effects [out]. *)
Definition checkpoints (out : list effect) : Z :=
  foldr (fun e acc => if is_checkpoint e then 1 + acc else acc) 0 out.

(** The test [total % 51200 < byteLength] detects a crossing. *)
Lemma crossing_test (c b : Z) :
  0 <= c -> 0 <= b < 51200 ->
  (Z.rem (c + b) 51200 <? b) = (c / 51200 <? (c + b) / 51200).
Proof.
  intros Hc Hb.
  rewrite Z.rem_mod_nonneg by lia.
  pose proof (Z.div_mod c 51200 ltac:(lia)) as Hd.
  pose proof (Z.mod_pos_bound c 51200 ltac:(lia)) as Hm.
  set (q := c / 51200) in *. set (r := c mod 51200) in *.
  destruct (Z_lt_dec (r + b) 51200) as [Hlt|Hge].
  - assert ((c + b) / 51200 = q) as -> by (symmetry; apply (Z.div_unique _ _ _ (r + b)); lia).
    assert ((c + b) mod 51200 = r + b) as -> by (symmetry; apply (Z.mod_unique _ _ q); lia).
    rewrite Z.ltb_irrefl. apply Z.ltb_ge. lia.
  - assert ((c + b) / 51200 = q + 1) as ->
        by (symmetry; apply (Z.div_unique _ _ _ (r + b - 51200)); lia).
    assert ((c + b) mod 51200 = r + b - 51200) as ->
        by (symmetry; apply (Z.mod_unique _ _ (q + 1)); lia).
    transitivity true; [apply Z.ltb_lt; lia|symmetry; apply Z.ltb_lt; lia].
Qed.

(** A buffer shorter than 51200 bytes takes the counter across one
    multiple of 51200 at most. *)
Lemma crossing_once (c b : Z) :
  0 <= c -> 0 <= b < 51200 ->
  (c + b) / 51200 - c / 51200 = if c / 51200 <? (c + b) / 51200 then 1 else 0.
Proof.
  intros Hc Hb.
  pose proof (Z.div_mod c 51200 ltac:(lia)) as Hd.
  pose proof (Z.mod_pos_bound c 51200 ltac:(lia)) as Hm.
  set (q := c / 51200) in *. set (r := c mod 51200) in *.
  destruct (Z_lt_dec (r + b) 51200) as [Hlt|Hge].
  - assert ((c + b) / 51200 = q) as -> by (symmetry; apply (Z.div_unique _ _ _ (r + b)); lia).
    rewrite Z.ltb_irrefl. lia.
  - assert ((c + b) / 51200 = q + 1) as ->
        by (symmetry; apply (Z.div_unique _ _ _ (r + b - 51200)); lia).
    assert (Hlt : (q <? q + 1) = true) by (apply Z.ltb_lt; lia).
    rewrite Hlt. lia.
Qed.

(** One send on an open socket: the buffer goes out, the counter grows by
    its size, and a checkpoint follows exactly on a crossing. *)
Lemma send_on_open (st : hook) (ws : nat) (pcm : ArrayBuffer) :
  wsRef st = Some ws -> sockets st !! ws = Some OPEN ->
  0 <= bytesSentRef st -> Z.of_nat (length pcm) < 51200 ->
  let st' := (sendAudioToRobot st pcm).1 in
  let crossing := bytesSentRef st / 51200 <? bytesSentRef st' / 51200 in
  wsRef st' = Some ws /\ sockets st' = sockets st
  /\ bytesSentRef st' = bytesSentRef st + Z.of_nat (length pcm)
  /\ (sendAudioToRobot st pcm).2
     = SendBinary ws pcm :: (if crossing then [Checkpoint (bytesSentRef st')] else [])
  /\ bytesSent st' = (if crossing then bytesSentRef st' else bytesSent st).
Proof.
  intros Hws Hopen Hc Hlen. cbv zeta. unfold sendAudioToRobot.
  rewrite Hws, Hopen. cbn [is_state readyState_eqb fst snd bytesSentRef wsRef sockets bytesSent].
  rewrite (crossing_test (bytesSentRef st) (Z.of_nat (length pcm))) by lia.
  repeat split; try reflexivity; exact Hws.
Qed.

(** Any send on an open socket, whatever the size of the buffer. *)
Lemma send_on_open_counter (st : hook) (ws : nat) (pcm : ArrayBuffer) :
  wsRef st = Some ws -> sockets st !! ws = Some OPEN ->
  let st' := (sendAudioToRobot st pcm).1 in
  wsRef st' = Some ws /\ sockets st' = sockets st
  /\ bytesSentRef st' = bytesSentRef st + Z.of_nat (length pcm).
Proof.
  intros Hws Hopen. cbv zeta. unfold sendAudioToRobot.
  rewrite Hws, Hopen. cbn [is_state readyState_eqb fst snd bytesSentRef wsRef sockets].
  repeat split; try reflexivity; exact Hws.
Qed.

Lemma send_not_open_idle (st : hook) (pcm : ArrayBuffer) :
  is_state (current_readyState st) OPEN = false ->
  sendAudioToRobot st pcm = (st, []).
Proof.
  unfold sendAudioToRobot, current_readyState.
  destruct (wsRef st) as [ws|]; [|reflexivity].
  intros ->. reflexivity.
Qed.

Lemma send_all_open (bufs : list ArrayBuffer) (st : hook) (ws : nat) :
  wsRef st = Some ws -> sockets st !! ws = Some OPEN ->
  wsRef (send_all st bufs) = Some ws
  /\ sockets (send_all st bufs) = sockets st
  /\ bytesSentRef (send_all st bufs) = bytesSentRef st + total_bytes bufs.
Proof.
  revert st. induction bufs as [|b bufs IH]; intros st Hws Hopen; cbn [send_all fold_left total_bytes foldr].
  - repeat split; [exact Hws|lia].
  - destruct (send_on_open_counter st ws b Hws Hopen) as (Hws' & Hs' & Hc').
    destruct (IH (sendAudioToRobot st b).1 Hws' ltac:(rewrite Hs'; exact Hopen))
      as (H1 & H2 & H3).
    fold (send_all (sendAudioToRobot st b).1 bufs).
    split; [exact H1|]. split; [rewrite H2; exact Hs'|].
    rewrite H3, Hc'. fold (total_bytes bufs). lia.
Qed.

Lemma total_bytes_nonneg (bufs : list ArrayBuffer) : 0 <= total_bytes bufs.
Proof. induction bufs as [|b bufs IH]; cbn [total_bytes foldr]; [lia|]. fold (total_bytes bufs). lia. Qed.

Lemma send_all_idle (bufs : list ArrayBuffer) (st : hook) :
  is_state (current_readyState st) OPEN = false ->
  send_all st bufs = st /\ send_all_effects st bufs = [].
Proof.
  intros Hidle. induction bufs as [|b bufs [IH1 IH2]]; [split; reflexivity|].
  cbn [send_all fold_left send_all_effects].
  rewrite (send_not_open_idle st b Hidle). cbn [fst snd app]. split; assumption.
Qed.

Lemma checkpoints_app (a b : list effect) :
  checkpoints (a ++ b) = checkpoints a + checkpoints b.
Proof.
  induction a as [|e a IH]; [reflexivity|].
  cbn [app]. unfold checkpoints in *. cbn [foldr]. rewrite IH.
  destruct (is_checkpoint e); lia.
Qed.

(** Over a sequence of buffers shorter than 51200 bytes, one checkpoint
    is emitted for each multiple of 51200 that the counter crosses. *)
Lemma send_all_checkpoints (bufs : list ArrayBuffer) (st : hook) (ws : nat) :
  wsRef st = Some ws -> sockets st !! ws = Some OPEN ->
  0 <= bytesSentRef st ->
  Forall (fun pcm => Z.of_nat (length pcm) < 51200) bufs ->
  checkpoints (send_all_effects st bufs)
  = bytesSentRef (send_all st bufs) / 51200 - bytesSentRef st / 51200.
Proof.
  revert st. induction bufs as [|b bufs IH]; intros st Hws Hopen Hc Hall.
  - cbn [send_all fold_left send_all_effects]. rewrite Z.sub_diag. reflexivity.
  - inversion Hall as [|? ? Hb Hall']; subst.
    destruct (send_on_open st ws b Hws Hopen Hc Hb) as (Hws' & Hs' & Hc' & Hout & _).
    cbn [send_all fold_left send_all_effects].
    fold (send_all (sendAudioToRobot st b).1 bufs).
    rewrite checkpoints_app.
    rewrite (IH (sendAudioToRobot st b).1 Hws' ltac:(rewrite Hs'; exact Hopen)
               ltac:(lia) Hall').
    rewrite Hout. rewrite Hc'.
    pose proof (crossing_once (bytesSentRef st) (Z.of_nat (length b)) Hc ltac:(lia)) as Hx.
    destruct (bytesSentRef st / 51200 <? (bytesSentRef st + Z.of_nat (length b)) / 51200);
      unfold checkpoints; cbn; lia.
Qed.

(** C7.  The counter never decreases.  While the socket held by [wsRef] is
    open, every buffer handed to [sendAudioToRobot] is transmitted on it and
    the counter grows by exactly its byte length, so that after a sequence
    of buffers it has grown by their total size; a buffer shorter than
    51200 bytes is followed by a checkpoint, which carries the new value of
    the counter and publishes it, exactly when it takes the counter across
    a multiple of 51200, and over a sequence of such buffers one checkpoint
    is emitted for each multiple crossed.  While no socket is open nothing
    is transmitted, nothing is emitted and the counter stays as it is. *)
Theorem byte_counter_checkpoints (st : hook) (pre : list ArrayBuffer)
    (pcm : ArrayBuffer) :
  0 <= bytesSentRef st ->
  Z.of_nat (length pcm) < 51200 ->
  let st1 := send_all st pre in
  let st2 := (sendAudioToRobot st1 pcm).1 in
  let out := (sendAudioToRobot st1 pcm).2 in
  let crossing := bytesSentRef st1 / 51200 <? bytesSentRef st2 / 51200 in
  bytesSentRef st <= bytesSentRef st1 <= bytesSentRef st2
  /\ (forall ws, wsRef st = Some ws -> sockets st !! ws = Some OPEN ->
        bytesSentRef st1 = bytesSentRef st + total_bytes pre
        /\ bytesSentRef st2 = bytesSentRef st1 + Z.of_nat (length pcm)
        /\ out = SendBinary ws pcm
                 :: (if crossing then [Checkpoint (bytesSentRef st2)] else [])
        /\ bytesSent st2 = (if crossing then bytesSentRef st2 else bytesSent st1)
        /\ (Forall (fun b => Z.of_nat (length b) < 51200) pre ->
            checkpoints (send_all_effects st pre ++ out)
            = bytesSentRef st2 / 51200 - bytesSentRef st / 51200))
  /\ (is_state (current_readyState st) OPEN = false ->
      st1 = st /\ st2 = st /\ out = [] /\ send_all_effects st pre = []).
Proof.
  intros Hst Hlen st1 st2 out crossing.
  assert (Hcases : (exists ws, wsRef st = Some ws /\ sockets st !! ws = Some OPEN)
                   \/ is_state (current_readyState st) OPEN = false).
  { unfold current_readyState. destruct (wsRef st) as [ws|]; [|right; reflexivity].
    destruct (sockets st !! ws) as [[]|] eqn:E; try (right; reflexivity).
    left. exists ws. split; [reflexivity|exact E]. }
  assert (Hopen_case : forall ws, wsRef st = Some ws -> sockets st !! ws = Some OPEN ->
            bytesSentRef st1 = bytesSentRef st + total_bytes pre
            /\ bytesSentRef st2 = bytesSentRef st1 + Z.of_nat (length pcm)
            /\ out = SendBinary ws pcm
                     :: (if crossing then [Checkpoint (bytesSentRef st2)] else [])
            /\ bytesSent st2 = (if crossing then bytesSentRef st2 else bytesSent st1)
            /\ (Forall (fun b => Z.of_nat (length b) < 51200) pre ->
                checkpoints (send_all_effects st pre ++ out)
                = bytesSentRef st2 / 51200 - bytesSentRef st / 51200)).
  { intros ws Hws Hopen.
    destruct (send_all_open pre st ws Hws Hopen) as (Hws1 & Hs1 & Hc1). fold st1 in Hws1, Hs1, Hc1.
    pose proof (total_bytes_nonneg pre) as Hnn.
    destruct (send_on_open st1 ws pcm Hws1 ltac:(rewrite Hs1; exact Hopen) ltac:(lia) Hlen)
      as (_ & _ & Hc2 & Hout & Hsent).
    fold st2 in Hc2, Hout, Hsent. fold out in Hout. fold crossing in Hout, Hsent.
    split; [exact Hc1|]. split; [exact Hc2|]. split; [exact Hout|]. split; [exact Hsent|].
    intros Hall. rewrite checkpoints_app.
    rewrite (send_all_checkpoints pre st ws Hws Hopen Hst Hall). fold st1.
    rewrite Hout.
    pose proof (crossing_once (bytesSentRef st1) (Z.of_nat (length pcm)) ltac:(lia) ltac:(lia))
      as Hx.
    rewrite <- Hc2 in Hx. fold crossing in Hx.
    destruct crossing; unfold checkpoints; cbn; lia. }
  assert (Hidle_case : is_state (current_readyState st) OPEN = false ->
            st1 = st /\ st2 = st /\ out = [] /\ send_all_effects st pre = []).
  { intros Hidle. destruct (send_all_idle pre st Hidle) as [H1 H2].
    subst st2 out. subst st1. rewrite H1.
    rewrite (send_not_open_idle st pcm Hidle). repeat split; [exact H2]. }
  split; [|split; [exact Hopen_case|exact Hidle_case]].
  destruct Hcases as [(ws & Hws & Hopen)|Hidle].
  - destruct (Hopen_case ws Hws Hopen) as (H1 & H2 & _).
    pose proof (total_bytes_nonneg pre). lia.
  - destruct (Hidle_case Hidle) as (H1 & H2 & _). rewrite H2, H1. lia.
Qed.

Definition open_hook : hook :=
  {| sockets := [OPEN]; wsRef := Some 0%nat; isConnectingRef := false;
     hasProcessorRef := true; bytesSentRef := 0;
     connected := true; error := None; bytesSent := 0 |}.

Lemma byte_counter_checkpoints_witness :
  let st := open_hook in
  let pre := replicate 18 (replicate 2730 0) in
  let pcm := replicate 2730 0 in
  let st1 := send_all st pre in
  let st2 := (sendAudioToRobot st1 pcm).1 in
  let out := (sendAudioToRobot st1 pcm).2 in
  let crossing := bytesSentRef st1 / 51200 <? bytesSentRef st2 / 51200 in
  bytesSentRef st <= bytesSentRef st1 <= bytesSentRef st2
  /\ (forall ws, wsRef st = Some ws -> sockets st !! ws = Some OPEN ->
        bytesSentRef st1 = bytesSentRef st + total_bytes pre
        /\ bytesSentRef st2 = bytesSentRef st1 + Z.of_nat (length pcm)
        /\ out = SendBinary ws pcm
                 :: (if crossing then [Checkpoint (bytesSentRef st2)] else [])
        /\ bytesSent st2 = (if crossing then bytesSentRef st2 else bytesSent st1)
        /\ (Forall (fun b => Z.of_nat (length b) < 51200) pre ->
            checkpoints (send_all_effects st pre ++ out)
            = bytesSentRef st2 / 51200 - bytesSentRef st / 51200))
  /\ (is_state (current_readyState st) OPEN = false ->
      st1 = st /\ st2 = st /\ out = [] /\ send_all_effects st pre = []).
Proof.
  intros st pre pcm.
  apply (byte_counter_checkpoints st pre pcm).
  - simpl. lia.
  - subst pcm. rewrite length_replicate. lia.
Defined.

(** The nineteenth buffer of 2730 bytes takes the counter from 49140 to
    51870, across 51200: it is sent and followed by the first checkpoint. *)
Example first_checkpoint :
  (sendAudioToRobot (send_all open_hook (replicate 18 (replicate 2730 0)))
                    (replicate 2730 0)).2
  = [SendBinary 0 (replicate 2730 0); Checkpoint 51870]
  /\ send_all_effects open_hook (replicate 18 (replicate 2730 0))
     = replicate 18 (SendBinary 0 (replicate 2730 0)).
Proof. vm_compute. split; reflexivity. Qed.

End ByteCounter.


(** ** Layout of the PCM buffer *)

Module PCMLayout.
Import Num F32 Bridge.

Lemma ToInt16_range (v : number) : - 2 ^ 15 <= ToInt16 v < 2 ^ 15.
Proof.
  unfold ToInt16. destruct v as [s | s | | s m e]; try lia.
  pose proof (Z.mod_pos_bound (truncate s m e) (2 ^ 16) ltac:(lia)).
  destruct (2 ^ 15 <=? _) eqn:H1; [apply Z.leb_le in H1|apply Z.leb_gt in H1]; lia.
Qed.

(** The two bytes of a 16-bit value, read back low byte first. *)
Lemma int16_bytes (z : Z) :
  - 2 ^ 15 <= z < 2 ^ 15 ->
  let v := z mod 2 ^ 16 in
  let u := Z.land v 255 + 256 * Z.shiftr v 8 in
  0 <= Z.land v 255 < 256 /\ 0 <= Z.shiftr v 8 < 256
  /\ (if 2 ^ 15 <=? u then u - 2 ^ 16 else u) = z.
Proof.
  intros Hz v u. subst u.
  pose proof (Z.mod_pos_bound z (2 ^ 16) ltac:(lia)) as Hv. fold v in Hv.
  change 255 with (Z.ones 8). rewrite Z.land_ones by lia.
  rewrite Z.shiftr_div_pow2 by lia.
  pose proof (Z.mod_pos_bound v (2 ^ 8) ltac:(lia)) as Hlo.
  pose proof (Z.div_mod v (2 ^ 8) ltac:(lia)) as Hdm.
  assert (Hhi : 0 <= v / 2 ^ 8 < 256).
  { split; [apply Z.div_pos; lia|apply Z.div_lt_upper_bound; lia]. }
  split; [lia|]. split; [lia|].
  replace (v mod 2 ^ 8 + 256 * (v / 2 ^ 8)) with v by lia.
  destruct (Z_lt_dec z 0) as [Hneg|Hpos].
  - assert (v = z + 2 ^ 16) as -> by (symmetry; apply (Z.mod_unique _ _ (-1)); lia).
    destruct (2 ^ 15 <=? _) eqn:H1; [apply Z.leb_le in H1|apply Z.leb_gt in H1]; lia.
  - assert (v = z) as -> by (symmetry; apply (Z.mod_unique _ _ 0); lia).
    destruct (2 ^ 15 <=? _) eqn:H1; [apply Z.leb_le in H1|apply Z.leb_gt in H1]; lia.
Qed.

Definition is_byte (b : Z) : Prop := 0 <= b < 256.

(** [setInt16] inside the buffer: the value reads back at the offset, every
    other aligned pair is untouched, the size is kept. *)
Lemma setInt16_spec (buf : ArrayBuffer) (o : nat) (value : number) :
  (o + 2 <= length buf)%nat ->
  exists buf',
    setInt16_le buf o value = Normal buf'
    /\ length buf' = length buf
    /\ getInt16_le buf' o = Some (ToInt16 value)
    /\ (forall k, k <> o -> k <> S o -> buf' !! k = buf !! k)
    /\ (Forall is_byte buf -> Forall is_byte buf').
Proof.
  intros Ho. unfold setInt16_le.
  destruct (o + 2 <=? length buf)%nat eqn:Hle; [|apply Nat.leb_gt in Hle; lia].
  destruct (int16_bytes (ToInt16 value) (ToInt16_range value)) as (Hlo & Hhi & Hrt).
  cbv zeta in *. set (v := ToInt16 value mod 2 ^ 16) in *.
  exists (<[S o := Z.shiftr v 8]> (<[o := Z.land v 255]> buf)).
  split; [reflexivity|].
  split; [rewrite !length_insert; reflexivity|].
  split.
  - unfold getInt16_le.
    rewrite list_lookup_insert_ne by lia.
    rewrite list_lookup_insert_eq by lia.
    rewrite list_lookup_insert_eq by (rewrite length_insert; lia).
    f_equal. exact Hrt.
  - split.
    + intros k Hk1 Hk2. rewrite !list_lookup_insert_ne by lia. reflexivity.
    + intros Hall. apply Forall_insert; [apply Forall_insert|]; assumption.
Qed.

Definition pcm_value (x : Z) : Z := ToInt16 (scale (clamp (to_number x))).

Lemma encode_from_spec (rest : Float32Array) (i : nat) (buf : ArrayBuffer) :
  (2 * (i + length rest) <= length buf)%nat ->
  exists buf',
    encode_from rest i buf = Normal buf'
    /\ length buf' = length buf
    /\ (forall k, (k < 2 * i)%nat -> buf' !! k = buf !! k)
    /\ (forall j x, rest !! j = Some x ->
                    getInt16_le buf' (2 * (i + j)) = Some (pcm_value x))
    /\ (Forall is_byte buf -> Forall is_byte buf').
Proof.
  revert i buf. induction rest as [|x rest IH]; intros i buf Hlen.
  - exists buf. repeat split; try done.
  - cbn [encode_from]. cbn [length] in Hlen.
    destruct (setInt16_spec buf (i * 2) (scale (clamp (to_number x))) ltac:(lia))
      as (buf1 & -> & Hl1 & Hget1 & Hkeep1 & Hb1).
    destruct (IH (S i) buf1 ltac:(lia)) as (buf2 & Henc & Hl2 & Hkeep2 & Hget2 & Hb2).
    exists buf2. split; [exact Henc|]. split; [lia|].
    split; [intros k Hk; rewrite Hkeep2 by lia; apply Hkeep1; lia|].
    split; [|tauto].
    intros [|j] y Hy.
    + injection Hy as <-. unfold getInt16_le in *.
      replace (2 * (i + 0))%nat with (i * 2)%nat by lia.
      rewrite !Hkeep2 by lia. exact Hget1.
    + replace (2 * (i + S j))%nat with (2 * (S i + j))%nat by lia.
      apply Hget2. exact Hy.
Qed.

(** The encoder never throws; the buffer holds two bytes per sample; the
    16-bit little-endian signed value at byte offset [2 i] is ToInt16 of
    the clamped and scaled [i]-th sample. *)
Lemma float32ToPCM16_layout (a : Float32Array) :
  exists buf,
    float32ToPCM16 a = Normal buf
    /\ length buf = (2 * length a)%nat
    /\ Forall is_byte buf
    /\ forall i x, a !! i = Some x ->
                   getInt16_le buf (2 * i) = Some (pcm_value x).
Proof.
  unfold float32ToPCM16.
  destruct (encode_from_spec a 0 (replicate (length a * 2) 0)
              ltac:(rewrite length_replicate; lia))
    as (buf & Henc & Hl & _ & Hget & Hb).
  exists buf. split; [exact Henc|].
  split; [rewrite Hl, length_replicate; lia|].
  split; [apply Hb, Forall_replicate; unfold is_byte; lia|].
  intros i x Hx. apply (Hget i x Hx).
Qed.

End PCMLayout.


(** ** The silence gate *)

Module SilenceGate.
Import Num F32 Bridge.

(** [-0.0001 <= x && x <= 0.0001] *)
Definition within_threshold (x : number) : bool :=
  SFleb (SFopp SILENCE_THRESHOLD) x && SFleb x SILENCE_THRESHOLD.

Lemma fraction_range (b : Z) : 0 <= fraction b < 2 ^ 23.
Proof.
  unfold fraction. change (2 ^ 23 - 1) with (Z.ones 23).
  rewrite Z.land_ones by lia. apply Z.mod_pos_bound. lia.
Qed.

(** The mantissa of a widened binary32 value ends in 29 zero bits. *)
Lemma to_number_mantissa (b : Z) (s : bool) (m : positive) (e : Z) :
  to_number b = S754_finite s m e -> Zpos m mod 2 ^ 29 = 0.
Proof.
  unfold to_number. pose proof (fraction_range b) as HF.
  destruct (biased_exp b =? 255); [destruct (fraction b =? 0); discriminate|].
  destruct (biased_exp b =? 0).
  - destruct (fraction b =? 0) eqn:HF0; [discriminate|].
    apply Z.eqb_neq in HF0. intros [= _ <- _].
    assert (Hlog : Z.log2 (fraction b) < 23) by (apply Z.log2_lt_pow2; lia).
    pose proof (Z.log2_nonneg (fraction b)) as Hlog0.
    rewrite Z2Pos.id by (apply Z.mul_pos_pos; [lia|apply Z.pow_pos_nonneg; lia]).
    replace (52 - Z.log2 (fraction b)) with ((23 - Z.log2 (fraction b)) + 29) by lia.
    rewrite Z.pow_add_r by lia. rewrite Z.mul_assoc. apply Z.mod_mul. lia.
  - intros [= _ <- _].
    rewrite Z2Pos.id by lia. apply Z.mod_mul. lia.
Qed.

(** No binary32 value equals the threshold, so for a stored sample "not
    above the threshold" and "below the threshold" are the same. *)
Lemma abs_le_threshold_lt (b : Z) :
  SFleb (Num.abs (to_number b)) SILENCE_THRESHOLD = true ->
  lt (Num.abs (to_number b)) SILENCE_THRESHOLD = true.
Proof.
  unfold lt, SFleb, SFltb, Num.abs, SILENCE_THRESHOLD.
  destruct (to_number b) as [s | s | | s m e] eqn:Hb; cbn [SFabs SFcompare];
    try done.
  pose proof (to_number_mantissa b s m e Hb) as Hm.
  destruct (e ?= -66) eqn:He; try done.
  destruct (Pos.compare_cont Eq m 7378697629483821) eqn:Hc; try done.
  apply Pos.compare_eq in Hc. subst m. vm_compute in Hm. discriminate Hm.
Qed.

Lemma within_threshold_abs (x : number) :
  within_threshold x = true -> SFleb (Num.abs x) SILENCE_THRESHOLD = true.
Proof.
  unfold within_threshold, SFleb, Num.abs, SILENCE_THRESHOLD.
  destruct x as [s | s | | s m e]; cbn [SFabs SFopp SFcompare negb]; try done.
  - destruct s; done.
  - destruct s; [|intros H; apply andb_true_iff in H as [_ H]; exact H].
    rewrite (Z.compare_antisym e (-66)).
    destruct (e ?= -66) eqn:He; cbn [CompOpp]; try done.
    rewrite andb_true_r.
    rewrite (Pos.compare_cont_antisym 7378697629483821 m Eq). cbn [CompOpp].
    destruct (Pos.compare_cont Eq m 7378697629483821); done.
Qed.

Lemma peak_below (l : Float32Array) (acc : number) :
  lt acc SILENCE_THRESHOLD = true ->
  Forall (fun b => within_threshold (to_number b) = true) l ->
  lt (fold_left peak_step l acc) SILENCE_THRESHOLD = true.
Proof.
  revert acc. induction l as [|b l IH]; intros acc Hacc Hall; cbn [fold_left];
    [exact Hacc|].
  inversion Hall as [|? ? Hb Hl]; subst.
  apply IH; [|exact Hl].
  unfold peak_step. destruct (gt _ _); [|exact Hacc].
  apply abs_le_threshold_lt, within_threshold_abs, Hb.
Qed.

(** C2.  A frame all of whose samples lie within [-0.0001, 0.0001] leaves
    the handler at the gate: the store is unchanged (nothing was resampled
    or allocated), the hook is unchanged (the byte counter in particular),
    and the only effect is the periodic frame log; no resample, encode or
    send call is made and nothing is transmitted. *)
Theorem silent_frame_is_dropped (sampleRate : number) (h : heap) (st : hook)
    (p : processor) (inputData : ref) :
  Forall (fun b => within_threshold (to_number b) = true) (deref h inputData) ->
  onaudioprocess sampleRate h st p inputData
  = Normal (h, st,
            {| chunkCount := chunkCount p; totalFrames := totalFrames p + 1 |},
            if Z.rem (totalFrames p + 1) 50 =? 1
            then [FrameLog (totalFrames p + 1)] else []).
Proof.
  intros Hall. unfold onaudioprocess, maxSample_of.
  rewrite (peak_below (deref h inputData) (of_int 0) eq_refl Hall). reflexivity.
Qed.

Definition open_hook : hook :=
  {| sockets := [OPEN]; wsRef := Some 0%nat; isConnectingRef := false;
     hasProcessorRef := true; bytesSentRef := 2730;
     connected := true; error := None; bytesSent := 0 |}.

(** The true-silence scenario: 4096 samples of zero amplitude; and a frame
    that holds the largest binary32 value below the threshold. *)
Lemma silent_frame_is_dropped_witness :
  onaudioprocess (of_int 48000) [replicate 4096 0; [0; 953267991; 3100751639]]
                 open_hook {| chunkCount := 7; totalFrames := 50 |} 1%nat
  = Normal ([replicate 4096 0; [0; 953267991; 3100751639]], open_hook,
            {| chunkCount := 7; totalFrames := 51 |}, [FrameLog 51]).
Proof.
  apply (silent_frame_is_dropped (of_int 48000)
           [replicate 4096 0; [0; 953267991; 3100751639]] open_hook
           {| chunkCount := 7; totalFrames := 50 |} 1%nat).
  change (Forall (fun b => within_threshold (to_number b) = true)
                 [0; 953267991; 3100751639]).
  repeat (constructor; [vm_compute; reflexivity|]). constructor.
Defined.

(** The next binary32 value above the threshold passes the gate. *)
Example audible_frame_is_sent :
  match onaudioprocess (of_int 48000) [[0; 953267992; 0]] open_hook
                       {| chunkCount := 7; totalFrames := 50 |} 0%nat with
  | Normal (_, st, _, out) =>
      bytesSentRef st = 2732
      /\ out = [FrameLog 51; CallResample; CallEncode; CallSend; SendBinary 0 [0; 0]]
  | RangeError => False
  end.
Proof. vm_compute. split; reflexivity. Qed.

End SilenceGate.


(** ** The values the encoder writes *)

Module PCMValues.
Import Num F32 Bridge Exact PCMSpec Rounding IntegerNumbers ErrorBounds PCMLayout SilenceGate.

Lemma biased_exp_range (b : Z) : 0 <= biased_exp b < 256.
Proof.
  unfold biased_exp. change 255 with (Z.ones 8).
  rewrite Z.land_ones by lia. apply Z.mod_pos_bound. lia.
Qed.

Lemma to_number_shape (b : Z) (s : bool) (m : positive) (e : Z) :
  to_number b = S754_finite s m e ->
  2 ^ 52 <= Zpos m < 2 ^ 53 /\ Zpos m mod 2 ^ 29 = 0 /\ -201 <= e <= 75.
Proof.
  intros Hb. pose proof (to_number_mantissa b s m e Hb) as Hmod.
  split; [|split; [exact Hmod|]]; revert Hb; unfold to_number;
    pose proof (fraction_range b) as HF; pose proof (biased_exp_range b) as HE;
    destruct (biased_exp b =? 255) eqn:H255;
    try (destruct (fraction b =? 0); discriminate);
    apply Z.eqb_neq in H255;
    (destruct (biased_exp b =? 0) eqn:H0;
     [destruct (fraction b =? 0) eqn:HF0; [discriminate|]; apply Z.eqb_neq in HF0
     |apply Z.eqb_neq in H0]).
  - intros [= _ <- _].
    pose proof (Z.log2_spec (fraction b) ltac:(lia)) as Hlog.
    assert (Hl23 : Z.log2 (fraction b) < 23) by (apply Z.log2_lt_pow2; lia).
    pose proof (Z.log2_nonneg (fraction b)) as Hl0.
    set (l := Z.log2 (fraction b)) in *.
    assert (Hp : 0 < 2 ^ (52 - l)) by (apply Z.pow_pos_nonneg; lia).
    rewrite Z2Pos.id by nia.
    assert (E1 : 2 ^ 52 = 2 ^ l * 2 ^ (52 - l)).
    { rewrite <- Z.pow_add_r by lia. f_equal. lia. }
    assert (E2 : 2 ^ 53 = 2 ^ Z.succ l * 2 ^ (52 - l)).
    { rewrite <- Z.pow_add_r by lia. f_equal. lia. }
    nia.
  - intros [= _ <- _]. rewrite Z2Pos.id by lia.
    change (2 ^ 52) with (2 ^ 23 * 2 ^ 29). change (2 ^ 53) with (2 ^ 24 * 2 ^ 29). lia.
  - intros [= _ _ <-].
    assert (Hl23 : Z.log2 (fraction b) < 23) by (apply Z.log2_lt_pow2; lia).
    pose proof (Z.log2_nonneg (fraction b)) as Hl0. lia.
  - intros [= _ _ <-]. lia.
Qed.


Lemma compare_pos (m1 m2 : positive) (e1 e2 : Z) :
  SFcompare (S754_finite false m1 e1) (S754_finite false m2 e2)
  = Some match e1 ?= e2 with Lt => Lt | Gt => Gt | Eq => Pos.compare m1 m2 end.
Proof. reflexivity. Qed.

Lemma compare_neg (m1 m2 : positive) (e1 e2 : Z) :
  SFcompare (S754_finite true m1 e1) (S754_finite true m2 e2)
  = Some match e1 ?= e2 with Lt => Gt | Gt => Lt | Eq => CompOpp (Pos.compare m1 m2) end.
Proof. reflexivity. Qed.

(** How a normal number compares with 1, and its opposite with -1. *)
Lemma lt_one_pos (m : positive) (e : Z) :
  2 ^ 52 <= Zpos m < 2 ^ 53 ->
  if e <? -52
  then lt (S754_finite false m e) one = true /\ lt one (S754_finite false m e) = false
  else lt (S754_finite false m e) one = false
       /\ (lt one (S754_finite false m e) = false -> S754_finite false m e = one).
Proof.
  intros Hm. unfold lt, SFltb, one. rewrite !compare_pos.
  rewrite (Z.compare_antisym e (-52)).
  destruct (Z.compare_spec e (-52)) as [->|Hlt|Hgt]; cbn [CompOpp].
  - change (-52 <? -52) with false. cbv iota.
    rewrite (Pos.compare_antisym m 4503599627370496).
    destruct (Pos.compare_spec m 4503599627370496) as [->|Hl|Hg]; cbn [CompOpp].
    + split; reflexivity.
    + exfalso. apply Pos2Z.pos_lt_pos in Hl.
      change (Zpos 4503599627370496) with (2 ^ 52) in Hl. lia.
    + split; [reflexivity|]. intros H. discriminate H.
  - assert (He : (e <? -52) = true) by (apply Z.ltb_lt; lia). rewrite He.
    split; reflexivity.
  - assert (He : (e <? -52) = false) by (apply Z.ltb_ge; lia). rewrite He.
    split; [reflexivity|]. intros H. discriminate H.
Qed.

Lemma lt_neg_one (m : positive) (e : Z) :
  2 ^ 52 <= Zpos m < 2 ^ 53 ->
  if e <? -52
  then lt neg_one (S754_finite true m e) = true /\ lt (S754_finite true m e) neg_one = false
  else lt neg_one (S754_finite true m e) = false
       /\ (lt (S754_finite true m e) neg_one = false -> S754_finite true m e = neg_one).
Proof.
  intros Hm. unfold lt, SFltb, neg_one. rewrite !compare_neg.
  rewrite (Z.compare_antisym e (-52)).
  destruct (Z.compare_spec e (-52)) as [->|Hlt|Hgt]; cbn [CompOpp].
  - change (-52 <? -52) with false. cbv iota.
    rewrite (Pos.compare_antisym m 4503599627370496).
    destruct (Pos.compare_spec m 4503599627370496) as [->|Hl|Hg]; cbn [CompOpp].
    + split; reflexivity.
    + exfalso. apply Pos2Z.pos_lt_pos in Hl.
      change (Zpos 4503599627370496) with (2 ^ 52) in Hl. lia.
    + split; [reflexivity|]. intros H. discriminate H.
  - assert (He : (e <? -52) = true) by (apply Z.ltb_lt; lia). rewrite He.
    split; reflexivity.
  - assert (He : (e <? -52) = false) by (apply Z.ltb_ge; lia). rewrite He.
    split; [reflexivity|]. intros H. discriminate H.
Qed.

(** The clamp of a finite normal number. *)
Lemma clamp_finite (s : bool) (m : positive) (e : Z) :
  2 ^ 52 <= Zpos m < 2 ^ 53 ->
  clamp (S754_finite s m e)
  = if e <? -52 then S754_finite s m e else if s then neg_one else one.
Proof.
  intros Hm. unfold clamp.
  change (of_int 1) with one. change (of_int (-1)) with neg_one.
  destruct s.
  - assert (Hmin : min one (S754_finite true m e) = S754_finite true m e) by reflexivity.
    rewrite Hmin. unfold max.
    change (is_nan neg_one || is_nan (S754_finite true m e)) with false.
    change (is_neg_zero neg_one) with false. cbv iota.
    pose proof (lt_neg_one m e Hm) as H.
    destruct (e <? -52).
    + destruct H as [-> ->]. reflexivity.
    + destruct H as [-> H].
      destruct (lt (S754_finite true m e) neg_one); reflexivity.
  - pose proof (lt_one_pos m e Hm) as H.
    assert (Hmin : min one (S754_finite false m e)
                   = if e <? -52 then S754_finite false m e else one).
    { unfold min.
      change (is_nan one || is_nan (S754_finite false m e)) with false.
      change (is_neg_zero one) with false. cbv iota.
      destruct (e <? -52).
      - destruct H as [-> ->]. reflexivity.
      - destruct H as [-> H].
        destruct (lt one (S754_finite false m e)); [reflexivity|].
        apply H. reflexivity. }
    rewrite Hmin. destruct (e <? -52); reflexivity.
Qed.

Lemma normal_lt_one (m : positive) (e : Z) :
  2 ^ 52 <= Zpos m < 2 ^ 53 -> e < -52 ->
  (0 < to_Q (S754_finite false m e) /\ to_Q (S754_finite false m e) < 1)%Q.
Proof.
  intros Hm He.
  split; [apply (normal_pos _ m e); split; [reflexivity|exact Hm]|].
  assert (Hpk : 0 < 2 ^ (- e)) by (apply Z.pow_pos_nonneg; lia).
  assert (Hpq : (0 < inject_Z (2 ^ (- e)))%Q).
  { change 0%Q with (inject_Z 0). rewrite <- Zlt_Qlt. exact Hpk. }
  assert (Hscale : (to_Q (S754_finite false m e) * inject_Z (2 ^ (- e))
                    == inject_Z (Zpos m))%Q).
  { unfold to_Q, signed. cbn [cond_Zopp]. rewrite Qpow2_inject by lia.
    rewrite <- Qmult_assoc, <- Qpow2_add. replace (e + - e) with 0 by lia.
    change (2 ^ 0)%Q with 1%Q. ring. }
  apply (Qmult_lt_r _ _ (inject_Z (2 ^ (- e))) Hpq). rewrite Hscale, Qmult_1_l.
  rewrite <- Zlt_Qlt.
  pose proof (Z.pow_le_mono_r 2 53 (- e) ltac:(lia) ltac:(lia)). lia.
Qed.

Lemma normal_ge_one (m : positive) (e : Z) :
  2 ^ 52 <= Zpos m < 2 ^ 53 -> -52 <= e ->
  (1 <= to_Q (S754_finite false m e))%Q.
Proof.
  intros Hm He.
  rewrite (to_Q_scaled m e (-52)) by lia.
  assert (Hp : 0 < 2 ^ (e - -52)) by (apply Z.pow_pos_nonneg; lia).
  assert (H1 : (inject_Z (2 ^ 52) <= inject_Z (Zpos m * 2 ^ (e - -52)))%Q).
  { rewrite <- Zle_Qle. nia. }
  change (inject_Z (2 ^ 52)) with (4503599627370496 # 1)%Q in H1.
  change (2 ^ (-52))%Q with (1 # 4503599627370496)%Q.
  set (w := inject_Z (Zpos m * 2 ^ (e - -52))) in *. lra.
Qed.

Lemma scale_finite (s : bool) (m : positive) (e : Z) :
  scale (S754_finite s m e)
  = mul (S754_finite s m e) (if s then of_int 32768 else of_int 32767).
Proof. destruct s; reflexivity. Qed.

Lemma ToInt16_small (s : bool) (m : positive) (e : Z) :
  - 2 ^ 15 <= truncate s m e < 2 ^ 15 ->
  ToInt16 (S754_finite s m e) = truncate s m e.
Proof.
  intros H. unfold ToInt16. set (t := truncate s m e) in *.
  destruct (Z_lt_dec t 0) as [Hneg|Hpos].
  - assert (t mod 2 ^ 16 = t + 2 ^ 16) as ->
        by (symmetry; apply (Z.mod_unique _ _ (-1)); lia).
    destruct (2 ^ 15 <=? _) eqn:H1; [apply Z.leb_le in H1|apply Z.leb_gt in H1]; lia.
  - assert (t mod 2 ^ 16 = t) as -> by (symmetry; apply (Z.mod_unique _ _ 0); lia).
    destruct (2 ^ 15 <=? _) eqn:H1; [apply Z.leb_le in H1|apply Z.leb_gt in H1]; lia.
Qed.

Lemma clampQ_inside (q : Q) : (- 1 < q)%Q -> (q < 1)%Q -> clampQ q = q.
Proof.
  intros H1 H2. unfold clampQ.
  destruct (Qle_bool q (- 1)) eqn:Ha; [apply Qle_bool_iff in Ha; lra|].
  destruct (Qle_bool 1 q) eqn:Hb; [apply Qle_bool_iff in Hb; lra|]. reflexivity.
Qed.

Lemma clampQ_high (q : Q) : (1 <= q)%Q -> clampQ q = 1%Q.
Proof.
  intros H. unfold clampQ.
  destruct (Qle_bool q (- 1)) eqn:Ha; [apply Qle_bool_iff in Ha; lra|].
  destruct (Qle_bool 1 q) eqn:Hb; [reflexivity|].
  apply Qle_bool_iff in H. congruence.
Qed.

Lemma clampQ_low (q : Q) : (q <= - 1)%Q -> clampQ q = (- 1)%Q.
Proof.
  intros H. unfold clampQ. apply Qle_bool_iff in H. rewrite H. reflexivity.
Qed.

Lemma scaleQ_nonneg (c : Q) : (0 <= c)%Q -> scaleQ c = (c * 32767)%Q.
Proof. intros H. unfold scaleQ. apply Qle_bool_iff in H. rewrite H. reflexivity. Qed.

Lemma scaleQ_neg (c : Q) : (c < 0)%Q -> scaleQ c = (c * 32768)%Q.
Proof.
  intros H. unfold scaleQ.
  destruct (Qle_bool 0 c) eqn:Ha; [apply Qle_bool_iff in Ha; lra|reflexivity].
Qed.

(** The value written for a sample inside (-1, 1). *)
Lemma pcm_inside (s : bool) (m : positive) (e : Z) :
  2 ^ 52 <= Zpos m < 2 ^ 53 -> Zpos m mod 2 ^ 29 = 0 -> -201 <= e < -52 ->
  is_trunc (scaleQ (to_Q (S754_finite s m e)))
           (ToInt16 (scale (S754_finite s m e))).
Proof.
  intros Hm Hmod He. rewrite scale_finite.
  apply Z.mod_divide in Hmod; [|lia]. destruct Hmod as [a Ha].
  destruct (normal_lt_one m e Hm ltac:(lia)) as [HX0 HX1].
  pose proof (to_Q_signed s m e) as Hsig.
  destruct s.
  - change (of_int 32768) with (S754_finite false 4503599627370496 (-37)).
    destruct (mul_exact_Q true m 4503599627370496 e (-37) Hm ltac:(lia) ltac:(lia)
                ltac:(lia)) as (m2 & e2 & -> & HV).
    { apply Z.mod_divide; [lia|]. exists (a * 268435456). rewrite Ha. lia. }
    assert (HK : (to_Q (S754_finite false 4503599627370496 (-37)) == 32768)%Q)
      by reflexivity.
    rewrite HK in HV. clear HK.
    pose proof (truncate_is_trunc true m2 e2) as [Ht1 Ht2].
    set (V := to_Q (S754_finite true m2 e2)) in *.
    set (X := to_Q (S754_finite false m e)) in *.
    set (x := to_Q (S754_finite true m e)) in *.
    assert (HVr : (- 32768 < V /\ V < 0)%Q) by (split; lra).
    specialize (Ht2 ltac:(lra)).
    set (t := truncate true m2 e2) in *.
    assert (Htr : - 2 ^ 15 <= t < 2 ^ 15).
    { assert (H1 : (inject_Z (- 32768) < inject_Z t)%Q)
        by (change (inject_Z (- 32768)) with (- 32768 # 1)%Q; lra).
      assert (H2 : (inject_Z t < inject_Z 1)%Q)
        by (change (inject_Z 1) with 1%Q; lra).
      rewrite <- Zlt_Qlt in H1, H2. lia. }
    rewrite ToInt16_small by exact Htr. fold t.
    rewrite scaleQ_neg by lra. unfold is_trunc. split; intros H; lra.
  - change (of_int 32767) with (S754_finite false 9006924376834048 (-38)).
    destruct (mul_exact_Q false m 9006924376834048 e (-38) Hm ltac:(lia) ltac:(lia)
                ltac:(lia)) as (m2 & e2 & -> & HV).
    { apply Z.mod_divide; [lia|]. exists (a * 536854528). rewrite Ha. lia. }
    assert (HK : (to_Q (S754_finite false 9006924376834048 (-38)) == 32767)%Q)
      by reflexivity.
    rewrite HK in HV. clear HK.
    pose proof (truncate_is_trunc false m2 e2) as [Ht1 Ht2].
    set (V := to_Q (S754_finite false m2 e2)) in *.
    set (X := to_Q (S754_finite false m e)) in *.
    assert (HVr : (0 < V /\ V < 32767)%Q) by (split; lra).
    specialize (Ht1 ltac:(lra)).
    set (t := truncate false m2 e2) in *.
    assert (Htr : - 2 ^ 15 <= t < 2 ^ 15).
    { assert (H1 : (inject_Z (- 1) < inject_Z t)%Q)
        by (change (inject_Z (- 1)) with (- 1 # 1)%Q; lra).
      assert (H2 : (inject_Z t < inject_Z 32767)%Q)
        by (change (inject_Z 32767) with (32767 # 1)%Q; lra).
      rewrite <- Zlt_Qlt in H1, H2. lia. }
    rewrite ToInt16_small by exact Htr. fold t.
    rewrite scaleQ_nonneg by lra. unfold is_trunc. split; intros H; lra.
Qed.

(** The value written for any sample that is not NaN is its clamped value,
    scaled by 32767 when non-negative and by 32768 when negative, and
    truncated toward zero. *)
Lemma pcm_value_trunc (b : Z) (c : Q) :
  clamped_value (to_number b) = Some c ->
  is_trunc (scaleQ c) (pcm_value b).
Proof.
  unfold pcm_value.
  destruct (to_number b) as [s|s| |s m e] eqn:Hb; cbn [clamped_value].
  - intros [= <-]. destruct s; unfold is_trunc; vm_compute; split; intros _; split; discriminate || reflexivity.
  - intros [= <-]. destruct s; unfold is_trunc; vm_compute; split; intros _; split; discriminate || reflexivity.
  - discriminate.
  - intros [= <-].
    destruct (to_number_shape b s m e Hb) as (Hm & Hmod & He).
    rewrite clamp_finite by exact Hm.
    destruct (e <? -52) eqn:He52.
    + apply Z.ltb_lt in He52.
      destruct (normal_lt_one m e Hm He52) as [HX0 HX1].
      pose proof (to_Q_signed s m e) as Hsig.
      assert (Hin : (- 1 < to_Q (S754_finite s m e)
                     /\ to_Q (S754_finite s m e) < 1)%Q).
      { set (X := to_Q (S754_finite false m e)) in *.
        set (x := to_Q (S754_finite s m e)) in *.
        clearbody X x. destruct s; cbv iota in Hsig; split; lra. }
      rewrite clampQ_inside by tauto.
      apply pcm_inside; [exact Hm|exact Hmod|lia].
    + apply Z.ltb_ge in He52.
      pose proof (normal_ge_one m e Hm He52) as HX.
      pose proof (to_Q_signed s m e) as Hsig.
      set (X := to_Q (S754_finite false m e)) in *.
      destruct s; cbv iota in Hsig.
      * set (x := to_Q (S754_finite true m e)) in *.
        assert (Hx : (x <= - 1)%Q) by (clearbody X x; lra).
        rewrite clampQ_low by exact Hx.
        unfold is_trunc; vm_compute; split; intros _; split; discriminate || reflexivity.
      * rewrite clampQ_high by exact HX.
        unfold is_trunc; vm_compute; split; intros _; split; discriminate || reflexivity.
Qed.


Lemma clamped_value_range (x : number) (c : Q) :
  clamped_value x = Some c -> (- 1 <= c /\ c <= 1)%Q.
Proof.
  assert (Hc : forall q, (- 1 <= clampQ q /\ clampQ q <= 1)%Q).
  { intros q. unfold clampQ.
    destruct (Qle_bool q (- 1)) eqn:Ha; [split; lra|].
    destruct (Qle_bool 1 q) eqn:Hb; [split; lra|].
    assert (~ (q <= - 1)%Q) by (rewrite <- Qle_bool_iff; congruence).
    assert (~ (1 <= q)%Q) by (rewrite <- Qle_bool_iff; congruence).
    split; lra. }
  destruct x as [s|s| |s m e]; cbn [clamped_value]; intros [= <-];
    try apply Hc.
  destruct s; split; lra.
Qed.

(** C4.  For every sample sequence the encoder returns a buffer of exactly
    two bytes per sample; the 16-bit little-endian signed value at byte
    offset [2 i] is ToInt16 of the [i]-th sample clamped and scaled, and for
    a sample that is not NaN this is its clamp to [-1, 1], multiplied by
    32767 when the clamped value is >= 0 and by 32768 when it is < 0, with
    the fraction dropped. *)
Theorem float32ToPCM16_encodes (a : list Z) :
  exists buf,
    float32ToPCM16 a = Normal buf
    /\ length buf = (2 * length a)%nat
    /\ Forall is_byte buf
    /\ forall i x, a !! i = Some x ->
         getInt16_le buf (2 * i) = Some (ToInt16 (scale (clamp (to_number x))))
         /\ - 32768 <= ToInt16 (scale (clamp (to_number x))) <= 32767
         /\ forall c, clamped_value (to_number x) = Some c ->
              is_trunc (scaleQ c) (ToInt16 (scale (clamp (to_number x)))).
Proof.
  destruct (float32ToPCM16_layout a) as (buf & Henc & Hlen & Hbytes & Hget).
  exists buf. split; [exact Henc|]. split; [exact Hlen|]. split; [exact Hbytes|].
  intros i x Hx. split; [exact (Hget i x Hx)|]. split.
  - pose proof (ToInt16_range (scale (clamp (to_number x)))). lia.
  - intros c Hc. exact (pcm_value_trunc x c Hc).
Qed.

(** C6.  For every sample that is not NaN, decoding the 16-bit value the
    encoder writes for it gives a value within 1/32767 of the clamp of the
    sample to [-1, 1]. *)
Theorem pcm_round_trip (a : list Z) (i : nat) (x : Z) (c : Q) :
  a !! i = Some x ->
  clamped_value (to_number x) = Some c ->
  exists buf v,
    float32ToPCM16 a = Normal buf
    /\ getInt16_le buf (2 * i) = Some v
    /\ (Qabs (decodePCM16 v - c) <= 1 # 32767)%Q.
Proof.
  intros Hx Hc.
  destruct (float32ToPCM16_layout a) as (buf & Henc & _ & _ & Hget).
  exists buf, (pcm_value x). split; [exact Henc|]. split; [exact (Hget i x Hx)|].
  pose proof (pcm_value_trunc x c Hc) as [Ht1 Ht2].
  destruct (clamped_value_range _ _ Hc) as [Hc1 Hc2].
  set (v := pcm_value x) in *. clearbody v.
  apply Qabs_Qle_condition. unfold decodePCM16, scaleQ, Qdiv in *.
  change (/ 32767)%Q with (1 # 32767)%Q. change (/ 32768)%Q with (1 # 32768)%Q.
  destruct (Qle_bool 0 c) eqn:Hs.
  - apply Qle_bool_iff in Hs. specialize (Ht1 ltac:(lra)).
    assert (Hv : 0 <= v).
    { assert (H : (inject_Z (- 1) < inject_Z v)%Q)
        by (change (inject_Z (- 1)) with (- 1 # 1)%Q; lra).
      rewrite <- Zlt_Qlt in H. lia. }
    destruct (v <? 0) eqn:Hv0; [apply Z.ltb_lt in Hv0; lia|].
    set (qv := inject_Z v) in *. clearbody qv. split; lra.
  - assert (Hneg : (c < 0)%Q).
    { apply Qnot_le_lt. rewrite <- Qle_bool_iff. congruence. }
    specialize (Ht2 ltac:(lra)).
    destruct (v <? 0) eqn:Hv0.
    + set (qv := inject_Z v) in *. clearbody qv. split; lra.
    + apply Z.ltb_ge in Hv0.
      assert (Hv : v = 0).
      { assert (H : (inject_Z v < inject_Z 1)%Q)
          by (change (inject_Z 1) with 1%Q; lra).
        rewrite <- Zlt_Qlt in H. lia. }
      subst v. change (inject_Z 0) with 0%Q in *. split; lra.
Qed.

(** Half of full scale, 0.5 = 2^52 / 2^53, is written as 16383 and read back
    as 16383/32767. *)
Lemma pcm_round_trip_witness :
  exists buf v,
    float32ToPCM16 [1056964608] = Normal buf
    /\ getInt16_le buf (2 * 0) = Some v
    /\ (Qabs (decodePCM16 v - (4503599627370496 # 9007199254740992)) <= 1 # 32767)%Q.
Proof.
  apply (pcm_round_trip [1056964608] 0%nat 1056964608
           (4503599627370496 # 9007199254740992)).
  - reflexivity.
  - vm_compute. reflexivity.
Defined.

Example half_scale_sample :
  float32ToPCM16 [1056964608; 3204448256; 1065353216; 3212836864; 2143289344]
  = Normal [255; 63; 0; 192; 255; 127; 0; 128; 0; 0].
Proof. vm_compute. reflexivity. Qed.

End PCMValues.


(** ** The relay connection *)

Module Connection.
Import Num F32 Bridge.

(** While the handle is connecting or connected, [connectToRobot] does
    nothing. *)
Lemma connect_noop (st : hook) :
  current_readyState st = Some OPEN
  \/ current_readyState st = Some CONNECTING
  \/ isConnectingRef st = true ->
  connectToRobot st = (st, []).
Proof.
  unfold connectToRobot. intros [-> | [-> | ->]]; simpl;
    rewrite ?orb_true_r; reflexivity.
Qed.

Lemma connect_sets_flag (st : hook) :
  isConnectingRef (connectToRobot st).1 = true
  \/ connectToRobot st = (st, []).
Proof.
  unfold connectToRobot.
  destruct (_ || _ || _); [right|left]; reflexivity.
Qed.

(** Two calls in immediate succession: the second one is a no-op, so at
    most one socket is created, and exactly one from the initial state. *)
Lemma connect_twice (st : hook) :
  connectToRobot (connectToRobot st).1 = ((connectToRobot st).1, [])
  /\ (opened ((connectToRobot st).2 ++ (connectToRobot (connectToRobot st).1).2) <= 1)%nat.
Proof.
  assert (H : connectToRobot (connectToRobot st).1 = ((connectToRobot st).1, [])).
  { destruct (connect_sets_flag st) as [Hflag|Hsame].
    - apply connect_noop. right. right. exact Hflag.
    - rewrite Hsame. simpl. exact Hsame. }
  split; [exact H|]. rewrite H. simpl. rewrite app_nil_r.
  unfold connectToRobot, opened. destruct (_ || _ || _); simpl; lia.
Qed.

Lemma connect_twice_initially :
  run initial [Connect; Connect]
  = Some ({| sockets := [CONNECTING]; wsRef := Some 0%nat; isConnectingRef := true;
             hasProcessorRef := false; bytesSentRef := 0;
             connected := false; error := None; bytesSent := 0 |},
          [NewWebSocket 0]).
Proof. reflexivity. Qed.

(** A run in which the server starts closing the first socket, an audio
    track is subscribed before the close event arrives, and another track
    is subscribed later. *)
Definition stale_close_run : list event :=
  [Connect; SocketOpened 0; ClosingHandshake 0; TrackSubscribed;
   SocketClosed 0; SocketOpened 1; TrackSubscribed; SocketOpened 2].

(** C5.  The guard of [connectToRobot] reads the socket in [wsRef], and the
    close handler of any socket clears [wsRef]: after the close event of
    the first socket has cleared the handle of the second one, a third
    socket is created while the second is open.  At the end of the run two
    sockets are open at once, and the handle names only one of them. *)
Theorem two_sockets_open_after_stale_close :
  match run initial stale_close_run with
  | Some (st, out) =>
      sockets st = [CLOSED; OPEN; OPEN]
      /\ open_sockets st = 2%nat
      /\ opened out = 3%nat
      /\ wsRef st = Some 2%nat
  | None => False
  end.
Proof. vm_compute. repeat split. Qed.

End Connection.


(** ** The transcript relay *)

Module TTSFacts.
Import TTS.

Lemma clear_debounce_sent (r : relay) :
  sentTextsRef (clear_debounce r) = sentTextsRef r
  /\ pendingTextRef (clear_debounce r) = pendingTextRef r
  /\ armed (clear_debounce r) ⊆ armed r.
Proof.
  unfold clear_debounce. destruct (debounceTimerRef r); simpl;
    repeat split; set_solver.
Qed.

Lemma run_cleanup_sent (r : relay) :
  sentTextsRef (run_cleanup r) = sentTextsRef r
  /\ pendingTextRef (run_cleanup r) = pendingTextRef r
  /\ armed (run_cleanup r) ⊆ armed r.
Proof.
  unfold run_cleanup. destruct (hasCleanup r); [apply clear_debounce_sent|done].
Qed.

Lemma effect_body_sent (l : jsstring) (ts : list TranscriptEvent) (r : relay) :
  sentTextsRef (effect_body l ts r) = sentTextsRef r.
Proof.
  unfold effect_body.
  destruct (latest_agent_text l ts) as [[T|]|]; try reflexivity.
  destruct (length T <? 2)%nat; [reflexivity|].
  destruct (decide (T ∈ sentTextsRef r)); [reflexivity|].
  simpl. apply clear_debounce_sent.
Qed.

Lemma update_sent (l : jsstring) (ts : list TranscriptEvent) (r : relay) :
  sentTextsRef (onTranscriptUpdate l ts r) = sentTextsRef r.
Proof.
  unfold onTranscriptUpdate. rewrite effect_body_sent. apply run_cleanup_sent.
Qed.

(** One step: what is posted was not in the set before and is in it after,
    nothing is posted twice within the step, and the set grows by exactly
    what is posted. *)
Lemma step_sent (r r' : relay) (ev : event) (out : list jsstring) :
  step r ev = Some (r', out) ->
  sentTextsRef r' = sentTextsRef r ∪ list_to_set out
  /\ NoDup out
  /\ (forall T, T ∈ out -> T ∉ sentTextsRef r).
Proof.
  destruct ev as [l ts|t|ok|]; simpl.
  - intros [= <- <-]. rewrite update_sent. split; [set_solver|].
    split; [constructor|]. intros T HT. inversion HT.
  - destruct (decide (t ∈ armed r)); [|discriminate].
    unfold onDebounce; simpl.
    destruct (negb (bool_decide (pendingTextRef r = []))); simpl.
    + case_bool_decide as Hin; simpl; intros [= <- <-]; simpl.
      * split; [set_solver|]. split; [constructor|]. intros T HT. inversion HT.
      * split; [set_solver|]. split.
        -- apply NoDup_singleton.
        -- intros T HT. apply list_elem_of_singleton in HT. subst T. exact Hin.
    + intros [= <- <-]; simpl.
      split; [set_solver|]. split; [constructor|]. intros T HT. inversion HT.
  - intros [= <- <-]. split; [set_solver|]. split; [constructor|].
    intros T HT. inversion HT.
  - intros [= <- <-]; simpl. split.
    + destruct (run_cleanup_sent r) as [-> _]. set_solver.
    + split; [constructor|]. intros T HT. inversion HT.
Qed.

Lemma run_sent (evs : list event) (r r' : relay) (out : list jsstring) :
  run r evs = Some (r', out) ->
  sentTextsRef r' = sentTextsRef r ∪ list_to_set out
  /\ NoDup out
  /\ (forall T, T ∈ out -> T ∉ sentTextsRef r).
Proof.
  revert r r' out. induction evs as [|ev evs IH]; intros r r' out; simpl.
  - intros [= <- <-]. split; [set_solver|]. split; [constructor|].
    intros T HT. inversion HT.
  - destruct (step r ev) as [[r1 out1]|] eqn:Hstep; [|discriminate].
    destruct (run r1 evs) as [[r2 out2]|] eqn:Hrun; [|discriminate].
    intros [= <- <-].
    destruct (step_sent _ _ _ _ Hstep) as (Hs1 & Hn1 & Hf1).
    destruct (IH _ _ _ Hrun) as (Hs2 & Hn2 & Hf2).
    split; [rewrite Hs2, Hs1; set_solver|].
    split.
    + apply NoDup_app. split; [exact Hn1|]. split; [|exact Hn2].
      intros T HT1 HT2. apply (Hf2 T HT2). rewrite Hs1. set_solver.
    + intros T HT. apply elem_of_app in HT as [HT|HT]; [exact (Hf1 T HT)|].
      intros Hin. apply (Hf2 T HT). rewrite Hs1. set_solver.
Qed.

(** C1.  Along every run of a relay instance no text is posted twice, and
    the texts posted are exactly the members of the sent-text set.  From
    any state so reached, whatever happens next: the set only grows; a text
    posted by the step was not in the set before and is in it after; the
    outcome of a dispatch, success or failure, changes nothing (in
    particular it removes nothing, and nothing is retried); and an update
    whose latest remote text is already in the set posts nothing, leaves
    the pending text alone and starts no timer. *)
Theorem dispatch_at_most_once (evs : list event) (r : relay) (out : list jsstring) :
  run initial evs = Some (r, out) ->
  NoDup out
  /\ (forall T, (T ∈ out) <-> (T ∈ sentTextsRef r))
  /\ forall ev r' out',
      step r ev = Some (r', out') ->
      sentTextsRef r ⊆ sentTextsRef r'
      /\ (forall T, T ∈ out' -> (T ∉ sentTextsRef r) /\ (T ∈ sentTextsRef r'))
      /\ (forall T, T ∈ out -> T ∉ out')
      /\ (forall ok, ev = DispatchSettled ok -> r' = r /\ out' = [])
      /\ (forall l ts T,
             ev = Update l ts ->
             latest_agent_text l ts = Some (Some T) ->
             T ∈ sentTextsRef r ->
             out' = [] /\ pendingTextRef r' = pendingTextRef r
             /\ armed r' ⊆ armed r).
Proof.
  intros Hrun. destruct (run_sent _ _ _ _ Hrun) as (Hs & Hn & _).
  simpl in Hs.
  assert (Hiff : forall T, (T ∈ out) <-> (T ∈ sentTextsRef r))
    by (intros T; rewrite Hs; set_solver).
  split; [exact Hn|]. split; [exact Hiff|].
  intros ev r' out' Hstep.
  destruct (step_sent _ _ _ _ Hstep) as (Hs' & Hn' & Hf').
  split; [rewrite Hs'; set_solver|].
  split; [intros T HT; split; [exact (Hf' T HT)|rewrite Hs'; set_solver]|].
  split; [intros T HT HT'; apply (Hf' T HT'), Hiff, HT|].
  split.
  - intros ok ->. simpl in Hstep. by injection Hstep as <- <-.
  - intros l ts T -> Hlatest Hin. simpl in Hstep. injection Hstep as <- <-.
    split; [reflexivity|].
    unfold onTranscriptUpdate, effect_body. rewrite Hlatest.
    destruct (run_cleanup_sent r) as (Hsent & Hpend & Harmed).
    destruct (length T <? 2)%nat; simpl; [split; assumption|].
    destruct (decide (T ∈ sentTextsRef (run_cleanup r))) as [|Hn0]; simpl;
      [split; assumption|].
    exfalso. apply Hn0. rewrite Hsent. exact Hin.
Qed.

(** The debounced utterance of the specification: three growing updates,
    the timer of the last one fires, the dispatch fails, and the final text
    arrives twice more. *)
Definition agent : jsstring := [97; 103; 101; 110; 116]%N.
Definition me : jsstring := [109; 101]%N.
Definition said (T : jsstring) : list TranscriptEvent :=
  [{| identity := me; text := Some [104; 105]%N |};
   {| identity := agent; text := Some T |}].
Definition nihao : jsstring := [20320; 22909]%N.
Definition nihaoya : jsstring := [20320; 22909; 21568]%N.
Definition nihaoya_bang : jsstring := [20320; 22909; 21568; 65281]%N.

Definition debounced_utterance : list event :=
  [Update me (said nihao); Update me (said nihaoya); Update me (said nihaoya_bang);
   TimerFires 2; DispatchSettled false;
   Update me (said nihaoya_bang); Update me (said nihaoya_bang)].

Lemma dispatch_at_most_once_witness :
  let r := {| sentTextsRef := {[ nihaoya_bang ]}; pendingTextRef := nihaoya_bang;
              debounceTimerRef := Some 2%nat; armed := ∅; nextTimer := 3;
              hasCleanup := false |} in
  let out := [nihaoya_bang] in
  NoDup out
  /\ (forall T, (T ∈ out) <-> (T ∈ sentTextsRef r))
  /\ forall ev r' out',
      step r ev = Some (r', out') ->
      sentTextsRef r ⊆ sentTextsRef r'
      /\ (forall T, T ∈ out' -> (T ∉ sentTextsRef r) /\ (T ∈ sentTextsRef r'))
      /\ (forall T, T ∈ out -> T ∉ out')
      /\ (forall ok, ev = DispatchSettled ok -> r' = r /\ out' = [])
      /\ (forall l ts T,
             ev = Update l ts ->
             latest_agent_text l ts = Some (Some T) ->
             T ∈ sentTextsRef r ->
             out' = [] /\ pendingTextRef r' = pendingTextRef r
             /\ armed r' ⊆ armed r).
Proof.
  intros r out.
  apply (dispatch_at_most_once debounced_utterance r out).
  vm_compute. reflexivity.
Defined.

(** *** The length rule *)

(** The rule as the specification words it, on the text of the latest
    remote event as it arrives: a text shorter than two characters is
    ignored, any other text that was not sent yet becomes the pending text
    with a timer running for it. *)
Definition length_rule_on_raw_text : Prop :=
  forall (l : jsstring) (ts : list TranscriptEvent) (latest : TranscriptEvent)
         (raw : jsstring) (r : relay),
    latest_agent l ts = Some latest ->
    text latest = Some raw ->
    let r' := onTranscriptUpdate l ts r in
    ((length raw < 2)%nat ->
     pendingTextRef r' = pendingTextRef r /\ armed r' ⊆ armed r)
    /\ ((2 <= length raw)%nat -> raw ∉ sentTextsRef r ->
        pendingTextRef r' = raw
        /\ exists t, debounceTimerRef r' = Some t /\ t ∈ armed r').

(** A remote text of five characters, one letter between blanks, is
    ignored: the test is on the trimmed text. *)
Lemma length_rule_on_raw_text_fails : ~ length_rule_on_raw_text.
Proof.
  intros H.
  pose (latest := {| identity := agent; text := Some [32; 32; 97; 32; 32]%N |}).
  destruct (H me [latest] latest [32; 32; 97; 32; 32]%N initial eq_refl eq_refl)
    as [_ H2].
  destruct H2 as [Hp _]; [simpl; lia|set_solver|].
  vm_compute in Hp. discriminate Hp.
Qed.

Lemma latest_text_trimmed (l : jsstring) (ts : list TranscriptEvent)
    (latest : TranscriptEvent) :
  latest_agent l ts = Some latest ->
  latest_agent_text l ts = Some (trim <$> text latest).
Proof. unfold latest_agent_text. intros ->. reflexivity. Qed.

(** C9, amended.  The length test is applied to the text of the latest
    remote event after its leading and trailing white space is trimmed.
    When the event has no text, or the trimmed text is empty or shorter
    than two characters, the update is ignored: the pending text is
    unchanged, the sent-text set is unchanged and no timer is started.
    Otherwise the trimmed text is eligible: unless it is already in the
    sent-text set, it becomes the pending text and a timer is pending for
    it. *)
Theorem length_rule_on_trimmed_text (l : jsstring) (ts : list TranscriptEvent)
    (latest : TranscriptEvent) (r : relay) :
  latest_agent l ts = Some latest ->
  let r' := onTranscriptUpdate l ts r in
  match text latest with
  | None =>
      pendingTextRef r' = pendingTextRef r /\ armed r' ⊆ armed r
      /\ sentTextsRef r' = sentTextsRef r
  | Some raw =>
      ((length (trim raw) < 2)%nat ->
       pendingTextRef r' = pendingTextRef r /\ armed r' ⊆ armed r
       /\ sentTextsRef r' = sentTextsRef r)
      /\ ((2 <= length (trim raw))%nat -> trim raw ∉ sentTextsRef r ->
          pendingTextRef r' = trim raw
          /\ sentTextsRef r' = sentTextsRef r
          /\ exists t, debounceTimerRef r' = Some t /\ t ∈ armed r')
  end.
Proof.
  intros Hlatest r'. subst r'.
  pose proof (update_sent l ts r) as Hsent.
  unfold onTranscriptUpdate, effect_body in *.
  rewrite (latest_text_trimmed _ _ _ Hlatest) in *.
  destruct (run_cleanup_sent r) as (Hs & Hp & Ha).
  destruct (text latest) as [raw|]; simpl in *; [|done].
  split.
  - intros Hshort. apply Nat.ltb_lt in Hshort. rewrite Hshort in *. done.
  - intros Hlong Hnew.
    destruct (length (trim raw) <? 2)%nat eqn:Hlen; [apply Nat.ltb_lt in Hlen; lia|].
    destruct (decide (trim raw ∈ sentTextsRef (run_cleanup r))) as [Hin|_].
    + rewrite Hs in Hin. contradiction.
    + simpl in *. split; [reflexivity|]. split; [exact Hsent|].
      eexists. split; [reflexivity|]. set_solver.
Qed.

Lemma length_rule_on_trimmed_text_witness :
  let latest := {| identity := agent; text := Some [32; 104; 105; 32]%N |} in
  let r' := onTranscriptUpdate me [latest] initial in
  ((length (trim [32; 104; 105; 32]%N) < 2)%nat ->
   pendingTextRef r' = pendingTextRef initial /\ armed r' ⊆ armed initial
   /\ sentTextsRef r' = sentTextsRef initial)
  /\ ((2 <= length (trim [32; 104; 105; 32]%N))%nat ->
      trim [32; 104; 105; 32]%N ∉ sentTextsRef initial ->
      pendingTextRef r' = trim [32; 104; 105; 32]%N
      /\ sentTextsRef r' = sentTextsRef initial
      /\ exists t, debounceTimerRef r' = Some t /\ t ∈ armed r').
Proof.
  intros latest.
  apply (length_rule_on_trimmed_text me [latest] latest initial).
  reflexivity.
Defined.

End TTSFacts.


(** ** The binary32 round trip *)

Module BinaryRoundTrip.
Import Num F32 Bridge Exact Rounding IntegerNumbers ErrorBounds ExactArithmetic.

(** Every element that is not NaN is read and stored back unchanged: a
    binary32 value is a binary64 value, and rounding it to binary32 gives
    it back. *)
Lemma store_load (b : Z) :
  0 <= b < 2 ^ 32 -> is_nan (to_number b) = false -> of_number (to_number b) = b.
Proof.
  intros Hb Hnan. rewrite <- (pack_fields b Hb) at 2.
  revert Hnan. unfold to_number.
  pose proof (SilenceGate.fraction_range b) as HF.
  pose proof (PCMValues.biased_exp_range b) as HE.
  set (s := sign_bit b). set (E := biased_exp b) in *. set (F := fraction b) in *.
  destruct (E =? 255) eqn:H255.
  { apply Z.eqb_eq in H255. destruct (F =? 0) eqn:HF0; [|discriminate].
    apply Z.eqb_eq in HF0. intros _. rewrite H255, HF0. reflexivity. }
  apply Z.eqb_neq in H255.
  destruct (E =? 0) eqn:H0.
  - apply Z.eqb_eq in H0. destruct (F =? 0) eqn:HF0.
    + apply Z.eqb_eq in HF0. intros _. rewrite H0, HF0. reflexivity.
    + apply Z.eqb_neq in HF0. intros _. cbv zeta. unfold of_number.
      pose proof (Z.log2_spec F ltac:(lia)) as Hlog.
      assert (Hl23 : Z.log2 F < 23) by (apply Z.log2_lt_pow2; lia).
      pose proof (Z.log2_nonneg F) as Hl0.
      set (k := 52 - Z.log2 F) in *.
      destruct F as [|pF|pF] eqn:EF; try lia.
      assert (HdF : Zdigits2 (Zpos pF) = Z.log2 (Zpos pF) + 1).
      { apply Zdigits2_unique; [|lia].
        replace (Z.log2 (Zpos pF) + 1 - 1) with (Z.log2 (Zpos pF)) by lia.
        replace (Z.log2 (Zpos pF) + 1) with (Z.succ (Z.log2 (Zpos pF))) by lia. lia. }
      rewrite (binary_round_exact32 s pF (-149 - k) k).
      * replace (-149 - k + k) with (-149) by lia.
        assert (Hlt : (Zpos pF <? 2 ^ 23) = true) by (apply Z.ltb_lt; lia).
        rewrite Hlt, H0. reflexivity.
      * lia.
      * rewrite Zdigits2_shift by lia. rewrite HdF. unfold fexp, emin. lia.
      * rewrite HdF. unfold fexp, emin. lia.
      * lia.
  - apply Z.eqb_neq in H0. intros _. unfold of_number.
    assert (HM : 2 ^ 23 + F = Zpos (Z.to_pos (2 ^ 23 + F))) by (rewrite Z2Pos.id; lia).
    rewrite HM.
    assert (Hd : Zdigits2 (Zpos (Z.to_pos (2 ^ 23 + F))) = 24).
    { apply Zdigits2_unique; [|lia]. rewrite <- HM.
      change (2 ^ (24 - 1)) with (2 ^ 23). change (2 ^ 24) with (2 ^ 23 + 2 ^ 23). lia. }
    rewrite (binary_round_exact32 s (Z.to_pos (2 ^ 23 + F)) (E - 179) 29).
    + rewrite <- HM.
      assert (Hlt : (2 ^ 23 + F <? 2 ^ 23) = false) by (apply Z.ltb_ge; lia).
      rewrite Hlt. f_equal; lia.
    + lia.
    + rewrite Zdigits2_shift by lia. rewrite Hd. unfold fexp, emin. lia.
    + rewrite Hd. unfold fexp, emin. lia.
    + lia.
Qed.

End BinaryRoundTrip.


(** ** Resampling by an integer ratio *)

Module Decimation.
Import Num F32 Bridge Exact Rounding IntegerNumbers ErrorBounds ExactArithmetic
  BinaryRoundTrip.

(** An element that holds a finite binary32 value. *)
Definition finite32 (b : Z) : Prop := 0 <= b < 2 ^ 32 /\ biased_exp b <> 255.

Lemma finite32_number (b : Z) :
  finite32 b ->
  (to_number b = S754_zero (sign_bit b) /\ b = pack (sign_bit b) 0 0)
  \/ exists m e, to_number b = S754_finite (sign_bit b) m e
                 /\ 2 ^ 52 <= Zpos m < 2 ^ 53 /\ -201 <= e <= 75.
Proof.
  intros [Hb HE].
  destruct (to_number b) as [s|s| |s m e] eqn:Hn.
  - left. revert Hn. unfold to_number.
    destruct (biased_exp b =? 255); [destruct (fraction b =? 0); discriminate|].
    destruct (biased_exp b =? 0) eqn:H0; [|discriminate].
    destruct (fraction b =? 0) eqn:HF0; [|discriminate].
    apply Z.eqb_eq in H0, HF0. intros [= <-]. split; [reflexivity|].
    rewrite <- (pack_fields b Hb) at 1. rewrite H0, HF0. reflexivity.
  - exfalso. revert Hn. unfold to_number.
    destruct (biased_exp b =? 255) eqn:H255; [apply Z.eqb_eq in H255; contradiction|].
    destruct (biased_exp b =? 0); [destruct (fraction b =? 0)|]; discriminate.
  - exfalso. revert Hn. unfold to_number.
    destruct (biased_exp b =? 255) eqn:H255; [apply Z.eqb_eq in H255; contradiction|].
    destruct (biased_exp b =? 0); [destruct (fraction b =? 0)|]; discriminate.
  - right. exists m, e.
    destruct (PCMValues.to_number_shape b s m e Hn) as (Hm & _ & He).
    assert (Hs : s = sign_bit b).
    { revert Hn. unfold to_number.
      destruct (biased_exp b =? 255); [destruct (fraction b =? 0); discriminate|].
      destruct (biased_exp b =? 0); [destruct (fraction b =? 0); [discriminate|]|];
        intros [= <- _ _]; reflexivity. }
    subst s. repeat split; lia.
Qed.

(** The value stored for an output sample when the interpolation weight is
    zero: the left sample, except that a left sample of -0 next to a sample
    that is not negative gives +0. *)
Lemma zero_weight (a b : Z) :
  finite32 a -> finite32 b ->
  let o := of_number (add (mul (to_number a) one) (mul (to_number b) (S754_zero false))) in
  o = a \/ (a = 2147483648 /\ o = 0).
Proof.
  intros Ha Hb. cbv zeta.
  assert (HB : exists sb, mul (to_number b) (S754_zero false) = S754_zero sb).
  { destruct (finite32_number b Hb) as [[-> _]|(m & e & -> & _)];
      eexists; reflexivity. }
  destruct HB as [sb ->].
  destruct (finite32_number a Ha) as [[Hn Hbits]|(m & e & Hn & Hm & He)].
  - rewrite Hn. unfold one. cbn [mul SFmul add SFadd xorb].
    rewrite xorb_false_r.
    destruct (sign_bit a) eqn:Hs.
    + destruct sb.
      * left. rewrite Hbits. reflexivity.
      * right. split; [rewrite Hbits; reflexivity|reflexivity].
    + left. rewrite Hbits. destruct sb; reflexivity.
  - left. rewrite Hn, mul_one by lia. cbn [add SFadd].
    rewrite <- Hn. apply store_load; [apply Ha|]. rewrite Hn. reflexivity.
Qed.

Section IntegerRatio.
Variable input : list Z.
Variables k hout : Z.
Hypothesis Hk : 2 <= k.
Hypothesis Hhout : 0 < hout.
Hypothesis Hrate : k * hout < 2 ^ 53.
Hypothesis Hsize : Z.of_nat (length input) * hout <= 2 ^ 50.
Hypothesis Hfinite : Forall finite32 input.

Let n : Z := Z.of_nat (length input).

Lemma n_bound : 0 <= n <= 2 ^ 50.
Proof. subst n. nia. Qed.

Lemma integer_ratio : ratio_of (of_int (k * hout)) (of_int hout) = of_int k.
Proof. unfold ratio_of. apply div_int_exact; lia. Qed.

Lemma k_normal : of_int k = canon false k /\ 0 < k < 2 ^ 53.
Proof. assert (H : 0 < k < 2 ^ 53) by nia. split; [apply of_int_canon; exact H|exact H]. Qed.

(** The length: the floor of the quotient of two integers. *)
Lemma integer_outputLength :
  ToIndex (outputLength input (of_int k)) = Normal (n / k).
Proof.
  pose proof n_bound as Hn. destruct k_normal as [Hkc Hk53].
  pose proof (Z.div_mod n k ltac:(lia)) as Hdm.
  pose proof (Z.mod_pos_bound n k ltac:(lia)) as Hmod.
  assert (HL : 0 <= n / k <= n) by (split; [apply Z.div_pos; lia|nia]).
  unfold outputLength, length_of. fold n.
  destruct (Z.eq_dec (n mod k) 0) as [Hex|Hnex].
  - destruct (Z.eq_dec n 0) as [Hn0|Hn0].
    + rewrite Hn0, Hkc. reflexivity.
    + assert (Hq : 0 < n / k) by nia.
      replace n with (n / k * k) at 1 by lia.
      rewrite div_int_exact by nia.
      rewrite floor_int by lia. apply ToIndex_int. lia.
  - (* not a multiple: the quotient lies strictly between two integers *)
    assert (Hn0 : 0 < n).
    { destruct (Z.eq_dec n 0) as [E|E]; [|lia].
      rewrite E, Z.mod_0_l in Hnex by lia. contradiction. }

    destruct (quotient_bounds n (canon false k) _ _ ltac:(lia)
                (canon_normal k Hk53)) as (mq & eq & Hnq & Hb1 & Hb2).
    { pose proof (Zdigits2_le53 k Hk53). lia. }
    rewrite (to_Q_canon k Hk53) in Hb1, Hb2.
    rewrite Hkc.
    set (Q := div (of_int n) (canon false k)) in *.
    assert (HQlt : (to_Q Q < inject_Z (2 ^ 52))%Q).
    { pose proof (ResampleFacts.inject_Z_le n (2 ^ 50) ltac:(lia)) as Hn50.
      pose proof (ResampleFacts.inject_Z_le 2 k ltac:(lia)) as Hk2.
      change (inject_Z (2 ^ 50)) with (1125899906842624 # 1)%Q in Hn50.
      change (inject_Z (2 ^ 52)) with (4503599627370496 # 1)%Q.
      change (inject_Z 2) with 2%Q in Hk2.
      pose proof (normal_pos _ _ _ Hnq) as HQ0.
      set (q := to_Q Q) in *. set (qn := inject_Z n) in *. set (qk := inject_Z k) in *.
      clearbody q qn qk. unfold eps in *. nra. }
    destruct (floor_normal Q mq eq Hnq HQlt) as (j & Hfl & Hj & Hj1 & Hj2).
    rewrite Hfl.
    assert (Hjq : j = n / k).
    { pose proof (ResampleFacts.inject_Z_le 1 (n mod k) ltac:(lia)) as Hr1.
      pose proof (ResampleFacts.inject_Z_le (n mod k) (k - 1) ltac:(lia)) as Hr2.
      pose proof (ResampleFacts.inject_Z_le n (2 ^ 50) ltac:(lia)) as Hn50.
      pose proof (ResampleFacts.inject_Z_le 2 k ltac:(lia)) as Hk2.
      pose proof (ResampleFacts.inject_Z_le k (2 ^ 53 - 1) ltac:(lia)) as Hk53'.
      assert (HnQ : (inject_Z n == inject_Z k * inject_Z (n / k) + inject_Z (n mod k))%Q).
      { rewrite <- inject_Z_mult, <- inject_Z_plus. rewrite <- Hdm. reflexivity. }
      change (inject_Z (2 ^ 50)) with (1125899906842624 # 1)%Q in Hn50.
      change (inject_Z (2 ^ 53 - 1)) with (9007199254740991 # 1)%Q in Hk53'.
      change (inject_Z 2) with 2%Q in Hk2. change (inject_Z 1) with 1%Q in Hr1.
      unfold Zminus in Hr2. rewrite inject_Z_plus in Hr2.
      change (inject_Z (- (1))) with (- (1))%Q in Hr2.
      pose proof (ResampleFacts.inject_Z_le 0 (n / k) ltac:(lia)) as HF0.
      change (inject_Z 0) with 0%Q in HF0.
      pose proof (ResampleFacts.inject_Z_le 0 j ltac:(lia)) as Hj0.
      change (inject_Z 0) with 0%Q in Hj0.
      set (q := to_Q Q) in *. set (qn := inject_Z n) in *. set (qk := inject_Z k) in *.
      set (qF := inject_Z (n / k)) in *. set (qr := inject_Z (n mod k)) in *.
      set (qj := inject_Z j) in *.
      assert (Hup : (qj < qF + 1)%Q).
      { clearbody q qn qk qF qr qj. unfold eps in *. nra. }
      assert (Hlo : (qF < qj + 1)%Q).
      { clearbody q qn qk qF qr qj. unfold eps in *. nra. }
      subst qj qF. change 1%Q with (inject_Z 1) in Hup, Hlo.
      rewrite <- inject_Z_plus, <- Zlt_Qlt in Hup, Hlo. lia. }
    rewrite Hjq. apply ToIndex_int. lia.
Qed.

Lemma get_int (j : Z) (b : Z) :
  0 <= j < 2 ^ 53 -> input !! Z.to_nat j = Some b -> get input (of_int j) = to_number b.
Proof.
  intros Hj Hb. unfold get. rewrite integer_index_int by exact Hj.
  destruct (j <? 0) eqn:E; [apply Z.ltb_lt in E; lia|]. rewrite Hb. reflexivity.
Qed.

(** With an integer ratio the source index is an integer and the weight
    is zero. *)
Lemma interpolate_integer (i : Z) (a b : Z) :
  0 <= i < n / k ->
  input !! Z.to_nat (i * k) = Some a ->
  input !! Z.to_nat (Z.min (i * k + 1) (n - 1)) = Some b ->
  interpolate input (of_int k) i
  = add (mul (to_number a) one) (mul (to_number b) (S754_zero false)).
Proof.
  intros Hi Ha Hb. pose proof n_bound as Hn. destruct k_normal as [_ Hk53].
  pose proof (Z.div_mod n k ltac:(lia)) as Hdm.
  pose proof (Z.mod_pos_bound n k ltac:(lia)) as Hmod.
  assert (Hik : 0 <= i * k /\ i * k + k <= n) by nia.
  assert (Hi53 : 0 <= i < 2 ^ 53) by nia.
  unfold interpolate, srcIndexCeil, srcIndexFloor, srcIndex, length_of. fold n.
  rewrite (mul_int i k) by nia.
  rewrite floor_int by lia.
  assert (Ht : sub (of_int (i * k)) (of_int (i * k)) = S754_zero false).
  { destruct (Z.eq_dec (i * k) 0) as [->|Hne]; [reflexivity|].
    rewrite sub_int by lia. rewrite Z.sub_diag. reflexivity. }
  rewrite Ht.
  change (sub (of_int 1) (S754_zero false)) with one.
  rewrite (add_int (i * k) 1) by lia.
  rewrite (sub_int n 1) by lia.
  rewrite min_int by lia.
  rewrite (get_int (i * k) a) by (try exact Ha; lia).
  rewrite (get_int (Z.min (i * k + 1) (n - 1)) b) by (try exact Hb; lia).
  reflexivity.
Qed.

Lemma decimation :
  exists out,
    resample_fresh input (of_int (k * hout)) (of_int hout) = Normal out
    /\ Z.of_nat (length out) = n / k
    /\ forall i : nat,
         Z.of_nat i < n / k ->
         exists a o,
           input !! Z.to_nat (Z.of_nat i * k) = Some a
           /\ out !! i = Some o
           /\ (o = a \/ (a = 2147483648 /\ o = 0)).
Proof.
  pose proof n_bound as Hn.
  pose proof (Z.div_mod n k ltac:(lia)) as Hdm.
  pose proof (Z.mod_pos_bound n k ltac:(lia)) as Hmod.
  assert (HL : 0 <= n / k) by (apply Z.div_pos; lia).
  unfold resample_fresh, resample_on, new_Float32Array.
  rewrite integer_ratio, integer_outputLength.
  assert (H4 : (4 * (n / k) <=? 2 ^ 53 - 1) = true).
  { apply Z.leb_le. assert (n / k <= n) by (apply Z.div_le_upper_bound; nia). lia. }
  rewrite H4. cbn [andb].
  eexists. split; [reflexivity|]. split.
  - rewrite length_fmap, length_seqZ. lia.
  - intros i Hi.
    assert (Hik : 0 <= Z.of_nat i * k /\ Z.of_nat i * k + k <= n) by nia.
    assert (Ha : exists a, input !! Z.to_nat (Z.of_nat i * k) = Some a).
    { apply lookup_lt_is_Some. subst n. lia. }
    assert (Hb : exists b, input !! Z.to_nat (Z.min (Z.of_nat i * k + 1) (n - 1)) = Some b).
    { apply lookup_lt_is_Some. subst n. lia. }
    destruct Ha as [a Ha]. destruct Hb as [b Hb].
    exists a. eexists. split; [exact Ha|]. split.
    + rewrite list_lookup_fmap, lookup_seqZ_lt by lia. cbn [fmap option_fmap option_map].
      rewrite Z.add_0_l. reflexivity.
    + rewrite (interpolate_integer (Z.of_nat i) a b ltac:(lia) Ha Hb).
      apply zero_weight.
      * rewrite Forall_lookup in Hfinite. exact (Hfinite _ _ Ha).
      * rewrite Forall_lookup in Hfinite. exact (Hfinite _ _ Hb).
Qed.

End IntegerRatio.

(** When the input rate is an integer multiple [k] of the output rate, the
    resampler does not interpolate: it keeps every [k]-th sample and drops
    the others.  For a frame of finite samples the result has exactly
    [floor(len / k)] elements, and element [i] holds the bits of input
    element [i * k] (for an input element of -0 the result may be +0).  In
    the hook, where 48000 Hz is brought to 16000 Hz, every third sample is
    sent and two out of three are never looked at. *)
Theorem integer_ratio_resampling_is_decimation (h : list (list Z)) (x : nat)
    (k hout : Z) :
  2 <= k -> 0 < hout -> k * hout < 2 ^ 53 ->
  Z.of_nat (length (deref h x)) * hout <= 2 ^ 50 ->
  Forall finite32 (deref h x) ->
  exists out,
    resampleAudio h x (of_int (k * hout)) (of_int hout) = Normal (alloc h out)
    /\ Z.of_nat (length out) = Z.of_nat (length (deref h x)) / k
    /\ forall i : nat,
         Z.of_nat i < Z.of_nat (length (deref h x)) / k ->
         exists a o,
           deref h x !! Z.to_nat (Z.of_nat i * k) = Some a
           /\ out !! i = Some o
           /\ (o = a \/ (a = 2147483648 /\ o = 0)).
Proof.
  intros Hk Hhout Hrate Hsize Hfin.
  destruct (decimation (deref h x) k hout Hk Hhout Hrate Hsize Hfin) as (out & Hres & Hlen & Hel).
  exists out. split; [|split; [exact Hlen|exact Hel]].
  rewrite ResampleFacts.resampleAudio_fresh.
  rewrite ResampleFacts.strict_eq_int by nia.
  assert (Hne : (k * hout =? hout) = false) by (apply Z.eqb_neq; nia).
  rewrite Hne, Hres. reflexivity.
Qed.

(** Six samples at 48000 Hz: the first and the fourth are kept. *)
Lemma integer_ratio_resampling_is_decimation_witness :
  exists out,
    resampleAudio [[1056964608; 1065353216; 3212836864; 3204448256; 0; 1048576000]] 0
                  (of_int (3 * 16000)) (of_int 16000)
    = Normal (alloc [[1056964608; 1065353216; 3212836864; 3204448256; 0; 1048576000]] out)
    /\ Z.of_nat (length out) = 6 / 3
    /\ forall i : nat,
         Z.of_nat i < 6 / 3 ->
         exists a o,
           [1056964608; 1065353216; 3212836864; 3204448256; 0; 1048576000]
             !! Z.to_nat (Z.of_nat i * 3) = Some a
           /\ out !! i = Some o
           /\ (o = a \/ (a = 2147483648 /\ o = 0)).
Proof.
  apply (integer_ratio_resampling_is_decimation
           [[1056964608; 1065353216; 3212836864; 3204448256; 0; 1048576000]] 0%nat
           3 16000).
  - lia.
  - lia.
  - lia.
  - simpl. lia.
  - repeat (constructor; [split; [lia|vm_compute; discriminate]|]). constructor.
Defined.

Example keeps_every_third_sample :
  resample_fresh [1056964608; 1065353216; 3212836864; 3204448256; 0; 1048576000]
                 (of_int 48000) (of_int 16000)
  = Normal [1056964608; 3204448256].
Proof. vm_compute. reflexivity. Qed.

End Decimation.


(** ** The silence gate as a condition on the samples *)

Module GateFacts.
Import Num F32 Bridge.

(** *** The order of numbers *)

Ltac order_cases :=
  repeat match goal with
         | H : context [Z.compare ?x ?y] |- _ => destruct (Z.compare_spec x y)
         | |- context [Z.compare ?x ?y] => destruct (Z.compare_spec x y)
         | H : context [Pos.compare ?x ?y] |- _ => destruct (Pos.compare_spec x y)
         | |- context [Pos.compare ?x ?y] => destruct (Pos.compare_spec x y)
         end.

(** [<] is transitive. *)
Lemma lt_trans (a b c : number) :
  lt a b = true -> lt b c = true -> lt a c = true.
Proof.
  unfold lt, SFltb.
  destruct a as [[]|[]| |[] ma ea], b as [[]|[]| |[] mb eb], c as [[]|[]| |[] mc ec];
    cbn [SFcompare]; try discriminate; try reflexivity;
    change (Pos.compare_cont Eq ?x ?y) with (Pos.compare x y);
    intros H1 H2; order_cases; cbn [CompOpp] in *;
    try discriminate; try reflexivity; subst; try lia.
Qed.

(** [x <= a < c] gives [x < c], for [x] that is not NaN. *)
Lemma le_lt_trans (x a c : number) :
  is_nan x = false -> lt a x = false -> lt a c = true -> lt x c = true.
Proof.
  unfold lt, SFltb.
  destruct x as [[]|[]| |[] mx ex], a as [[]|[]| |[] ma ea], c as [[]|[]| |[] mc ec];
    cbn [SFcompare is_nan]; try discriminate; try reflexivity;
    change (Pos.compare_cont Eq ?x ?y) with (Pos.compare x y);
    intros _ H1 H2; order_cases; cbn [CompOpp] in *;
    try discriminate; try reflexivity; subst; try lia.
Qed.

Lemma lt_not_nan (a b : number) : lt a b = true -> is_nan a = false.
Proof. unfold lt, SFltb. destruct a; cbn [SFcompare is_nan]; [reflexivity..|discriminate|reflexivity]. Qed.

Lemma abs_nan (x : number) : is_nan (Num.abs x) = is_nan x.
Proof. destruct x; reflexivity. Qed.

(** A sample that cannot make a frame audible: NaN, or of magnitude below
    the threshold. *)
Definition quiet (b : Z) : Prop :=
  is_nan (to_number b) = true \/ lt (Num.abs (to_number b)) SILENCE_THRESHOLD = true.

Lemma peak_quiet (l : list Z) (acc : number) :
  lt (fold_left peak_step l acc) SILENCE_THRESHOLD = true
  <-> lt acc SILENCE_THRESHOLD = true /\ Forall quiet l.
Proof.
  revert acc. induction l as [|b l IH]; intros acc; cbn [fold_left].
  - split; [intros H; split; [exact H|constructor]|intros [H _]; exact H].
  - rewrite IH. unfold peak_step at 1. unfold gt.
    set (T := SILENCE_THRESHOLD). set (x := Num.abs (to_number b)).
    assert (Hq : quiet b <-> is_nan x = true \/ lt x T = true).
    { unfold quiet. subst x. rewrite abs_nan. reflexivity. }
    clearbody T.
    split.
    + intros [Hacc Hl]. destruct (SFltb acc x) eqn:Hc.
      * split.
        -- apply (lt_trans acc x T); [exact Hc|exact Hacc].
        -- constructor; [|exact Hl]. apply Hq. right. exact Hacc.
      * split; [exact Hacc|]. constructor; [|exact Hl]. apply Hq.
        destruct (is_nan x) eqn:Hn; [left; reflexivity|right].
        apply (le_lt_trans x acc T); assumption.
    + intros [Hacc Hall]. inversion Hall as [|? ? Hb Hl]; subst.
      split; [|exact Hl].
      destruct (SFltb acc x) eqn:Hc; [|exact Hacc].
      apply Hq in Hb. destruct Hb as [Hn|Hb]; [|exact Hb].
      exfalso. clear -Hc Hn. unfold SFltb in Hc.
      destruct x; try discriminate. destruct acc; discriminate.
Qed.

End GateFacts.


(** ** The encoder: order and clipping *)

Module EncoderFacts.
Import Num F32 Bridge Exact PCMSpec ErrorBounds PCMLayout PCMValues.

Lemma clampQ_mono (p q : Q) : (p <= q)%Q -> (clampQ p <= clampQ q)%Q.
Proof.
  intros H. unfold clampQ.
  destruct (Qle_bool p (- 1)) eqn:Ha; destruct (Qle_bool q (- 1)) eqn:Hb;
    destruct (Qle_bool 1 p) eqn:Hc; destruct (Qle_bool 1 q) eqn:Hd;
    try apply Qle_bool_iff in Ha; try apply Qle_bool_iff in Hb;
    try apply Qle_bool_iff in Hc; try apply Qle_bool_iff in Hd;
    try (assert (~ (p <= - 1)%Q) by (rewrite <- Qle_bool_iff; congruence));
    try (assert (~ (q <= - 1)%Q) by (rewrite <- Qle_bool_iff; congruence));
    try (assert (~ (1 <= p)%Q) by (rewrite <- Qle_bool_iff; congruence));
    try (assert (~ (1 <= q)%Q) by (rewrite <- Qle_bool_iff; congruence));
    lra.
Qed.

Lemma scaleQ_mono (c d : Q) : (c <= d)%Q -> (scaleQ c <= scaleQ d)%Q.
Proof.
  intros H. unfold scaleQ.
  destruct (Qle_bool 0 c) eqn:Ha; destruct (Qle_bool 0 d) eqn:Hb;
    try apply Qle_bool_iff in Ha; try apply Qle_bool_iff in Hb;
    try (assert (~ (0 <= c)%Q) by (rewrite <- Qle_bool_iff; congruence));
    try (assert (~ (0 <= d)%Q) by (rewrite <- Qle_bool_iff; congruence));
    lra.
Qed.

Lemma is_trunc_mono (p q : Q) (v w : Z) :
  is_trunc p v -> is_trunc q w -> (p <= q)%Q -> v <= w.
Proof.
  intros [Hp1 Hp2] [Hq1 Hq2] H.
  destruct (Qlt_le_dec p 0) as [Hneg|Hpos].
  - specialize (Hp2 ltac:(lra)).
    destruct (Qlt_le_dec 0 q) as [Hq|Hq].
    + specialize (Hq1 ltac:(lra)).
      assert (Hv : (inject_Z v < inject_Z 1)%Q) by (change (inject_Z 1) with 1%Q; lra).
      assert (Hw : (inject_Z (- 1) < inject_Z w)%Q)
        by (change (inject_Z (- 1)) with (- 1 # 1)%Q; lra).
      rewrite <- Zlt_Qlt in Hv, Hw. lia.
    + specialize (Hq2 Hq).
      assert (Hlt : (inject_Z v < inject_Z w + 1)%Q) by lra.
      change 1%Q with (inject_Z 1) in Hlt.
      rewrite <- inject_Z_plus, <- Zlt_Qlt in Hlt. lia.
  - specialize (Hp1 Hpos). specialize (Hq1 ltac:(lra)).
    assert (Hlt : (inject_Z v < inject_Z w + 1)%Q) by lra.
    change 1%Q with (inject_Z 1) in Hlt.
    rewrite <- inject_Z_plus, <- Zlt_Qlt in Hlt. lia.
Qed.

Lemma is_trunc_integer (z v : Z) : is_trunc (inject_Z z) v -> v = z.
Proof.
  intros [H1 H2].
  assert (H : (inject_Z v - 1 < inject_Z z /\ inject_Z z < inject_Z v + 1)%Q).
  { destruct (Qlt_le_dec (inject_Z z) 0) as [Hneg|Hpos].
    - specialize (H2 ltac:(lra)). lra.
    - specialize (H1 Hpos). lra. }
  destruct H as [Ha Hb].
  assert (Ha' : (inject_Z v < inject_Z z + 1)%Q) by lra.
  change 1%Q with (inject_Z 1) in Ha', Hb.
  rewrite <- inject_Z_plus, <- Zlt_Qlt in Ha', Hb. lia.
Qed.

Lemma finite_clamped (x : number) :
  is_finite x = true -> clamped_value x = Some (clampQ (to_Q x)).
Proof. destruct x; try discriminate; reflexivity. Qed.

(** The encoder preserves the order of the samples: of two finite samples,
    the one that is not larger is not written as a larger value.  A louder
    sample of the same sign is never written as a quieter one. *)
Theorem encoding_preserves_order (a : list Z) (i j : nat) (x y : Z) :
  a !! i = Some x -> a !! j = Some y ->
  is_finite (to_number x) = true -> is_finite (to_number y) = true ->
  (to_Q (to_number x) <= to_Q (to_number y))%Q ->
  exists buf vx vy,
    float32ToPCM16 a = Normal buf
    /\ getInt16_le buf (2 * i) = Some vx
    /\ getInt16_le buf (2 * j) = Some vy
    /\ vx <= vy.
Proof.
  intros Hx Hy Hfx Hfy Hle.
  destruct (float32ToPCM16_layout a) as (buf & Henc & _ & _ & Hget).
  exists buf, (pcm_value x), (pcm_value y).
  split; [exact Henc|]. split; [exact (Hget i x Hx)|]. split; [exact (Hget j y Hy)|].
  pose proof (pcm_value_trunc x _ (finite_clamped _ Hfx)) as Htx.
  pose proof (pcm_value_trunc y _ (finite_clamped _ Hfy)) as Hty.
  apply (is_trunc_mono _ _ _ _ Htx Hty). apply scaleQ_mono, clampQ_mono, Hle.
Qed.

(** -0.25 and 0.5 *)
Lemma encoding_preserves_order_witness :
  exists buf vx vy,
    float32ToPCM16 [1056964608; 3196059648] = Normal buf
    /\ getInt16_le buf (2 * 1) = Some vx
    /\ getInt16_le buf (2 * 0) = Some vy
    /\ vx <= vy.
Proof.
  apply (encoding_preserves_order [1056964608; 3196059648] 1%nat 0%nat
           3196059648 1056964608).
  - reflexivity.
  - reflexivity.
  - reflexivity.
  - reflexivity.
  - vm_compute. intros H. discriminate H.
Defined.

(** Samples out of range are clipped and NaN is written as silence: a
    sample of 1 or more, +Infinity included, is written as 32767; a sample
    of -1 or less, -Infinity included, as -32768; a NaN sample as 0. *)
Theorem out_of_range_samples_are_clipped (a : list Z) (i : nat) (x : Z) :
  a !! i = Some x ->
  exists buf v,
    float32ToPCM16 a = Normal buf
    /\ getInt16_le buf (2 * i) = Some v
    /\ match to_number x with
       | S754_nan => v = 0
       | S754_infinity s => v = if s then - 32768 else 32767
       | _ => ((1 <= to_Q (to_number x))%Q -> v = 32767)
              /\ ((to_Q (to_number x) <= - 1)%Q -> v = - 32768)
       end.
Proof.
  intros Hx.
  destruct (float32ToPCM16_layout a) as (buf & Henc & _ & _ & Hget).
  exists buf, (pcm_value x).
  split; [exact Henc|]. split; [exact (Hget i x Hx)|].
  pose proof (pcm_value_trunc x) as Ht.
  destruct (to_number x) as [s|s| |s m e] eqn:Hb.
  - split; intros H; change (to_Q (S754_zero s)) with 0%Q in H; lra.
  - specialize (Ht _ eq_refl). destruct s.
    + apply (is_trunc_integer (- 32768)). exact Ht.
    + apply (is_trunc_integer 32767). exact Ht.
  - unfold pcm_value. rewrite Hb. reflexivity.
  - specialize (Ht _ eq_refl). split; intros H.
    + rewrite (clampQ_high _ H) in Ht. apply (is_trunc_integer 32767). exact Ht.
    + rewrite (clampQ_low _ H) in Ht. apply (is_trunc_integer (- 32768)). exact Ht.
Qed.

Lemma out_of_range_samples_are_clipped_witness :
  exists buf v,
    float32ToPCM16 [1069547520; 3221225472; 2143289344; 2139095040] = Normal buf
    /\ getInt16_le buf (2 * 1) = Some v
    /\ (((1 <= to_Q (to_number 3221225472))%Q -> v = 32767)
        /\ ((to_Q (to_number 3221225472) <= - 1)%Q -> v = - 32768)).
Proof.
  apply (out_of_range_samples_are_clipped
           [1069547520; 3221225472; 2143289344; 2139095040] 1%nat 3221225472).
  reflexivity.
Defined.

End EncoderFacts.


(** ** The transcript relay: what is posted, and when *)

Module RelayFacts.
Import TTS.

(** *** Trimming *)

(** A text that neither begins nor ends with white space. *)
Definition no_outer_space (T : jsstring) : Prop :=
  (forall c, head T = Some c -> is_space c = false)
  /\ (forall c, last T = Some c -> is_space c = false).

Lemma trim_start_head (s : jsstring) (c : N) :
  head (trim_start s) = Some c -> is_space c = false.
Proof.
  induction s as [|d s IH]; simpl; [discriminate|].
  destruct (is_space d) eqn:Hd; [exact IH|].
  simpl. intros [= <-]. exact Hd.
Qed.

Lemma trim_start_suffix (s : jsstring) : exists k, s = k ++ trim_start s.
Proof.
  induction s as [|d s [k IH]]; simpl.
  - exists []. reflexivity.
  - destruct (is_space d).
    + exists (d :: k). simpl. f_equal. exact IH.
    + exists []. reflexivity.
Qed.

Lemma trim_no_outer_space (raw : jsstring) : no_outer_space (trim raw).
Proof.
  unfold trim, no_outer_space.
  set (u := trim_start raw). set (v := trim_start (reverse u)).
  rewrite head_reverse, last_reverse. split.
  - intros c Hc.
    destruct (trim_start_suffix (reverse u)) as [k Hk]. fold v in Hk.
    assert (Hlast : last (reverse u) = Some c).
    { rewrite Hk, last_app, Hc. reflexivity. }
    rewrite last_reverse in Hlast. exact (trim_start_head raw c Hlast).
  - intros c Hc. exact (trim_start_head (reverse u) c Hc).
Qed.

(** *** Where a posted text comes from *)

(** [T] was offered by the run [evs]: it is the trimmed text, of two code
    units or more, of the latest event of a remote participant in one of
    the updates. *)
Definition offered (evs : list event) (T : jsstring) : Prop :=
  exists l ts latest raw,
    Update l ts ∈ evs
    /\ latest_agent l ts = Some latest
    /\ identity latest <> l
    /\ text latest = Some raw
    /\ T = trim raw
    /\ (2 <= length T)%nat.

Lemma latest_agent_remote (l : jsstring) (ts : list TranscriptEvent)
    (latest : TranscriptEvent) :
  latest_agent l ts = Some latest -> latest ∈ ts /\ identity latest <> l.
Proof.
  unfold latest_agent. intros H. apply last_Some_elem_of in H.
  apply list_elem_of_filter in H. destruct H as [H1 H2]. split; assumption.
Qed.

Lemma latest_agent_text_offered (l : jsstring) (ts : list TranscriptEvent)
    (T : jsstring) (evs : list event) :
  Update l ts ∈ evs ->
  latest_agent_text l ts = Some (Some T) -> (2 <= length T)%nat ->
  offered evs T.
Proof.
  intros Hin Hlat Hlen. unfold latest_agent_text in Hlat.
  destruct (latest_agent l ts) as [latest|] eqn:Hl; [|discriminate].
  destruct (text latest) as [raw|] eqn:Hraw; [|discriminate].
  simpl in Hlat. injection Hlat as <-.
  exists l, ts, latest, raw.
  destruct (latest_agent_remote _ _ _ Hl) as [_ Hid].
  repeat split; assumption.
Qed.

Lemma clear_debounce_pending (r : relay) :
  pendingTextRef (clear_debounce r) = pendingTextRef r.
Proof. unfold clear_debounce. destruct (debounceTimerRef r); reflexivity. Qed.

Lemma clear_debounce_keeps (r : relay) :
  sentTextsRef (clear_debounce r) = sentTextsRef r
  /\ armed (clear_debounce r) ⊆ armed r.
Proof.
  unfold clear_debounce. destruct (debounceTimerRef r); simpl; split; set_solver.
Qed.

Lemma run_cleanup_keeps (r : relay) :
  sentTextsRef (run_cleanup r) = sentTextsRef r
  /\ armed (run_cleanup r) ⊆ armed r.
Proof.
  unfold run_cleanup. destruct (hasCleanup r); [apply clear_debounce_keeps|done].
Qed.

Lemma run_cleanup_pending (r : relay) :
  pendingTextRef (run_cleanup r) = pendingTextRef r.
Proof.
  unfold run_cleanup. destruct (hasCleanup r); [apply clear_debounce_pending|reflexivity].
Qed.

(** One step keeps the pending text among the offered texts, and posts
    only offered texts. *)
Lemma step_offered (P : jsstring -> Prop) (r r' : relay) (ev : event)
    (out : list jsstring) :
  step r ev = Some (r', out) ->
  (forall l ts T, ev = Update l ts -> latest_agent_text l ts = Some (Some T) ->
                  (2 <= length T)%nat -> P T) ->
  (pendingTextRef r = [] \/ P (pendingTextRef r)) ->
  (pendingTextRef r' = [] \/ P (pendingTextRef r'))
  /\ forall T, T ∈ out -> P T.
Proof.
  intros Hstep HP Hpend. destruct ev as [l ts|t|ok|]; simpl in Hstep.
  - injection Hstep as <- <-. split; [|intros T HT; inversion HT].
    unfold onTranscriptUpdate, effect_body.
    destruct (latest_agent_text l ts) as [[T|]|] eqn:Hlat; simpl;
      try (rewrite run_cleanup_pending; exact Hpend).
    destruct (length T <? 2)%nat eqn:Hlen; simpl;
      [rewrite run_cleanup_pending; exact Hpend|].
    destruct (decide (T ∈ sentTextsRef (run_cleanup r))); simpl;
      [rewrite run_cleanup_pending; exact Hpend|].
    right. apply (HP l ts T eq_refl Hlat). apply Nat.ltb_ge in Hlen. exact Hlen.
  - destruct (decide (t ∈ armed r)); [|discriminate].
    unfold onDebounce in Hstep; simpl in Hstep.
    destruct (negb (bool_decide (pendingTextRef r = []))
              && negb (bool_decide (pendingTextRef r ∈ sentTextsRef r))) eqn:Hc;
      injection Hstep as <- <-; simpl.
    + split; [exact Hpend|]. intros T HT. apply list_elem_of_singleton in HT. subst T.
      destruct Hpend as [He|Hp]; [|exact Hp].
      rewrite He in Hc. simpl in Hc. discriminate.
    + split; [exact Hpend|]. intros T HT. inversion HT.
  - injection Hstep as <- <-. split; [exact Hpend|]. intros T HT. inversion HT.
  - injection Hstep as <- <-. simpl. rewrite run_cleanup_pending.
    split; [exact Hpend|]. intros T HT. inversion HT.
Qed.

Lemma run_offered (P : jsstring -> Prop) (evs : list event) (r r' : relay)
    (out : list jsstring) :
  run r evs = Some (r', out) ->
  (forall l ts T, Update l ts ∈ evs -> latest_agent_text l ts = Some (Some T) ->
                  (2 <= length T)%nat -> P T) ->
  (pendingTextRef r = [] \/ P (pendingTextRef r)) ->
  forall T, T ∈ out -> P T.
Proof.
  revert r r' out. induction evs as [|ev evs IH]; intros r r' out; simpl.
  - intros [= <- <-] _ _ T HT. inversion HT.
  - destruct (step r ev) as [[r1 out1]|] eqn:Hstep; [|discriminate].
    destruct (run r1 evs) as [[r2 out2]|] eqn:Hrun; [|discriminate].
    intros [= <- <-] HP Hpend T HT.
    destruct (step_offered P _ _ _ _ Hstep) as [Hpend1 Hout1].
    + intros l ts T0 -> Hlat Hlen. apply (HP l ts T0); [left|assumption|assumption].
    + exact Hpend.
    + apply elem_of_app in HT as [HT|HT]; [exact (Hout1 T HT)|].
      apply (IH _ _ _ Hrun); [|exact Hpend1|exact HT].
      intros l ts T0 Hin. apply (HP l ts T0). right. exact Hin.
Qed.

(** Every text posted to the robot is the trimmed text of the latest event
    of a remote participant in one of the updates received; it has at least
    two code units and neither begins nor ends with white space.  Nothing
    the local participant said is ever posted. *)
Theorem posted_text_is_remote_and_trimmed (evs : list event) (r : relay)
    (out : list jsstring) (T : jsstring) :
  run initial evs = Some (r, out) ->
  T ∈ out ->
  offered evs T /\ no_outer_space T.
Proof.
  intros Hrun HT.
  assert (Hoff : offered evs T).
  { apply (run_offered (offered evs) evs initial r out Hrun); [| left; reflexivity | exact HT].
    intros l ts T0 Hin Hlat Hlen. exact (latest_agent_text_offered l ts T0 evs Hin Hlat Hlen). }
  split; [exact Hoff|].
  destruct Hoff as (l & ts & latest & raw & _ & _ & _ & _ & -> & _).
  apply trim_no_outer_space.
Qed.

(** A remote text between blanks, after a text of the local participant. *)
Definition padded_remote : list TranscriptEvent :=
  [{| identity := [109; 101]%N; text := Some [104; 105]%N |};
   {| identity := [98; 111; 116]%N; text := Some [32; 111; 107; 33; 32]%N |}].

Lemma posted_text_is_remote_and_trimmed_witness :
  offered [Update [109; 101]%N padded_remote; TimerFires 0] [111; 107; 33]%N
  /\ no_outer_space [111; 107; 33]%N.
Proof.
  apply (posted_text_is_remote_and_trimmed
           [Update [109; 101]%N padded_remote; TimerFires 0]
           {| sentTextsRef := {[ [111; 107; 33]%N ]}; pendingTextRef := [111; 107; 33]%N;
              debounceTimerRef := Some 0%nat; armed := ∅; nextTimer := 1;
              hasCleanup := true |}
           [[111; 107; 33]%N] [111; 107; 33]%N).
  - vm_compute. reflexivity.
  - apply list_elem_of_singleton. reflexivity.
Defined.

(** *** The debounce timer *)

(** The state of the timers: a pending timer is the one the ref holds, and
    while one is pending the last run of the effect has left its cleanup. *)
Definition timer_inv (r : relay) : Prop :=
  (forall t, t ∈ armed r -> debounceTimerRef r = Some t)
  /\ (armed r <> ∅ -> hasCleanup r = true).

Lemma run_cleanup_disarms (r : relay) :
  timer_inv r ->
  armed (run_cleanup r) = ∅
  /\ nextTimer (run_cleanup r) = nextTimer r
  /\ sentTextsRef (run_cleanup r) = sentTextsRef r
  /\ debounceTimerRef (run_cleanup r) = debounceTimerRef r.
Proof.
  intros [H1 H2]. unfold run_cleanup.
  destruct (hasCleanup r) eqn:Hc.
  - unfold clear_debounce. destruct (debounceTimerRef r) as [t|] eqn:Ht; simpl.
    + repeat split; try reflexivity; try exact Ht.
      apply set_eq. intros t'. split; [|set_solver].
      intros Hin. apply elem_of_difference in Hin as [Hin Hne].
      specialize (H1 t' Hin). injection H1 as ->. set_solver.
    + repeat split; try reflexivity; try exact Ht.
      apply set_eq. intros t'. split; [|set_solver].
      intros Hin. specialize (H1 t' Hin). discriminate.
  - repeat split; try reflexivity.
    destruct (decide (armed r = ∅)) as [He|Hne]; [exact He|].
    specialize (H2 Hne). congruence.
Qed.

Lemma clear_debounce_empty (r : relay) :
  armed r = ∅ -> armed (clear_debounce r) = ∅.
Proof.
  intros He. unfold clear_debounce. destruct (debounceTimerRef r); simpl; [|exact He].
  rewrite He. set_solver.
Qed.

(** What an update leaves of the timers, from a state that satisfies the
    invariant. *)
Lemma update_timers (l : jsstring) (ts : list TranscriptEvent) (r : relay) :
  timer_inv r ->
  let r' := onTranscriptUpdate l ts r in
  match latest_agent_text l ts with
  | Some (Some T) =>
      if (2 <=? length T)%nat && bool_decide (T ∉ sentTextsRef r) then
        armed r' = {[ nextTimer r ]}
        /\ debounceTimerRef r' = Some (nextTimer r)
        /\ pendingTextRef r' = T
        /\ hasCleanup r' = true
      else armed r' = ∅
  | _ => armed r' = ∅
  end.
Proof.
  intros Hinv. destruct (run_cleanup_disarms r Hinv) as (Ha & Hn & Hs & _).
  cbv zeta. unfold onTranscriptUpdate, effect_body.
  destruct (latest_agent_text l ts) as [[T|]|]; cbn [set_cleanup armed]; try exact Ha.
  destruct (length T <? 2)%nat eqn:Hlen.
  - apply Nat.ltb_lt in Hlen.
    assert (Hle : (2 <=? length T)%nat = false) by (apply Nat.leb_gt; lia).
    rewrite Hle. cbn [andb set_cleanup armed]. exact Ha.
  - apply Nat.ltb_ge in Hlen.
    assert (Hle : (2 <=? length T)%nat = true) by (apply Nat.leb_le; lia).
    rewrite Hle, Hs. cbn [andb].
    destruct (decide (T ∈ sentTextsRef r)) as [Hin|Hnin].
    + rewrite bool_decide_eq_false_2 by (intros H; exact (H Hin)).
      cbn [set_cleanup armed]. exact Ha.
    + rewrite bool_decide_eq_true_2 by exact Hnin.
      cbn [armed debounceTimerRef pendingTextRef hasCleanup].
      assert (Hn' : nextTimer (clear_debounce (run_cleanup r)) = nextTimer r).
      { rewrite <- Hn. unfold clear_debounce.
        destruct (debounceTimerRef (run_cleanup r)); reflexivity. }
      rewrite Hn', (clear_debounce_empty _ Ha).
      repeat split; try reflexivity. set_solver.
Qed.

Lemma update_inv (l : jsstring) (ts : list TranscriptEvent) (r : relay) :
  timer_inv r -> timer_inv (onTranscriptUpdate l ts r).
Proof.
  intros Hinv. pose proof (update_timers l ts r Hinv) as H. cbv zeta in H.
  destruct (latest_agent_text l ts) as [[T|]|].
  - destruct ((2 <=? length T)%nat && bool_decide (T ∉ sentTextsRef r)).
    + destruct H as (Ha & Hd & _ & Hc). split.
      * intros t Ht. rewrite Ha in Ht. apply elem_of_singleton in Ht. subst t. exact Hd.
      * intros _. exact Hc.
    + split; [intros t Ht; rewrite H in Ht; set_solver|intros Hne; contradiction].
  - split; [intros t Ht; rewrite H in Ht; set_solver|intros Hne; contradiction].
  - split; [intros t Ht; rewrite H in Ht; set_solver|intros Hne; contradiction].
Qed.

Lemma step_inv (r r' : relay) (ev : event) (out : list jsstring) :
  step r ev = Some (r', out) -> timer_inv r -> timer_inv r'.
Proof.
  intros Hstep Hinv. destruct ev as [l ts|t|ok|]; simpl in Hstep.
  - injection Hstep as <- <-. apply update_inv. exact Hinv.
  - destruct (decide (t ∈ armed r)) as [Hin|]; [|discriminate].
    destruct Hinv as [H1 H2].
    assert (He : armed r ∖ {[ t ]} = ∅).
    { apply set_eq. intros t'. split; [|set_solver].
      intros Hin'. apply elem_of_difference in Hin' as [Hin' Hne].
      pose proof (H1 t' Hin') as E1. pose proof (H1 t Hin) as E2.
      rewrite E1 in E2. injection E2 as ->. set_solver. }
    unfold onDebounce in Hstep; simpl in Hstep.
    destruct (negb (bool_decide (pendingTextRef r = []))
              && negb (bool_decide (pendingTextRef r ∈ sentTextsRef r)));
      injection Hstep as <- <-; simpl; (split; simpl;
        [intros t' Ht'; rewrite He in Ht'; set_solver|intros Hne; contradiction]).
  - injection Hstep as <- <-. exact Hinv.
  - injection Hstep as <- <-.
    destruct (run_cleanup_disarms r Hinv) as (Ha & _).
    split; simpl; [intros t Ht; rewrite Ha in Ht; set_solver|intros Hne; contradiction].
Qed.

Lemma run_inv (evs : list event) (r r' : relay) (out : list jsstring) :
  run r evs = Some (r', out) -> timer_inv r -> timer_inv r'.
Proof.
  revert r r' out. induction evs as [|ev evs IH]; intros r r' out; simpl.
  - intros [= <- <-] H. exact H.
  - destruct (step r ev) as [[r1 out1]|] eqn:Hstep; [|discriminate].
    destruct (run r1 evs) as [[r2 out2]|] eqn:Hrun; [|discriminate].
    intros [= <- <-] Hinv. apply (IH _ _ _ Hrun). exact (step_inv _ _ _ _ Hstep Hinv).
Qed.

Lemma initial_inv : timer_inv initial.
Proof. split; [intros t Ht; set_solver|intros H; exfalso; apply H; reflexivity]. Qed.

(** At any moment at most one debounce timer is pending, and it is the one
    whose id [debounceTimerRef] holds: every earlier timer was cleared
    before the next one was started. *)
Theorem at_most_one_timer_pending (evs : list event) (r : relay)
    (out : list jsstring) (t1 t2 : nat) :
  run initial evs = Some (r, out) ->
  t1 ∈ armed r -> t2 ∈ armed r ->
  t1 = t2 /\ debounceTimerRef r = Some t1.
Proof.
  intros Hrun H1 H2. destruct (run_inv _ _ _ _ Hrun initial_inv) as [Hinv _].
  pose proof (Hinv t1 H1) as E1. pose proof (Hinv t2 H2) as E2.
  split; [congruence|exact E1].
Qed.

Definition two_remote_texts : list event :=
  [Update [109; 101]%N [{| identity := [98; 111; 116]%N; text := Some [111; 107]%N |}];
   Update [109; 101]%N [{| identity := [98; 111; 116]%N; text := Some [111; 107; 33]%N |}]].

Lemma at_most_one_timer_pending_witness :
  1%nat = 1%nat /\ Some 1%nat = Some 1%nat.
Proof.
  apply (at_most_one_timer_pending two_remote_texts
           {| sentTextsRef := ∅; pendingTextRef := [111; 107; 33]%N;
              debounceTimerRef := Some 1%nat; armed := {[ 1%nat ]}; nextTimer := 2;
              hasCleanup := true |} [] 1%nat 1%nat).
  - vm_compute. reflexivity.
  - cbn [armed]. set_solver.
  - cbn [armed]. set_solver.
Defined.

(** An update restarts the debounce or cancels it.  When the latest remote
    text is eligible (two code units or more after trimming, not sent yet),
    the only pending timer afterwards is a new one, for that text.  In every
    other case (no remote event, no text, a text too short, a text already
    sent) no timer is pending afterwards: the cleanup of the previous run
    has cleared the timer and the effect returned before starting another,
    so a text that was waiting is not posted. *)
Theorem update_restarts_or_cancels (evs : list event) (r : relay)
    (out : list jsstring) (l : jsstring) (ts : list TranscriptEvent) :
  run initial evs = Some (r, out) ->
  let r' := onTranscriptUpdate l ts r in
  match latest_agent_text l ts with
  | Some (Some T) =>
      if (2 <=? length T)%nat && bool_decide (T ∉ sentTextsRef r) then
        armed r' = {[ nextTimer r ]}
        /\ debounceTimerRef r' = Some (nextTimer r)
        /\ pendingTextRef r' = T
        /\ hasCleanup r' = true
      else armed r' = ∅
  | _ => armed r' = ∅
  end.
Proof.
  intros Hrun. apply update_timers. exact (run_inv _ _ _ _ Hrun initial_inv).
Qed.

(** A text is waiting, and the next update ends with a remote text of one
    letter: nothing is pending any more. *)
Lemma update_restarts_or_cancels_witness :
  armed (onTranscriptUpdate [109; 101]%N
           [{| identity := [98; 111; 116]%N; text := Some [111]%N |}]
           {| sentTextsRef := ∅; pendingTextRef := [111; 107; 33]%N;
              debounceTimerRef := Some 1%nat; armed := {[ 1%nat ]}; nextTimer := 2;
              hasCleanup := true |}) = ∅.
Proof.
  apply (update_restarts_or_cancels two_remote_texts
           {| sentTextsRef := ∅; pendingTextRef := [111; 107; 33]%N;
              debounceTimerRef := Some 1%nat; armed := {[ 1%nat ]}; nextTimer := 2;
              hasCleanup := true |} [] [109; 101]%N
           [{| identity := [98; 111; 116]%N; text := Some [111]%N |}]).
  vm_compute. reflexivity.
Defined.

(** The debounce completes: after an update with an eligible text, the
    timer it started fires and posts exactly that text, which is then in
    the sent-text set. *)
Theorem eligible_text_is_posted_by_its_timer (r : relay) (l : jsstring)
    (ts : list TranscriptEvent) (T : jsstring) :
  latest_agent_text l ts = Some (Some T) ->
  (2 <= length T)%nat ->
  T ∉ sentTextsRef r ->
  exists t r',
    debounceTimerRef (onTranscriptUpdate l ts r) = Some t
    /\ run r [Update l ts; TimerFires t] = Some (r', [T])
    /\ T ∈ sentTextsRef r'.
Proof.
  intros Hlat Hlen Hnew.
  destruct (run_cleanup_keeps r) as (Hs & _).
  assert (Hup : exists t,
             debounceTimerRef (onTranscriptUpdate l ts r) = Some t
             /\ t ∈ armed (onTranscriptUpdate l ts r)
             /\ pendingTextRef (onTranscriptUpdate l ts r) = T
             /\ sentTextsRef (onTranscriptUpdate l ts r) = sentTextsRef r).
  { unfold onTranscriptUpdate, effect_body. rewrite Hlat.
    destruct (length T <? 2)%nat eqn:Hl; [apply Nat.ltb_lt in Hl; lia|].
    destruct (decide (T ∈ sentTextsRef (run_cleanup r))) as [Hin|_];
      [rewrite Hs in Hin; contradiction|].
    eexists. simpl. split; [reflexivity|]. split; [set_solver|]. split; [reflexivity|].
    destruct (clear_debounce_keeps (run_cleanup r)) as (-> & _). exact Hs. }
  destruct Hup as (t & Hd & Ha & Hp & Hsent).
  exists t. cbn [run step].
  destruct (decide (t ∈ armed (onTranscriptUpdate l ts r))) as [_|Hn]; [|contradiction].
  unfold onDebounce. cbn [pendingTextRef sentTextsRef]. rewrite Hp, Hsent.
  assert (HT : T <> []) by (destruct T; simpl in Hlen; [lia|discriminate]).
  rewrite (bool_decide_eq_false_2 _ HT), (bool_decide_eq_false_2 _ Hnew).
  cbn [negb andb]. eexists. split; [exact Hd|]. split; [reflexivity|].
  simpl. set_solver.
Qed.

Lemma eligible_text_is_posted_by_its_timer_witness :
  exists t r',
    debounceTimerRef (onTranscriptUpdate [109; 101]%N padded_remote initial) = Some t
    /\ run initial [Update [109; 101]%N padded_remote; TimerFires t]
       = Some (r', [[111; 107; 33]%N])
    /\ [111; 107; 33]%N ∈ sentTextsRef r'.
Proof.
  apply (eligible_text_is_posted_by_its_timer initial [109; 101]%N padded_remote
           [111; 107; 33]%N).
  - vm_compute. reflexivity.
  - simpl. lia.
  - set_solver.
Defined.

(** *** Unmounting *)

Definition is_update (ev : event) : bool :=
  match ev with Update _ _ => true | _ => false end.

Lemma quiet_run (evs : list event) (r r' : relay) (out : list jsstring) :
  armed r = ∅ -> forallb (fun ev => negb (is_update ev)) evs = true ->
  run r evs = Some (r', out) -> out = [].
Proof.
  revert r r' out. induction evs as [|ev evs IH]; intros r r' out Ha Hq; simpl.
  - intros [= <- <-]. reflexivity.
  - simpl in Hq. apply andb_true_iff in Hq as [Hev Hq].
    destruct ev as [l ts|t|ok|]; simpl in *; try discriminate.
    + destruct (decide (t ∈ armed r)) as [Hin|]; [|discriminate].
      rewrite Ha in Hin. set_solver.
    + destruct (run r evs) as [[r2 out2]|] eqn:Hrun; [|discriminate].
      intros [= <- <-]. exact (IH _ _ _ Ha Hq Hrun).
    + destruct (run (set_cleanup false (run_cleanup r)) evs) as [[r2 out2]|] eqn:Hrun;
        [|discriminate].
      intros [= <- <-]. refine (IH _ _ _ _ Hq Hrun).
      simpl. destruct (run_cleanup_keeps r) as (_ & Hsub).
      rewrite Ha in Hsub. set_solver.
Qed.

(** When the component unmounts, the pending timer is cleared: whatever
    text was waiting is not posted, and as long as no further update
    arrives nothing is posted any more. *)
Theorem nothing_posted_after_unmount (evs evs' : list event) (r r' : relay)
    (out out' : list jsstring) :
  run initial evs = Some (r, out) ->
  forallb (fun ev => negb (is_update ev)) evs' = true ->
  run r (Unmount :: evs') = Some (r', out') ->
  out' = [].
Proof.
  intros Hrun Hq Hrun'. cbn [run step] in Hrun'.
  destruct (run (set_cleanup false (run_cleanup r)) evs') as [[r2 out2]|] eqn:Hr;
    [|discriminate].
  injection Hrun' as <- <-. simpl.
  refine (quiet_run evs' _ _ _ _ Hq Hr).
  simpl. destruct (run_cleanup_disarms r (run_inv _ _ _ _ Hrun initial_inv)) as (Ha & _).
  exact Ha.
Qed.

Lemma nothing_posted_after_unmount_witness : @nil jsstring = [].
Proof.
  apply (nothing_posted_after_unmount two_remote_texts [DispatchSettled true; Unmount]
           {| sentTextsRef := ∅; pendingTextRef := [111; 107; 33]%N;
              debounceTimerRef := Some 1%nat; armed := {[ 1%nat ]}; nextTimer := 2;
              hasCleanup := true |}
           {| sentTextsRef := ∅; pendingTextRef := [111; 107; 33]%N;
              debounceTimerRef := Some 1%nat; armed := ∅; nextTimer := 2;
              hasCleanup := false |} [] []).
  - vm_compute. reflexivity.
  - reflexivity.
  - vm_compute. reflexivity.
Defined.

End RelayFacts.


(** ** The conversation record: keys, order and updates *)

Module TileFacts.
Import Tile.

(** *** Stream ids *)

Lemma code_units_inj (s1 s2 : string) : code_units s1 = code_units s2 -> s1 = s2.
Proof.
  unfold code_units. intros H.
  assert (Hl : String.list_ascii_of_string s1 = String.list_ascii_of_string s2).
  { revert H. generalize (String.list_ascii_of_string s1) (String.list_ascii_of_string s2).
    induction l as [|a l IH]; intros [|b l'] H; try discriminate; [reflexivity|].
    cbn in H. injection H as Hab Hl. f_equal; [|exact (IH _ Hl)].
    rewrite <- (Ascii.ascii_N_embedding a), <- (Ascii.ascii_N_embedding b).
    rewrite Hab. reflexivity. }
  rewrite <- (String.string_of_list_ascii_of_string s1),
          <- (String.string_of_list_ascii_of_string s2).
  rewrite Hl. reflexivity.
Qed.

Lemma number_to_string_inj (a b : Z) :
  number_to_string a = number_to_string b -> a = b.
Proof.
  unfold number_to_string. intros H. apply code_units_inj in H.
  pose proof (NilEmpty.isi (Z.to_int a)) as Ha.
  rewrite H, NilEmpty.isi in Ha. injection Ha as Ha.
  rewrite <- (DecimalZ.of_to a), <- (DecimalZ.of_to b). rewrite Ha. reflexivity.
Qed.

Lemma digits_no_underscore (d : Decimal.uint) :
  Forall (fun c => c <> 95%N) (code_units (NilEmpty.string_of_uint d)).
Proof.
  induction d; cbn; [constructor|..]; (constructor; [discriminate|exact IHd]).
Qed.

Lemma number_no_underscore (n : Z) :
  Forall (fun c => c <> 95%N) (number_to_string n).
Proof.
  unfold number_to_string. destruct (Z.to_int n) as [d|d]; cbn.
  - apply digits_no_underscore.
  - constructor; [discriminate|apply digits_no_underscore].
Qed.

Lemma split_at_last (p1 p2 d1 d2 : list N) :
  Forall (fun c => c <> 95%N) d1 -> Forall (fun c => c <> 95%N) d2 ->
  p1 ++ 95%N :: d1 = p2 ++ 95%N :: d2 -> p1 = p2 /\ d1 = d2.
Proof.
  intros H1 H2. revert p2.
  induction p1 as [|c p1 IH]; intros [|c' p2] H; cbn in H.
  - injection H as H. split; [reflexivity|exact H].
  - injection H as _ H. exfalso. rewrite H in H1.
    apply Forall_app in H1 as [_ H1]. inversion H1; congruence.
  - injection H as _ H. exfalso. rewrite <- H in H2.
    apply Forall_app in H2 as [_ H2]. inversion H2; congruence.
  - injection H as -> H. destruct (IH _ H) as [-> ->]. split; reflexivity.
Qed.

Lemma stream_id_inj (p1 p2 : list N) (k1 k2 : Z) :
  stream_id p1 k1 = stream_id p2 k2 -> p1 = p2 /\ k1 = k2.
Proof.
  unfold stream_id. intros H.
  destruct (split_at_last _ _ _ _ (number_no_underscore k1) (number_no_underscore k2) H)
    as [Hp Hd].
  split; [exact Hp|exact (number_to_string_inj _ _ Hd)].
Qed.

(** Two transcriptions share a key of the map only if they come from the
    same participant and carry the same timestamp, also when identities
    contain underscores or digits. *)
Theorem stream_ids_do_not_collide (p1 p2 : list N) (k1 k2 : Z) :
  stream_id p1 k1 = stream_id p2 k2 -> p1 = p2 /\ k1 = k2.
Proof.
  unfold stream_id. intros H.
  assert (H1 : Forall (fun c => c <> 95%N) (number_to_string k1))
    by apply number_no_underscore.
  assert (H2 : Forall (fun c => c <> 95%N) (number_to_string k2))
    by apply number_no_underscore.
  destruct (split_at_last p1 p2 _ _ H1 H2 H) as [Hp Hd].
  split; [exact Hp|]. apply number_to_string_inj. exact Hd.
Qed.

Lemma stream_ids_do_not_collide_witness :
  [97; 95; 49]%N = [97; 95; 49]%N /\ 2 = 2.
Proof.
  apply (stream_ids_do_not_collide [97; 95; 49]%N [97; 95; 49]%N 2 2). reflexivity.
Defined.

(** *** The map *)

Lemma map_get_set_eq (k : list N) (v : ChatMessage) (m : list (list N * ChatMessage)) :
  map_get k (map_set k v m) = Some v.
Proof.
  induction m as [|[k' v'] m IH]; cbn.
  - rewrite decide_True by reflexivity. reflexivity.
  - destruct (decide (k' = k)) as [E|E]; cbn.
    + rewrite decide_True by exact E. reflexivity.
    + rewrite decide_False by exact E. exact IH.
Qed.

Lemma map_get_set_ne (k k' : list N) (v : ChatMessage) (m : list (list N * ChatMessage)) :
  k <> k' -> map_get k' (map_set k v m) = map_get k' m.
Proof.
  intros Hne. induction m as [|[k0 v0] m IH]; cbn.
  - rewrite decide_False by exact Hne. reflexivity.
  - destruct (decide (k0 = k)) as [E|E]; cbn.
    + subst k0. rewrite !decide_False by exact Hne. reflexivity.
    + destruct (decide (k0 = k')); [reflexivity|exact IH].
Qed.

Lemma map_get_None (k : list N) (m : list (list N * ChatMessage)) :
  map_get k m = None <-> k ∉ map fst m.
Proof.
  induction m as [|[k0 v0] m IH]; cbn.
  - split; [intros _; apply not_elem_of_nil|reflexivity].
  - destruct (decide (k0 = k)) as [E|E].
    + subst. split; [discriminate|]. intros H. exfalso. apply H. left.
    + rewrite IH. rewrite not_elem_of_cons. split; [intros H; split; [congruence|exact H]|tauto].
Qed.

Lemma map_set_present (k : list N) (v : ChatMessage) (m : list (list N * ChatMessage)) :
  k ∈ map fst m -> map fst (map_set k v m) = map fst m.
Proof.
  induction m as [|[k0 v0] m IH]; cbn; intros H.
  - inversion H.
  - destruct (decide (k0 = k)) as [E|E]; cbn; [reflexivity|].
    f_equal. apply IH. apply elem_of_cons in H as [H|H]; [congruence|exact H].
Qed.

Lemma map_set_absent (k : list N) (v : ChatMessage) (m : list (list N * ChatMessage)) :
  k ∉ map fst m -> map_set k v m = m ++ [(k, v)].
Proof.
  induction m as [|[k0 v0] m IH]; cbn; intros H; [reflexivity|].
  apply not_elem_of_cons in H as [H1 H2].
  rewrite decide_False by congruence. f_equal. exact (IH H2).
Qed.

Lemma map_set_keys (k : list N) (v : ChatMessage) (m : list (list N * ChatMessage)) :
  map fst m `prefix_of` map fst (map_set k v m)
  /\ (NoDup (map fst m) -> NoDup (map fst (map_set k v m))).
Proof.
  destruct (decide (k ∈ map fst m)) as [H|H].
  - rewrite (map_set_present k v m H). split; [reflexivity|tauto].
  - rewrite (map_set_absent k v m H), map_app. cbn. split.
    + exists [k]. reflexivity.
    + intros Hnd. apply NoDup_app. split; [exact Hnd|]. split.
      * intros x Hx Hx'. apply elem_of_cons in Hx' as [->|Hx']; [exact (H Hx)|inversion Hx'].
      * apply NoDup_singleton.
Qed.

(** *** The sort *)

Definition by_timestamp (a b : ChatMessage) : Prop := timestamp a <= timestamp b.

Lemma insert_permutation (x : ChatMessage) (l : list ChatMessage) :
  insert_by_timestamp x l ≡ₚ x :: l.
Proof.
  induction l as [|y l IH]; cbn; [reflexivity|].
  destruct (timestamp x - timestamp y >? 0); [|reflexivity].
  rewrite IH. apply Permutation_swap.
Qed.

Lemma sort_permutation (l : list ChatMessage) : sort_by_timestamp l ≡ₚ l.
Proof.
  induction l as [|x l IH]; cbn; [reflexivity|].
  rewrite insert_permutation, IH. reflexivity.
Qed.

Lemma insert_sorted (x : ChatMessage) (l : list ChatMessage) :
  StronglySorted by_timestamp l -> StronglySorted by_timestamp (insert_by_timestamp x l).
Proof.
  induction l as [|y l IH]; cbn; intros H.
  - constructor; constructor.
  - inversion H as [|? ? Hl Hy]; subst.
    destruct (timestamp x - timestamp y >? 0) eqn:E.
    + constructor; [exact (IH Hl)|].
      rewrite insert_permutation. constructor; [unfold by_timestamp; lia|exact Hy].
    + constructor; [exact H|]. constructor; [unfold by_timestamp; lia|].
      eapply Forall_impl; [exact Hy|]. unfold by_timestamp. intros; lia.
Qed.

Lemma sort_sorted (l : list ChatMessage) :
  StronglySorted by_timestamp (sort_by_timestamp l).
Proof.
  induction l as [|x l IH]; cbn; [constructor|exact (insert_sorted x _ IH)].
Qed.

(** *** One transcription *)

(** The key of a transcription that carries a timestamp. *)
Definition key (t : Transcription) : list N :=
  stream_id (participantIdentity t) (streamTimestamp t).

Lemma visit_outcome (localIdentity : list N) (now : nat -> Z)
    (m : list (list N * ChatMessage)) (c : bool) (r : nat) (t : Transcription) :
  exists k r',
    (streamTimestamp t <> 0 -> k = streamTimestamp t /\ r' = r)
    /\ ((exists old, map_get (stream_id (participantIdentity t) k) m = Some old
                     /\ message old = transcriptionText t
                     /\ visit localIdentity now (m, c, r) t = (m, c, r'))
        \/ (exists v, message v = transcriptionText t
                      /\ visit localIdentity now (m, c, r) t
                         = (map_set (stream_id (participantIdentity t) k) v m, true, r'))).
Proof.
  unfold visit, or_now.
  destruct (streamTimestamp t =? 0) eqn:Ez.
  - exists (now r).
    destruct (map_get (stream_id (participantIdentity t) (now r)) m) as [old|] eqn:Eg.
    + destruct (bool_decide (message old = transcriptionText t)) eqn:Eb; cbn [negb].
      * exists (S r). split; [lia|]. left. exists old.
        apply bool_decide_eq_true in Eb. repeat split; [exact Eb].
      * exists (S (S r)). split; [lia|]. right. eexists. split; [|reflexivity]. reflexivity.
    + exists (S (S r)). split; [lia|]. right. eexists. split; [|reflexivity]. reflexivity.
  - exists (streamTimestamp t), r. split; [intros _; split; reflexivity|].
    destruct (map_get (stream_id (participantIdentity t) (streamTimestamp t)) m)
      as [old|] eqn:Eg.
    + destruct (bool_decide (message old = transcriptionText t)) eqn:Eb; cbn [negb].
      * left. exists old. apply bool_decide_eq_true in Eb. repeat split; [exact Eb].
      * right. eexists. split; [|reflexivity]. reflexivity.
    + right. eexists. split; [|reflexivity]. reflexivity.
Qed.

(** After a transcription is visited, the map holds its text under its
    key. *)
Lemma visit_stores (localIdentity : list N) (now : nat -> Z)
    (m : list (list N * ChatMessage)) (c : bool) (r : nat) (t : Transcription) :
  streamTimestamp t <> 0 ->
  exists m' c' v,
    visit localIdentity now (m, c, r) t = (m', c', r)
    /\ map_get (key t) m' = Some v /\ message v = transcriptionText t
    /\ (forall k', k' <> key t -> map_get k' m' = map_get k' m).
Proof.
  intros Hnz.
  destruct (visit_outcome localIdentity now m c r t) as (k & r' & Hk & H).
  destruct (Hk Hnz) as [-> ->]. fold (key t) in H.
  destruct H as [(old & Hg & Hm & Hv)|(v & Hm & Hv)].
  - exists m, c, old. repeat split; assumption.
  - exists (map_set (key t) v m), true, v. split; [exact Hv|].
    split; [apply map_get_set_eq|]. split; [exact Hm|].
    intros k' Hne. apply map_get_set_ne. congruence.
Qed.

Lemma visit_keys (localIdentity : list N) (now : nat -> Z)
    (m m' : list (list N * ChatMessage)) (c c' : bool) (r r' : nat) (t : Transcription) :
  visit localIdentity now (m, c, r) t = (m', c', r') ->
  map fst m `prefix_of` map fst m'
  /\ (NoDup (map fst m) -> NoDup (map fst m'))
  /\ (c' = false -> m' = m /\ c = false)
  /\ (c = true -> c' = true).
Proof.
  intros Hv.
  destruct (visit_outcome localIdentity now m c r t) as (k & r0 & _ & H).
  destruct H as [(old & _ & _ & H)|(v & _ & H)]; rewrite H in Hv;
    injection Hv as <- <- <-.
  - split; [reflexivity|]. split; [tauto|]. split; [intros ->; split; reflexivity|tauto].
  - destruct (map_set_keys (stream_id (participantIdentity t) k) v m) as [H1 H2].
    split; [exact H1|]. split; [exact H2|]. split; [discriminate|reflexivity].
Qed.

(** *** The whole list *)

Lemma fold_keys (localIdentity : list N) (now : nat -> Z) (l : list Transcription)
    (m m' : list (list N * ChatMessage)) (c c' : bool) (r r' : nat) :
  fold_left (visit localIdentity now) l (m, c, r) = (m', c', r') ->
  map fst m `prefix_of` map fst m'
  /\ (NoDup (map fst m) -> NoDup (map fst m'))
  /\ (c' = false -> m' = m /\ c = false).
Proof.
  revert m c r. induction l as [|t l IH]; intros m c r H; cbn [fold_left] in H.
  - injection H as <- <- <-. split; [reflexivity|]. split; [tauto|]. tauto.
  - destruct (visit localIdentity now (m, c, r) t) as [[m1 c1] r1] eqn:Ev.
    destruct (visit_keys _ _ _ _ _ _ _ _ _ Ev) as (Hp & Hn & Hc & _).
    destruct (IH _ _ _ H) as (Hp' & Hn' & Hc').
    split; [etransitivity; eassumption|]. split; [tauto|].
    intros Hf. destruct (Hc' Hf) as [-> Hc1]. exact (Hc Hc1).
Qed.

(** The map in the ref after a run of the effect is the map the loop
    built, whether or not the state was set. *)
Lemma effect_map (localIdentity : list N) (now : nat -> Z) (l : list Transcription)
    (s : tile) (r : nat) :
  messageMapRef (fst (onTranscriptions localIdentity now l s r))
  = fst (fst (fold_left (visit localIdentity now) l (messageMapRef s, false, r)))
  /\ snd (onTranscriptions localIdentity now l s r)
     = snd (fold_left (visit localIdentity now) l (messageMapRef s, false, r)).
Proof.
  unfold onTranscriptions.
  destruct (fold_left (visit localIdentity now) l (messageMapRef s, false, r))
    as [[m' c'] r'] eqn:E.
  destruct c'; cbn; [split; reflexivity|].
  destruct (fold_keys _ _ _ _ _ _ _ _ _ E) as (_ & _ & H).
  destruct (H eq_refl) as [-> _]. split; reflexivity.
Qed.

(** What is displayed is what the map holds, sorted. *)
Definition displayed (s : tile) : Prop :=
  messages s = sort_by_timestamp (map_values (messageMapRef s))
  /\ NoDup (map fst (messageMapRef s)).

Lemma effect_displayed (localIdentity : list N) (now : nat -> Z)
    (l : list Transcription) (s : tile) (r : nat) :
  displayed s -> displayed (fst (onTranscriptions localIdentity now l s r)).
Proof.
  intros [Hm Hn]. unfold onTranscriptions.
  destruct (fold_left (visit localIdentity now) l (messageMapRef s, false, r))
    as [[m' c'] r'] eqn:E.
  destruct (fold_keys _ _ _ _ _ _ _ _ _ E) as (_ & Hn' & _).
  destruct c'; cbn; [|split; assumption].
  split; [reflexivity|exact (Hn' Hn)].
Qed.

Lemma effect_keys (localIdentity : list N) (now : nat -> Z)
    (l : list Transcription) (s : tile) (r : nat) :
  map fst (messageMapRef s)
    `prefix_of` map fst (messageMapRef (fst (onTranscriptions localIdentity now l s r))).
Proof.
  destruct (effect_map localIdentity now l s r) as [-> _].
  destruct (fold_left (visit localIdentity now) l (messageMapRef s, false, r))
    as [[m' c'] r'] eqn:E.
  destruct (fold_keys _ _ _ _ _ _ _ _ _ E) as (H & _). exact H.
Qed.

Lemma run_cons (now : nat -> Z) (s : tile) (r : nat) (localIdentity : list N)
    (l : list Transcription) (updates : list (list N * list Transcription)) :
  run now s r ((localIdentity, l) :: updates)
  = run now (fst (onTranscriptions localIdentity now l s r))
        (snd (onTranscriptions localIdentity now l s r)) updates.
Proof. cbn. destruct (onTranscriptions localIdentity now l s r). reflexivity. Qed.

Lemma run_displayed (now : nat -> Z) (updates : list (list N * list Transcription))
    (s : tile) (r : nat) :
  displayed s -> displayed (fst (run now s r updates)).
Proof.
  revert s r. induction updates as [|[localIdentity l] updates IH]; intros s r H.
  - exact H.
  - rewrite run_cons. apply IH. apply effect_displayed. exact H.
Qed.

(** Whatever lists of transcriptions the effect has run on, the messages
    displayed are those of the map, one for each key, in the order of their
    timestamps. *)
Theorem displayed_messages_are_the_sorted_map (now : nat -> Z)
    (updates : list (list N * list Transcription)) :
  let s := fst (run now initial 0 updates) in
  messages s ≡ₚ map_values (messageMapRef s)
  /\ StronglySorted by_timestamp (messages s)
  /\ NoDup (map fst (messageMapRef s)).
Proof.
  assert (H : displayed (fst (run now initial 0 updates))).
  { apply run_displayed. split; [reflexivity|constructor]. }
  destruct H as [Hm Hn]. cbv zeta.
  rewrite Hm. split; [apply sort_permutation|]. split; [apply sort_sorted|exact Hn].
Qed.

(** A message is never removed: the keys of the map before any number of
    runs of the effect are still there afterwards, in the same places,
    whatever the later lists of transcriptions contain. *)
Theorem messages_are_never_removed (now : nat -> Z)
    (updates : list (list N * list Transcription)) (s : tile) (reads : nat) :
  map fst (messageMapRef s)
    `prefix_of` map fst (messageMapRef (fst (run now s reads updates))).
Proof.
  revert s reads. induction updates as [|[localIdentity l] updates IH]; intros s r.
  - reflexivity.
  - rewrite run_cons. etransitivity; [|apply IH]. apply effect_keys.
Qed.

(** *** Streams with a timestamp *)

Lemma fold_preserves (localIdentity : list N) (now : nat -> Z) (l : list Transcription)
    (m : list (list N * ChatMessage)) (c : bool) (r : nat) (k : list N) :
  Forall (fun t => streamTimestamp t <> 0) l ->
  Forall (fun t => key t <> k) l ->
  map_get k (fst (fst (fold_left (visit localIdentity now) l (m, c, r)))) = map_get k m
  /\ snd (fold_left (visit localIdentity now) l (m, c, r)) = r.
Proof.
  revert m c. induction l as [|t l IH]; intros m c Hnz Hk; [split; reflexivity|].
  inversion Hnz as [|? ? Ht Hnz']; subst. inversion Hk as [|? ? Hkt Hk']; subst.
  cbn [fold_left].
  destruct (visit_stores localIdentity now m c r t Ht) as (m1 & c1 & v & -> & _ & _ & Ho).
  destruct (IH m1 c1 Hnz' Hk') as [H1 H2]. rewrite H1, H2.
  split; [apply Ho; congruence|reflexivity].
Qed.

Lemma fold_stores (localIdentity : list N) (now : nat -> Z) (l1 l2 : list Transcription)
    (t : Transcription) (m : list (list N * ChatMessage)) (c : bool) (r : nat) :
  Forall (fun t' => streamTimestamp t' <> 0) (l1 ++ t :: l2) ->
  Forall (fun t' => key t' <> key t) l2 ->
  exists v,
    map_get (key t)
      (fst (fst (fold_left (visit localIdentity now) (l1 ++ t :: l2) (m, c, r)))) = Some v
    /\ message v = transcriptionText t.
Proof.
  intros Hnz Hlast. apply Forall_app in Hnz as [Hnz1 Hnz2].
  inversion Hnz2 as [|? ? Ht Hnz3]; subst.
  rewrite fold_left_app. cbn [fold_left].
  destruct (fold_left (visit localIdentity now) l1 (m, c, r)) as [[m1 c1] r1].
  destruct (visit_stores localIdentity now m1 c1 r1 t Ht) as (m2 & c2 & v & -> & Hg & Hm & _).
  exists v. destruct (fold_preserves localIdentity now l2 m2 c2 r1 (key t) Hnz3 Hlast) as [-> _].
  split; assumption.
Qed.

(** When all the transcriptions carry a timestamp, the map holds after the
    effect, for each stream, the text of its last transcription in the
    list. *)
Theorem stream_shows_its_latest_text (localIdentity : list N) (now : nat -> Z)
    (l1 l2 : list Transcription) (t : Transcription) (s : tile) (reads : nat) :
  Forall (fun t' => streamTimestamp t' <> 0) (l1 ++ t :: l2) ->
  Forall (fun t' => ~ (participantIdentity t' = participantIdentity t
                       /\ streamTimestamp t' = streamTimestamp t)) l2 ->
  exists v,
    map_get (stream_id (participantIdentity t) (streamTimestamp t))
      (messageMapRef (fst (onTranscriptions localIdentity now (l1 ++ t :: l2) s reads)))
    = Some v
    /\ message v = transcriptionText t.
Proof.
  intros Hnz Hlast.
  destruct (effect_map localIdentity now (l1 ++ t :: l2) s reads) as [-> _].
  apply fold_stores; [exact Hnz|].
  eapply Forall_impl; [exact Hlast|]. cbn. intros t' H E.
  apply H. exact (stream_id_inj _ _ _ _ E).
Qed.

Lemma fold_skips (localIdentity : list N) (now : nat -> Z) (l : list Transcription)
    (m : list (list N * ChatMessage)) (c : bool) (r : nat) :
  Forall (fun t => streamTimestamp t <> 0) l ->
  Forall (fun t => exists v, map_get (key t) m = Some v
                             /\ message v = transcriptionText t) l ->
  fold_left (visit localIdentity now) l (m, c, r) = (m, c, r).
Proof.
  induction l as [|t l IH]; intros Hnz Hall; [reflexivity|].
  inversion Hnz as [|? ? Ht Hnz']; subst. inversion Hall as [|? ? (v & Hg & Hm) Hall']; subst.
  cbn [fold_left].
  assert (Hv : visit localIdentity now (m, c, r) t = (m, c, r)).
  { unfold visit, or_now. apply Z.eqb_neq in Ht. rewrite Ht.
    fold (key t). rewrite Hg. rewrite bool_decide_eq_true_2 by exact Hm. reflexivity. }
  rewrite Hv. exact (IH Hnz' Hall').
Qed.

(** Running the effect again on the same transcriptions changes nothing
    and sets no state, when they carry timestamps and belong to different
    streams. *)
Theorem same_transcriptions_change_nothing (localIdentity : list N) (now : nat -> Z)
    (l : list Transcription) (s : tile) (reads : nat) :
  Forall (fun t => streamTimestamp t <> 0) l ->
  NoDup (map (fun t => (participantIdentity t, streamTimestamp t)) l) ->
  let '(s1, reads1) := onTranscriptions localIdentity now l s reads in
  reads1 = reads
  /\ onTranscriptions localIdentity now l s1 reads1 = (s1, reads1).
Proof.
  intros Hnz Hnd.
  destruct (onTranscriptions localIdentity now l s reads) as [s1 reads1] eqn:E.
  destruct (effect_map localIdentity now l s reads) as [Hmap Hreads].
  rewrite E in Hmap, Hreads. cbn [fst snd] in Hmap, Hreads.
  assert (Hr : reads1 = reads).
  { rewrite Hreads.
    apply (fold_preserves localIdentity now l (messageMapRef s) false reads [] Hnz).
    apply Forall_forall. intros t _. unfold key, stream_id.
    destruct (participantIdentity t); discriminate. }
  split; [exact Hr|].
  assert (Hall : Forall (fun t => exists v, map_get (key t) (messageMapRef s1) = Some v
                                            /\ message v = transcriptionText t) l).
  { apply Forall_forall. intros t Ht.
    apply list_elem_of_split in Ht as (l1 & l2 & ->).
    rewrite Hmap. apply fold_stores; [exact Hnz|].
    rewrite map_app in Hnd. apply NoDup_app in Hnd as (_ & _ & Hnd).
    cbn [map] in Hnd. apply NoDup_cons in Hnd as [Hnot _].
    apply Forall_forall. intros t' Ht' Ek. apply Hnot.
    destruct (stream_id_inj _ _ _ _ Ek) as [<- <-].
    apply list_elem_of_fmap. exists t'. split; [reflexivity|exact Ht']. }
  unfold onTranscriptions.
  rewrite (fold_skips localIdentity now l (messageMapRef s1) false reads1 Hnz Hall).
  reflexivity.
Qed.

(** *** Streams without a timestamp *)

Lemma sort_of_sorted (l : list ChatMessage) :
  StronglySorted by_timestamp l -> sort_by_timestamp l = l.
Proof.
  induction l as [|x l IH]; intros H; [reflexivity|].
  inversion H as [|? ? Hl Hx]; subst.
  change (sort_by_timestamp (x :: l)) with (insert_by_timestamp x (sort_by_timestamp l)).
  rewrite (IH Hl).
  destruct l as [|y l]; [reflexivity|]. cbn [insert_by_timestamp].
  inversion Hx as [|? ? Hxy _]; subst. unfold by_timestamp in Hxy.
  destruct (timestamp x - timestamp y >? 0) eqn:E; [lia|reflexivity].
Qed.

Lemma sorted_snoc (l : list ChatMessage) (v : ChatMessage) :
  StronglySorted by_timestamp l ->
  Forall (fun x => timestamp x <= timestamp v) l ->
  StronglySorted by_timestamp (l ++ [v]).
Proof.
  induction l as [|x l IH]; intros Hs Hv; cbn.
  - constructor; constructor.
  - inversion Hs as [|? ? Hl Hx]; subst. inversion Hv as [|? ? Hxv Hv']; subst.
    constructor; [exact (IH Hl Hv')|].
    apply Forall_app. split; [exact Hx|]. constructor; [exact Hxv|constructor].
Qed.

Section Untimestamped.

Variable localIdentity : list N.
Variable now : nat -> Z.
Hypothesis starts_differ : forall i j : nat, (i < j)%nat -> now (2 * i) <> now (2 * j).

(** After the transcriptions [done], each visited alone in a run of its
    own and none with a timestamp: run [i] has read the clock at readings
    [2 i] and [2 i + 1]. *)
Definition stacked (s : tile) (r : nat) (done : list Transcription) : Prop :=
  Forall (fun k => exists p i, (i < length done)%nat /\ k = stream_id p (now (2 * i)))
         (map fst (messageMapRef s))
  /\ Forall (fun v => exists i, (i < r)%nat /\ timestamp v = now i)
            (map_values (messageMapRef s))
  /\ ((forall i j : nat, (i <= j)%nat -> now i <= now j) ->
      StronglySorted by_timestamp (map_values (messageMapRef s)))
  /\ map message (map_values (messageMapRef s)) = map transcriptionText done
  /\ messages s = sort_by_timestamp (map_values (messageMapRef s))
  /\ r = (2 * length done)%nat.

Lemma stacked_step (s : tile) (r : nat) (done : list Transcription) (t : Transcription) :
  streamTimestamp t = 0 -> stacked s r done ->
  stacked (fst (onTranscriptions localIdentity now [t] s r))
          (snd (onTranscriptions localIdentity now [t] s r)) (done ++ [t]).
Proof.
  intros Hz (Hk & Hv & Hs & Hm & Hd & Hr).
  assert (Hfresh : stream_id (participantIdentity t) (now r) ∉ map fst (messageMapRef s)).
  { intros Hin. rewrite Forall_forall in Hk.
    destruct (Hk _ Hin) as (p & i & Hi & E).
    destruct (stream_id_inj _ _ _ _ E) as [_ E'].
    apply (starts_differ i (length done) Hi). rewrite <- E'. rewrite Hr. reflexivity. }
  unfold onTranscriptions. cbn [fold_left]. unfold visit, or_now. rewrite Hz.
  change (0 =? 0) with true. cbv iota beta.
  rewrite (proj2 (map_get_None _ _) Hfresh). cbv iota beta.
  rewrite (map_set_absent _ _ _ Hfresh).
  cbv beta iota zeta. unfold stacked.
  cbn [fst snd messageMapRef messages]. unfold map_values in *.
  rewrite !map_app. cbn [map snd fst timestamp message].
  rewrite length_app. cbn [length].
  split.
  { apply Forall_app. split.
    - eapply Forall_impl; [exact Hk|]. cbn. intros k (p & i & Hi & ->).
      exists p, i. split; [lia|reflexivity].
    - constructor; [|constructor]. exists (participantIdentity t), (length done).
      split; [lia|]. rewrite Hr. reflexivity. }
  split.
  { apply Forall_app. split.
    - eapply Forall_impl; [exact Hv|]. cbn. intros v (i & Hi & ->).
      exists i. split; [lia|reflexivity].
    - constructor; [|constructor]. exists (S r). split; [lia|reflexivity]. }
  split.
  { intros Hmono. apply sorted_snoc; [exact (Hs Hmono)|].
    eapply Forall_impl; [exact Hv|]. cbn. intros v (i & Hi & ->).
    apply Hmono. lia. }
  split; [rewrite Hm; reflexivity|].
  split; [reflexivity|lia].
Qed.

Lemma stacked_run (rest : list Transcription) (s : tile) (r : nat)
    (done : list Transcription) :
  Forall (fun t => streamTimestamp t = 0) rest -> stacked s r done ->
  stacked (fst (run now s r (map (fun t => (localIdentity, [t])) rest)))
          (snd (run now s r (map (fun t => (localIdentity, [t])) rest))) (done ++ rest).
Proof.
  revert s r done. induction rest as [|t rest IH]; intros s r done Hz H.
  - rewrite app_nil_r. exact H.
  - inversion Hz as [|? ? Ht Hz']; subst. cbn [map]. rewrite run_cons.
    replace (done ++ t :: rest) with ((done ++ [t]) ++ rest)
      by (rewrite <- app_assoc; reflexivity).
    apply IH; [exact Hz'|]. apply stacked_step; assumption.
Qed.

End Untimestamped.

(** A stream without a timestamp is keyed by the clock.  When the effect
    runs on one such transcription at a time and no two runs start in the
    same millisecond, no run updates a message in place: every run reads
    the clock twice (the two readings may agree) and adds a message, so
    there are as many messages as runs, with the texts seen; and if the
    clock never goes backwards, they are displayed in the order of the
    runs. *)
Theorem untimestamped_updates_pile_up (localIdentity : list N) (now : nat -> Z)
    (ts : list Transcription) :
  (forall i j : nat, (i < j)%nat -> now (2 * i)%nat <> now (2 * j)%nat) ->
  Forall (fun t => streamTimestamp t = 0) ts ->
  let '(s, reads) := run now initial 0 (map (fun t => (localIdentity, [t])) ts) in
  reads = (2 * length ts)%nat
  /\ length (messages s) = length ts
  /\ map message (messages s) ≡ₚ map transcriptionText ts
  /\ ((forall i j : nat, (i <= j)%nat -> now i <= now j) ->
      map message (messages s) = map transcriptionText ts).
Proof.
  intros Hclock Hz.
  assert (H0 : stacked now initial 0 []).
  { split; [constructor|]. split; [constructor|]. split; [intros _; constructor|].
    repeat split. }
  pose proof (stacked_run localIdentity now Hclock ts initial 0%nat [] Hz H0) as H.
  destruct (run now initial 0 (map (fun t => (localIdentity, [t])) ts)) as [s reads].
  cbn [fst snd app] in H. destruct H as (_ & _ & Hs & Hm & Hd & Hr).
  split; [exact Hr|].
  assert (Hperm : messages s ≡ₚ map_values (messageMapRef s)).
  { rewrite Hd. apply sort_permutation. }
  split.
  { rewrite (Permutation_length Hperm).
    rewrite <- (length_map message), Hm, length_map. reflexivity. }
  split.
  { rewrite <- Hm. apply Permutation_map. exact Hperm. }
  intros Hmono. rewrite Hd, (sort_of_sorted _ (Hs Hmono)). exact Hm.
Qed.

(** *** A conversation *)

Definition AGENT : list N := [97; 103; 101; 110; 116; 95; 49]%N.
Definition USER : list N := [117; 115; 101; 114]%N.

Definition partial_reply : Transcription :=
  {| participantIdentity := AGENT; streamTimestamp := 1700;
     transcriptionText := [72; 101]%N |}.
Definition full_reply : Transcription :=
  {| participantIdentity := AGENT; streamTimestamp := 1700;
     transcriptionText := [72; 101; 108; 108; 111]%N |}.
Definition question : Transcription :=
  {| participantIdentity := USER; streamTimestamp := 1600;
     transcriptionText := [72; 105]%N |}.
Definition untimed (text : list N) : Transcription :=
  {| participantIdentity := AGENT; streamTimestamp := 0; transcriptionText := text |}.

Definition ticking (i : nat) : Z := 1000 + Z.of_nat i.

Lemma stream_shows_its_latest_text_witness :
  exists v,
    map_get (stream_id AGENT 1700)
      (messageMapRef
         (fst (onTranscriptions USER ticking ([partial_reply] ++ full_reply :: [question])
                 initial 0)))
    = Some v
    /\ message v = [72; 101; 108; 108; 111]%N.
Proof.
  apply (stream_shows_its_latest_text USER ticking [partial_reply] [question] full_reply
           initial 0%nat).
  - repeat (constructor; [discriminate|]). constructor.
  - constructor; [|constructor]. intros [H _]. discriminate H.
Defined.

Lemma same_transcriptions_change_nothing_witness :
  let '(s1, reads1) := onTranscriptions USER ticking [full_reply; question] initial 0 in
  reads1 = 0%nat
  /\ onTranscriptions USER ticking [full_reply; question] s1 reads1 = (s1, reads1).
Proof.
  apply (same_transcriptions_change_nothing USER ticking [full_reply; question]
           initial 0%nat).
  - repeat (constructor; [discriminate|]). constructor.
  - apply NoDup_cons. split; [|apply NoDup_singleton].
    intros H. apply elem_of_cons in H as [H|H]; [discriminate H|inversion H].
Defined.

(** The question was asked before the reply, so it is shown first, though
    the reply is first in the list. *)
Example question_shown_before_reply :
  map message (messages (fst (onTranscriptions USER ticking [full_reply; question]
                                 initial 0)))
  = [[72; 105]; [72; 101; 108; 108; 111]]%N.
Proof. vm_compute. reflexivity. Qed.

(** A clock that advances by a millisecond from one run to the next and
    not within a run. *)
Definition run_clock (i : nat) : Z := 1000 + Z.of_nat (i / 2).

Lemma untimestamped_updates_pile_up_witness :
  let '(s, reads) :=
    run run_clock initial 0
      (map (fun t => (USER, [t])) [untimed [72; 101]%N; untimed [72; 101; 108]%N]) in
  reads = (2 * length [untimed [72; 101]%N; untimed [72; 101; 108]%N])%nat
  /\ length (messages s) = length [untimed [72; 101]%N; untimed [72; 101; 108]%N]
  /\ map message (messages s)
     ≡ₚ map transcriptionText [untimed [72; 101]%N; untimed [72; 101; 108]%N]
  /\ ((forall i j : nat, (i <= j)%nat -> run_clock i <= run_clock j) ->
      map message (messages s)
      = map transcriptionText [untimed [72; 101]%N; untimed [72; 101; 108]%N]).
Proof.
  apply (untimestamped_updates_pile_up USER run_clock
           [untimed [72; 101]%N; untimed [72; 101; 108]%N]).
  - unfold run_clock. intros i j H.
    rewrite !(Nat.mul_comm 2), !Nat.div_mul by lia. lia.
  - repeat (constructor; [reflexivity|]). constructor.
Defined.

(** Two runs in the same millisecond share their key: the second replaces
    the text of the first in place, and one message is displayed. *)
Example same_millisecond_updates_in_place :
  map message
    (messages
       (fst (run (fun _ => 1000) initial 0
               [(USER, [untimed [72; 101]%N]); (USER, [untimed [72; 101; 108]%N])])))
  = [[72; 101; 108]%N].
Proof. vm_compute. reflexivity. Qed.

End TileFacts.


(** ** The hook as a whole: audio frames, the protocol, the audio graph *)

Module HookFacts.
Import Num F32 Bridge Hook.

(** *** One audio frame *)

Lemma deref_alloc (h : list (list Z)) (a : list Z) :
  deref (snd (alloc h a)) (fst (alloc h a)) = a.
Proof.
  unfold alloc, deref. cbn [fst snd].
  rewrite lookup_app_r by reflexivity. rewrite Nat.sub_diag. reflexivity.
Qed.

(** The handler on a frame that the context sampled at 48000 Hz: it
    returns, and either the frame is silent and nothing else happens, or a
    new array holds the resampled frame and its two-byte encoding is handed
    to [sendAudioToRobot]. *)
Lemma onaudioprocess_outcome (h : list (list Z)) (st : hook) (p : processor) (x : nat) :
  Z.of_nat (length (deref h x)) * 16000 <= 2 ^ 50 ->
  let N := Z.of_nat (length (deref h x)) * 16000 in
  exists log,
    (log = [] \/ exists n, log = [FrameLog n])
    /\ (forall ws, messages_on ws log = []) /\ binary_sends log = []
    /\ ((lt (maxSample_of (deref h x)) SILENCE_THRESHOLD = true
         /\ onaudioprocess CONTEXT_SAMPLE_RATE h st p x
            = Normal (h, st, {| chunkCount := chunkCount p;
                                totalFrames := totalFrames p + 1 |}, log))
        \/ (lt (maxSample_of (deref h x)) SILENCE_THRESHOLD = false
            /\ exists res pcm,
                 resample_fresh (deref h x) (of_int 48000) (of_int 16000) = Normal res
                 /\ N / 48000 - 1 <= Z.of_nat (length res) <= N / 48000
                 /\ (N mod 48000 <> 0 -> Z.of_nat (length res) = N / 48000)
                 /\ float32ToPCM16 res = Normal pcm
                 /\ length pcm = (2 * length res)%nat
                 /\ onaudioprocess CONTEXT_SAMPLE_RATE h st p x
                    = Normal (h ++ [res], fst (sendAudioToRobot st pcm),
                              {| chunkCount := chunkCount p + 1;
                                 totalFrames := totalFrames p + 1 |},
                              log ++ [CallResample; CallEncode; CallSend]
                                  ++ snd (sendAudioToRobot st pcm)))).
Proof.
  intros Hsize N. unfold onaudioprocess.
  set (log := if Z.rem (totalFrames p + 1) 50 =? 1
              then [FrameLog (totalFrames p + 1)] else []).
  exists log.
  assert (Hlog : (forall ws, messages_on ws log = []) /\ binary_sends log = []).
  { subst log. destruct (Z.rem (totalFrames p + 1) 50 =? 1); split; reflexivity. }
  destruct Hlog as [Hlog1 Hlog2].
  split.
  { subst log. destruct (Z.rem (totalFrames p + 1) 50 =? 1);
      [right; eexists; reflexivity|left; reflexivity]. }
  split; [exact Hlog1|]. split; [exact Hlog2|].
  destruct (lt (maxSample_of (deref h x)) SILENCE_THRESHOLD) eqn:Hsil.
  - left. split; reflexivity.
  - right. split; [reflexivity|].
    destruct (ResampleFacts.resample_fresh_length (deref h x) 48000 16000
                ltac:(lia) ltac:(lia) Hsize) as (res & Hfresh & Hlen1 & Hlen2).
    destruct (PCMLayout.float32ToPCM16_layout res) as (pcm & Hpcm & Hplen & _).
    exists res, pcm. split; [exact Hfresh|].
    split; [exact Hlen1|]. split; [exact Hlen2|]. split; [exact Hpcm|].
    split; [exact Hplen|].
    rewrite ResampleFacts.resampleAudio_fresh.
    unfold CONTEXT_SAMPLE_RATE, TARGET_SAMPLE_RATE.
    rewrite ResampleFacts.strict_eq_int by lia.
    change (48000 =? 16000) with false. cbv iota.
    rewrite Hfresh.
    pose proof (deref_alloc h res) as Hd. unfold alloc in *. cbn [fst snd] in Hd.
    rewrite Hd, Hpcm.
    destruct (sendAudioToRobot st pcm) as [st' out]. reflexivity.
Qed.

(** Processing a frame never throws: for every frame of up to 2^36
    samples, silent or not, whatever the state of the connection, the
    handler returns normally. *)
Theorem audio_frame_never_throws (h : list (list Z)) (st : hook) (p : processor)
    (x : nat) :
  Z.of_nat (length (deref h x)) <= 2 ^ 36 ->
  exists h' st' p' out,
    onaudioprocess CONTEXT_SAMPLE_RATE h st p x = Normal (h', st', p', out).
Proof.
  intros Hlen.
  assert (Hsize : Z.of_nat (length (deref h x)) * 16000 <= 2 ^ 50).
  { lia. }
  destruct (onaudioprocess_outcome h st p x Hsize) as (log & _ & _ & _ & [[_ H]|[_ H]]).
  - eexists _, _, _, _. exact H.
  - destruct H as (res & pcm & _ & _ & _ & _ & _ & H). eexists _, _, _, _. exact H.
Qed.


(** *** The protocol on each socket *)

(** What a socket in a given state has been sent. *)
Definition conforms (o : option readyState) (m : list message) : bool :=
  match o with
  | None | Some CONNECTING => match m with [] => true | _ => false end
  | Some OPEN => streaming m
  | Some CLOSING | Some CLOSED => well_formed m
  end.

Definition protocol_inv (l : list readyState) (pre : list effect) : Prop :=
  forall ws, conforms (l !! ws) (messages_on ws pre) = true.

Lemma messages_on_app (ws : nat) (a b : list effect) :
  messages_on ws (a ++ b) = messages_on ws a ++ messages_on ws b.
Proof. apply omap_app. Qed.

Lemma binary_audio_then_finish (a : list message) :
  forallb is_binary a = true -> audio_then_finish a = true.
Proof.
  induction a as [|[c|d] a IH]; simpl; [reflexivity|discriminate|exact IH].
Qed.

Lemma binary_then_finish (a : list message) :
  forallb is_binary a = true -> audio_then_finish (a ++ [Control finish]) = true.
Proof.
  induction a as [|[c|d] a IH]; simpl; [reflexivity|discriminate|exact IH].
Qed.

Lemma streaming_well_formed (m : list message) :
  streaming m = true -> well_formed m = true.
Proof.
  destruct m as [|[[|]|d] a]; simpl; try discriminate. apply binary_audio_then_finish.
Qed.

Lemma streaming_finish (m : list message) :
  streaming m = true -> well_formed (m ++ [Control finish]) = true.
Proof.
  destruct m as [|[[|]|d] a]; simpl; try discriminate. apply binary_then_finish.
Qed.

Lemma streaming_binary (m : list message) (d : list Z) :
  streaming m = true -> streaming (m ++ [Binary d]) = true.
Proof.
  destruct m as [|[[|]|d'] a]; simpl; try discriminate.
  intros H. rewrite forallb_app, H. reflexivity.
Qed.

Lemma conforms_well_formed (o : option readyState) (m : list message) :
  conforms o m = true -> well_formed m = true.
Proof.
  destruct o as [[| | |]|]; simpl; try (intros H; exact H).
  - destruct m; [reflexivity|discriminate].
  - apply streaming_well_formed.
  - destruct m; [reflexivity|discriminate].
Qed.

(** A step that touches one socket only. *)
Lemma protocol_local (l l' : list readyState) (pre out : list effect) (ws0 : nat) :
  protocol_inv l pre ->
  (forall ws, ws <> ws0 -> l' !! ws = l !! ws /\ messages_on ws out = []) ->
  conforms (l' !! ws0) (messages_on ws0 pre ++ messages_on ws0 out) = true ->
  protocol_inv l' (pre ++ out).
Proof.
  intros H Hother Hself ws. rewrite messages_on_app.
  destruct (Nat.eq_dec ws ws0) as [->|Hne]; [exact Hself|].
  destruct (Hother ws Hne) as [-> ->]. rewrite app_nil_r. apply H.
Qed.

Lemma protocol_silent (l : list readyState) (pre out : list effect) :
  protocol_inv l pre -> (forall ws, messages_on ws out = []) ->
  protocol_inv l (pre ++ out).
Proof.
  intros H Hout ws. rewrite messages_on_app, Hout, app_nil_r. apply H.
Qed.

Lemma connect_protocol (st : hook) (pre : list effect) :
  protocol_inv (sockets st) pre ->
  protocol_inv (sockets (fst (connectToRobot st))) (pre ++ snd (connectToRobot st)).
Proof.
  intros H. unfold connectToRobot.
  destruct (is_state (current_readyState st) OPEN
            || is_state (current_readyState st) CONNECTING || isConnectingRef st).
  - cbn [fst snd]. rewrite app_nil_r. exact H.
  - cbn [fst snd sockets]. intros ws. rewrite messages_on_app.
    change (messages_on ws [NewWebSocket (length (sockets st))]) with (@nil message).
    rewrite app_nil_r. specialize (H ws). rewrite lookup_app.
    destruct (sockets st !! ws) as [r|]; [exact H|].
    destruct (ws - length (sockets st))%nat as [|k]; [exact H|exact H].
Qed.

Lemma is_state_Some (o : option readyState) (r : readyState) :
  is_state o r = true <-> o = Some r.
Proof.
  unfold is_state. destruct o as [[| | |]|]; destruct r; simpl;
    split; intros H; try discriminate; try reflexivity; congruence.
Qed.

Lemma message_on_other (ws ws0 : nat) (c : control) :
  ws <> ws0 -> messages_on ws [SendControl ws0 c] = [].
Proof.
  intros Hne. unfold messages_on. simpl.
  destruct (ws0 =? ws)%nat eqn:E; [apply Nat.eqb_eq in E; congruence|reflexivity].
Qed.

Lemma message_on_self (ws0 : nat) (c : control) :
  messages_on ws0 [SendControl ws0 c] = [Control c].
Proof. unfold messages_on. simpl. rewrite Nat.eqb_refl. reflexivity. Qed.

Lemma teardown_protocol (st : hook) (pre : list effect) :
  protocol_inv (sockets st) pre ->
  protocol_inv (sockets (fst (teardown st))) (pre ++ snd (teardown st)).
Proof.
  intros H. unfold teardown. destruct (wsRef st) as [ws0|].
  2:{ cbn [fst snd]. rewrite app_nil_r. exact H. }
  cbn [fst snd sockets].
  pose proof (H ws0) as H0.
  destruct (sockets st !! ws0) as [r|] eqn:E.
  - apply (protocol_local (sockets st) _ pre _ ws0 H).
    + intros ws Hne. split.
      * destruct (is_state (Some r) OPEN || is_state (Some r) CONNECTING);
          [apply list_lookup_insert_ne; congruence|reflexivity].
      * rewrite messages_on_app.
        change (messages_on ws [CloseSocket ws0]) with (@nil message). rewrite app_nil_r.
        destruct (is_state (Some r) OPEN); [apply message_on_other; exact Hne|reflexivity].
    + rewrite messages_on_app.
      change (messages_on ws0 [CloseSocket ws0]) with (@nil message). rewrite app_nil_r.
      pose proof (lookup_lt_Some _ _ _ E) as Hlt.
      destruct r; cbn [is_state readyState_eqb orb].
      * rewrite list_lookup_insert_eq by exact Hlt. cbn [messages_on omap].
        rewrite app_nil_r. simpl in H0. destruct (messages_on ws0 pre); [reflexivity|discriminate].
      * rewrite list_lookup_insert_eq by exact Hlt. rewrite message_on_self.
        apply streaming_finish. exact H0.
      * rewrite E. cbn [messages_on omap]. rewrite app_nil_r. exact H0.
      * rewrite E. cbn [messages_on omap]. rewrite app_nil_r. exact H0.
  - cbn [is_state orb]. apply protocol_silent; [exact H|].
    intros ws. reflexivity.
Qed.

Lemma set_state_protocol (l : list readyState) (pre out : list effect) (ws0 : nat)
    (r r' : readyState) :
  protocol_inv l pre ->
  l !! ws0 = Some r ->
  (forall ws, ws <> ws0 -> messages_on ws out = []) ->
  (forall m, conforms (Some r) m = true ->
             conforms (Some r') (m ++ messages_on ws0 out) = true) ->
  protocol_inv (<[ws0 := r']> l) (pre ++ out).
Proof.
  intros H E Hother Hself.
  apply (protocol_local l _ pre out ws0 H).
  - intros ws Hne. split; [apply list_lookup_insert_ne; congruence|exact (Hother ws Hne)].
  - rewrite list_lookup_insert_eq by exact (lookup_lt_Some _ _ _ E).
    apply Hself. rewrite <- E. apply H.
Qed.

Lemma bridge_step_protocol (st st' : hook) (ev : Bridge.event) (pre out : list effect) :
  Bridge.step st ev = Some (st', out) ->
  protocol_inv (sockets st) pre -> protocol_inv (sockets st') (pre ++ out).
Proof.
  intros Hstep H. destruct ev as [| | |ws0|ws0|ws0|ws0]; simpl in Hstep.
  - rewrite (surjective_pairing (connectToRobot st)) in Hstep.
    injection Hstep as <- <-. apply (connect_protocol st pre H).
  - unfold ensure_connected in Hstep.
    destruct (negb (is_state (current_readyState st) OPEN)).
    + rewrite (surjective_pairing (connectToRobot st)) in Hstep.
      injection Hstep as <- <-. apply (connect_protocol st pre H).
    + injection Hstep as <- <-. rewrite app_nil_r. exact H.
  - rewrite (surjective_pairing (teardown st)) in Hstep.
    injection Hstep as <- <-. apply (teardown_protocol st pre H).
  - destruct (is_state (sockets st !! ws0) CONNECTING) eqn:E; [|discriminate].
    apply is_state_Some in E. injection Hstep as <- <-. cbn [sockets onopen set_socket].
    apply (set_state_protocol _ pre _ ws0 CONNECTING OPEN H E).
    + intros ws Hne. apply message_on_other. exact Hne.
    + intros m Hm. rewrite message_on_self. simpl in Hm.
      destruct m; [reflexivity|discriminate].
  - destruct (is_state (sockets st !! ws0) OPEN) eqn:E; [|discriminate].
    apply is_state_Some in E. injection Hstep as <- <-. cbn [sockets set_socket].
    apply (set_state_protocol _ pre _ ws0 OPEN CLOSING H E).
    + intros ws Hne. reflexivity.
    + intros m Hm. cbn [messages_on omap]. rewrite app_nil_r.
      apply streaming_well_formed. exact Hm.
  - destruct (sockets st !! ws0) as [r|] eqn:E; [|discriminate].
    assert (Hst : st' = onclose (set_socket ws0 CLOSED st) /\ out = []).
    { destruct r; try discriminate; injection Hstep as <- <-; split; reflexivity. }
    destruct Hst as [-> ->]. cbn [sockets onclose set_socket].
    apply (set_state_protocol _ pre _ ws0 r CLOSED H E).
    + intros ws Hne. reflexivity.
    + intros m Hm. cbn [messages_on omap]. rewrite app_nil_r.
      exact (conforms_well_formed _ _ Hm).
  - destruct (sockets st !! ws0) as [r|] eqn:E; [|discriminate].
    assert (Hst : st' = onclose (onerror (set_socket ws0 CLOSED st)) /\ out = []).
    { destruct r; try discriminate; injection Hstep as <- <-; split; reflexivity. }
    destruct Hst as [-> ->]. cbn [sockets onclose onerror set_socket].
    apply (set_state_protocol _ pre _ ws0 r CLOSED H E).
    + intros ws Hne. reflexivity.
    + intros m Hm. cbn [messages_on omap]. rewrite app_nil_r.
      exact (conforms_well_formed _ _ Hm).
Qed.

Lemma messages_on_binary (ws w : nat) (d : list Z) (rest : list effect) :
  messages_on ws (SendBinary w d :: rest)
  = (if (w =? ws)%nat then [Binary d] else []) ++ messages_on ws rest.
Proof. unfold messages_on. simpl. destruct (w =? ws)%nat; reflexivity. Qed.

Lemma send_protocol (st : hook) (pcm : list Z) (pre mid : list effect) :
  protocol_inv (sockets st) pre ->
  (forall ws, messages_on ws mid = []) ->
  protocol_inv (sockets (fst (sendAudioToRobot st pcm)))
    (pre ++ mid ++ snd (sendAudioToRobot st pcm)).
Proof.
  intros H Hmid. unfold sendAudioToRobot.
  destruct (wsRef st) as [ws0|].
  2:{ cbn [fst snd]. rewrite app_nil_r. apply protocol_silent; assumption. }
  destruct (is_state (sockets st !! ws0) OPEN) eqn:E.
  2:{ cbn [fst snd]. rewrite app_nil_r. apply protocol_silent; assumption. }
  apply is_state_Some in E. cbn [fst snd sockets].
  set (tail := if Z.rem (bytesSentRef st + Z.of_nat (length pcm)) 51200
                  <? Z.of_nat (length pcm)
               then [Checkpoint (bytesSentRef st + Z.of_nat (length pcm))] else []).
  assert (Htail : forall ws, messages_on ws tail = []).
  { intros ws. subst tail.
    destruct (Z.rem (bytesSentRef st + Z.of_nat (length pcm)) 51200
              <? Z.of_nat (length pcm)); reflexivity. }
  apply (protocol_local (sockets st) _ pre _ ws0 H).
  - intros ws Hne. split; [reflexivity|].
    rewrite messages_on_app, Hmid, messages_on_binary, Htail.
    destruct (ws0 =? ws)%nat eqn:E'; [apply Nat.eqb_eq in E'; congruence|].
    reflexivity.
  - rewrite messages_on_app, Hmid, messages_on_binary, Htail, Nat.eqb_refl.
    cbn [app]. pose proof (H ws0) as H0. rewrite E in *. cbn [conforms] in *.
    apply streaming_binary. exact H0.
Qed.

Lemma process_track_bridge (s : session) :
  sockets (bridge (processRemoteAudioTrack s)) = sockets (bridge s)
  /\ bytesSentRef (bridge (processRemoteAudioTrack s)) = bytesSentRef (bridge s).
Proof.
  unfold processRemoteAudioTrack. destruct (hasProcessorRef (bridge s)); split; reflexivity.
Qed.

Lemma process_tracks_bridge (n : nat) (s : session) :
  sockets (bridge (Nat.iter n processRemoteAudioTrack s)) = sockets (bridge s)
  /\ bytesSentRef (bridge (Nat.iter n processRemoteAudioTrack s)) = bytesSentRef (bridge s).
Proof.
  induction n as [|n [IH1 IH2]]; [split; reflexivity|].
  change (Nat.iter (S n) processRemoteAudioTrack s)
    with (processRemoteAudioTrack (Nat.iter n processRemoteAudioTrack s)).
  destruct (process_track_bridge (Nat.iter n processRemoteAudioTrack s)) as [-> ->].
  split; assumption.
Qed.

(** What an audioprocess event does, for a frame of the buffer size. *)
Lemma audio_step (s s' : session) (p : nat) (frame : list Z) (out : list effect) :
  step s (AudioProcess p frame) = Some (s', out) ->
  exists log,
    (forall ws, messages_on ws log = []) /\ binary_sends log = []
    /\ ((bridge s' = bridge s /\ out = log)
        \/ exists pcm,
             length pcm = 2730%nat
             /\ bridge s' = fst (sendAudioToRobot (bridge s) pcm)
             /\ out = log ++ [CallResample; CallEncode; CallSend]
                          ++ snd (sendAudioToRobot (bridge s) pcm)).
Proof.
  cbn [step]. destruct (nodes s !! p) as [nd|]; [|discriminate].
  destruct (attached nd); [|discriminate]. cbn [andb].
  destruct (length frame =? BUFFER_SIZE)%nat eqn:Hlen; [|discriminate].
  apply Nat.eqb_eq in Hlen.
  pose proof (deref_alloc (store s) frame) as Hd.
  unfold alloc in *. cbn [fst snd] in Hd. cbv beta iota zeta.
  assert (HL : Z.of_nat (length (deref (store s ++ [frame]) (length (store s)))) = 4096).
  { rewrite Hd, Hlen. reflexivity. }
  destruct (onaudioprocess_outcome (store s ++ [frame]) (bridge s) (closure nd)
              (length (store s)) ltac:(rewrite HL; lia))
    as (log & _ & Hlog1 & Hlog2 & Hcase).
  rewrite HL in Hcase. cbv zeta in Hcase.
  intros Hstep.
  exists log. split; [exact Hlog1|]. split; [exact Hlog2|].
  destruct Hcase as [[_ Heq]|[_ (res & pcm & _ & _ & Hres & _ & Hplen & Heq)]];
    rewrite Heq in Hstep; injection Hstep as <- <-.
  - left. split; reflexivity.
  - right. exists pcm. cbn [bridge].
    split; [|split; reflexivity].
    assert (Hr : Z.of_nat (length res) = 1365).
    { rewrite Hres; [reflexivity|]. vm_compute. discriminate. }
    rewrite Hplen. lia.
Qed.

Lemma step_protocol (s s' : session) (ev : event) (pre out : list effect) :
  step s ev = Some (s', out) ->
  protocol_inv (sockets (bridge s)) pre ->
  protocol_inv (sockets (bridge s')) (pre ++ out).
Proof.
  intros Hstep H. destruct ev as [ev'| |k|n| |p frame].
  - cbn [step] in Hstep.
    destruct (Bridge.step (bridge s) ev') as [[b out']|] eqn:Hb; [|discriminate].
    injection Hstep as <- <-.
    pose proof (bridge_step_protocol _ _ _ pre _ Hb H) as H'.
    destruct (is_TrackSubscribed ev'); [|exact H'].
    destruct (process_track_bridge (with_bridge b s)) as [-> _]. exact H'.
  - injection Hstep as <- <-. rewrite app_nil_r. exact H.
  - injection Hstep as <- <-. rewrite app_nil_r. destruct k; exact H.
  - injection Hstep as <- <-. rewrite app_nil_r.
    destruct (process_tracks_bridge n s) as [-> _]. exact H.
  - injection Hstep as <- <-. rewrite app_nil_r. exact H.
  - destruct (audio_step _ _ _ _ _ Hstep) as (log & Hlog & _ & [[-> ->]|(pcm & _ & -> & ->)]).
    + apply protocol_silent; assumption.
    + rewrite (app_assoc log).
      apply (send_protocol (bridge s) pcm pre (log ++ [CallResample; CallEncode; CallSend]));
        [exact H|].
      intros ws. rewrite messages_on_app, Hlog. reflexivity.
Qed.

Lemma run_protocol (evs : list event) (s s' : session) (pre out : list effect) :
  run s evs = Some (s', out) ->
  protocol_inv (sockets (bridge s)) pre ->
  protocol_inv (sockets (bridge s')) (pre ++ out).
Proof.
  revert s s' pre out. induction evs as [|ev evs IH]; intros s s' pre out; simpl.
  - intros [= <- <-] H. rewrite app_nil_r. exact H.
  - destruct (step s ev) as [[s1 out1]|] eqn:Hstep; [|discriminate].
    destruct (run s1 evs) as [[s2 out2]|] eqn:Hrun; [|discriminate].
    intros [= <- <-] H. rewrite app_assoc.
    apply (IH _ _ _ _ Hrun). exact (step_protocol _ _ _ _ _ Hstep H).
Qed.

(** On every socket the hook speaks the robot's protocol.  Whatever
    happens to the hook, the messages sent on a socket are, in order:
    [new_stream] first, then audio buffers only, and [finish], if it is
    sent at all, last.  A socket that is still connecting has been sent
    nothing, and an open socket has been sent [new_stream] and no
    [finish]. *)
Theorem socket_protocol (evs : list event) (s : session) (out : list effect)
    (ws : nat) :
  run initial evs = Some (s, out) ->
  well_formed (messages_on ws out) = true
  /\ (sockets (bridge s) !! ws = Some CONNECTING -> messages_on ws out = [])
  /\ (sockets (bridge s) !! ws = Some OPEN -> streaming (messages_on ws out) = true).
Proof.
  intros Hrun.
  assert (H0 : protocol_inv (sockets (bridge initial)) []) by (intros w; reflexivity).
  pose proof (run_protocol evs initial s [] out Hrun H0 ws) as H. cbn [app] in H.
  split; [exact (conforms_well_formed _ _ H)|]. split.
  - intros E. rewrite E in H. simpl in H. destruct (messages_on ws out); [reflexivity|discriminate].
  - intros E. rewrite E in H. exact H.
Qed.


(** *** The byte counter *)

Lemma binary_bytes_app (a b : list effect) :
  binary_bytes (a ++ b) = binary_bytes a + binary_bytes b.
Proof.
  unfold binary_bytes. induction a as [|e a IH]; simpl; [reflexivity|].
  destruct e; rewrite IH; lia.
Qed.

Lemma binary_sends_app (a b : list effect) :
  binary_sends (a ++ b) = binary_sends a ++ binary_sends b.
Proof. apply omap_app. Qed.

Lemma binary_bytes_sends (a : list effect) :
  binary_bytes a = foldr (fun d acc => Z.of_nat (length d) + acc) 0 (binary_sends a).
Proof.
  unfold binary_bytes, binary_sends. induction a as [|e a IH]; simpl; [reflexivity|].
  destruct e; simpl; rewrite IH; reflexivity.
Qed.

(** The events of the connection send no audio and leave the counter and
    the processor flag alone. *)
Lemma bridge_step_counter (st st' : hook) (ev : Bridge.event) (out : list effect) :
  Bridge.step st ev = Some (st', out) ->
  bytesSentRef st' = bytesSentRef st
  /\ hasProcessorRef st' = hasProcessorRef st
  /\ binary_sends out = [].
Proof.
  assert (Hc : bytesSentRef (fst (connectToRobot st)) = bytesSentRef st
               /\ hasProcessorRef (fst (connectToRobot st)) = hasProcessorRef st
               /\ binary_sends (snd (connectToRobot st)) = []).
  { unfold connectToRobot.
    destruct (is_state (current_readyState st) OPEN
              || is_state (current_readyState st) CONNECTING || isConnectingRef st);
      repeat split. }
  intros Hstep. destruct ev as [| | |ws0|ws0|ws0|ws0]; simpl in Hstep.
  - rewrite (surjective_pairing (connectToRobot st)) in Hstep.
    injection Hstep as <- <-. exact Hc.
  - unfold ensure_connected in Hstep.
    destruct (negb (is_state (current_readyState st) OPEN)).
    + rewrite (surjective_pairing (connectToRobot st)) in Hstep.
      injection Hstep as <- <-. exact Hc.
    + injection Hstep as <- <-. repeat split.
  - unfold teardown in Hstep. destruct (wsRef st) as [ws0|].
    + injection Hstep as <- <-. cbn [bytesSentRef hasProcessorRef].
      split; [reflexivity|]. split; [reflexivity|].
      destruct (is_state (sockets st !! ws0) OPEN); reflexivity.
    + injection Hstep as <- <-. repeat split.
  - destruct (is_state (sockets st !! ws0) CONNECTING); [|discriminate].
    injection Hstep as <- <-. repeat split.
  - destruct (is_state (sockets st !! ws0) OPEN); [|discriminate].
    injection Hstep as <- <-. repeat split.
  - destruct (sockets st !! ws0) as [[| | |]|]; try discriminate;
      injection Hstep as <- <-; repeat split.
  - destruct (sockets st !! ws0) as [[| | |]|]; try discriminate;
      injection Hstep as <- <-; repeat split.
Qed.

Lemma send_counter_total (st : hook) (pcm : list Z) :
  bytesSentRef (fst (sendAudioToRobot st pcm))
  = bytesSentRef st + binary_bytes (snd (sendAudioToRobot st pcm))
  /\ hasProcessorRef (fst (sendAudioToRobot st pcm)) = hasProcessorRef st
  /\ (binary_sends (snd (sendAudioToRobot st pcm)) = []
      \/ binary_sends (snd (sendAudioToRobot st pcm)) = [pcm]).
Proof.
  unfold sendAudioToRobot. destruct (wsRef st) as [ws0|].
  2:{ cbn [fst snd]. split; [simpl; lia|]. split; [reflexivity|left; reflexivity]. }
  destruct (is_state (sockets st !! ws0) OPEN).
  2:{ cbn [fst snd]. split; [simpl; lia|]. split; [reflexivity|left; reflexivity]. }
  cbn [fst snd bytesSentRef hasProcessorRef].
  destruct (Z.rem (bytesSentRef st + Z.of_nat (length pcm)) 51200 <? Z.of_nat (length pcm));
    (split; [unfold binary_bytes; simpl; lia|]); (split; [reflexivity|right; reflexivity]).
Qed.

Definition counter_inv (b : hook) (pre : list effect) : Prop :=
  bytesSentRef b = binary_bytes pre
  /\ Forall (fun d : list Z => length d = 2730%nat) (binary_sends pre).

Lemma step_counter (s s' : session) (ev : event) (pre out : list effect) :
  step s ev = Some (s', out) ->
  counter_inv (bridge s) pre -> counter_inv (bridge s') (pre ++ out).
Proof.
  intros Hstep [H1 H2]. unfold counter_inv.
  rewrite binary_bytes_app, binary_sends_app, Forall_app.
  destruct ev as [ev'| |k|n| |p frame].
  - cbn [step] in Hstep.
    destruct (Bridge.step (bridge s) ev') as [[b out']|] eqn:Hb; [|discriminate].
    injection Hstep as <- <-.
    destruct (bridge_step_counter _ _ _ _ Hb) as (Hc & _ & Hs).
    rewrite (binary_bytes_sends out'), Hs. cbn [foldr].
    split; [|split; [exact H2|constructor]].
    destruct (is_TrackSubscribed ev').
    + destruct (process_track_bridge (with_bridge b s)) as [_ ->].
      cbn [bridge with_bridge]. lia.
    + cbn [bridge with_bridge]. lia.
  - injection Hstep as <- <-. split; [simpl; lia|split; [exact H2|constructor]].
  - injection Hstep as <- <-.
    split; [destruct k; simpl; lia|split; [exact H2|constructor]].
  - injection Hstep as <- <-.
    destruct (process_tracks_bridge n s) as [_ ->].
    split; [simpl; lia|split; [exact H2|constructor]].
  - injection Hstep as <- <-. split; [simpl; lia|split; [exact H2|constructor]].
  - destruct (audio_step _ _ _ _ _ Hstep)
      as (log & _ & Hlog & [[-> ->]|(pcm & Hlen & -> & ->)]).
    + rewrite (binary_bytes_sends log), Hlog. cbn [foldr].
      split; [lia|split; [exact H2|constructor]].
    + destruct (send_counter_total (bridge s) pcm) as (Hc & _ & Hs).
      rewrite Hc, !binary_bytes_app, !binary_sends_app, (binary_bytes_sends log), Hlog.
      cbn [foldr app].
      change (binary_bytes [CallResample; CallEncode; CallSend]) with 0.
      change (binary_sends [CallResample; CallEncode; CallSend]) with (@nil (list Z)).
      cbn [app]. split; [lia|]. split; [exact H2|].
      destruct Hs as [->| ->]; [constructor|].
      constructor; [exact Hlen|constructor].
Qed.

Lemma run_counter (evs : list event) (s s' : session) (pre out : list effect) :
  run s evs = Some (s', out) ->
  counter_inv (bridge s) pre -> counter_inv (bridge s') (pre ++ out).
Proof.
  revert s s' pre out. induction evs as [|ev evs IH]; intros s s' pre out; simpl.
  - intros [= <- <-] H. rewrite app_nil_r. exact H.
  - destruct (step s ev) as [[s1 out1]|] eqn:Hstep; [|discriminate].
    destruct (run s1 evs) as [[s2 out2]|] eqn:Hrun; [|discriminate].
    intros [= <- <-] H. rewrite app_assoc.
    apply (IH _ _ _ _ Hrun). exact (step_counter _ _ _ _ _ Hstep H).
Qed.

Lemma total_of_equal_buffers (l : list (list Z)) (n : nat) :
  Forall (fun d : list Z => length d = n) l ->
  foldr (fun d acc => Z.of_nat (length d) + acc) 0 l
  = Z.of_nat n * Z.of_nat (length l).
Proof.
  induction 1 as [|d l Hd _ IH]; [simpl; lia|].
  cbn [foldr length]. rewrite IH, Hd. lia.
Qed.

(** The byte counter is exact.  Whatever happens to the hook, the counter
    equals the total size of the audio buffers handed to the sockets so
    far: a frame that is dropped (silent, or captured while the socket is
    not open) is not counted.  Every buffer sent has 2730 bytes, the 1365
    samples that a frame of 4096 samples gives at a third of the rate, so
    the counter is 2730 times the number of buffers sent. *)
Theorem byte_counter_is_exact (evs : list event) (s : session) (out : list effect) :
  run initial evs = Some (s, out) ->
  bytesSentRef (bridge s) = binary_bytes out
  /\ Forall (fun d : list Z => length d = 2730%nat) (binary_sends out)
  /\ bytesSentRef (bridge s) = 2730 * Z.of_nat (length (binary_sends out)).
Proof.
  intros Hrun.
  assert (H0 : counter_inv (bridge initial) []) by (split; [reflexivity|constructor]).
  destruct (run_counter evs initial s [] out Hrun H0) as [H1 H2]. cbn [app] in *.
  split; [exact H1|]. split; [exact H2|].
  rewrite H1, binary_bytes_sends, (total_of_equal_buffers _ 2730 H2). reflexivity.
Qed.

(** *** The audio graph *)

Definition graph_inv (s : session) : Prop :=
  (forall p nd, nodes s !! p = Some nd -> attached nd = true -> processorRef s = Some p)
  /\ (forall i, sources s !! i = Some true -> sourceNodeRef s = Some i)
  /\ (forall c, contexts s !! c = Some true -> audioContextRef s = Some c)
  /\ hasProcessorRef (bridge s) = bool_decide (processorRef s <> None)
  /\ (processorRef s = None -> sourceNodeRef s = None).

Lemma process_track_graph (s : session) :
  graph_inv s -> graph_inv (processRemoteAudioTrack s).
Proof.
  intros (Hn & Hs & Hc & Hf & Hboth). unfold processRemoteAudioTrack.
  destruct (hasProcessorRef (bridge s)) eqn:Hhas.
  { split; [exact Hn|]. split; [exact Hs|]. split; [exact Hc|].
    split; [rewrite Hhas; exact Hf|exact Hboth]. }
  assert (Hnone : processorRef s = None).
  { destruct (processorRef s); [|reflexivity].
    rewrite bool_decide_eq_true_2 in Hf by discriminate. discriminate. }
  split; [|split; [|split; [|split]]];
    cbn [nodes sources contexts processorRef sourceNodeRef
         audioContextRef bridge hasProcessorRef set_hasProcessor].
  - intros p nd Hl Ha. apply lookup_snoc_Some in Hl as [[_ Hl]|[-> _]]; [|reflexivity].
    specialize (Hn p nd Hl Ha). congruence.
  - intros i Hl. apply lookup_snoc_Some in Hl as [[_ Hl]|[-> _]]; [|reflexivity].
    specialize (Hs i Hl). rewrite (Hboth Hnone) in Hs. discriminate.
  - destruct (audioContextRef s) as [c0|] eqn:Hctx.
    + intros c Hl. exact (Hc c Hl).
    + intros c Hl. apply lookup_snoc_Some in Hl as [[_ Hl]|[-> _]]; [|reflexivity].
      specialize (Hc c Hl). discriminate.
  - rewrite bool_decide_eq_true_2 by discriminate. reflexivity.
  - discriminate.
Qed.

Lemma process_tracks_graph (n : nat) (s : session) :
  graph_inv s -> graph_inv (Nat.iter n processRemoteAudioTrack s).
Proof.
  intros H. induction n as [|n IH]; [exact H|].
  change (Nat.iter (S n) processRemoteAudioTrack s)
    with (processRemoteAudioTrack (Nat.iter n processRemoteAudioTrack s)).
  apply process_track_graph. exact IH.
Qed.

(** After [cleanupAudioProcessor] nothing is connected. *)
Lemma cleanup_graph (s : session) :
  graph_inv s ->
  graph_inv (cleanupAudioProcessor s)
  /\ (forall p nd, nodes (cleanupAudioProcessor s) !! p = Some nd -> attached nd = false)
  /\ (forall i b, sources (cleanupAudioProcessor s) !! i = Some b -> b = false).
Proof.
  intros (Hn & Hs & Hc & Hf & Hboth).
  assert (Hnodes : forall p nd, nodes (cleanupAudioProcessor s) !! p = Some nd ->
                                attached nd = false).
  { intros p nd. cbn [cleanupAudioProcessor nodes].
    destruct (processorRef s) as [p0|] eqn:Hp.
    - rewrite list_lookup_alter. destruct (decide (p0 = p)) as [->|Hne].
      + destruct (nodes s !! p); simpl; [intros [= <-]; reflexivity|discriminate].
      + intros Hl. destruct (attached nd) eqn:Ha; [|reflexivity].
        specialize (Hn p nd Hl Ha). congruence.
    - intros Hl. destruct (attached nd) eqn:Ha; [|reflexivity].
      specialize (Hn p nd Hl Ha). congruence. }
  assert (Hsources : forall i b, sources (cleanupAudioProcessor s) !! i = Some b ->
                                 b = false).
  { intros i b. cbn [cleanupAudioProcessor sources].
    destruct (sourceNodeRef s) as [i0|] eqn:Hi.
    - intros Hl. apply list_lookup_insert_Some in Hl as [(_ & <- & _)|[Hne Hl]];
        [reflexivity|].
      destruct b; [|reflexivity]. specialize (Hs i Hl). congruence.
    - intros Hl. destruct b; [|reflexivity]. specialize (Hs i Hl). congruence. }
  split; [|split; assumption].
  split; [|split; [|split; [|split]]].
  - intros p nd Hl Ha. rewrite (Hnodes p nd Hl) in Ha. discriminate.
  - intros i Hl. specialize (Hsources i true Hl). discriminate.
  - exact Hc.
  - reflexivity.
  - reflexivity.
Qed.

Lemma tracks_cleanup_graph (s : session) :
  graph_inv s -> graph_inv (tracks_cleanup s).
Proof.
  intros H. destruct (cleanup_graph s H) as ((Hn & Hs & Hc & Hf & Hboth) & _ & _).
  unfold tracks_cleanup. cbv zeta.
  split; [|split; [|split; [|split]]];
    cbn [nodes sources contexts processorRef sourceNodeRef audioContextRef bridge];
    try assumption.
  intros c Hl. exfalso.
  cbn [cleanupAudioProcessor audioContextRef contexts] in *.
  destruct (audioContextRef s) as [c0|] eqn:Hctx.
  - apply list_lookup_insert_Some in Hl as [(_ & Hb & _)|[Hne Hl]]; [discriminate|].
    specialize (Hc c Hl). congruence.
  - specialize (Hc c Hl). discriminate.
Qed.

Lemma with_bridge_graph (b : hook) (s : session) :
  hasProcessorRef b = hasProcessorRef (bridge s) ->
  graph_inv s -> graph_inv (with_bridge b s).
Proof.
  intros Hb (Hn & Hs & Hc & Hf & Hboth).
  split; [|split; [|split; [|split]]]; cbn [with_bridge nodes sources contexts
    processorRef sourceNodeRef audioContextRef bridge]; try assumption.
  rewrite Hb. exact Hf.
Qed.

Lemma set_closure_attached (p q : nat) (c : processor) (l : list node) (nd : node) :
  set_closure p c l !! q = Some nd ->
  exists nd0, l !! q = Some nd0 /\ attached nd0 = attached nd.
Proof.
  unfold set_closure. rewrite list_lookup_alter.
  destruct (decide (p = q)) as [->|Hne].
  - destruct (l !! q) as [nd0|]; simpl; [|discriminate].
    intros [= <-]. exists nd0. split; reflexivity.
  - intros Hl. exists nd. split; [exact Hl|reflexivity].
Qed.

Lemma step_graph (s s' : session) (ev : event) (out : list effect) :
  step s ev = Some (s', out) -> graph_inv s -> graph_inv s'.
Proof.
  intros Hstep H. destruct ev as [ev'| |k|n| |p frame].
  - cbn [step] in Hstep.
    destruct (Bridge.step (bridge s) ev') as [[b out']|] eqn:Hb; [|discriminate].
    injection Hstep as <- <-.
    destruct (bridge_step_counter _ _ _ _ Hb) as (_ & Hh & _).
    pose proof (with_bridge_graph b s Hh H) as H'.
    destruct (is_TrackSubscribed ev'); [apply process_track_graph|]; exact H'.
  - injection Hstep as <- <-. exact H.
  - injection Hstep as <- <-. destruct k; [apply cleanup_graph|]; exact H.
  - injection Hstep as <- <-. apply process_tracks_graph. exact H.
  - injection Hstep as <- <-. apply tracks_cleanup_graph. exact H.
  - assert (Hb : hasProcessorRef (bridge s') = hasProcessorRef (bridge s)).
    { destruct (audio_step _ _ _ _ _ Hstep) as (log & _ & _ & [[-> _]|(pcm & _ & -> & _)]);
        [reflexivity|].
      destruct (send_counter_total (bridge s) pcm) as (_ & Hh & _). exact Hh. }
    assert (Hshape : exists c', nodes s' = set_closure p c' (nodes s)
                                /\ sources s' = sources s /\ contexts s' = contexts s
                                /\ processorRef s' = processorRef s
                                /\ sourceNodeRef s' = sourceNodeRef s
                                /\ audioContextRef s' = audioContextRef s).
    { cbn [step] in Hstep. destruct (nodes s !! p) as [nd|]; [|discriminate].
      destruct (attached nd && (length frame =? BUFFER_SIZE)%nat); [|discriminate].
      destruct (alloc (store s) frame) as [x h].
      destruct (onaudioprocess CONTEXT_SAMPLE_RATE h (bridge s) (closure nd) x)
        as [[[[h' st'] c'] out']|]; [|discriminate].
      injection Hstep as <- <-. exists c'. repeat split. }
    destruct Hshape as (c' & En & Es & Ec & Ep & Esn & Eac).
    destruct H as (Hn & Hs & Hc & Hf & Hboth).
    split; [|split; [|split; [|split]]].
    + intros q nd Hl Ha. rewrite En in Hl.
      destruct (set_closure_attached _ _ _ _ _ Hl) as (nd0 & Hl0 & Ha0).
      rewrite Ep. apply (Hn q nd0 Hl0). congruence.
    + intros i Hl. rewrite Es in Hl. rewrite Esn. exact (Hs i Hl).
    + intros c Hl. rewrite Ec in Hl. rewrite Eac. exact (Hc c Hl).
    + rewrite Hb, Ep. exact Hf.
    + rewrite Ep, Esn. exact Hboth.
Qed.

Lemma run_graph (evs : list event) (s s' : session) (out : list effect) :
  run s evs = Some (s', out) -> graph_inv s -> graph_inv s'.
Proof.
  revert s s' out. induction evs as [|ev evs IH]; intros s s' out; simpl.
  - intros [= <- <-] H. exact H.
  - destruct (step s ev) as [[s1 out1]|] eqn:Hstep; [|discriminate].
    destruct (run s1 evs) as [[s2 out2]|] eqn:Hrun; [|discriminate].
    intros [= <- <-] H. apply (IH _ _ _ Hrun). exact (step_graph _ _ _ _ Hstep H).
Qed.

Lemma initial_graph : graph_inv initial.
Proof.
  split; [|split; [|split; [|split]]]; try (intros ? ?; discriminate);
    try (intros ?; discriminate); reflexivity.
Qed.

(** At most one of each.  Whatever happens to the hook, at most one
    processor node is connected, namely the one [processorRef] holds, and
    with it at most one source node; at most one AudioContext is open, the
    one [audioContextRef] holds; and [hasProcessorRef] is set exactly while
    [processorRef] holds a node.  A second audio track does not get a
    processor of its own. *)
Theorem one_processor_one_context (evs : list event) (s : session)
    (out : list effect) :
  run initial evs = Some (s, out) ->
  (forall p nd, nodes s !! p = Some nd -> attached nd = true -> processorRef s = Some p)
  /\ (forall i, sources s !! i = Some true -> sourceNodeRef s = Some i)
  /\ (forall c, contexts s !! c = Some true -> audioContextRef s = Some c)
  /\ (hasProcessorRef (bridge s) = true <-> processorRef s <> None).
Proof.
  intros Hrun. destruct (run_graph _ _ _ _ Hrun initial_graph) as (Hn & Hs & Hc & Hf & _).
  split; [exact Hn|]. split; [exact Hs|]. split; [exact Hc|].
  rewrite Hf. apply bool_decide_eq_true.
Qed.

(** When an audio track is unsubscribed, whichever it is, the processor
    and its source are disconnected and the refs are cleared, while the
    AudioContext stays open: forwarding stops until an audio track is
    subscribed again, even if the track that was being forwarded is still
    there. *)
Theorem unsubscribing_an_audio_track_stops_forwarding (evs : list event)
    (s : session) (out : list effect) :
  run initial evs = Some (s, out) ->
  let s' := handleTrackUnsubscribed Audio s in
  (forall p nd, nodes s' !! p = Some nd -> attached nd = false)
  /\ (forall i b, sources s' !! i = Some b -> b = false)
  /\ processorRef s' = None
  /\ hasProcessorRef (bridge s') = false
  /\ audioContextRef s' = audioContextRef s.
Proof.
  intros Hrun. pose proof (run_graph _ _ _ _ Hrun initial_graph) as H.
  destruct (cleanup_graph s H) as (_ & Hnodes & Hsources).
  cbv zeta. cbn [handleTrackUnsubscribed].
  split; [exact Hnodes|]. split; [exact Hsources|]. repeat split.
Qed.

(** A run of the hook: the socket opens, an audio track is subscribed, a
    frame of half-scale samples and a silent frame are captured, a second
    audio track is subscribed, and the connection effect is cleaned up. *)
Definition tone : list Z := replicate 4096 1056964608.

Definition session_run : list event :=
  [Net Connect; Net (SocketOpened 0); Net TrackSubscribed;
   AudioProcess 0 tone; AudioProcess 0 (replicate 4096 0);
   Net TrackSubscribed; Net Teardown].

Definition session_end : session :=
  Eval vm_compute in
    match run initial session_run with Some (s, _) => s | None => initial end.

Definition session_out : list effect :=
  Eval vm_compute in
    match run initial session_run with Some (_, out) => out | None => [] end.

Lemma unsubscribing_an_audio_track_stops_forwarding_witness :
  let s' := handleTrackUnsubscribed Audio session_end in
  (forall p nd, nodes s' !! p = Some nd -> attached nd = false)
  /\ (forall i b, sources s' !! i = Some b -> b = false)
  /\ processorRef s' = None
  /\ hasProcessorRef (bridge s') = false
  /\ audioContextRef s' = audioContextRef session_end.
Proof.
  apply (unsubscribing_an_audio_track_stops_forwarding session_run session_end session_out).
  vm_compute. reflexivity.
Defined.

Lemma socket_protocol_witness :
  well_formed (messages_on 0 session_out) = true
  /\ (sockets (bridge session_end) !! 0%nat = Some CONNECTING
      -> messages_on 0 session_out = [])
  /\ (sockets (bridge session_end) !! 0%nat = Some OPEN
      -> streaming (messages_on 0 session_out) = true).
Proof.
  apply (socket_protocol session_run session_end session_out 0).
  vm_compute. reflexivity.
Defined.

Lemma byte_counter_is_exact_witness :
  bytesSentRef (bridge session_end) = binary_bytes session_out
  /\ Forall (fun d : list Z => length d = 2730%nat) (binary_sends session_out)
  /\ bytesSentRef (bridge session_end)
     = 2730 * Z.of_nat (length (binary_sends session_out)).
Proof.
  apply (byte_counter_is_exact session_run session_end session_out).
  vm_compute. reflexivity.
Defined.

Lemma one_processor_one_context_witness :
  (forall p nd, nodes session_end !! p = Some nd -> attached nd = true ->
                processorRef session_end = Some p)
  /\ (forall i, sources session_end !! i = Some true -> sourceNodeRef session_end = Some i)
  /\ (forall c, contexts session_end !! c = Some true ->
                audioContextRef session_end = Some c)
  /\ (hasProcessorRef (bridge session_end) = true <-> processorRef session_end <> None).
Proof.
  apply (one_processor_one_context session_run session_end session_out).
  vm_compute. reflexivity.
Defined.

(** The counter after the run: one buffer of 2730 bytes was sent. *)
Example session_counter :
  bytesSentRef (bridge session_end) = 2730
  /\ messages_on 0 session_out
     = [Control new_stream; Binary (concat (replicate 1365 [255; 63])); Control finish].
Proof. vm_compute. split; reflexivity. Qed.

Definition open_bridge : hook :=
  {| sockets := [OPEN]; wsRef := Some 0%nat; isConnectingRef := false;
     hasProcessorRef := true; bytesSentRef := 0;
     connected := true; error := None; bytesSent := 0 |}.

Definition six_samples : list Z :=
  [1056964608; 1065353216; 3212836864; 3204448256; 0; 1048576000].

Lemma audio_frame_never_throws_witness :
  exists h' st' p' out,
    onaudioprocess CONTEXT_SAMPLE_RATE [six_samples] open_bridge
                   {| chunkCount := 0; totalFrames := 0 |} 0
    = Normal (h', st', p', out).
Proof.
  apply (audio_frame_never_throws [six_samples] open_bridge
           {| chunkCount := 0; totalFrames := 0 |} 0%nat).
  simpl. lia.
Defined.

End HookFacts.


(** ** From a captured frame to the bytes on the socket *)

Module PipelineFacts.
Import Num F32 Bridge Hook PCMLayout GateFacts HookFacts Decimation.

(** A sample that makes a frame audible: a number of magnitude 0.0001 or
    more. *)
Definition audible (b : Z) : bool :=
  negb (is_nan (to_number b))
  && negb (lt (Num.abs (to_number b)) SILENCE_THRESHOLD).

Lemma quiet_audible (b : Z) : quiet b <-> audible b = false.
Proof.
  unfold quiet, audible.
  destruct (is_nan (to_number b)); destruct (lt (Num.abs (to_number b)) SILENCE_THRESHOLD);
    cbn [negb andb]; split; intros H; try reflexivity; try discriminate;
    try (left; reflexivity); try (right; reflexivity).
  destruct H; discriminate.
Qed.

Lemma gate_audible (frame : list Z) :
  lt (maxSample_of frame) SILENCE_THRESHOLD = negb (existsb audible frame).
Proof.
  pose proof (peak_quiet frame (of_int 0)) as H. fold (maxSample_of frame) in H.
  destruct (existsb audible frame) eqn:He; cbn [negb].
  - destruct (lt (maxSample_of frame) SILENCE_THRESHOLD) eqn:Hl; [|reflexivity].
    exfalso. destruct H as [H _]. destruct (H eq_refl) as [_ Hall].
    apply existsb_exists in He as (b & Hin & Hb).
    rewrite Forall_forall in Hall. apply list_elem_of_In in Hin.
    apply Hall, quiet_audible in Hin. congruence.
  - apply H. split; [reflexivity|]. apply Forall_forall. intros b Hin.
    apply quiet_audible. destruct (audible b) eqn:Hb; [|reflexivity].
    assert (existsb audible frame = true)
      by (apply existsb_exists; exists b; split; [apply list_elem_of_In; exact Hin|exact Hb]).
    congruence.
Qed.


Lemma send_open (st : hook) (ws : nat) (pcm : list Z) :
  wsRef st = Some ws -> sockets st !! ws = Some OPEN ->
  exists tail,
    snd (sendAudioToRobot st pcm) = SendBinary ws pcm :: tail
    /\ bytesSentRef (fst (sendAudioToRobot st pcm))
       = bytesSentRef st + Z.of_nat (length pcm).
Proof.
  intros Hws Hopen. unfold sendAudioToRobot. rewrite Hws, Hopen. cbn [is_state readyState_eqb].
  eexists. split; reflexivity.
Qed.

(** What the robot receives for a frame.  When the socket is open and the
    frame is audible and holds finite samples, the buffer sent has two
    bytes for every third captured sample, and its [i]-th 16-bit value is
    the encoding of captured sample [3 i]: the samples in between are not
    sent, and no filter is applied before they are dropped. *)
Theorem robot_receives_every_third_sample (h : list (list Z)) (st : hook)
    (p : processor) (x ws : nat) :
  Z.of_nat (length (deref h x)) <= 2 ^ 36 ->
  Forall finite32 (deref h x) ->
  existsb audible (deref h x) = true ->
  wsRef st = Some ws -> sockets st !! ws = Some OPEN ->
  exists h' st' p' log pcm tail,
    onaudioprocess CONTEXT_SAMPLE_RATE h st p x
    = Normal (h', st', p',
              log ++ [CallResample; CallEncode; CallSend] ++ SendBinary ws pcm :: tail)
    /\ Z.of_nat (length pcm) = 2 * (Z.of_nat (length (deref h x)) / 3)
    /\ bytesSentRef st' = bytesSentRef st + Z.of_nat (length pcm)
    /\ forall i : nat,
         Z.of_nat i < Z.of_nat (length (deref h x)) / 3 ->
         exists a,
           deref h x !! (3 * i)%nat = Some a
           /\ getInt16_le pcm (2 * i) = Some (pcm_value a).
Proof.
  intros Hlen Hfin Haud Hws Hopen.
  destruct (onaudioprocess_outcome h st p x ltac:(lia))
    as (log & _ & _ & _ & Hcase).
  rewrite gate_audible, Haud in Hcase. cbn [negb] in Hcase.
  destruct Hcase as [[Hf _]|[_ (res & pcm & Hfresh & _ & _ & Hpcm & Hplen & Heq)]];
    [discriminate|].
  destruct (decimation (deref h x) 3 16000 ltac:(lia) ltac:(lia) ltac:(lia) ltac:(lia) Hfin)
    as (out & Hres & Hlen' & Hel).
  change (of_int (3 * 16000)) with (of_int 48000) in Hres.
  rewrite Hfresh in Hres. injection Hres as <-.
  destruct (send_open st ws pcm Hws Hopen) as (tail & Hsend & Hcount).
  rewrite Hsend in Heq.
  eexists _, _, _, log, pcm, tail. split; [exact Heq|].
  split; [rewrite Hplen; lia|]. split; [exact Hcount|].
  intros i Hi. destruct (Hel i Hi) as (a & o & Ha & Ho & Hval).
  exists a. split.
  - rewrite <- Ha. f_equal. lia.
  - destruct (float32ToPCM16_layout res) as (buf & Hbuf & _ & _ & Hget).
    rewrite Hpcm in Hbuf. injection Hbuf as <-.
    rewrite (Hget i o Ho). f_equal.
    destruct Hval as [->|[-> ->]]; reflexivity.
Qed.


Lemma robot_receives_every_third_sample_witness :
  exists h' st' p' log pcm tail,
    onaudioprocess CONTEXT_SAMPLE_RATE [six_samples] open_bridge
                   {| chunkCount := 0; totalFrames := 0 |} 0
    = Normal (h', st', p',
              log ++ [CallResample; CallEncode; CallSend] ++ SendBinary 0 pcm :: tail)
    /\ Z.of_nat (length pcm) = 2 * (Z.of_nat (length six_samples) / 3)
    /\ bytesSentRef st' = 0 + Z.of_nat (length pcm)
    /\ forall i : nat,
         Z.of_nat i < Z.of_nat (length six_samples) / 3 ->
         exists a,
           six_samples !! (3 * i)%nat = Some a
           /\ getInt16_le pcm (2 * i) = Some (pcm_value a).
Proof.
  apply (robot_receives_every_third_sample [six_samples] open_bridge
           {| chunkCount := 0; totalFrames := 0 |} 0%nat 0%nat).
  - simpl. lia.
  - repeat (constructor; [split; [lia|vm_compute; discriminate]|]). constructor.
  - vm_compute. reflexivity.
  - reflexivity.
  - reflexivity.
Defined.

(** Of the six samples 0.5, 1, -1, -0.5, 0, 0.25 the robot is sent 0.5 and
    -0.5. *)
Example six_samples_sent :
  match onaudioprocess CONTEXT_SAMPLE_RATE [six_samples] open_bridge
                       {| chunkCount := 0; totalFrames := 0 |} 0 with
  | Normal (_, _, _, out) => binary_sends out = [[255; 63; 0; 192]]
  | RangeError => False
  end.
Proof. vm_compute. reflexivity. Qed.

Lemma send_not_open (st : hook) (pcm : list Z) :
  is_state (current_readyState st) OPEN = false ->
  sendAudioToRobot st pcm = (st, []).
Proof.
  unfold sendAudioToRobot, current_readyState.
  destruct (wsRef st) as [ws|]; [|reflexivity].
  intros ->. reflexivity.
Qed.

(** There is no buffering.  A frame captured while the hook has no open
    socket (none at all, or one that is connecting, closing or closed) is
    lost: it is processed like any other, but nothing is sent on any socket
    and the state of the connection, the byte counter included, is
    unchanged. *)
Theorem frame_is_lost_while_socket_is_not_open (h : list (list Z)) (st : hook)
    (p : processor) (x : nat) :
  Z.of_nat (length (deref h x)) <= 2 ^ 36 ->
  is_state (current_readyState st) OPEN = false ->
  exists h' p' out,
    onaudioprocess CONTEXT_SAMPLE_RATE h st p x = Normal (h', st, p', out)
    /\ binary_sends out = []
    /\ forall ws, messages_on ws out = [].
Proof.
  intros Hlen Hclosed.
  assert (Hsize : Z.of_nat (length (deref h x)) * 16000 <= 2 ^ 50) by lia.
  destruct (onaudioprocess_outcome h st p x Hsize)
    as (log & _ & Hlog1 & Hlog2 & [[_ H]|[_ H]]).
  - eexists _, _, _. split; [exact H|]. split; [exact Hlog2|exact Hlog1].
  - destruct H as (res & pcm & _ & _ & _ & _ & _ & H).
    rewrite (send_not_open st pcm Hclosed) in H. cbn [fst snd] in H.
    eexists _, _, _. split; [exact H|]. split.
    + rewrite binary_sends_app, Hlog2. reflexivity.
    + intros ws. rewrite messages_on_app, Hlog1. reflexivity.
Qed.

Lemma frame_is_lost_while_socket_is_not_open_witness :
  exists h' p' out,
    onaudioprocess CONTEXT_SAMPLE_RATE [six_samples] Bridge.initial
                   {| chunkCount := 0; totalFrames := 0 |} 0
    = Normal (h', Bridge.initial, p', out)
    /\ binary_sends out = []
    /\ forall ws, messages_on ws out = [].
Proof.
  apply (frame_is_lost_while_socket_is_not_open [six_samples] Bridge.initial
           {| chunkCount := 0; totalFrames := 0 |} 0%nat).
  - simpl. lia.
  - reflexivity.
Defined.

End PipelineFacts.


(** ** Degenerate rates and the interrupted connection *)

Module EdgeFacts.
Import Num F32 Bridge Exact IntegerNumbers.

(** *** Rates that are not positive numbers *)

Lemma length_finite_or_zero (l : list Z) :
  Z.of_nat (length l) < 2 ^ 53 ->
  length_of l = S754_zero false
  \/ exists m e, length_of l = S754_finite false m e.
Proof.
  intros H. unfold length_of.
  destruct (Z.eq_dec (Z.of_nat (length l)) 0) as [->|Hne]; [left; reflexivity|].
  right. rewrite of_int_canon by lia. unfold canon. eexists _, _. reflexivity.
Qed.

(** A rate of NaN, on either side, gives a new empty array, whatever the
    frame and the other rate. *)
Theorem nan_rate_gives_empty_array (h : list (list Z)) (x : nat) (r : number) :
  resampleAudio h x S754_nan r = Normal (alloc h [])
  /\ resampleAudio h x r S754_nan = Normal (alloc h []).
Proof.
  assert (Hdiv : forall y, div y S754_nan = S754_nan) by (intros []; reflexivity).
  split.
  - unfold resampleAudio, resampleAudio_on, resample_fresh, resample_on, new_Float32Array,
      ratio_of, outputLength.
    change (strict_eq S754_nan r) with false. cbv iota.
    change (div S754_nan r) with S754_nan. rewrite Hdiv. reflexivity.
  - unfold resampleAudio, resampleAudio_on, resample_fresh, resample_on, new_Float32Array,
      ratio_of, outputLength.
    assert (Heq : strict_eq r S754_nan = false) by (destruct r; reflexivity).
    rewrite Heq, !Hdiv. reflexivity.
Qed.

(** A rate of zero.  With an output rate of zero the ratio is infinite and
    the result is a new empty array; with an input rate of zero the ratio
    is zero and, for a frame that is not empty, the constructor is asked
    for an array of infinite length and throws a RangeError. *)
Theorem zero_rate_gives_nothing_or_throws (h : list (list Z)) (x : nat)
    (s sz : bool) (m : positive) (e : Z) :
  Z.of_nat (length (deref h x)) < 2 ^ 53 ->
  resampleAudio h x (S754_finite s m e) (S754_zero sz) = Normal (alloc h [])
  /\ (deref h x <> [] ->
      resampleAudio h x (S754_zero sz) (S754_finite s m e) = RangeError).
Proof.
  intros Hlen. destruct (length_finite_or_zero _ Hlen) as [H0|(ml & el & Hf)].
  - split.
    + unfold resampleAudio, resampleAudio_on, resample_fresh, resample_on, new_Float32Array,
      ratio_of, outputLength.
      assert (Heq : strict_eq (S754_finite s m e) (S754_zero sz) = false)
        by (destruct s; reflexivity).
      rewrite Heq, H0. reflexivity.
    + intros Hne. exfalso. apply Hne.
      unfold length_of in H0. destruct (deref h x) as [|b l]; [reflexivity|].
      exfalso. rewrite of_int_canon in H0 by (cbn [length] in *; lia). discriminate.
  - split.
    + unfold resampleAudio, resampleAudio_on, resample_fresh, resample_on, new_Float32Array,
      ratio_of, outputLength.
      assert (Heq : strict_eq (S754_finite s m e) (S754_zero sz) = false)
        by (destruct s; reflexivity).
      rewrite Heq, Hf. reflexivity.
    + intros _. unfold resampleAudio, resampleAudio_on, resample_fresh, resample_on, new_Float32Array,
      ratio_of, outputLength.
      assert (Heq : strict_eq (S754_zero sz) (S754_finite s m e) = false)
        by (destruct s; reflexivity).
      rewrite Heq, Hf. reflexivity.
Qed.

Lemma zero_rate_gives_nothing_or_throws_witness :
  resampleAudio [[0; 1056964608]] 0 (of_int 48000) (of_int 0)
  = Normal (alloc [[0; 1056964608]] [])
  /\ ([0; 1056964608] <> [] ->
      resampleAudio [[0; 1056964608]] 0 (of_int 0) (of_int 48000) = RangeError).
Proof.
  apply (zero_rate_gives_nothing_or_throws [[0; 1056964608]] 0%nat false false
           6597069766656000 (-37)).
  simpl. lia.
Defined.

(** *** An attempt that the cleanup interrupts *)

Lemma teardown_keeps_flag (st : hook) :
  isConnectingRef (fst (teardown st)) = isConnectingRef st
  /\ wsRef (fst (teardown st)) = None.
Proof.
  unfold teardown. destruct (wsRef st) eqn:E; cbn [fst isConnectingRef wsRef];
    split; try reflexivity. exact E.
Qed.

(** The cleanup of the connection effect closes the socket but leaves
    [isConnectingRef] as it is.  So when it interrupts an attempt that has
    not completed, a [connectToRobot] that follows at once, as when the
    component is mounted again, does nothing: the hook then has no socket
    and creates none, until an event of the abandoned socket clears the
    flag. *)
Theorem connect_after_interrupted_attempt_is_ignored (st : hook) :
  isConnectingRef st = true ->
  let st1 := fst (teardown st) in
  wsRef st1 = None
  /\ connectToRobot st1 = (st1, [])
  /\ snd (connectToRobot (onclose st1)) = [NewWebSocket (length (sockets st1))].
Proof.
  intros Hflag. cbv zeta. destruct (teardown_keeps_flag st) as [Hf Hw].
  split; [exact Hw|]. split.
  - unfold connectToRobot. rewrite Hf, Hflag, !orb_true_r. reflexivity.
  - unfold connectToRobot, current_readyState, onclose. cbn [wsRef isConnectingRef sockets].
    reflexivity.
Qed.

Lemma connect_after_interrupted_attempt_is_ignored_witness :
  let st1 := fst (teardown (fst (connectToRobot Bridge.initial))) in
  wsRef st1 = None
  /\ connectToRobot st1 = (st1, [])
  /\ snd (connectToRobot (onclose st1)) = [NewWebSocket (length (sockets st1))].
Proof.
  apply (connect_after_interrupted_attempt_is_ignored (fst (connectToRobot Bridge.initial))).
  reflexivity.
Defined.

(** Mounted, unmounted and mounted again: one socket was created, it is
    closing, and the hook holds no socket. *)
Example remount_leaves_no_socket :
  Bridge.run Bridge.initial [Connect; Teardown; Connect]
  = Some ({| sockets := [CLOSING]; wsRef := None; isConnectingRef := true;
             hasProcessorRef := false; bytesSentRef := 0;
             connected := false; error := None; bytesSent := 0 |},
          [NewWebSocket 0; CloseSocket 0]).
Proof. reflexivity. Qed.

End EdgeFacts.
